(** * forease-backend: procedural plant generator and growth projector

    A shallow embedding of [pine.ts] and [sunflower.ts] (the seeded random
    source, the recursive structure generators, the bounds and auto-fit
    computation, the growth-distance budget, the flattening projector and
    the frame loop) and of the grid of [grid.ts].

    Numbers.  A JavaScript [number] is modelled by [num]: an exact rational,
    or one of the three special values [Infinity], [-Infinity] and [NaN],
    with the special-value rules of IEEE 754 arithmetic.  Rounding is not
    modelled (finite arithmetic is exact, decimal literals denote their
    decimal value) and zero carries no sign (a zero divisor counts as [+0]).
    The one exception is the integer state of the random source, which
    exceeds 53 bits when it is parsed from the digest: it is rounded as the
    double it is.  Statements that compare computed sums, products or
    quotients are made for numbers of moderate size and with the slack that
    rounding needs (see [moderate] and [tolerance]).
    The library functions [Math.cos], [Math.sin], [Math.sqrt] and the SHA-256
    digest are operations of the classes [JSMath] and [NodeCrypto]. *)

From Stdlib Require Import ZArith QArith Qround Lia Lqa List String Bool.
From Stdlib Require Import Permutation Sorted.
Import ListNotations.

Set Warnings "-register-all".

(* ================================================================== *)
(** * Numbers *)

Module Num.

Inductive num : Type :=
| Fin (q : Q)
| PInf
| NInf
| NaN.

Definition Qsign (q : Q) : comparison := (q ?= 0)%Q.

(** [a + b] *)
Definition nadd (a b : num) : num :=
  match a, b with
  | NaN, _ | _, NaN => NaN
  | Fin x, Fin y => Fin (x + y)
  | PInf, NInf | NInf, PInf => NaN
  | PInf, _ | _, PInf => PInf
  | NInf, _ | _, NInf => NInf
  end.

(** [- a] *)
Definition nopp (a : num) : num :=
  match a with
  | Fin x => Fin (- x)
  | PInf => NInf
  | NInf => PInf
  | NaN => NaN
  end.

(** [a - b] *)
Definition nsub (a b : num) : num :=
  match a, b with
  | NaN, _ | _, NaN => NaN
  | Fin x, Fin y => Fin (x - y)
  | PInf, PInf | NInf, NInf => NaN
  | PInf, _ | _, NInf => PInf
  | NInf, _ | _, PInf => NInf
  end.

(** [a * b] *)
Definition nmul (a b : num) : num :=
  match a, b with
  | NaN, _ | _, NaN => NaN
  | Fin x, Fin y => Fin (x * y)
  | Fin x, PInf | PInf, Fin x =>
      match Qsign x with Gt => PInf | Lt => NInf | Eq => NaN end
  | Fin x, NInf | NInf, Fin x =>
      match Qsign x with Gt => NInf | Lt => PInf | Eq => NaN end
  | PInf, PInf | NInf, NInf => PInf
  | PInf, NInf | NInf, PInf => NInf
  end.

(** [a / b] *)
Definition ndiv (a b : num) : num :=
  match a, b with
  | NaN, _ | _, NaN => NaN
  | Fin x, Fin y =>
      match Qsign y with
      | Eq => match Qsign x with Gt => PInf | Lt => NInf | Eq => NaN end
      | _ => Fin (x / y)
      end
  | Fin _, PInf | Fin _, NInf => Fin 0
  | PInf, Fin y => match Qsign y with Lt => NInf | _ => PInf end
  | NInf, Fin y => match Qsign y with Lt => PInf | _ => NInf end
  | PInf, PInf | PInf, NInf | NInf, PInf | NInf, NInf => NaN
  end.

(** [a < b]; every comparison with [NaN] is false. *)
Definition nltb (a b : num) : bool :=
  match a, b with
  | NaN, _ | _, NaN => false
  | Fin x, Fin y => match (x ?= y)%Q with Lt => true | _ => false end
  | NInf, NInf => false
  | NInf, _ => true
  | _, NInf => false
  | PInf, _ => false
  | Fin _, PInf => true
  end.

(** [a <= b] *)
Definition nleb (a b : num) : bool :=
  match a, b with
  | NaN, _ | _, NaN => false
  | Fin x, Fin y => match (x ?= y)%Q with Gt => false | _ => true end
  | NInf, _ => true
  | _, PInf => true
  | PInf, _ => false
  | Fin _, NInf => false
  end.

(** [a > b] *)
Definition ngtb (a b : num) : bool := nltb b a.

(** [a === b] on numbers ([NaN] equals nothing) *)
Definition neqb (a b : num) : bool :=
  match a, b with
  | Fin x, Fin y => Qeq_bool x y
  | PInf, PInf | NInf, NInf => true
  | _, _ => false
  end.

(** [a !== b] *)
Definition nneqb (a b : num) : bool := negb (neqb a b).

(** [Math.min(a, b)] and [Math.max(a, b)]: [NaN] if an argument is. *)
Definition Math_min (a b : num) : num :=
  match a, b with
  | NaN, _ | _, NaN => NaN
  | _, _ => if nleb a b then a else b
  end.

Definition Math_max (a b : num) : num :=
  match a, b with
  | NaN, _ | _, NaN => NaN
  | _, _ => if nleb a b then b else a
  end.

(** The four-argument calls [Math.min(a, b, c, d)], [Math.max(a, b, c, d)]. *)
Definition Math_min4 (a b c d : num) : num :=
  Math_min (Math_min (Math_min a b) c) d.
Definition Math_max4 (a b c d : num) : num :=
  Math_max (Math_max (Math_max a b) c) d.

(** An integer as the double nearest to it (ties to even): integers of more
    than 53 bits lose their low bits. *)
Definition toDouble (z : Z) : Z :=
  let m := Z.abs z in
  if (m <? 9007199254740992)%Z then z
  else
    let e := (Z.log2 m - 52)%Z in
    let q := Z.shiftr m e in
    let r := Z.land m (Z.ones e) in
    let half := Z.shiftl 1 (e - 1) in
    let q' := if (r <? half)%Z then q
              else if (half <? r)%Z then (q + 1)%Z
              else if Z.even q then q else (q + 1)%Z in
    (Z.sgn z * Z.shiftl q' e)%Z.

(** [Math.PI], the double nearest to pi: 884279719003555 / 2^48. *)
Definition Math_PI : num := Fin (884279719003555 # 281474976710656).

(** The order and the equality of numbers as propositions. *)
Definition nle (a b : num) : Prop := nleb a b = true.
Definition nlt (a b : num) : Prop := nltb a b = true.
Definition neq (a b : num) : Prop := neqb a b = true.

Definition finite (a : num) : Prop := exists q, a = Fin q.

(** The smaller and the larger of two rationals, as [Math.min] and
    [Math.max] pick them, and [coerceIn] and [smoothStep] on rationals. *)
Definition qmin (p q : Q) : Q := if nleb (Fin p) (Fin q) then p else q.
Definition qmax (p q : Q) : Q := if nleb (Fin p) (Fin q) then q else p.
Definition qclamp (v lo hi : Q) : Q := qmax lo (qmin v hi).
Definition qsmooth (f : Q) : Q := (f * f * (3 - 2 * f))%Q.

End Num.
Export Num.

Declare Scope num_scope.
Delimit Scope num_scope with num.
Bind Scope num_scope with num.
Infix "+" := nadd : num_scope.
Infix "-" := nsub : num_scope.
Infix "*" := nmul : num_scope.
Infix "/" := ndiv : num_scope.
Infix "<?" := nltb : num_scope.
Infix "<=?" := nleb : num_scope.
Infix ">?" := ngtb : num_scope.
Infix "<=" := nle : num_scope.
Infix "<" := nlt : num_scope.
Infix "==" := neq : num_scope.
Arguments Fin q%_Q.

(** What the engine and the runtime provide. *)
Class JSMath : Type := {
  Math_cos : num -> num;
  Math_sin : num -> num;
  Math_sqrt : num -> num
}.

(** The engine's functions give finite results on finite arguments (the
    square root on the non-negative ones). *)
Definition JSMath_finite `{JSMath} : Prop :=
  (forall q : Q, finite (Math_cos (Fin q))) /\
  (forall q : Q, finite (Math_sin (Fin q))) /\
  (forall q : Q, (0 <= q)%Q -> finite (Math_sqrt (Fin q))).

Class NodeCrypto : Type := {
  (** [createHash('sha256').update(s).digest('hex')]: the 64 hexadecimal
      digits of the digest. *)
  sha256_hex : string -> list N
}.

(* ================================================================== *)
(** * The seeded random source (class [SeededRandom]) *)

Module SeededRandom.

Record t : Type := mk { seed : Z }.

(** [parseInt(digits, 16)] on a run of hexadecimal digits. *)
Definition parseInt16 (digits : list N) : Z :=
  fold_left (fun acc d => (acc * 16 + Z.of_N d)%Z) digits 0%Z.

(** [constructor(seedString)] *)
Definition new `{NodeCrypto} (seedString : string) : t :=
  let hash := sha256_hex seedString in
  {| seed := toDouble (parseInt16 (firstn 15 hash)) |}.

(** A computation drawing from the random source: the source is threaded. *)
Definition Rand (A : Type) : Type := t -> A * t.

Definition ret {A : Type} (a : A) : Rand A := fun r => (a, r).

Definition bind {A B : Type} (m : Rand A) (k : A -> Rand B) : Rand B :=
  fun r => let (a, r') := m r in k a r'.

(** [next()] *)
Definition next : Rand Q :=
  fun r =>
    let s := Z.rem (toDouble (toDouble (seed r * 1664525) + 1013904223))
                   4294967296 in
    (inject_Z s / 4294967296, {| seed := s |})%Q.

(** [nextFloat(min, max)]; every call passes two numeric literals. *)
Definition nextFloat (min max : Q) : Rand Q :=
  bind next (fun u => ret (min + u * (max - min))%Q).

(** [nextInt(min, max)]: the floor of a finite number, an integer. *)
Definition nextInt (min max : Q) : Rand Z :=
  bind (nextFloat min max) (fun x => ret (Qfloor x)).

(** The state of a source is a non-negative integer; [rspec m P] says that
    [m], run from such a state, returns a value satisfying [P] and leaves
    such a state. *)
Definition RandOK (r : t) : Prop := (0 <= seed r)%Z.

Definition rspec {A : Type} (m : Rand A) (P : A -> Prop) : Prop :=
  forall r, RandOK r -> P (fst (m r)) /\ RandOK (snd (m r)).

End SeededRandom.
Import SeededRandom.

Notation "x <- m ;; k" := (bind m (fun x => k))
  (at level 61, m at next level, right associativity).

(** [for (let i = from; i < from + n; i++) body(i)], where each turn may push
    onto an array: the pushed elements, in order. *)
Fixpoint for_push {A : Type} (body : nat -> Rand (list A)) (from n : nat)
  : Rand (list A) :=
  match n with
  | O => ret []
  | S n' =>
      pushed <- body from ;;
      rest <- for_push body (S from) n' ;;
      ret (pushed ++ rest)
  end.

(* ================================================================== *)
(** * Shared value types *)

Record Vector2 : Type := mkVector2 { x : num; y : num }.

Record Color : Type := mkColor { r : num; g : num; b : num; a : num }.

Record SimpleBranch : Type := mkSimpleBranch {
  sb_start : Vector2;
  sb_end : Vector2;
  sb_strokeWidth : num;
  sb_control : Vector2
}.

Record Bounds : Type := mkBounds {
  minX : num; maxX : num; minY : num; maxY : num
}.

(** No field of the rectangle is [NaN]. *)
Definition bounds_nn (B : Bounds) : Prop :=
  minX B <> NaN /\ maxX B <> NaN /\ minY B <> NaN /\ maxY B <> NaN.

(** [B'] reaches at least as far as [B] on every side. *)
Definition bounds_grow (B B' : Bounds) : Prop :=
  (minX B' <= minX B)%num /\ (maxX B <= maxX B')%num /\
  (minY B' <= minY B)%num /\ (maxY B <= maxY B')%num.

(** [m] is the maximum of the numbers of [l]. *)
Definition is_max (m : num) (l : list num) : Prop :=
  In m l /\ Forall (fun c => (c <= m)%num) l.

Definition all_nn (l : list num) : Prop := Forall (fun c => c <> NaN) l.

(** [coerceIn] and [smoothStep] *)
Definition coerceIn (val min max : num) : num :=
  Math_max min (Math_min val max).

Definition smoothStep (t : num) : num :=
  (t * t * (Fin 3 - Fin 2 * t))%num.

(** The [CONFIG] object of both programs (the fields the fit reads). *)
Module CONFIG.
Definition width : num := Fin 1080.
Definition height : num := Fin 1080.
Definition padding : num := Fin 80.
End CONFIG.

(** The auto-fit block of [generateVideo], the same in both programs, from
    the bounds [calculateBounds(fullTree)] returned. *)
Record Fit : Type := mkFit { finalScale : num; offsetX : num; offsetY : num }.

Definition autoFit (bounds : Bounds) : Fit :=
  let treeWidth := (maxX bounds - minX bounds)%num in
  let treeHeight := (maxY bounds - minY bounds)%num in
  let availW := (CONFIG.width - CONFIG.padding * Fin 2)%num in
  let availH := (CONFIG.height - CONFIG.padding * Fin 2)%num in
  let scaleX := (availW / treeWidth)%num in
  let scaleY := (availH / treeHeight)%num in
  let finalScale := Math_min scaleX scaleY in
  let treeCenterX := (minX bounds + treeWidth / Fin 2)%num in
  let targetCenterX := (CONFIG.width / Fin 2)%num in
  let offsetX := (targetCenterX - treeCenterX * finalScale)%num in
  let offsetY :=
    ((CONFIG.height - CONFIG.padding) - maxY bounds * finalScale)%num in
  mkFit finalScale offsetX offsetY.

(** The default [currentBounds] argument of [calculateBounds]. *)
Definition initialBounds : Bounds :=
  {| minX := PInf; maxX := NInf; minY := PInf; maxY := NInf |}.

(* ================================================================== *)
(** * pine.ts *)

Module Pine.

Inductive EntityType : Type := leaf | fruit.

Module Entity.
Record t : Type := mk {
  center : Vector2;
  radius : num;
  baseColor : Color;
  highlightColor : Color;
  type : EntityType;
  distFromRoot : num;
  opacity : option num
}.
End Entity.

Module Branch.
Inductive t : Type := mk {
  start : Vector2;
  end_ : Vector2;
  strokeWidth : num;
  control : Vector2;
  length : num;
  distFromRoot : num;
  children : list t;
  entities : list Entity.t
}.
End Branch.

Section Generator.
Context `{JSMath}.

(** One turn of the entity loop of [generateFullTree]. *)
Definition generateEntity (depth : nat) (start end_ : Vector2)
    (length currentDist : num) : Rand (list Entity.t) :=
  radius <- nextFloat 15 25 ;;
  t <- nextFloat 0.1 1.0 ;;
  let px := ((Fin 1 - Fin t) * x start + Fin t * x end_)%num in
  let py := ((Fin 1 - Fin t) * y start + Fin t * y end_)%num in
  offsetX <- nextFloat (-15) 15 ;;
  offsetY <- nextFloat (-15) 15 ;;
  let eX := (px + Fin offsetX)%num in
  let eY := (py + Fin offsetY)%num in
  let entityDist := (currentDist + length * Fin t)%num in
  isCone <- (if (depth <=? 4)%nat
             then c <- nextFloat 0 1 ;; ret (Fin c >? Fin 0.92)%num
             else ret false) ;;
  if isCone then
    dr <- nextFloat 0 40 ;;
    let r := (Fin 100 + Fin dr)%num in
    dg <- nextFloat 0 30 ;;
    let g := (Fin 70 + Fin dg)%num in
    db <- nextFloat 0 20 ;;
    let b := (Fin 40 + Fin db)%num in
    ret [ {| Entity.center := mkVector2 eX eY;
             Entity.radius := (Fin radius * Fin 0.9)%num;
             Entity.baseColor := mkColor r g b (Fin 1.0);
             Entity.highlightColor :=
               mkColor (Math_min (Fin 255) (r + Fin 40))
                       (Math_min (Fin 255) (g + Fin 40))
                       (Math_min (Fin 255) (b + Fin 40)) (Fin 1.0);
             Entity.type := fruit;
             Entity.distFromRoot := entityDist;
             Entity.opacity := None |} ]
  else
    dr <- nextFloat 0 20 ;;
    let rBase := (Fin 20 + Fin dr)%num in
    dg <- nextFloat 0 40 ;;
    let gBase := (Fin 60 + Fin dg)%num in
    db <- nextFloat 0 20 ;;
    let bBase := (Fin 30 + Fin db)%num in
    ret [ {| Entity.center := mkVector2 eX eY;
             Entity.radius := Fin radius;
             Entity.baseColor := mkColor rBase gBase bBase (Fin 1.0);
             Entity.highlightColor :=
               mkColor (rBase + Fin 30) (gBase + Fin 30) (bBase + Fin 30)
                       (Fin 1.0);
             Entity.type := leaf;
             Entity.distFromRoot := entityDist;
             Entity.opacity := None |} ].

(** [generateFullTree(rand, start, length, angle, depth, currentDist)]; the
    source [rand] is the threaded state.  [depth] is the recursion counter:
    the program passes 8, and each call passes [depth - 1] under
    [depth > 0]. *)
Fixpoint generateFullTree (depth : nat) (start : Vector2)
    (length angle : num) (currentDist : num) {struct depth}
  : Rand Branch.t :=
  (* 1. end point *)
  angleOffset <- nextFloat (-10) 10 ;;
  let radAngle := ((angle + Fin angleOffset) * (Math_PI / Fin 180))%num in
  let endX := (x start + length * Math_cos radAngle)%num in
  let endY := (y start + length * Math_sin radAngle)%num in
  let end_ := mkVector2 endX endY in
  (* 2. control point *)
  let dx := (x end_ - x start)%num in
  let dy := (y end_ - y start)%num in
  let mid := mkVector2 (x start + dx * Fin 0.5)%num
                       (y start + dy * Fin 0.5)%num in
  p <- nextFloat (-0.05) 0.05 ;;
  let perpLen := (Fin p * length)%num in
  let branchLength := Math_sqrt (dx * dx + dy * dy)%num in
  let perpX := if nneqb branchLength (Fin 0)
               then ((nopp dy / branchLength) * perpLen)%num else Fin 0 in
  let perpY := if nneqb branchLength (Fin 0)
               then ((dx / branchLength) * perpLen)%num else Fin 0 in
  let control := mkVector2 (x mid + perpX)%num (y mid + perpY)%num in
  w <- nextFloat (-1) 1 ;;
  let strokeWidth :=
    Math_max (Fin 2) (Fin (inject_Z (Z.of_nat depth)) * Fin 5 + Fin w)%num in
  (* 3. branching *)
  children <-
    match depth with
    | O => ret []
    | S depth' =>
        da <- nextFloat (-10) 10 ;;
        let newAngle := (angle + Fin da)%num in
        f <- nextFloat 0.85 0.95 ;;
        let newLength := (length * Fin f)%num in
        leader <- generateFullTree depth' end_ newLength newAngle
                    (currentDist + length)%num ;;
        sideBranchCount <- nextInt 1 3 ;;
        sides <- for_push (fun i =>
            s <- nextFloat 0 1 ;;
            let sideDir := if (Fin s >? Fin 0.5)%num then Fin 1 else Fin (-1) in
            v <- nextFloat 60 85 ;;
            let angleVariation := (Fin v * sideDir)%num in
            let newAngle := (angle + angleVariation)%num in
            f <- nextFloat 0.5 0.7 ;;
            let newLength := (length * Fin f)%num in
            if (1 <? depth)%nat then
              child <- generateFullTree depth' end_ newLength newAngle
                         (currentDist + length)%num ;;
              ret [child]
            else ret [])
          0 (Z.to_nat sideBranchCount) ;;
        ret (leader :: sides)
    end ;;
  (* 4. entities *)
  entities <-
    (if (depth <=? 5)%nat then
       count <- nextInt 6 10 ;;
       for_push (fun i => generateEntity depth start end_ length currentDist)
                0 (Z.to_nat count)
     else ret []) ;;
  ret (Branch.mk start end_ strokeWidth control length currentDist
                 children entities).

End Generator.

(** The first four assignments of [calculateBounds]: the points of the
    branch itself. *)
Definition boundsOwn (b : Branch.t) (currentBounds : Bounds) : Bounds :=
  let start := Branch.start b in
  let end_ := Branch.end_ b in
  let control := Branch.control b in
  {| minX := Math_min4 (minX currentBounds) (x start) (x end_) (x control);
     maxX := Math_max4 (maxX currentBounds) (x start) (x end_) (x control);
     minY := Math_min4 (minY currentBounds) (y start) (y end_) (y control);
     maxY := Math_max4 (maxY currentBounds) (y start) (y end_) (y control) |}.

(** The body of [b.entities.forEach(e => ...)] in [calculateBounds]. *)
Definition boundsEntity (currentBounds : Bounds) (e : Entity.t) : Bounds :=
  {| minX := Math_min (minX currentBounds)
               (x (Entity.center e) - Entity.radius e)%num;
     maxX := Math_max (maxX currentBounds)
               (x (Entity.center e) + Entity.radius e)%num;
     minY := Math_min (minY currentBounds)
               (y (Entity.center e) - Entity.radius e)%num;
     maxY := Math_max (maxY currentBounds)
               (y (Entity.center e) + Entity.radius e)%num |}.

(** [calculateBounds(b, currentBounds)]: the bounds object is updated in
    place and handed on, here passed and returned. *)
Fixpoint calculateBounds (b : Branch.t) (currentBounds : Bounds) : Bounds :=
  let currentBounds := boundsOwn b currentBounds in
  let currentBounds :=
    fold_left boundsEntity (Branch.entities b) currentBounds in
  match b with
  | Branch.mk _ _ _ _ _ _ children _ =>
      fold_left (fun currentBounds child => calculateBounds child currentBounds)
        children currentBounds
  end.

(** [getMaxDist(b)] *)
Fixpoint getMaxDist (b : Branch.t) : num :=
  match b with
  | Branch.mk _ _ _ _ length distFromRoot children _ =>
      let max := (distFromRoot + length)%num in
      fold_left (fun max child => Math_max max (getMaxDist child)) children max
  end.

(** The truncation parameter of a branch at a progress distance, as
    [flattenTreeOrganic] computes it. *)
Definition localT (b : Branch.t) (progressDistance : num) : num :=
  let startDist := Branch.distFromRoot b in
  let localT := ((progressDistance - startDist) / Branch.length b)%num in
  coerceIn localT (Fin 0) (Fin 1).

(** The opacity [flattenTreeOrganic] gives an entity at a progress distance. *)
Definition fadeOpacity (entity : Entity.t) (progressDistance : num) : num :=
  let age := (progressDistance - Entity.distFromRoot entity)%num in
  let fadeSpeed := Fin 150 in
  let fadeP := (age / fadeSpeed)%num in
  let fadeP := coerceIn fadeP (Fin 0) (Fin 1) in
  smoothStep fadeP.

(** The body of [b.entities.forEach(entity => ...)] in [flattenTreeOrganic]:
    the entity list after the turn for [entity]. *)
Definition flattenEntity (progressDistance scale offsetX offsetY : num)
    (entityList : list Entity.t) (entity : Entity.t) : list Entity.t :=
  if (progressDistance >? Entity.distFromRoot entity)%num then
    let opacity := fadeOpacity entity progressDistance in
    if (opacity >? Fin 0.01)%num then
      entityList ++
        [ {| Entity.center :=
               mkVector2 (x (Entity.center entity) * scale + offsetX)%num
                         (y (Entity.center entity) * scale + offsetY)%num;
             Entity.radius := (Entity.radius entity * scale)%num;
             Entity.baseColor := Entity.baseColor entity;
             Entity.highlightColor := Entity.highlightColor entity;
             Entity.type := Entity.type entity;
             Entity.distFromRoot := Entity.distFromRoot entity;
             Entity.opacity := Some opacity |} ]
    else entityList
  else entityList.

(** What [flattenTreeOrganic] does for the branch [b] itself, before it
    visits the children: the two output arrays after the pushes. *)
Definition flattenOwn (b : Branch.t)
    (lists : list SimpleBranch * list Entity.t)
    (progressDistance scale offsetX offsetY : num)
  : list SimpleBranch * list Entity.t :=
  let (branchList, entityList) := lists in
  let tStart := mkVector2 (x (Branch.start b) * scale + offsetX)%num
                          (y (Branch.start b) * scale + offsetY)%num in
  let tEnd := mkVector2 (x (Branch.end_ b) * scale + offsetX)%num
                        (y (Branch.end_ b) * scale + offsetY)%num in
  let tControl := mkVector2 (x (Branch.control b) * scale + offsetX)%num
                            (y (Branch.control b) * scale + offsetY)%num in
  let startDist := Branch.distFromRoot b in
  if (progressDistance >? startDist)%num then
    let localT := localT b progressDistance in
    if (localT >? Fin 0)%num then
      let omt := (Fin 1 - localT)%num in
      let curControlX := (omt * x tStart + localT * x tControl)%num in
      let curControlY := (omt * y tStart + localT * y tControl)%num in
      let q1X := (omt * x tControl + localT * x tEnd)%num in
      let q1Y := (omt * y tControl + localT * y tEnd)%num in
      let curEndX := (omt * curControlX + localT * q1X)%num in
      let curEndY := (omt * curControlY + localT * q1Y)%num in
      let visibleStroke := (Branch.strokeWidth b * scale * localT)%num in
      let branchList :=
        branchList ++
          [ mkSimpleBranch tStart (mkVector2 curEndX curEndY) visibleStroke
              (mkVector2 curControlX curControlY) ] in
      let entityList :=
        fold_left (flattenEntity progressDistance scale offsetX offsetY)
          (Branch.entities b) entityList in
      (branchList, entityList)
    else (branchList, entityList)
  else (branchList, entityList).

(** [flattenTreeOrganic(b, branchList, entityList, progressDistance, scale,
    offsetX, offsetY)]: the two arrays are pushed onto in place, here passed
    and returned. *)
Fixpoint flattenTreeOrganic (b : Branch.t)
    (lists : list SimpleBranch * list Entity.t)
    (progressDistance scale offsetX offsetY : num) {struct b}
  : list SimpleBranch * list Entity.t :=
  let lists := flattenOwn b lists progressDistance scale offsetX offsetY in
  match b with
  | Branch.mk _ _ _ _ _ _ children _ =>
      fold_left (fun lists child =>
          flattenTreeOrganic child lists progressDistance scale offsetX offsetY)
        children lists
  end.

(** Every branch of a tree, parents before children. *)
Fixpoint branches (b : Branch.t) : list Branch.t :=
  match b with
  | Branch.mk _ _ _ _ _ _ children _ => b :: flat_map branches children
  end.

(** An entity of branch [b] begins to appear strictly inside the growth of
    [b]. *)
Definition entity_within (b : Branch.t) (e : Entity.t) : Prop :=
  (Branch.distFromRoot b < Entity.distFromRoot e)%num /\
  (Entity.distFromRoot e < Branch.distFromRoot b + Branch.length b)%num.

(** The distances of a branch are finite, its length is positive and its
    entities lie within it. *)
Definition branch_ok (b : Branch.t) : Prop :=
  exists l d : Q,
    Branch.length b = Fin l /\ Branch.distFromRoot b = Fin d /\ (0 < l)%Q /\
    Forall (fun e => exists de : Q,
              Entity.distFromRoot e = Fin de /\ (d < de < d + l)%Q)
           (Branch.entities b).

Definition tree_ok (l d : Q) (t : Branch.t) : Prop :=
  Branch.length t = Fin l /\ Branch.distFromRoot t = Fin d /\
  Forall branch_ok (branches t).

(** A point, and the circle of an entity, inside a rectangle. *)
Definition point_in (B : Bounds) (p : Vector2) : Prop :=
  (minX B <= x p)%num /\ (x p <= maxX B)%num /\
  (minY B <= y p)%num /\ (y p <= maxY B)%num.

Definition circle_in (B : Bounds) (e : Entity.t) : Prop :=
  let c := Entity.center e in
  let r := Entity.radius e in
  point_in B (mkVector2 (x c - r) (y c - r))%num /\
  point_in B (mkVector2 (x c + r) (y c + r))%num.

Definition branch_in (B : Bounds) (b : Branch.t) : Prop :=
  point_in B (Branch.start b) /\ point_in B (Branch.end_ b) /\
  point_in B (Branch.control b) /\
  Forall (circle_in B) (Branch.entities b).

Definition encloses (B : Bounds) (t : Branch.t) : Prop :=
  Forall (branch_in B) (branches t).

(** The geometry of a tree is made of finite numbers, radii not negative. *)
Definition finite_vec (p : Vector2) : Prop := finite (x p) /\ finite (y p).

Definition entity_wf (e : Entity.t) : Prop :=
  finite_vec (Entity.center e) /\
  exists r : Q, Entity.radius e = Fin r /\ (0 <= r)%Q.

Definition branch_wf (b : Branch.t) : Prop :=
  finite_vec (Branch.start b) /\ finite_vec (Branch.end_ b) /\
  finite_vec (Branch.control b) /\ Forall entity_wf (Branch.entities b).

Definition tree_wf (t : Branch.t) : Prop := Forall branch_wf (branches t).

(** Where the growth of each branch of a tree ends, and where each entity
    of the tree begins to appear. *)
Definition branch_ends (t : Branch.t) : list num :=
  map (fun b => (Branch.distFromRoot b + Branch.length b)%num) (branches t).

Definition entity_dists (t : Branch.t) : list num :=
  flat_map (fun b => map Entity.distFromRoot (Branch.entities b)) (branches t).

(** The test under which [flattenTreeOrganic] pushes a segment for a branch
    with the given distance from the root and length. *)
Definition emits (distFromRoot length progressDistance : num) : bool :=
  (progressDistance >? distFromRoot)%num &&
  (coerceIn ((progressDistance - distFromRoot) / length)%num (Fin 0) (Fin 1)
   >? Fin 0)%num.

(** A branch of length 10 carrying an entity that is revealed at distance
    50, and a branch reduced to a single point. *)
Definition lateEntity : Entity.t :=
  {| Entity.center := mkVector2 (Fin 0) (Fin (-10));
     Entity.radius := Fin 15;
     Entity.baseColor := mkColor (Fin 20) (Fin 60) (Fin 30) (Fin 1.0);
     Entity.highlightColor := mkColor (Fin 50) (Fin 90) (Fin 60) (Fin 1.0);
     Entity.type := leaf;
     Entity.distFromRoot := Fin 50;
     Entity.opacity := None |}.

Definition lateEntityTree : Branch.t :=
  Branch.mk (mkVector2 (Fin 0) (Fin 0)) (mkVector2 (Fin 0) (Fin (-10)))
    (Fin 2) (mkVector2 (Fin 0) (Fin (-5))) (Fin 10) (Fin 0) []
    [lateEntity].

Definition pointTree : Branch.t :=
  Branch.mk (mkVector2 (Fin 0) (Fin 0)) (mkVector2 (Fin 0) (Fin 0))
    (Fin 2) (mkVector2 (Fin 0) (Fin 0)) (Fin 0) (Fin 0) [] [].

End Pine.

(* ================================================================== *)
(** * pine.ts, the projector on a store of objects

    [flattenTreeOrganic] once more, this time with the objects it handles
    (vectors, colours, entities, branches, segments) held in a store and
    named by their location, so that a write to an object of the tree, or
    an emitted entity that is the tree's own object, would show.  The two
    output arrays are the caller's, created empty for each frame; the store
    carries their items. *)

Module PineStore.

Definition loc : Type := nat.

Inductive obj : Type :=
| OVector2 (x y : num)
| OColor (c : Color)
| OEntity (center : loc) (radius : num) (baseColor highlightColor : loc)
          (type : Pine.EntityType) (distFromRoot : num) (opacity : option num)
| OBranch (start end_ : loc) (strokeWidth : num) (control : loc)
          (length distFromRoot : num) (children : list loc)
          (entities : list loc)
| OSimpleBranch (start end_ : loc) (strokeWidth : num) (control : loc).

Record store : Type := mkStore {
  objects : list obj;
  branchList : list loc;
  entityList : list loc
}.

(** A computation on the store; [None] is a run-time type error or the end
    of the fuel. *)
Definition Run (A : Type) : Type := store -> option (A * store).

Definition ret {A : Type} (a : A) : Run A := fun st => Some (a, st).

Definition fail {A : Type} : Run A := fun _ => None.

Definition bind {A B : Type} (m : Run A) (k : A -> Run B) : Run B :=
  fun st => match m st with
            | Some (a, st') => k a st'
            | None => None
            end.

(** [new ...] and object literals: a fresh object. *)
Definition alloc (o : obj) : Run loc :=
  fun st => Some (List.length (objects st),
                  mkStore (objects st ++ [o]) (branchList st) (entityList st)).

Definition read (l : loc) : Run obj :=
  fun st => match nth_error (objects st) l with
            | Some o => Some (o, st)
            | None => None
            end.

(** [branchList.push(l)] and [entityList.push(l)] *)
Definition pushBranch (l : loc) : Run unit :=
  fun st => Some (tt, mkStore (objects st) (branchList st ++ [l])
                              (entityList st)).

Definition pushEntity (l : loc) : Run unit :=
  fun st => Some (tt, mkStore (objects st) (branchList st)
                              (entityList st ++ [l])).

Definition getVector2 (l : loc) : Run Vector2 :=
  bind (read l) (fun o =>
    match o with OVector2 x y => ret (mkVector2 x y) | _ => fail end).

(** [list.forEach(f)] *)
Fixpoint forEach {A : Type} (f : A -> Run unit) (l : list A) : Run unit :=
  match l with
  | [] => ret tt
  | a :: l' => bind (f a) (fun _ => forEach f l')
  end.

(** The body of [b.entities.forEach(entity => ...)]. *)
Definition flattenEntity (progressDistance scale offsetX offsetY : num)
    (entity : loc) : Run unit :=
  bind (read entity) (fun o =>
  match o with
  | OEntity center radius baseColor highlightColor type distFromRoot _ =>
      if (progressDistance >? distFromRoot)%num then
        let age := (progressDistance - distFromRoot)%num in
        let fadeSpeed := Fin 150 in
        let fadeP := (age / fadeSpeed)%num in
        let fadeP := coerceIn fadeP (Fin 0) (Fin 1) in
        let opacity := smoothStep fadeP in
        if (opacity >? Fin 0.01)%num then
          bind (getVector2 center) (fun c =>
          bind (alloc (OVector2 (x c * scale + offsetX)%num
                                (y c * scale + offsetY)%num)) (fun center' =>
          bind (alloc (OEntity center' (radius * scale)%num baseColor
                         highlightColor type distFromRoot (Some opacity)))
               pushEntity))
        else ret tt
      else ret tt
  | _ => fail
  end).

(** What [flattenTreeOrganic] does for the branch itself, its fields read:
    the three transformed points and, if the branch is visible, the segment
    and the entities. *)
Definition flattenOwn (s e c : Vector2) (strokeWidth length distFromRoot : num)
    (entities : list loc) (progressDistance scale offsetX offsetY : num)
  : Run unit :=
  let tStart := mkVector2 (x s * scale + offsetX)%num
                          (y s * scale + offsetY)%num in
  let tEnd := mkVector2 (x e * scale + offsetX)%num
                        (y e * scale + offsetY)%num in
  let tControl := mkVector2 (x c * scale + offsetX)%num
                            (y c * scale + offsetY)%num in
  bind (alloc (OVector2 (x tStart) (y tStart))) (fun tStart' =>
  bind (alloc (OVector2 (x tEnd) (y tEnd))) (fun _ =>
  bind (alloc (OVector2 (x tControl) (y tControl))) (fun _ =>
  let startDist := distFromRoot in
  if (progressDistance >? startDist)%num then
    let localT := ((progressDistance - startDist) / length)%num in
    let localT := coerceIn localT (Fin 0) (Fin 1) in
    if (localT >? Fin 0)%num then
      let omt := (Fin 1 - localT)%num in
      let curControlX := (omt * x tStart + localT * x tControl)%num in
      let curControlY := (omt * y tStart + localT * y tControl)%num in
      let q1X := (omt * x tControl + localT * x tEnd)%num in
      let q1Y := (omt * y tControl + localT * y tEnd)%num in
      let curEndX := (omt * curControlX + localT * q1X)%num in
      let curEndY := (omt * curControlY + localT * q1Y)%num in
      let visibleStroke := (strokeWidth * scale * localT)%num in
      bind (alloc (OVector2 curEndX curEndY)) (fun curEnd =>
      bind (alloc (OVector2 curControlX curControlY)) (fun curControl =>
      bind (alloc (OSimpleBranch tStart' curEnd visibleStroke curControl))
           (fun segment =>
      bind (pushBranch segment) (fun _ =>
      forEach (flattenEntity progressDistance scale offsetX offsetY)
              entities))))
    else ret tt
  else ret tt))).

(** [flattenTreeOrganic(b, branchList, entityList, progressDistance, scale,
    offsetX, offsetY)]; the recursion follows the [children] found in the
    store, [fuel] bounds its depth. *)
Fixpoint flattenTreeOrganic (fuel : nat) (b : loc)
    (progressDistance scale offsetX offsetY : num) {struct fuel} : Run unit :=
  match fuel with
  | O => fail
  | S fuel' =>
      bind (read b) (fun o =>
      match o with
      | OBranch start end_ strokeWidth control length distFromRoot
                children entities =>
          bind (getVector2 start) (fun s =>
          bind (getVector2 end_) (fun e =>
          bind (getVector2 control) (fun c =>
          bind (flattenOwn s e c strokeWidth length distFromRoot entities
                  progressDistance scale offsetX offsetY) (fun _ =>
          forEach (fun child =>
                     flattenTreeOrganic fuel' child progressDistance scale
                       offsetX offsetY)
                  children))))
      | _ => fail
      end)
  end.

(** The store holds the value [v] at the location [l]. *)
Definition repr_vec (h : list obj) (l : loc) (v : Vector2) : Prop :=
  nth_error h l = Some (OVector2 (x v) (y v)).

Definition repr_color (h : list obj) (l : loc) (c : Color) : Prop :=
  nth_error h l = Some (OColor c).

Definition repr_entity (h : list obj) (l : loc) (e : Pine.Entity.t) : Prop :=
  exists lc lb lh,
    nth_error h l
    = Some (OEntity lc (Pine.Entity.radius e) lb lh (Pine.Entity.type e)
              (Pine.Entity.distFromRoot e) (Pine.Entity.opacity e)) /\
    repr_vec h lc (Pine.Entity.center e) /\
    repr_color h lb (Pine.Entity.baseColor e) /\
    repr_color h lh (Pine.Entity.highlightColor e).

Definition repr_segment (h : list obj) (l : loc) (sb : SimpleBranch) : Prop :=
  exists ls le lc,
    nth_error h l = Some (OSimpleBranch ls le (sb_strokeWidth sb) lc) /\
    repr_vec h ls (sb_start sb) /\ repr_vec h le (sb_end sb) /\
    repr_vec h lc (sb_control sb).

Inductive repr_branch (h : list obj) : loc -> Pine.Branch.t -> Prop :=
| repr_branch_intro (l ls le lc : loc) (chs ents : list loc)
    (s e : Vector2) (w : num) (c : Vector2) (len d : num)
    (children : list Pine.Branch.t) (entities : list Pine.Entity.t) :
    nth_error h l = Some (OBranch ls le w lc len d chs ents) ->
    repr_vec h ls s -> repr_vec h le e -> repr_vec h lc c ->
    Forall2 (repr_branch h) chs children ->
    Forall2 (repr_entity h) ents entities ->
    repr_branch h l (Pine.Branch.mk s e w c len d children entities).

(** The number of levels of a tree. *)
Fixpoint height (t : Pine.Branch.t) : nat :=
  match t with
  | Pine.Branch.mk _ _ _ _ _ _ children _ => S (list_max (map height children))
  end.

(** [h'] holds the objects of [h], each as it is in [h], and maybe more. *)
Definition prefix (h h' : list obj) : Prop := exists ext, h' = h ++ ext.

(** From [st] to [st'] nothing was written to an object of [st]: objects
    were added, and locations of added objects pushed onto the two arrays. *)
Definition extends (st st' : store) : Prop :=
  prefix (objects st) (objects st') /\
  (exists nb, branchList st' = branchList st ++ nb /\
              Forall (fun l => (List.length (objects st) <= l)%nat) nb) /\
  (exists ne, entityList st' = entityList st ++ ne /\
              Forall (fun l => (List.length (objects st) <= l)%nat) ne).

(** [Pine.lateEntityTree] in a store, its branch at location 7. *)
Definition lateEntityStore : list obj :=
  [ OVector2 (Fin 0) (Fin 0);
    OVector2 (Fin 0) (Fin (-10));
    OVector2 (Fin 0) (Fin (-5));
    OVector2 (Fin 0) (Fin (-10));
    OColor (mkColor (Fin 20) (Fin 60) (Fin 30) (Fin 1.0));
    OColor (mkColor (Fin 50) (Fin 90) (Fin 60) (Fin 1.0));
    OEntity 3%nat (Fin 15) 4%nat 5%nat Pine.leaf (Fin 50) None;
    OBranch 0%nat 1%nat (Fin 2) 2%nat (Fin 10) (Fin 0) [] [6%nat] ].

End PineStore.

(* ================================================================== *)
(** * sunflower.ts *)

Module Sunflower.

Inductive EntityType : Type := leaf | petal | seed.

Module Entity.
Record t : Type := mk {
  center : Vector2;
  radius : num;
  baseColor : Color;
  highlightColor : Color;
  type : EntityType;
  distFromRoot : num;
  opacity : option num
}.
End Entity.

Module Branch.
Inductive t : Type := mk {
  start : Vector2;
  end_ : Vector2;
  strokeWidth : num;
  control : Vector2;
  length : num;
  distFromRoot : num;
  children : list t;
  entities : list Entity.t
}.
End Branch.

Definition nat_num (i : nat) : num := Fin (inject_Z (Z.of_nat i)).

Section Generator.
Context `{JSMath}.

(** One turn of the petal loop of [generateSunflower]. *)
Definition generatePetal (end_ : Vector2) (currentDist : num)
    (petalCount : Z) (i : nat) : Rand (list Entity.t) :=
  let petalRadius := Fin 110 in
  let pAngle :=
    ((nat_num i / Fin (inject_Z petalCount)) * Math_PI * Fin 2)%num in
  j <- nextFloat (-10) 10 ;;
  let r := (petalRadius + Fin j)%num in
  let pX := (x end_ + Math_cos pAngle * r)%num in
  let pY := (y end_ + Math_sin pAngle * r)%num in
  radius <- nextFloat 35 45 ;;
  ret [ {| Entity.center := mkVector2 pX pY;
           Entity.radius := Fin radius;
           Entity.baseColor := mkColor (Fin 255) (Fin 204) (Fin 0) (Fin 1.0);
           Entity.highlightColor :=
             mkColor (Fin 255) (Fin 230) (Fin 100) (Fin 1.0);
           Entity.type := petal;
           Entity.distFromRoot := currentDist;
           Entity.opacity := None |} ].

(** One turn of the seed loop of [generateSunflower]. *)
Definition generateSeed (end_ : Vector2) (currentDist : num) (i : nat)
  : Rand (list Entity.t) :=
  let seedCount := Fin 150 in
  let goldenAngle := (Fin 137.508 * (Math_PI / Fin 180))%num in
  let spread := Fin 7 in
  let r := (spread * Math_sqrt (nat_num i))%num in
  let theta := (nat_num i * goldenAngle)%num in
  let sX := (x end_ + r * Math_cos theta)%num in
  let sY := (y end_ + r * Math_sin theta)%num in
  let isCenter := (nat_num i <? seedCount * Fin 0.3)%num in
  let rCol := if isCenter then Fin 40 else Fin 60 in
  let gCol := if isCenter then Fin 25 else Fin 40 in
  let bCol := if isCenter then Fin 10 else Fin 15 in
  radius <- nextFloat 6 9 ;;
  ret [ {| Entity.center := mkVector2 sX sY;
           Entity.radius := Fin radius;
           Entity.baseColor := mkColor rCol gCol bCol (Fin 1.0);
           Entity.highlightColor :=
             mkColor (rCol + Fin 30) (gCol + Fin 20) (bCol + Fin 10) (Fin 1.0);
           Entity.type := seed;
           Entity.distFromRoot := (currentDist + nat_num i * Fin 0.5)%num;
           Entity.opacity := None |} ].

(** The leaf a stalk segment carries when [1 < segmentsLeft < 7]. *)
Definition generateLeaf (segmentsLeft : nat) (start end_ : Vector2)
    (length currentDist : num) : Rand (list Entity.t) :=
  if ((segmentsLeft <? 7)%nat && (1 <? segmentsLeft)%nat)%bool then
    let isLeft := (segmentsLeft mod 2 =? 0)%nat in
    let leafDir := if isLeft then Fin (-1) else Fin 1 in
    let leafStart :=
      mkVector2 (x start * Fin 0.5 + x end_ * Fin 0.5)%num
                (y start * Fin 0.5 + y end_ * Fin 0.5)%num in
    leafRadius <- nextFloat 50 70 ;;
    let petioleLen := Fin 40 in
    let leafX := (x leafStart + petioleLen * leafDir)%num in
    let leafY := (y leafStart - Fin 10)%num in
    ret [ {| Entity.center := mkVector2 leafX leafY;
             Entity.radius := Fin leafRadius;
             Entity.baseColor := mkColor (Fin 50) (Fin 120) (Fin 50) (Fin 1.0);
             Entity.highlightColor :=
               mkColor (Fin 80) (Fin 160) (Fin 80) (Fin 1.0);
             Entity.type := leaf;
             Entity.distFromRoot := (currentDist + length * Fin 0.5)%num;
             Entity.opacity := None |} ]
  else ret [].

(** [generateSunflower(rand, start, length, angle, segmentsLeft,
    currentDist)]; [segmentsLeft] is the recursion counter (the program
    passes 8). *)
Fixpoint generateSunflower (segmentsLeft : nat) (start : Vector2)
    (length angle : num) (currentDist : num) {struct segmentsLeft}
  : Rand Branch.t :=
  (* 1. stem segment *)
  angleOffset <- nextFloat (-5) 5 ;;
  let radAngle := ((angle + Fin angleOffset) * (Math_PI / Fin 180))%num in
  let endX := (x start + length * Math_cos radAngle)%num in
  let endY := (y start + length * Math_sin radAngle)%num in
  let end_ := mkVector2 endX endY in
  let midX := ((x start + x end_) / Fin 2)%num in
  let midY := ((y start + y end_) / Fin 2)%num in
  cx <- nextFloat (-10) 10 ;;
  cy <- nextFloat (-10) 10 ;;
  let control := mkVector2 (midX + Fin cx)%num (midY + Fin cy)%num in
  let strokeWidth := Math_max (Fin 8) (nat_num segmentsLeft * Fin 3.5)%num in
  (* 2. stalk or flower head *)
  match segmentsLeft with
  | S segmentsLeft' =>
      entities <- generateLeaf segmentsLeft start end_ length currentDist ;;
      let newLength := (length * Fin 0.95)%num in
      da <- nextFloat (-2) 2 ;;
      child <- generateSunflower segmentsLeft' end_ newLength
                 (angle + Fin da)%num (currentDist + length)%num ;;
      ret (Branch.mk start end_ strokeWidth control length currentDist
                     [child] entities)
  | O =>
      petalCount <- nextInt 20 30 ;;
      petals <- for_push (generatePetal end_ currentDist petalCount)
                  0 (Z.to_nat petalCount) ;;
      seeds <- for_push (generateSeed end_ currentDist) 0 150 ;;
      ret (Branch.mk start end_ strokeWidth control length currentDist
                     [] (petals ++ seeds))
  end.

End Generator.

(** [getMaxDist(b)] *)
Fixpoint getMaxDist (b : Branch.t) : num :=
  match b with
  | Branch.mk _ _ _ _ length distFromRoot children entities =>
      let max := (distFromRoot + length)%num in
      let max :=
        fold_left (fun max e => Math_max max (Entity.distFromRoot e))
          entities max in
      fold_left (fun max child => Math_max max (getMaxDist child)) children max
  end.

(** The opacity [flattenTreeOrganic] gives an entity at a progress distance. *)
Definition fadeOpacity (entity : Entity.t) (progressDistance : num) : num :=
  let age := (progressDistance - Entity.distFromRoot entity)%num in
  let fadeSpeed :=
    match Entity.type entity with seed => Fin 50 | _ => Fin 150 end in
  let fadeP := (age / fadeSpeed)%num in
  let fadeP := coerceIn fadeP (Fin 0) (Fin 1) in
  smoothStep fadeP.

(** Every branch of a tree, parents before children. *)
Fixpoint branches (b : Branch.t) : list Branch.t :=
  match b with
  | Branch.mk _ _ _ _ _ _ children _ => b :: flat_map branches children
  end.

(** Where the growth of each branch of a tree ends, and where each entity
    of the tree begins to appear. *)
Definition branch_ends (t : Branch.t) : list num :=
  map (fun b => (Branch.distFromRoot b + Branch.length b)%num) (branches t).

Definition entity_dists (t : Branch.t) : list num :=
  flat_map (fun b => map Entity.distFromRoot (Branch.entities b)) (branches t).

(** Both kinds of distances, branch by branch. *)
Definition candidates (t : Branch.t) : list num :=
  flat_map (fun b => (Branch.distFromRoot b + Branch.length b)%num
                     :: map Entity.distFromRoot (Branch.entities b))
           (branches t).

End Sunflower.

(* ================================================================== *)
(** * A runnable instance

    Rational stand-ins for the engine's functions (truncated Taylor series,
    integer square root) and SHA-256 itself, to evaluate the model on
    concrete inputs. *)

Module Sample.

Definition cos (a : num) : num :=
  match a with
  | Fin q => Fin (1 - q * q / 2 + q * q * q * q / 24)
  | _ => NaN
  end.

Definition sin (a : num) : num :=
  match a with
  | Fin q => Fin (q - q * q * q / 6 + q * q * q * q * q / 120)
  | _ => NaN
  end.

Definition sqrt (a : num) : num :=
  match a with
  | Fin q =>
      if Qle_bool 0 q
      then Fin (inject_Z (Z.sqrt (Qnum q * Zpos (Qden q) * 1000000))
                / inject_Z (Zpos (Qden q) * 1000))
      else NaN
  | PInf => PInf
  | _ => NaN
  end.

#[export] Instance math : JSMath :=
  {| Math_cos := cos; Math_sin := sin; Math_sqrt := sqrt |}.

(** SHA-256 (FIPS 180-4) on the bytes of the string, for
    [createHash('sha256').update(s).digest('hex')]. *)
Module SHA256.

Definition mask : Z := 4294967295.

Definition add32 (a b : Z) : Z := Z.land (a + b) mask.

Definition rotr (n x : Z) : Z :=
  Z.lor (Z.shiftr x n) (Z.land (Z.shiftl x (32 - n)) mask).

Definition Ch (x y z : Z) : Z :=
  Z.lxor (Z.land x y) (Z.land (Z.lxor x mask) z).

Definition Maj (x y z : Z) : Z :=
  Z.lxor (Z.lxor (Z.land x y) (Z.land x z)) (Z.land y z).

Definition bsig0 (x : Z) : Z :=
  Z.lxor (Z.lxor (rotr 2 x) (rotr 13 x)) (rotr 22 x).
Definition bsig1 (x : Z) : Z :=
  Z.lxor (Z.lxor (rotr 6 x) (rotr 11 x)) (rotr 25 x).
Definition ssig0 (x : Z) : Z :=
  Z.lxor (Z.lxor (rotr 7 x) (rotr 18 x)) (Z.shiftr x 3).
Definition ssig1 (x : Z) : Z :=
  Z.lxor (Z.lxor (rotr 17 x) (rotr 19 x)) (Z.shiftr x 10).

Definition K : list Z :=
  [
    1116352408; 1899447441; 3049323471; 3921009573; 961987163; 1508970993;
    2453635748; 2870763221; 3624381080; 310598401; 607225278; 1426881987;
    1925078388; 2162078206; 2614888103; 3248222580; 3835390401; 4022224774;
    264347078; 604807628; 770255983; 1249150122; 1555081692; 1996064986;
    2554220882; 2821834349; 2952996808; 3210313671; 3336571891; 3584528711;
    113926993; 338241895; 666307205; 773529912; 1294757372; 1396182291;
    1695183700; 1986661051; 2177026350; 2456956037; 2730485921; 2820302411;
    3259730800; 3345764771; 3516065817; 3600352804; 4094571909; 275423344;
    430227734; 506948616; 659060556; 883997877; 958139571; 1322822218;
    1537002063; 1747873779; 1955562222; 2024104815; 2227730452; 2361852424;
    2428436474; 2756734187; 3204031479; 3329325298
  ]%Z.

Definition H0 : list Z :=
  [
    1779033703; 3144134277; 1013904242; 2773480762;
    1359893119; 2600822924; 528734635; 1541459225
  ]%Z.

Definition bytes (s : string) : list Z :=
  map (fun c => Z.of_N (Ascii.N_of_ascii c)) (list_ascii_of_string s).

(** The message with its padding: a 1 bit, zeros, and the length in bits
    on 64 bits, up to a multiple of 64 bytes. *)
Definition pad (msg : list Z) : list Z :=
  let len := Z.of_nat (List.length msg) in
  let zeros := Z.to_nat ((55 - len) mod 64) in
  let bits := (len * 8)%Z in
  msg ++ [128%Z] ++ repeat 0%Z zeros
      ++ map (fun i => Z.land (Z.shiftr bits (8 * (7 - Z.of_nat i))) 255)
             (seq 0 8).

(** Big-endian 32-bit words of a run of bytes. *)
Fixpoint words (n : nat) (bs : list Z) : list Z :=
  match n, bs with
  | S n', b0 :: b1 :: b2 :: b3 :: rest =>
      (b0 * 16777216 + b1 * 65536 + b2 * 256 + b3)%Z :: words n' rest
  | _, _ => []
  end.

Fixpoint blocks (n : nat) (ws : list Z) : list (list Z) :=
  match n, ws with
  | S n', _ :: _ => firstn 16 ws :: blocks n' (skipn 16 ws)
  | _, _ => []
  end.

(** The message schedule: [n] more words after those of [w]. *)
Fixpoint schedule (n : nat) (w : list Z) : list Z :=
  match n with
  | O => w
  | S n' =>
      let i := List.length w in
      let at_ k := nth (i - k) w 0%Z in
      schedule n'
        (w ++ [add32 (add32 (ssig1 (at_ 2%nat)) (at_ 7%nat))
                     (add32 (ssig0 (at_ 15%nat)) (at_ 16%nat))])
  end.

Definition round (st : list Z) (kw : Z * Z) : list Z :=
  match st with
  | [a; b; c; d; e; f; g; h] =>
      let t1 := add32 (add32 (add32 h (bsig1 e)) (add32 (Ch e f g) (fst kw)))
                      (snd kw) in
      let t2 := add32 (bsig0 a) (Maj a b c) in
      [add32 t1 t2; a; b; c; add32 d t1; e; f; g]
  | _ => st
  end.

Definition compress (hs block : list Z) : list Z :=
  let w := schedule 48 block in
  let st := fold_left round (combine K w) hs in
  map (fun p => add32 (fst p) (snd p)) (combine hs st).

Definition digest (s : string) : list Z :=
  let bs := pad (bytes s) in
  let ws := words (List.length bs) bs in
  fold_left compress (blocks (List.length ws) ws) H0.

(** The 64 hexadecimal digits of the digest, as their values. *)
Definition hex (s : string) : list N :=
  flat_map (fun w =>
              map (fun i => Z.to_N (Z.land (Z.shiftr w (4 * (7 - Z.of_nat i)))
                                           15))
                  (seq 0 8))
           (digest s).

End SHA256.

#[export] Instance crypto : NodeCrypto := {| sha256_hex := SHA256.hex |}.

(** The source of the scenario seed. *)
Definition rand : SeededRandom.t := SeededRandom.new "test-seed-1".

End Sample.

(* ================================================================== *)
(** * pine.ts: what the generator builds

    [grown depth l d t]: [t] has the form of a tree that
    [generateFullTree] returns for the recursion counter [depth], the
    segment length [l] and the cumulative distance [d]. *)

Module PineTree.

(** A colour channel is a number from 0 to 255. *)
Definition channel (c : num) : Prop := exists q : Q, c = Fin q /\ 0 <= q <= 255.

Definition color_ok (c : Color) : Prop :=
  channel (r c) /\ channel (g c) /\ channel (b c) /\ a c = Fin 1.0.

Definition entity_grown (depth : nat) (e : Pine.Entity.t) : Prop :=
  (exists rad : Q, Pine.Entity.radius e = Fin rad /\ 13.5 <= rad < 25) /\
  (Pine.Entity.type e = Pine.fruit -> (depth <= 4)%nat) /\
  color_ok (Pine.Entity.baseColor e) /\
  color_ok (Pine.Entity.highlightColor e) /\
  Pine.Entity.opacity e = None.

Fixpoint grown (depth : nat) (l d : Q) (t : Pine.Branch.t) : Prop :=
  Pine.Branch.length t = Fin l /\ Pine.Branch.distFromRoot t = Fin d /\
  (exists w : Q,
      Pine.Branch.strokeWidth t = Fin w /\ 2 <= w /\
      inject_Z (Z.of_nat depth) * 5 - 1 <= w /\
      (w == 2 \/ w < inject_Z (Z.of_nat depth) * 5 + 1)) /\
  (if (depth <=? 5)%nat
   then (6 <= List.length (Pine.Branch.entities t) <= 9)%nat
   else Pine.Branch.entities t = []) /\
  Forall (entity_grown depth) (Pine.Branch.entities t) /\
  match depth with
  | O => Pine.Branch.children t = []
  | S depth' =>
      exists leader sides,
        Pine.Branch.children t = leader :: sides /\
        (if (1 <? depth)%nat
         then (1 <= List.length sides <= 2)%nat
         else sides = []) /\
        (exists ll : Q,
            l * 0.85 <= ll < l * 0.95 /\ grown depth' ll (d + l) leader) /\
        Forall (fun s => exists ls : Q,
                    l * 0.5 <= ls < l * 0.7 /\ grown depth' ls (d + l) s)
               sides
  end.

(** The number of branches of the smallest and of the largest tree of a
    given depth: a leader at each branching, and one or two sides where the
    depth exceeds 1. *)
Fixpoint minBranches (depth : nat) : nat :=
  match depth with
  | O => 1
  | S depth' => if (1 <? depth)%nat then 1 + 2 * minBranches depth'
                else 1 + minBranches depth'
  end.

Fixpoint maxBranches (depth : nat) : nat :=
  match depth with
  | O => 1
  | S depth' => if (1 <? depth)%nat then 1 + 3 * maxBranches depth'
                else 1 + maxBranches depth'
  end.

(** A branch of length 10 with a leaf revealed half way along it. *)
Definition twig : Pine.Branch.t :=
  Pine.Branch.mk (mkVector2 (Fin 0) (Fin 0)) (mkVector2 (Fin 0) (Fin (-10)))
    (Fin 2) (mkVector2 (Fin 0) (Fin (-5))) (Fin 10) (Fin 0) []
    [ {| Pine.Entity.center := mkVector2 (Fin 0) (Fin (-5));
         Pine.Entity.radius := Fin 15;
         Pine.Entity.baseColor := mkColor (Fin 20) (Fin 60) (Fin 30) (Fin 1.0);
         Pine.Entity.highlightColor :=
           mkColor (Fin 50) (Fin 90) (Fin 60) (Fin 1.0);
         Pine.Entity.type := Pine.leaf;
         Pine.Entity.distFromRoot := Fin 5;
         Pine.Entity.opacity := None |} ].

(** A cone to the right of that leaf, and level with the branch's start. *)
Definition cone : Pine.Entity.t :=
  {| Pine.Entity.center := mkVector2 (Fin 100) (Fin 0);
     Pine.Entity.radius := Fin 13.5;
     Pine.Entity.baseColor := mkColor (Fin 100) (Fin 70) (Fin 40) (Fin 1.0);
     Pine.Entity.highlightColor :=
       mkColor (Fin 140) (Fin 110) (Fin 80) (Fin 1.0);
     Pine.Entity.type := Pine.fruit;
     Pine.Entity.distFromRoot := Fin 5;
     Pine.Entity.opacity := None |}.

(** Every entity of a tree. *)
Definition entities (t : Pine.Branch.t) : list Pine.Entity.t :=
  flat_map Pine.Branch.entities (Pine.branches t).

End PineTree.

(* ================================================================== *)
(** * pine.ts: what the projector pushes

    The segment and the entity that [flattenTreeOrganic] pushes for a
    branch and for an entity, and the tests under which it does. *)

Module PineFlat.

Section Pushed.
Variables progressDistance scale offsetX offsetY : num.

Definition visible (b : Pine.Branch.t) : bool :=
  Pine.emits (Pine.Branch.distFromRoot b) (Pine.Branch.length b)
    progressDistance.

Definition segmentOf (b : Pine.Branch.t) : SimpleBranch :=
  let tStart := mkVector2 (x (Pine.Branch.start b) * scale + offsetX)%num
                          (y (Pine.Branch.start b) * scale + offsetY)%num in
  let tEnd := mkVector2 (x (Pine.Branch.end_ b) * scale + offsetX)%num
                        (y (Pine.Branch.end_ b) * scale + offsetY)%num in
  let tControl := mkVector2 (x (Pine.Branch.control b) * scale + offsetX)%num
                            (y (Pine.Branch.control b) * scale + offsetY)%num in
  let localT := Pine.localT b progressDistance in
  let omt := (Fin 1 - localT)%num in
  let curControlX := (omt * x tStart + localT * x tControl)%num in
  let curControlY := (omt * y tStart + localT * y tControl)%num in
  let q1X := (omt * x tControl + localT * x tEnd)%num in
  let q1Y := (omt * y tControl + localT * y tEnd)%num in
  let curEndX := (omt * curControlX + localT * q1X)%num in
  let curEndY := (omt * curControlY + localT * q1Y)%num in
  let visibleStroke := (Pine.Branch.strokeWidth b * scale * localT)%num in
  mkSimpleBranch tStart (mkVector2 curEndX curEndY) visibleStroke
    (mkVector2 curControlX curControlY).

Definition shown (entity : Pine.Entity.t) : bool :=
  (progressDistance >? Pine.Entity.distFromRoot entity)%num &&
  (Pine.fadeOpacity entity progressDistance >? Fin 0.01)%num.

Definition entityOf (entity : Pine.Entity.t) : Pine.Entity.t :=
  {| Pine.Entity.center :=
       mkVector2 (x (Pine.Entity.center entity) * scale + offsetX)%num
                 (y (Pine.Entity.center entity) * scale + offsetY)%num;
     Pine.Entity.radius := (Pine.Entity.radius entity * scale)%num;
     Pine.Entity.baseColor := Pine.Entity.baseColor entity;
     Pine.Entity.highlightColor := Pine.Entity.highlightColor entity;
     Pine.Entity.type := Pine.Entity.type entity;
     Pine.Entity.distFromRoot := Pine.Entity.distFromRoot entity;
     Pine.Entity.opacity :=
       Some (Pine.fadeOpacity entity progressDistance) |}.

End Pushed.

End PineFlat.

(** The four sides of a rectangle are finite numbers. *)
Definition bounds_fin (B : Bounds) : Prop :=
  finite (minX B) /\ finite (maxX B) /\ finite (minY B) /\ finite (maxY B).

(* ================================================================== *)
(** * What the canvas strokes, and the padded canvas *)

(** [b.start.x * scale + offsetX, b.start.y * scale + offsetY]: a point of
    the tree on the canvas. *)
Definition toCanvas (scale offsetX offsetY : num) (p : Vector2) : Vector2 :=
  mkVector2 (x p * scale + offsetX)%num (y p * scale + offsetY)%num.

Definition veq (p q : Vector2) : Prop :=
  (x p == x q)%num /\ (y p == y q)%num.

(** The exact fit places the extremes of the bounds on the padding lines;
    the programs compute it in doubles, where a placed point can miss its
    exact place by the rounding of a few operations.  Places on the canvas
    are therefore compared up to [tolerance], a thousandth of a pixel. *)
Definition tolerance : num := Fin (1 # 1000).

Definition near (a b : num) : Prop :=
  (b - tolerance <= a)%num /\ (a <= b + tolerance)%num.

(** A point inside the canvas less its padding. *)
Definition in_canvas (p : Vector2) : Prop :=
  (CONFIG.padding - tolerance <= x p)%num /\
  (x p <= CONFIG.width - CONFIG.padding + tolerance)%num /\
  (CONFIG.padding - tolerance <= y p)%num /\
  (y p <= CONFIG.height - CONFIG.padding + tolerance)%num.

(** A segment whose three control points, and an entity whose circle, lie
    inside the padded canvas. *)
Definition segment_in_canvas (sb : SimpleBranch) : Prop :=
  in_canvas (sb_start sb) /\ in_canvas (sb_control sb) /\
  in_canvas (sb_end sb).

Definition entity_in_canvas (e : Pine.Entity.t) : Prop :=
  let c := Pine.Entity.center e in
  let r := Pine.Entity.radius e in
  in_canvas (mkVector2 (x c - r) (y c - r))%num /\
  in_canvas (mkVector2 (x c + r) (y c + r))%num.

(* ================================================================== *)
(** * Arrays

    [Array.prototype.sort(comparefn)]: the array in the order of
    [comparefn], elements that compare equal in their former order (the
    sort is stable; a [NaN] from [comparefn] counts as 0).  For a
    consistent [comparefn] this fixes the result, computed here by
    insertion. *)

Module JSArray.

Section Sort.
Context {A : Type} (comparefn : A -> A -> num).

(** [comparefn(a, b) < 0]: [a] comes before [b]. *)
Definition before (a b : A) : bool := (comparefn a b <? Fin 0)%num.

Fixpoint insert (a : A) (sorted : list A) : list A :=
  match sorted with
  | [] => [a]
  | b :: rest => if before b a then b :: insert a rest else a :: b :: rest
  end.

Definition sort (l : list A) : list A := fold_right insert [] l.

End Sort.

End JSArray.

(* ================================================================== *)
(** * pine.ts: the frames of [generateVideo] *)

Module PineVideo.

(** [CONFIG.fps], [CONFIG.durationSeconds] *)
Definition fps : num := Fin 30.
Definition durationSeconds : num := Fin 30.

Definition totalFrames : num := (durationSeconds * fps)%num.

(** The frames run from 0 to [lastFrame]. *)
Definition lastFrame : nat := 899.

(** [currentGrowthDist] of the frame loop. *)
Definition currentGrowthDist (frame : nat) (maxDistance : num) : num :=
  let t := (Fin (inject_Z (Z.of_nat frame)) / (totalFrames - Fin 1))%num in
  (t * (maxDistance + Fin 200))%num.

Definition isLeaf (e : Pine.Entity.t) : bool :=
  match Pine.Entity.type e with Pine.leaf => true | Pine.fruit => false end.

Definition isFruit (e : Pine.Entity.t) : bool :=
  match Pine.Entity.type e with Pine.fruit => true | Pine.leaf => false end.

(** [(a, b) => a.center.y - b.center.y] *)
Definition byCenterY (a b : Pine.Entity.t) : num :=
  (y (Pine.Entity.center a) - y (Pine.Entity.center b))%num.

Section Frames.
Context `{JSMath}.

(** The callback of [leaves.some] for a fruit: the leaf lies lower on the
    canvas and its centre is within 0.9 radius of the fruit's. *)
Definition covers (fruit leaf : Pine.Entity.t) : bool :=
  if (y (Pine.Entity.center leaf) <=? y (Pine.Entity.center fruit))%num
  then false
  else
    let dx := (x (Pine.Entity.center leaf)
               - x (Pine.Entity.center fruit))%num in
    let dy := (y (Pine.Entity.center leaf)
               - y (Pine.Entity.center fruit))%num in
    let dist := Math_sqrt (dx * dx + dy * dy)%num in
    (dist <? Pine.Entity.radius leaf * Fin 0.9)%num.

(** From the flattened entities to the entities in drawing order. *)
Definition layer (entities : list Pine.Entity.t) : list Pine.Entity.t :=
  let leaves := filter isLeaf entities in
  let fruits := filter isFruit entities in
  let visibleFruits :=
    filter (fun fruit => negb (existsb (covers fruit) leaves)) fruits in
  let leaves := JSArray.sort byCenterY leaves in
  let visibleFruits := JSArray.sort byCenterY visibleFruits in
  leaves ++ visibleFruits.

(** What [flattenTreeOrganic] fills the two arrays with in the turn of the
    frame loop for [frame]. *)
Definition flattened (fullTree : Pine.Branch.t) (frame : nat)
  : list SimpleBranch * list Pine.Entity.t :=
  let bounds := Pine.calculateBounds fullTree initialBounds in
  let fit := autoFit bounds in
  let maxDistance := Pine.getMaxDist fullTree in
  let currentGrowthDist := currentGrowthDist frame maxDistance in
  Pine.flattenTreeOrganic fullTree ([], []) currentGrowthDist
    (finalScale fit) (offsetX fit) (offsetY fit).

(** What the turn hands to the drawing passes: the segments and the
    entities in drawing order. *)
Definition frame (fullTree : Pine.Branch.t) (frame : nat)
  : list SimpleBranch * list Pine.Entity.t :=
  let (branches, entities) := flattened fullTree frame in
  (branches, layer entities).

End Frames.

End PineVideo.

(* ================================================================== *)
(** * sunflower.ts: bounds, projector and the frames of [generateVideo] *)

Module SunflowerVideo.

(** The first four assignments of [calculateBounds]. *)
Definition boundsOwn (b : Sunflower.Branch.t) (currentBounds : Bounds)
  : Bounds :=
  let start := Sunflower.Branch.start b in
  let end_ := Sunflower.Branch.end_ b in
  let control := Sunflower.Branch.control b in
  {| minX := Math_min4 (minX currentBounds) (x start) (x end_) (x control);
     maxX := Math_max4 (maxX currentBounds) (x start) (x end_) (x control);
     minY := Math_min4 (minY currentBounds) (y start) (y end_) (y control);
     maxY := Math_max4 (maxY currentBounds) (y start) (y end_) (y control) |}.

(** The body of [b.entities.forEach(e => ...)] in [calculateBounds]. *)
Definition boundsEntity (currentBounds : Bounds) (e : Sunflower.Entity.t)
  : Bounds :=
  {| minX := Math_min (minX currentBounds)
               (x (Sunflower.Entity.center e) - Sunflower.Entity.radius e)%num;
     maxX := Math_max (maxX currentBounds)
               (x (Sunflower.Entity.center e) + Sunflower.Entity.radius e)%num;
     minY := Math_min (minY currentBounds)
               (y (Sunflower.Entity.center e) - Sunflower.Entity.radius e)%num;
     maxY := Math_max (maxY currentBounds)
               (y (Sunflower.Entity.center e) + Sunflower.Entity.radius e)%num
  |}.

(** [calculateBounds(b, currentBounds)] *)
Fixpoint calculateBounds (b : Sunflower.Branch.t) (currentBounds : Bounds)
  : Bounds :=
  let currentBounds := boundsOwn b currentBounds in
  let currentBounds :=
    fold_left boundsEntity (Sunflower.Branch.entities b) currentBounds in
  match b with
  | Sunflower.Branch.mk _ _ _ _ _ _ children _ =>
      fold_left (fun currentBounds child => calculateBounds child currentBounds)
        children currentBounds
  end.

(** The truncation parameter of a branch at a progress distance. *)
Definition localT (b : Sunflower.Branch.t) (progressDistance : num) : num :=
  let startDist := Sunflower.Branch.distFromRoot b in
  let localT :=
    ((progressDistance - startDist) / Sunflower.Branch.length b)%num in
  coerceIn localT (Fin 0) (Fin 1).

(** The body of [b.entities.forEach(entity => ...)] in
    [flattenTreeOrganic]. *)
Definition flattenEntity (progressDistance scale offsetX offsetY : num)
    (entityList : list Sunflower.Entity.t) (entity : Sunflower.Entity.t)
  : list Sunflower.Entity.t :=
  if (progressDistance >? Sunflower.Entity.distFromRoot entity)%num then
    let opacity := Sunflower.fadeOpacity entity progressDistance in
    if (opacity >? Fin 0.01)%num then
      entityList ++
        [ {| Sunflower.Entity.center :=
               mkVector2
                 (x (Sunflower.Entity.center entity) * scale + offsetX)%num
                 (y (Sunflower.Entity.center entity) * scale + offsetY)%num;
             Sunflower.Entity.radius :=
               (Sunflower.Entity.radius entity * scale)%num;
             Sunflower.Entity.baseColor := Sunflower.Entity.baseColor entity;
             Sunflower.Entity.highlightColor :=
               Sunflower.Entity.highlightColor entity;
             Sunflower.Entity.type := Sunflower.Entity.type entity;
             Sunflower.Entity.distFromRoot :=
               Sunflower.Entity.distFromRoot entity;
             Sunflower.Entity.opacity := Some opacity |} ]
    else entityList
  else entityList.

(** What [flattenTreeOrganic] does for the branch [b] itself. *)
Definition flattenOwn (b : Sunflower.Branch.t)
    (lists : list SimpleBranch * list Sunflower.Entity.t)
    (progressDistance scale offsetX offsetY : num)
  : list SimpleBranch * list Sunflower.Entity.t :=
  let (branchList, entityList) := lists in
  let tStart := mkVector2 (x (Sunflower.Branch.start b) * scale + offsetX)%num
                          (y (Sunflower.Branch.start b) * scale + offsetY)%num
  in
  let tEnd := mkVector2 (x (Sunflower.Branch.end_ b) * scale + offsetX)%num
                        (y (Sunflower.Branch.end_ b) * scale + offsetY)%num in
  let tControl :=
    mkVector2 (x (Sunflower.Branch.control b) * scale + offsetX)%num
              (y (Sunflower.Branch.control b) * scale + offsetY)%num in
  let startDist := Sunflower.Branch.distFromRoot b in
  if (progressDistance >? startDist)%num then
    let localT := localT b progressDistance in
    if (localT >? Fin 0)%num then
      let omt := (Fin 1 - localT)%num in
      let curControlX := (omt * x tStart + localT * x tControl)%num in
      let curControlY := (omt * y tStart + localT * y tControl)%num in
      let q1X := (omt * x tControl + localT * x tEnd)%num in
      let q1Y := (omt * y tControl + localT * y tEnd)%num in
      let curEndX := (omt * curControlX + localT * q1X)%num in
      let curEndY := (omt * curControlY + localT * q1Y)%num in
      let visibleStroke := (Sunflower.Branch.strokeWidth b * scale)%num in
      let branchList :=
        branchList ++
          [ mkSimpleBranch tStart (mkVector2 curEndX curEndY) visibleStroke
              (mkVector2 curControlX curControlY) ] in
      let entityList :=
        fold_left (flattenEntity progressDistance scale offsetX offsetY)
          (Sunflower.Branch.entities b) entityList in
      (branchList, entityList)
    else (branchList, entityList)
  else (branchList, entityList).

(** [flattenTreeOrganic(b, branchList, entityList, progressDistance, scale,
    offsetX, offsetY)] *)
Fixpoint flattenTreeOrganic (b : Sunflower.Branch.t)
    (lists : list SimpleBranch * list Sunflower.Entity.t)
    (progressDistance scale offsetX offsetY : num) {struct b}
  : list SimpleBranch * list Sunflower.Entity.t :=
  let lists := flattenOwn b lists progressDistance scale offsetX offsetY in
  match b with
  | Sunflower.Branch.mk _ _ _ _ _ _ children _ =>
      fold_left (fun lists child =>
          flattenTreeOrganic child lists progressDistance scale offsetX offsetY)
        children lists
  end.

(** [CONFIG.fps], [CONFIG.durationSeconds] *)
Definition fps : num := Fin 30.
Definition durationSeconds : num := Fin 30.

Definition totalFrames : num := (durationSeconds * fps)%num.

(** The frames run from 0 to [lastFrame]. *)
Definition lastFrame : nat := 899.

(** [currentGrowthDist] of the frame loop. *)
Definition currentGrowthDist (frame : nat) (maxDistance : num) : num :=
  let t := (Sunflower.nat_num frame / (totalFrames - Fin 1))%num in
  (t * (maxDistance + Fin 300))%num.

Definition isLeaf (e : Sunflower.Entity.t) : bool :=
  match Sunflower.Entity.type e with Sunflower.leaf => true | _ => false end.

Definition isPetal (e : Sunflower.Entity.t) : bool :=
  match Sunflower.Entity.type e with Sunflower.petal => true | _ => false end.

Definition isSeed (e : Sunflower.Entity.t) : bool :=
  match Sunflower.Entity.type e with Sunflower.seed => true | _ => false end.

(** [(a, b) => a.distFromRoot - b.distFromRoot] *)
Definition byDistFromRoot (a b : Sunflower.Entity.t) : num :=
  (Sunflower.Entity.distFromRoot a - Sunflower.Entity.distFromRoot b)%num.

(** What [flattenTreeOrganic] fills the two arrays with in the turn of the
    frame loop for [frame]. *)
Definition flattened (fullTree : Sunflower.Branch.t) (frame : nat)
  : list SimpleBranch * list Sunflower.Entity.t :=
  let bounds := calculateBounds fullTree initialBounds in
  let fit := autoFit bounds in
  let maxDistance := Sunflower.getMaxDist fullTree in
  let currentGrowthDist := currentGrowthDist frame maxDistance in
  flattenTreeOrganic fullTree ([], []) currentGrowthDist
    (finalScale fit) (offsetX fit) (offsetY fit).

(** What the turn draws, in drawing order: the leaves, the stalk, the
    petals, the seeds. *)
Record Layers : Type := mkLayers {
  leaves : list Sunflower.Entity.t;
  branches : list SimpleBranch;
  petals : list Sunflower.Entity.t;
  seeds : list Sunflower.Entity.t
}.

Definition layers (entities : list Sunflower.Entity.t)
    (branches : list SimpleBranch) : Layers :=
  let leaves := filter isLeaf entities in
  let petals := filter isPetal entities in
  let seeds := filter isSeed entities in
  let seeds := JSArray.sort byDistFromRoot seeds in
  mkLayers leaves branches petals seeds.

Definition frame (fullTree : Sunflower.Branch.t) (frame : nat) : Layers :=
  let (branches, entities) := flattened fullTree frame in
  layers entities branches.

(** The segment and the entity pushed for a branch and for an entity, and
    the tests under which they are. *)
Section Pushed.
Variables progressDistance scale offsetX offsetY : num.

Definition visible (b : Sunflower.Branch.t) : bool :=
  Pine.emits (Sunflower.Branch.distFromRoot b) (Sunflower.Branch.length b)
    progressDistance.

Definition segmentOf (b : Sunflower.Branch.t) : SimpleBranch :=
  let tStart := mkVector2 (x (Sunflower.Branch.start b) * scale + offsetX)%num
                          (y (Sunflower.Branch.start b) * scale + offsetY)%num
  in
  let tEnd := mkVector2 (x (Sunflower.Branch.end_ b) * scale + offsetX)%num
                        (y (Sunflower.Branch.end_ b) * scale + offsetY)%num in
  let tControl :=
    mkVector2 (x (Sunflower.Branch.control b) * scale + offsetX)%num
              (y (Sunflower.Branch.control b) * scale + offsetY)%num in
  let localT := localT b progressDistance in
  let omt := (Fin 1 - localT)%num in
  let curControlX := (omt * x tStart + localT * x tControl)%num in
  let curControlY := (omt * y tStart + localT * y tControl)%num in
  let q1X := (omt * x tControl + localT * x tEnd)%num in
  let q1Y := (omt * y tControl + localT * y tEnd)%num in
  let curEndX := (omt * curControlX + localT * q1X)%num in
  let curEndY := (omt * curControlY + localT * q1Y)%num in
  let visibleStroke := (Sunflower.Branch.strokeWidth b * scale)%num in
  mkSimpleBranch tStart (mkVector2 curEndX curEndY) visibleStroke
    (mkVector2 curControlX curControlY).

Definition shown (entity : Sunflower.Entity.t) : bool :=
  (progressDistance >? Sunflower.Entity.distFromRoot entity)%num &&
  (Sunflower.fadeOpacity entity progressDistance >? Fin 0.01)%num.

Definition entityOf (entity : Sunflower.Entity.t) : Sunflower.Entity.t :=
  {| Sunflower.Entity.center :=
       mkVector2 (x (Sunflower.Entity.center entity) * scale + offsetX)%num
                 (y (Sunflower.Entity.center entity) * scale + offsetY)%num;
     Sunflower.Entity.radius := (Sunflower.Entity.radius entity * scale)%num;
     Sunflower.Entity.baseColor := Sunflower.Entity.baseColor entity;
     Sunflower.Entity.highlightColor := Sunflower.Entity.highlightColor entity;
     Sunflower.Entity.type := Sunflower.Entity.type entity;
     Sunflower.Entity.distFromRoot := Sunflower.Entity.distFromRoot entity;
     Sunflower.Entity.opacity :=
       Some (Sunflower.fadeOpacity entity progressDistance) |}.

End Pushed.

(** Every entity of a tree. *)
Definition entities (t : Sunflower.Branch.t) : list Sunflower.Entity.t :=
  flat_map Sunflower.Branch.entities (Sunflower.branches t).

(** The distances of a tree are finite and the lengths positive. *)
Definition branch_ok (b : Sunflower.Branch.t) : Prop :=
  exists l d : Q,
    Sunflower.Branch.length b = Fin l /\
    Sunflower.Branch.distFromRoot b = Fin d /\ (0 < l)%Q /\
    Forall (fun e => finite (Sunflower.Entity.distFromRoot e))
           (Sunflower.Branch.entities b).

(** A stalk segment of length 10 whose only entity is a seed revealed at
    distance 50, after the segment has ended. *)
Definition sprout : Sunflower.Branch.t :=
  Sunflower.Branch.mk (mkVector2 (Fin 0) (Fin 0))
    (mkVector2 (Fin 0) (Fin (-10))) (Fin 8) (mkVector2 (Fin 0) (Fin (-5)))
    (Fin 10) (Fin 0) []
    [ {| Sunflower.Entity.center := mkVector2 (Fin 0) (Fin (-10));
         Sunflower.Entity.radius := Fin 7;
         Sunflower.Entity.baseColor :=
           mkColor (Fin 60) (Fin 40) (Fin 15) (Fin 1.0);
         Sunflower.Entity.highlightColor :=
           mkColor (Fin 90) (Fin 60) (Fin 25) (Fin 1.0);
         Sunflower.Entity.type := Sunflower.seed;
         Sunflower.Entity.distFromRoot := Fin 50;
         Sunflower.Entity.opacity := None |} ].

End SunflowerVideo.

(* ================================================================== *)
(** * sunflower.ts: what the generator builds

    [stalk segmentsLeft l d t]: [t] has the form of a plant that
    [generateSunflower] returns for the counter [segmentsLeft], the segment
    length [l] and the cumulative distance [d]. *)

Module SunflowerTree.

Definition leaf_grown (l d : Q) (e : Sunflower.Entity.t) : Prop :=
  Sunflower.Entity.type e = Sunflower.leaf /\
  Sunflower.Entity.distFromRoot e = Fin (d + l * 0.5) /\
  exists rad : Q, Sunflower.Entity.radius e = Fin rad /\ 50 <= rad < 70.

Definition head_grown (d : Q) (e : Sunflower.Entity.t) : Prop :=
  Sunflower.Entity.type e <> Sunflower.leaf /\
  (exists de : Q, Sunflower.Entity.distFromRoot e = Fin de /\ d <= de) /\
  exists rad : Q, Sunflower.Entity.radius e = Fin rad /\ 6 <= rad < 45.

Fixpoint stalk (segmentsLeft : nat) (l d : Q) (t : Sunflower.Branch.t)
  : Prop :=
  Sunflower.Branch.length t = Fin l /\
  Sunflower.Branch.distFromRoot t = Fin d /\
  (exists w : Q, Sunflower.Branch.strokeWidth t = Fin w /\ 8 <= w /\
                 inject_Z (Z.of_nat segmentsLeft) * 3.5 <= w) /\
  match segmentsLeft with
  | O =>
      Sunflower.Branch.children t = [] /\
      (170 <= List.length (Sunflower.Branch.entities t) <= 179)%nat /\
      Forall (head_grown d) (Sunflower.Branch.entities t)
  | S segmentsLeft' =>
      (exists child,
          Sunflower.Branch.children t = [child] /\
          stalk segmentsLeft' (l * 0.95) (d + l) child) /\
      (if ((segmentsLeft <? 7)%nat && (1 <? segmentsLeft)%nat)%bool
       then exists e, Sunflower.Branch.entities t = [e] /\ leaf_grown l d e
       else Sunflower.Branch.entities t = [])
  end.

End SunflowerTree.

(** A sunflower inside a rectangle, and of finite geometry. *)
Module SunflowerGeometry.

Definition circle_in (B : Bounds) (e : Sunflower.Entity.t) : Prop :=
  let c := Sunflower.Entity.center e in
  let r := Sunflower.Entity.radius e in
  Pine.point_in B (mkVector2 (x c - r) (y c - r))%num /\
  Pine.point_in B (mkVector2 (x c + r) (y c + r))%num.

Definition branch_in (B : Bounds) (b : Sunflower.Branch.t) : Prop :=
  Pine.point_in B (Sunflower.Branch.start b) /\
  Pine.point_in B (Sunflower.Branch.end_ b) /\
  Pine.point_in B (Sunflower.Branch.control b) /\
  Forall (circle_in B) (Sunflower.Branch.entities b).

Definition encloses (B : Bounds) (t : Sunflower.Branch.t) : Prop :=
  Forall (branch_in B) (Sunflower.branches t).

Definition entity_wf (e : Sunflower.Entity.t) : Prop :=
  Pine.finite_vec (Sunflower.Entity.center e) /\
  exists r : Q, Sunflower.Entity.radius e = Fin r /\ (0 <= r)%Q.

Definition branch_wf (b : Sunflower.Branch.t) : Prop :=
  Pine.finite_vec (Sunflower.Branch.start b) /\
  Pine.finite_vec (Sunflower.Branch.end_ b) /\
  Pine.finite_vec (Sunflower.Branch.control b) /\
  Forall entity_wf (Sunflower.Branch.entities b).

Definition tree_wf (t : Sunflower.Branch.t) : Prop :=
  Forall branch_wf (Sunflower.branches t).

Definition entity_in_canvas (e : Sunflower.Entity.t) : Prop :=
  let c := Sunflower.Entity.center e in
  let r := Sunflower.Entity.radius e in
  in_canvas (mkVector2 (x c - r) (y c - r))%num /\
  in_canvas (mkVector2 (x c + r) (y c + r))%num.

End SunflowerGeometry.

(* ================================================================== *)
(** * grid.ts: the isometric grid

    The size of the grid, the canvas, the pixel position of each cell and
    the order in which the cells are drawn, as [main] computes them from
    the tree placements. *)

(** [Math.round]: the nearest integer, halves upwards. *)
Definition Math_round (a : num) : num :=
  match a with
  | Fin q => Fin (inject_Z (Qfloor (q + (1 # 2))))
  | _ => a
  end.

Module Grid.

Definition SCALE : num := Fin 4.

Record TreeConfig : Type := mkTreeConfig {
  imagePath : string;
  gridX : num;
  gridY : num;
  scale : num;
  trunkStartPosition : Vector2
}.

Module CONFIG.
Definition tileWidth : num := (Fin 100 * SCALE)%num.
Definition grassHeight : num := (Fin 15 * SCALE)%num.
Definition soilHeight : num := (Fin 40 * SCALE)%num.
End CONFIG.

Record GridPosition : Type := mkGridPosition {
  gp_gridX : num;
  gp_gridY : num;
  pixelX : num;
  pixelY : num
}.

(** One turn of the loop over the tree placements. *)
Definition growGrid (maxGridDim : num) (tree : TreeConfig) : num :=
  let maxGridDim :=
    if (gridX tree >? maxGridDim - Fin 1)%num then (gridX tree + Fin 1)%num
    else maxGridDim in
  let maxGridDim :=
    if (gridY tree >? maxGridDim - Fin 1)%num then (gridY tree + Fin 1)%num
    else maxGridDim in
  maxGridDim.

(** [CONFIG.gridSize], from the minimum size 3. *)
Definition gridSize (treePlacements : list TreeConfig) : num :=
  fold_left growGrid treePlacements (Fin 3).

Definition canvasWidth (gridSize : num) : num :=
  let totalGridWidth :=
    ((gridSize * Fin 2) * (CONFIG.tileWidth / Fin 2))%num in
  (totalGridWidth + Fin 100 * SCALE)%num.

Definition canvasHeight (gridSize : num) : num :=
  (gridSize * (CONFIG.tileWidth / Fin 2)
   + (CONFIG.soilHeight + CONFIG.grassHeight) * Fin 2
   + Fin 200 * SCALE)%num.

Definition startX (gridSize : num) : num := (canvasWidth gridSize / Fin 2)%num.
Definition startY : num := (Fin 150 * SCALE)%num.

(** The body of the two loops that generate the grid positions. *)
Definition position (gridSize : num) (x y : nat) : GridPosition :=
  let x := Fin (inject_Z (Z.of_nat x)) in
  let y := Fin (inject_Z (Z.of_nat y)) in
  let isoX := ((x - y) * (CONFIG.tileWidth / Fin 2))%num in
  let isoY := ((x + y) * (CONFIG.tileWidth / Fin 4))%num in
  let pixelX := (startX gridSize + isoX)%num in
  let pixelY := (startY + isoY + CONFIG.tileWidth / Fin 4)%num in
  {| gp_gridX := x; gp_gridY := y;
     pixelX := Math_round pixelX; pixelY := Math_round pixelY |}.

(** The number of turns of [for (let i = 0; i < bound; i++)] for a finite
    [bound]. *)
Definition turns (bound : Q) : nat := Z.to_nat (Qceiling bound).

(** [positions] after the two loops, for a finite grid size: row by row. *)
Definition positions (gridSize : Q) : list GridPosition :=
  flat_map (fun y => map (fun x => position (Fin gridSize) x y)
                       (seq 0 (turns gridSize)))
           (seq 0 (turns gridSize)).

(** [(a, b) => (a.gridY + a.gridX) - (b.gridY + b.gridX)] *)
Definition byDiagonal (a b : GridPosition) : num :=
  ((gp_gridY a + gp_gridX a) - (gp_gridY b + gp_gridX b))%num.

Definition sortedPositions (gridSize : Q) : list GridPosition :=
  JSArray.sort byDiagonal (positions gridSize).

(** The five faces [drawIsoBlock] fills with [drawPoly], in drawing order:
    the two soil faces, the two grass faces and the top. *)
Definition blockFaces (gridX gridY offsetX offsetY : num)
  : list (list Vector2) :=
  let isoX := ((gridX - gridY) * (CONFIG.tileWidth / Fin 2))%num in
  let isoY := ((gridX + gridY) * (CONFIG.tileWidth / Fin 4))%num in
  let x := (offsetX + isoX)%num in
  let y := (offsetY + isoY)%num in
  let w := CONFIG.tileWidth in
  let h := (CONFIG.tileWidth / Fin 2)%num in
  let soilY := (y + CONFIG.grassHeight)%num in
  [ [ mkVector2 x (soilY + h)%num;
      mkVector2 (x + w / Fin 2)%num (soilY + h / Fin 2)%num;
      mkVector2 (x + w / Fin 2)%num
                (soilY + h / Fin 2 + CONFIG.soilHeight)%num;
      mkVector2 x (soilY + h + CONFIG.soilHeight)%num ];
    [ mkVector2 x (soilY + h)%num;
      mkVector2 (x - w / Fin 2)%num (soilY + h / Fin 2)%num;
      mkVector2 (x - w / Fin 2)%num
                (soilY + h / Fin 2 + CONFIG.soilHeight)%num;
      mkVector2 x (soilY + h + CONFIG.soilHeight)%num ];
    [ mkVector2 x (y + h)%num;
      mkVector2 (x + w / Fin 2)%num (y + h / Fin 2)%num;
      mkVector2 (x + w / Fin 2)%num
                (y + h / Fin 2 + CONFIG.grassHeight)%num;
      mkVector2 x (y + h + CONFIG.grassHeight)%num ];
    [ mkVector2 x (y + h)%num;
      mkVector2 (x - w / Fin 2)%num (y + h / Fin 2)%num;
      mkVector2 (x - w / Fin 2)%num
                (y + h / Fin 2 + CONFIG.grassHeight)%num;
      mkVector2 x (y + h + CONFIG.grassHeight)%num ];
    [ mkVector2 x y;
      mkVector2 (x + w / Fin 2)%num (y + h / Fin 2)%num;
      mkVector2 x (y + h)%num;
      mkVector2 (x - w / Fin 2)%num (y + h / Fin 2)%num ] ].

(** The faces drawn for a grid position in the loop over
    [sortedPositions]. *)
Definition drawnFaces (gridSize : Q) (pos : GridPosition)
  : list (list Vector2) :=
  blockFaces (gp_gridX pos) (gp_gridY pos) (startX (Fin gridSize)) startY.

(** Three placements; the grid they need is 5 by 5. *)
Definition sampleTrees : list TreeConfig :=
  [ mkTreeConfig "pine.png" (Fin 0) (Fin 1) (Fin 0.5)
      (mkVector2 (Fin 540) (Fin 1000));
    mkTreeConfig "sunflower.png" (Fin 4) (Fin 2) (Fin 0.5)
      (mkVector2 (Fin 540) (Fin 1000));
    mkTreeConfig "pine.png" (Fin 2) (Fin 3) (Fin 0.4)
      (mkVector2 (Fin 540) (Fin 1000)) ].

End Grid.

(* ================================================================== *)
(** * Inputs of moderate size

    The numbers of this development are exact rationals, those of the
    programs are doubles.  The programs run their generators on small
    numbers: [generateVideo] of pine.ts passes depth 8, the start (0, 0),
    the length 180, the angle -90 and the distance 0, that of sunflower.ts
    8 segments and the length 120.  The statements below that compare
    computed sums, products or quotients are made for arguments of this
    order of magnitude, at which the double arithmetic of the programs is
    far from overflow, underflow and absorption, and with the slack that
    rounding needs. *)

(** A finite number between two bounds. *)
Definition between (lo hi : Q) (v : num) : Prop :=
  exists q : Q, v = Fin q /\ lo <= q <= hi.

(** The arguments of a generator: at most 8 levels, a start within 1000 of
    the origin on both axes, a length from 1 to 1000, an angle from -360 to
    360 and a distance from 0 to 100. *)
Definition moderate (depth : nat) (start : Vector2)
    (length angle currentDist : num) : Prop :=
  (depth <= 8)%nat /\
  between (-1000) 1000 (x start) /\ between (-1000) 1000 (y start) /\
  between 1 1000 length /\ between (-360) 360 angle /\
  between 0 100 currentDist.

(** A branch whose length is a positive finite number and whose distance
    and entities' distances are finite numbers. *)
Definition measured (b : Pine.Branch.t) : Prop :=
  exists l d : Q,
    Pine.Branch.length b = Fin l /\ Pine.Branch.distFromRoot b = Fin d /\
    0 < l /\
    Forall (fun e => finite (Pine.Entity.distFromRoot e))
           (Pine.Branch.entities b).

(** A distance, a progress or a growth budget of at most 10^9. *)
Definition span : Q := 1000000000.


(* ================================================================== *)
(** * The random source as an object

    [rand] is an object whose private field [seed] every [next()]
    overwrites, and the generators receive a reference to it.  In this
    second embedding of the generators the sources live in a store, a
    reference is a location of the store, and [next] reads and writes the
    field of the object it is called on.  [None] is a call on a reference
    that holds no object. *)

Module RandStore.

Definition loc : Type := nat.

Definition store : Type := list SeededRandom.t.

Definition Run (A : Type) : Type := store -> option (A * store).

Definition ret {A : Type} (a : A) : Run A := fun h => Some (a, h).

Definition bind {A B : Type} (m : Run A) (k : A -> Run B) : Run B :=
  fun h => match m h with
           | Some (a, h') => k a h'
           | None => None
           end.

Notation "x <~ m ;; k" := (bind m (fun x => k))
  (at level 61, m at next level, right associativity).

(** The store with the object at [rand] replaced. *)
Fixpoint update (rand : loc) (obj : SeededRandom.t) (h : store) : store :=
  match h, rand with
  | [], _ => []
  | _ :: h', O => obj :: h'
  | o :: h', S rand' => o :: update rand' obj h'
  end.

(** [new SeededRandom(seedString)]: a new object, whose [seed] the
    constructor sets. *)
Definition new `{NodeCrypto} (seedString : string) : Run loc :=
  fun h => Some (List.length h, h ++ [SeededRandom.new seedString]).

(** [rand.next()]: the method body of [SeededRandom.next] on the field of
    the object at [rand]. *)
Definition next (rand : loc) : Run Q :=
  fun h => match nth_error h rand with
           | Some obj =>
               let (u, obj') := SeededRandom.next obj in
               Some (u, update rand obj' h)
           | None => None
           end.

(** [rand.nextFloat(min, max)] and [rand.nextInt(min, max)] *)
Definition nextFloat (rand : loc) (min max : Q) : Run Q :=
  u <~ next rand ;; ret (min + u * (max - min))%Q.

Definition nextInt (rand : loc) (min max : Q) : Run Z :=
  v <~ nextFloat rand min max ;; ret (Qfloor v).

Fixpoint for_push {A : Type} (body : nat -> Run (list A)) (from n : nat)
  : Run (list A) :=
  match n with
  | O => ret []
  | S n' =>
      pushed <~ body from ;;
      rest <~ for_push body (S from) n' ;;
      ret (pushed ++ rest)
  end.

(** [hm] does with the object at [rand] what the state-passing [m] does
    with its state: it returns the same value, leaves that state in the
    object, and leaves the rest of the store as it was. *)
Definition simulates {A : Type} (rand : loc) (m : Rand A) (hm : Run A)
  : Prop :=
  forall h obj, nth_error h rand = Some obj ->
    hm h = Some (fst (m obj), update rand (snd (m obj)) h).

Section Generators.
Context `{JSMath}.

(** ** pine.ts *)

(** One turn of the entity loop of [generateFullTree]. *)
Definition generateEntity (rand : loc) (depth : nat) (start end_ : Vector2)
    (length currentDist : num) : Run (list Pine.Entity.t) :=
  radius <~ nextFloat rand 15 25 ;;
  t <~ nextFloat rand 0.1 1.0 ;;
  let px := ((Fin 1 - Fin t) * x start + Fin t * x end_)%num in
  let py := ((Fin 1 - Fin t) * y start + Fin t * y end_)%num in
  offsetX <~ nextFloat rand (-15) 15 ;;
  offsetY <~ nextFloat rand (-15) 15 ;;
  let eX := (px + Fin offsetX)%num in
  let eY := (py + Fin offsetY)%num in
  let entityDist := (currentDist + length * Fin t)%num in
  isCone <~ (if (depth <=? 4)%nat
             then c <~ nextFloat rand 0 1 ;; ret (Fin c >? Fin 0.92)%num
             else ret false) ;;
  if isCone then
    dr <~ nextFloat rand 0 40 ;;
    let r := (Fin 100 + Fin dr)%num in
    dg <~ nextFloat rand 0 30 ;;
    let g := (Fin 70 + Fin dg)%num in
    db <~ nextFloat rand 0 20 ;;
    let b := (Fin 40 + Fin db)%num in
    ret [ {| Pine.Entity.center := mkVector2 eX eY;
             Pine.Entity.radius := (Fin radius * Fin 0.9)%num;
             Pine.Entity.baseColor := mkColor r g b (Fin 1.0);
             Pine.Entity.highlightColor :=
               mkColor (Math_min (Fin 255) (r + Fin 40))
                       (Math_min (Fin 255) (g + Fin 40))
                       (Math_min (Fin 255) (b + Fin 40)) (Fin 1.0);
             Pine.Entity.type := Pine.fruit;
             Pine.Entity.distFromRoot := entityDist;
             Pine.Entity.opacity := None |} ]
  else
    dr <~ nextFloat rand 0 20 ;;
    let rBase := (Fin 20 + Fin dr)%num in
    dg <~ nextFloat rand 0 40 ;;
    let gBase := (Fin 60 + Fin dg)%num in
    db <~ nextFloat rand 0 20 ;;
    let bBase := (Fin 30 + Fin db)%num in
    ret [ {| Pine.Entity.center := mkVector2 eX eY;
             Pine.Entity.radius := Fin radius;
             Pine.Entity.baseColor := mkColor rBase gBase bBase (Fin 1.0);
             Pine.Entity.highlightColor :=
               mkColor (rBase + Fin 30) (gBase + Fin 30) (bBase + Fin 30)
                       (Fin 1.0);
             Pine.Entity.type := Pine.leaf;
             Pine.Entity.distFromRoot := entityDist;
             Pine.Entity.opacity := None |} ].

(** [generateFullTree(rand, start, length, angle, depth, currentDist)];
    [rand] is the reference to the source.  [depth] is the recursion counter:
    the program passes 8, and each call passes [depth - 1] under
    [depth > 0]. *)
Fixpoint generateFullTree (rand : loc) (depth : nat) (start : Vector2)
    (length angle : num) (currentDist : num) {struct depth}
  : Run Pine.Branch.t :=
  (* 1. end point *)
  angleOffset <~ nextFloat rand (-10) 10 ;;
  let radAngle := ((angle + Fin angleOffset) * (Math_PI / Fin 180))%num in
  let endX := (x start + length * Math_cos radAngle)%num in
  let endY := (y start + length * Math_sin radAngle)%num in
  let end_ := mkVector2 endX endY in
  (* 2. control point *)
  let dx := (x end_ - x start)%num in
  let dy := (y end_ - y start)%num in
  let mid := mkVector2 (x start + dx * Fin 0.5)%num
                       (y start + dy * Fin 0.5)%num in
  p <~ nextFloat rand (-0.05) 0.05 ;;
  let perpLen := (Fin p * length)%num in
  let branchLength := Math_sqrt (dx * dx + dy * dy)%num in
  let perpX := if nneqb branchLength (Fin 0)
               then ((nopp dy / branchLength) * perpLen)%num else Fin 0 in
  let perpY := if nneqb branchLength (Fin 0)
               then ((dx / branchLength) * perpLen)%num else Fin 0 in
  let control := mkVector2 (x mid + perpX)%num (y mid + perpY)%num in
  w <~ nextFloat rand (-1) 1 ;;
  let strokeWidth :=
    Math_max (Fin 2) (Fin (inject_Z (Z.of_nat depth)) * Fin 5 + Fin w)%num in
  (* 3. branching *)
  children <~
    match depth with
    | O => ret []
    | S depth' =>
        da <~ nextFloat rand (-10) 10 ;;
        let newAngle := (angle + Fin da)%num in
        f <~ nextFloat rand 0.85 0.95 ;;
        let newLength := (length * Fin f)%num in
        leader <~ generateFullTree rand depth' end_ newLength newAngle
                    (currentDist + length)%num ;;
        sideBranchCount <~ nextInt rand 1 3 ;;
        sides <~ for_push (fun i =>
            s <~ nextFloat rand 0 1 ;;
            let sideDir := if (Fin s >? Fin 0.5)%num then Fin 1 else Fin (-1) in
            v <~ nextFloat rand 60 85 ;;
            let angleVariation := (Fin v * sideDir)%num in
            let newAngle := (angle + angleVariation)%num in
            f <~ nextFloat rand 0.5 0.7 ;;
            let newLength := (length * Fin f)%num in
            if (1 <? depth)%nat then
              child <~ generateFullTree rand depth' end_ newLength newAngle
                         (currentDist + length)%num ;;
              ret [child]
            else ret [])
          0 (Z.to_nat sideBranchCount) ;;
        ret (leader :: sides)
    end ;;
  (* 4. entities *)
  entities <~
    (if (depth <=? 5)%nat then
       count <~ nextInt rand 6 10 ;;
       for_push (fun i => generateEntity rand depth start end_ length
                            currentDist)
                0 (Z.to_nat count)
     else ret []) ;;
  ret (Pine.Branch.mk start end_ strokeWidth control length currentDist
                 children entities).

(** ** sunflower.ts *)

(** One turn of the petal loop of [generateSunflower]. *)
Definition generatePetal (rand : loc) (end_ : Vector2) (currentDist : num)
    (petalCount : Z) (i : nat) : Run (list Sunflower.Entity.t) :=
  let petalRadius := Fin 110 in
  let pAngle :=
    ((Sunflower.nat_num i / Fin (inject_Z petalCount)) * Math_PI * Fin 2)%num in
  j <~ nextFloat rand (-10) 10 ;;
  let r := (petalRadius + Fin j)%num in
  let pX := (x end_ + Math_cos pAngle * r)%num in
  let pY := (y end_ + Math_sin pAngle * r)%num in
  radius <~ nextFloat rand 35 45 ;;
  ret [ {| Sunflower.Entity.center := mkVector2 pX pY;
           Sunflower.Entity.radius := Fin radius;
           Sunflower.Entity.baseColor :=
             mkColor (Fin 255) (Fin 204) (Fin 0) (Fin 1.0);
           Sunflower.Entity.highlightColor :=
             mkColor (Fin 255) (Fin 230) (Fin 100) (Fin 1.0);
           Sunflower.Entity.type := Sunflower.petal;
           Sunflower.Entity.distFromRoot := currentDist;
           Sunflower.Entity.opacity := None |} ].

(** One turn of the seed loop of [generateSunflower]. *)
Definition generateSeed (rand : loc) (end_ : Vector2) (currentDist : num)
    (i : nat)
  : Run (list Sunflower.Entity.t) :=
  let seedCount := Fin 150 in
  let goldenAngle := (Fin 137.508 * (Math_PI / Fin 180))%num in
  let spread := Fin 7 in
  let r := (spread * Math_sqrt (Sunflower.nat_num i))%num in
  let theta := (Sunflower.nat_num i * goldenAngle)%num in
  let sX := (x end_ + r * Math_cos theta)%num in
  let sY := (y end_ + r * Math_sin theta)%num in
  let isCenter := (Sunflower.nat_num i <? seedCount * Fin 0.3)%num in
  let rCol := if isCenter then Fin 40 else Fin 60 in
  let gCol := if isCenter then Fin 25 else Fin 40 in
  let bCol := if isCenter then Fin 10 else Fin 15 in
  radius <~ nextFloat rand 6 9 ;;
  ret [ {| Sunflower.Entity.center := mkVector2 sX sY;
           Sunflower.Entity.radius := Fin radius;
           Sunflower.Entity.baseColor := mkColor rCol gCol bCol (Fin 1.0);
           Sunflower.Entity.highlightColor :=
             mkColor (rCol + Fin 30) (gCol + Fin 20) (bCol + Fin 10) (Fin 1.0);
           Sunflower.Entity.type := Sunflower.seed;
           Sunflower.Entity.distFromRoot :=
             (currentDist + Sunflower.nat_num i * Fin 0.5)%num;
           Sunflower.Entity.opacity := None |} ].

(** The leaf a stalk segment carries when [1 < segmentsLeft < 7]. *)
Definition generateLeaf (rand : loc) (segmentsLeft : nat)
    (start end_ : Vector2)
    (length currentDist : num) : Run (list Sunflower.Entity.t) :=
  if ((segmentsLeft <? 7)%nat && (1 <? segmentsLeft)%nat)%bool then
    let isLeft := (segmentsLeft mod 2 =? 0)%nat in
    let leafDir := if isLeft then Fin (-1) else Fin 1 in
    let leafStart :=
      mkVector2 (x start * Fin 0.5 + x end_ * Fin 0.5)%num
                (y start * Fin 0.5 + y end_ * Fin 0.5)%num in
    leafRadius <~ nextFloat rand 50 70 ;;
    let petioleLen := Fin 40 in
    let leafX := (x leafStart + petioleLen * leafDir)%num in
    let leafY := (y leafStart - Fin 10)%num in
    ret [ {| Sunflower.Entity.center := mkVector2 leafX leafY;
             Sunflower.Entity.radius := Fin leafRadius;
             Sunflower.Entity.baseColor :=
               mkColor (Fin 50) (Fin 120) (Fin 50) (Fin 1.0);
             Sunflower.Entity.highlightColor :=
               mkColor (Fin 80) (Fin 160) (Fin 80) (Fin 1.0);
             Sunflower.Entity.type := Sunflower.leaf;
             Sunflower.Entity.distFromRoot :=
               (currentDist + length * Fin 0.5)%num;
             Sunflower.Entity.opacity := None |} ]
  else ret [].

(** [generateSunflower(rand, start, length, angle, segmentsLeft,
    currentDist)]; [segmentsLeft] is the recursion counter (the program
    passes 8). *)
Fixpoint generateSunflower (rand : loc) (segmentsLeft : nat)
    (start : Vector2)
    (length angle : num) (currentDist : num) {struct segmentsLeft}
  : Run Sunflower.Branch.t :=
  (* 1. stem segment *)
  angleOffset <~ nextFloat rand (-5) 5 ;;
  let radAngle := ((angle + Fin angleOffset) * (Math_PI / Fin 180))%num in
  let endX := (x start + length * Math_cos radAngle)%num in
  let endY := (y start + length * Math_sin radAngle)%num in
  let end_ := mkVector2 endX endY in
  let midX := ((x start + x end_) / Fin 2)%num in
  let midY := ((y start + y end_) / Fin 2)%num in
  cx <~ nextFloat rand (-10) 10 ;;
  cy <~ nextFloat rand (-10) 10 ;;
  let control := mkVector2 (midX + Fin cx)%num (midY + Fin cy)%num in
  let strokeWidth :=
    Math_max (Fin 8) (Sunflower.nat_num segmentsLeft * Fin 3.5)%num in
  (* 2. stalk or flower head *)
  match segmentsLeft with
  | S segmentsLeft' =>
      entities <~ generateLeaf rand segmentsLeft start end_ length
                    currentDist ;;
      let newLength := (length * Fin 0.95)%num in
      da <~ nextFloat rand (-2) 2 ;;
      child <~ generateSunflower rand segmentsLeft' end_ newLength
                 (angle + Fin da)%num (currentDist + length)%num ;;
      ret (Sunflower.Branch.mk start end_ strokeWidth control length currentDist
                     [child] entities)
  | O =>
      petalCount <~ nextInt rand 20 30 ;;
      petals <~ for_push (generatePetal rand end_ currentDist petalCount)
                  0 (Z.to_nat petalCount) ;;
      seeds <~ for_push (generateSeed rand end_ currentDist) 0 150 ;;
      ret (Sunflower.Branch.mk start end_ strokeWidth control length currentDist
                     [] (petals ++ seeds))
  end.

End Generators.

(** [const rand = new SeededRandom(CONFIG.seed)] followed by the call of
    the generator, as [generateVideo] of each program has them. *)
Definition pine `{JSMath} `{NodeCrypto} (seedString : string) (depth : nat)
    (start : Vector2) (length angle currentDist : num) : Run Pine.Branch.t :=
  rand <~ new seedString ;;
  generateFullTree rand depth start length angle currentDist.

Definition sunflower `{JSMath} `{NodeCrypto} (seedString : string)
    (segments : nat) (start : Vector2) (length angle currentDist : num)
  : Run Sunflower.Branch.t :=
  rand <~ new seedString ;;
  generateSunflower rand segments start length angle currentDist.

(** Two calls of a generator on one and the same source. *)
Definition pineTwice `{JSMath} `{NodeCrypto} (seedString : string)
    (depth : nat) (start : Vector2) (length angle currentDist : num)
  : Run (Pine.Branch.t * Pine.Branch.t) :=
  rand <~ new seedString ;;
  first <~ generateFullTree rand depth start length angle currentDist ;;
  second <~ generateFullTree rand depth start length angle currentDist ;;
  ret (first, second).

(** The store [h'] holds the objects of [h], unchanged, at the same
    locations. *)
Definition keeps (h h' : store) : Prop := firstn (List.length h) h' = h.

End RandStore.

(* ================================================================== *)
(** * Numbers: the finite fragment *)

Section NumFacts.

Lemma nle_Fin (p q : Q) : (Fin p <= Fin q)%num <-> (p <= q)%Q.
Proof.
  unfold nle; simpl. destruct (Qcompare_spec p q); split; intro; try easy; lra.
Qed.

Lemma nlt_Fin (p q : Q) : (Fin p < Fin q)%num <-> (p < q)%Q.
Proof.
  unfold nlt; simpl. destruct (Qcompare_spec p q); split; intro; try easy; lra.
Qed.

Lemma neq_Fin (p q : Q) : (Fin p == Fin q)%num <-> (p == q)%Q.
Proof. unfold neq; simpl. apply Qeq_bool_iff. Qed.

Lemma ndiv_Fin (p q : Q) : ~ (q == 0)%Q -> (Fin p / Fin q)%num = Fin (p / q).
Proof.
  intro Hq. unfold ndiv, Qsign.
  destruct (Qcompare_spec q 0); try reflexivity. contradiction.
Qed.

Lemma Math_min_Fin (p q : Q) : Math_min (Fin p) (Fin q) = Fin (qmin p q).
Proof. unfold Math_min, qmin. destruct (Fin p <=? Fin q)%num; reflexivity. Qed.

Lemma Math_max_Fin (p q : Q) : Math_max (Fin p) (Fin q) = Fin (qmax p q).
Proof. unfold Math_max, qmax. destruct (Fin p <=? Fin q)%num; reflexivity. Qed.

Lemma qmin_spec (p q : Q) :
  (p <= q /\ qmin p q = p) \/ (q < p /\ qmin p q = q).
Proof.
  unfold qmin. destruct (Fin p <=? Fin q)%num eqn:E.
  - left. split; [now apply nle_Fin | reflexivity].
  - right. split; [| reflexivity].
    destruct (Qlt_le_dec q p) as [L | L]; [exact L |].
    apply nle_Fin in L. unfold nle in L. congruence.
Qed.

Lemma qmax_spec (p q : Q) :
  (p <= q /\ qmax p q = q) \/ (q < p /\ qmax p q = p).
Proof.
  unfold qmax. destruct (Fin p <=? Fin q)%num eqn:E.
  - left. split; [now apply nle_Fin | reflexivity].
  - right. split; [| reflexivity].
    destruct (Qlt_le_dec q p) as [L | L]; [exact L |].
    apply nle_Fin in L. unfold nle in L. congruence.
Qed.

Lemma coerceIn_Fin (v lo hi : Q) :
  coerceIn (Fin v) (Fin lo) (Fin hi) = Fin (qclamp v lo hi).
Proof. unfold coerceIn. now rewrite Math_min_Fin, Math_max_Fin. Qed.

Lemma qclamp01_range (v : Q) : 0 <= qclamp v 0 1 <= 1.
Proof.
  unfold qclamp.
  destruct (qmin_spec v 1) as [[? ->] | [? ->]];
    destruct (qmax_spec 0 v) as [[? E] | [? E]];
    destruct (qmax_spec 0 1) as [[? E1] | [? E1]];
    rewrite ?E, ?E1; lra.
Qed.

Lemma qclamp01_mono (v w : Q) : v <= w -> qclamp v 0 1 <= qclamp w 0 1.
Proof.
  intro Hvw. unfold qclamp.
  destruct (qmin_spec v 1) as [[? ->] | [? ->]];
    destruct (qmin_spec w 1) as [[? ->] | [? ->]];
    repeat match goal with
           | |- context [qmax ?a ?b] =>
               destruct (qmax_spec a b) as [[? ->] | [? ->]]
           end; lra.
Qed.

Lemma qclamp01_one (v : Q) : qclamp v 0 1 == 1 <-> 1 <= v.
Proof.
  unfold qclamp.
  destruct (qmin_spec v 1) as [[? ->] | [? ->]];
    match goal with
    | |- context [qmax ?a ?b] => destruct (qmax_spec a b) as [[? ->] | [? ->]]
    end; split; intro; lra.
Qed.

Lemma qsmooth_mono (f g : Q) :
  0 <= f -> f <= g -> g <= 1 -> qsmooth f <= qsmooth g.
Proof.
  intros Hf Hfg Hg. unfold qsmooth.
  assert (E : g * g * (3 - 2 * g) - f * f * (3 - 2 * f)
              == (g - f) * (g * (1 - f) + f * (1 - g)
                            + 2 * g * (1 - g) + 2 * f * (1 - f))) by ring.
  assert (0 <= (g - f) * (g * (1 - f) + f * (1 - g)
                            + 2 * g * (1 - g) + 2 * f * (1 - f))).
  { apply Qmult_le_0_compat; [lra |].
    assert (0 <= g * (1 - f)) by (apply Qmult_le_0_compat; lra).
    assert (0 <= f * (1 - g)) by (apply Qmult_le_0_compat; lra).
    assert (0 <= g * (1 - g)) by (apply Qmult_le_0_compat; lra).
    assert (0 <= f * (1 - f)) by (apply Qmult_le_0_compat; lra).
    lra. }
  lra.
Qed.

Lemma qsmooth_one (f : Q) : f == 1 -> qsmooth f == 1.
Proof. intro E. unfold qsmooth. rewrite E. ring. Qed.

End NumFacts.

(* ================================================================== *)
(** * Monotone reveal and fade *)

Section Reveal.

Lemma clamp_ratio_Fin (p d l : Q) :
  0 < l ->
  coerceIn ((Fin p - Fin d) / Fin l)%num (Fin 0) (Fin 1)
  = Fin (qclamp ((p - d) / l) 0 1).
Proof.
  intro Hl. simpl nsub. rewrite ndiv_Fin by lra. apply coerceIn_Fin.
Qed.

Lemma ratio_mono (p1 p2 d l : Q) :
  0 < l -> p1 <= p2 -> (p1 - d) / l <= (p2 - d) / l.
Proof.
  intros Hl Hp. unfold Qdiv.
  apply Qmult_le_compat_r; [lra |].
  apply Qlt_le_weak, Qinv_lt_0_compat, Hl.
Qed.

Lemma ratio_ge_one (p d l : Q) : 0 < l -> (1 <= (p - d) / l <-> d + l <= p).
Proof.
  intro Hl. split; intro Hp.
  - apply (Qmult_le_compat_r _ _ l) in Hp; [| lra].
    unfold Qdiv in Hp. rewrite <- Qmult_assoc, (Qmult_comm (/ l)) in Hp.
    rewrite Qmult_inv_r in Hp by lra. lra.
  - apply Qle_shift_div_l; [exact Hl | lra].
Qed.

(** The fade of an entity revealed at [d], with fade speed [fs]. *)
Lemma fade_Fin (p d fs : Q) :
  0 < fs ->
  smoothStep (coerceIn ((Fin p - Fin d) / Fin fs)%num (Fin 0) (Fin 1))
  = Fin (qsmooth (qclamp ((p - d) / fs) 0 1)).
Proof. intro Hfs. now rewrite clamp_ratio_Fin. Qed.

Lemma fade_mono (p1 p2 d fs : Q) :
  0 < fs -> p1 <= p2 ->
  qsmooth (qclamp ((p1 - d) / fs) 0 1) <= qsmooth (qclamp ((p2 - d) / fs) 0 1).
Proof.
  intros Hfs Hp.
  pose proof (qclamp01_range ((p1 - d) / fs)).
  pose proof (qclamp01_range ((p2 - d) / fs)).
  apply qsmooth_mono; try tauto.
  apply qclamp01_mono, ratio_mono; assumption.
Qed.

Lemma fade_full (p d fs : Q) :
  0 < fs -> d + fs <= p -> qsmooth (qclamp ((p - d) / fs) 0 1) == 1.
Proof.
  intros Hfs Hp. apply qsmooth_one, qclamp01_one, ratio_ge_one; assumption.
Qed.

End Reveal.

(** C3.  For a branch of positive length, the truncation parameter
    [localT] that [flattenTreeOrganic] computes is non-decreasing in the
    progress distance, and once it is 1 it is 1 at every larger progress.
    (Length, distance from the root and progress are finite numbers.) *)
Theorem localT_monotone (B : Pine.Branch.t) (p1 p2 : num) :
  finite (Pine.Branch.length B) ->
  (Fin 0 < Pine.Branch.length B)%num ->
  finite (Pine.Branch.distFromRoot B) ->
  finite p1 -> finite p2 ->
  (p1 < p2)%num ->
  (Pine.localT B p1 <= Pine.localT B p2)%num /\
  ((Pine.localT B p1 == Fin 1)%num -> (Pine.localT B p2 == Fin 1)%num).
Proof.
  intros [l Hl] Hpos [d Hd] [q1 ->] [q2 ->] Hlt.
  unfold Pine.localT. rewrite Hl, Hd in *.
  apply nlt_Fin in Hpos. apply nlt_Fin in Hlt.
  rewrite !clamp_ratio_Fin by assumption.
  split.
  - apply nle_Fin, qclamp01_mono, ratio_mono; [assumption | lra].
  - rewrite !neq_Fin, !qclamp01_one. intro H1.
    apply Qle_trans with (1 := H1). apply ratio_mono; [assumption | lra].
Qed.


(* ================================================================== *)
(** * The random source *)

Section RandomSource.

Lemma parseInt16_nonneg (digits : list N) : (0 <= parseInt16 digits)%Z.
Proof.
  unfold parseInt16.
  assert (G : forall acc, (0 <= acc)%Z ->
            (0 <= fold_left (fun acc d => acc * 16 + Z.of_N d) digits acc)%Z).
  { induction digits as [| d ds IH]; intros acc Hacc; simpl; [exact Hacc |].
    apply IH. lia. }
  apply G. lia.
Qed.

Lemma toDouble_nonneg (z : Z) : (0 <= z)%Z -> (0 <= toDouble z)%Z.
Proof.
  intro Hz. unfold toDouble.
  destruct (Z.abs z <? 9007199254740992)%Z; [exact Hz |].
  set (e := (Z.log2 (Z.abs z) - 52)%Z).
  assert (Hq : (0 <= Z.shiftr (Z.abs z) e)%Z)
    by (apply Z.shiftr_nonneg; lia).
  apply Z.mul_nonneg_nonneg; [lia |].
  apply Z.shiftl_nonneg.
  repeat match goal with |- context [if ?c then _ else _] => destruct c end;
    lia.
Qed.

(** Below 2^53 nothing is rounded: from a state below 2^32, [next()] is the
    linear congruential step [(state * 1664525 + 1013904223) mod 2^32]. *)
Lemma next_lcg (r : SeededRandom.t) :
  (0 <= seed r < 4294967296)%Z ->
  seed (snd (next r)) = ((seed r * 1664525 + 1013904223) mod 4294967296)%Z.
Proof.
  intro Hr. unfold next. cbn [snd seed].
  assert (E1 : toDouble (seed r * 1664525) = (seed r * 1664525)%Z).
  { unfold toDouble.
    destruct (Z.ltb_spec (Z.abs (seed r * 1664525)) 9007199254740992);
      [reflexivity | lia]. }
  rewrite E1.
  assert (E2 : toDouble (seed r * 1664525 + 1013904223)
               = (seed r * 1664525 + 1013904223)%Z).
  { unfold toDouble.
    destruct (Z.ltb_spec (Z.abs (seed r * 1664525 + 1013904223))
                9007199254740992); [reflexivity | lia]. }
  rewrite E2. apply Z.rem_mod_nonneg; lia.
Qed.

Lemma new_RandOK `{NodeCrypto} (seedString : string) :
  RandOK (SeededRandom.new seedString).
Proof. apply toDouble_nonneg, parseInt16_nonneg. Qed.

Lemma rspec_ret {A : Type} (a : A) (P : A -> Prop) : P a -> rspec (ret a) P.
Proof. intros Ha r Hr. split; assumption. Qed.

Lemma rspec_bind {A B : Type} (m : Rand A) (k : A -> Rand B)
    (P : A -> Prop) (Q : B -> Prop) :
  rspec m P -> (forall a, P a -> rspec (k a) Q) -> rspec (bind m k) Q.
Proof.
  intros Hm Hk r Hr. unfold bind.
  destruct (Hm r Hr) as [Ha Hr']. destruct (m r) as [a r']. simpl in *.
  exact (Hk a Ha r' Hr').
Qed.

Lemma rspec_if {A : Type} (c : bool) (m1 m2 : Rand A) (P : A -> Prop) :
  (c = true -> rspec m1 P) -> (c = false -> rspec m2 P) ->
  rspec (if c then m1 else m2) P.
Proof. destruct c; auto. Qed.

(** [next()] returns a number in [0, 1). *)
Lemma rspec_next : rspec next (fun u => 0 <= u < 1).
Proof.
  intros r Hr. unfold next, RandOK in *. cbn [fst snd seed].
  assert (B : (0 <= Z.rem (toDouble (toDouble (seed r * 1664525)
                                     + 1013904223)) 4294967296
               < 4294967296)%Z).
  { apply Z.rem_bound_pos; [| lia].
    apply toDouble_nonneg.
    assert (0 <= toDouble (seed r * 1664525))%Z
      by (apply toDouble_nonneg; lia).
    lia. }
  set (s := Z.rem (toDouble (toDouble (seed r * 1664525) + 1013904223))
                  4294967296) in *.
  split; [| lia].
  split.
  - apply Qle_shift_div_l; [reflexivity |].
    rewrite Qmult_0_l. change 0 with (inject_Z 0). rewrite <- Zle_Qle. lia.
  - apply Qlt_shift_div_r; [reflexivity |].
    rewrite Qmult_1_l. change 4294967296 with (inject_Z 4294967296).
    rewrite <- Zlt_Qlt. lia.
Qed.

(** [nextFloat(min, max)] returns a number in [min, max). *)
Lemma rspec_nextFloat (min max : Q) :
  min < max -> rspec (nextFloat min max) (fun v => min <= v < max).
Proof.
  intro Hlt. unfold nextFloat.
  apply rspec_bind with (1 := rspec_next). intros u [H0 H1].
  apply rspec_ret.
  assert (0 <= u * (max - min)) by (apply Qmult_le_0_compat; lra).
  assert (u * (max - min) < 1 * (max - min))
    by (apply Qmult_lt_compat_r; lra).
  lra.
Qed.

(** [nextInt(min, max)], between integers, returns one of [min .. max-1]. *)
Lemma rspec_nextInt (min max : Z) :
  (min < max)%Z ->
  rspec (nextInt (inject_Z min) (inject_Z max))
        (fun n => (min <= n < max)%Z).
Proof.
  intro Hlt. unfold nextInt.
  apply rspec_bind with (P := fun v => inject_Z min <= v < inject_Z max).
  - apply rspec_nextFloat. now rewrite <- Zlt_Qlt.
  - intros v [Hlo Hhi]. apply rspec_ret. split.
    + apply Qfloor_resp_le in Hlo. now rewrite Qfloor_Z in Hlo.
    + pose proof (Qfloor_le v) as Hf.
      assert (L : inject_Z (Qfloor v) < inject_Z max) by lra.
      now rewrite <- Zlt_Qlt in L.
Qed.

(** A loop whose every turn pushes elements satisfying [P]. *)
Lemma rspec_for_push {A : Type} (body : nat -> Rand (list A))
    (P : A -> Prop) (n : nat) :
  (forall i, rspec (body i) (Forall P)) ->
  forall from, rspec (for_push body from n) (Forall P).
Proof.
  intro Hbody. induction n as [| n IH]; intro from; simpl.
  - apply rspec_ret. constructor.
  - apply rspec_bind with (1 := Hbody from). intros pushed Hp.
    apply rspec_bind with (1 := IH (S from)). intros rest Hrest.
    apply rspec_ret. apply Forall_app. split; assumption.
Qed.

End RandomSource.

(* ================================================================== *)
(** * The pine generator: entities lie within their branch *)

Ltac rdraw_as v :=
  lazymatch goal with
  | |- rspec (bind (nextFloat ?lo ?hi) _) _ =>
      apply rspec_bind with (1 := @rspec_nextFloat lo hi eq_refl);
      let Hv := fresh "H" v in intros v Hv
  end.

Tactic Notation "rdraw" := (let v := fresh "v" in rdraw_as v).
Tactic Notation "rdraw" ident(v) := rdraw_as v.

Section PineGenerator.
Context `{JSMath}.

Lemma generateEntity_ok (depth : nat) (start end_ : Vector2) (l d : Q) :
  0 < l ->
  rspec (Pine.generateEntity depth start end_ (Fin l) (Fin d))
        (Forall (fun e => exists de : Q,
                   Pine.Entity.distFromRoot e = Fin de /\ d < de < d + l)).
Proof.
  intro Hl. unfold Pine.generateEntity.
  rdraw. rdraw t. rdraw. rdraw.
  assert (Hd : d < d + l * t < d + l).
  { assert (l * 0.1 <= l * t) by (apply Qmult_le_l; lra).
    assert (l * t < l * 1) by (apply Qmult_lt_l; lra).
    lra. }
  apply rspec_bind with (P := fun _ : bool => True).
  { apply rspec_if; intros _.
    - rdraw. now apply rspec_ret.
    - now apply rspec_ret. }
  intros [|] _; rdraw; rdraw; rdraw; apply rspec_ret;
    (constructor; [| constructor]); exists (d + l * t);
    (split; [reflexivity | exact Hd]).
Qed.

Lemma generateFullTree_ok (depth : nat) :
  forall (start : Vector2) (l : Q) (angle : num) (d : Q),
    0 < l ->
    rspec (Pine.generateFullTree depth start (Fin l) angle (Fin d))
          (Pine.tree_ok l d).
Proof.
  induction depth as [| depth' IH]; intros start l angle d Hl.
  - (* depth 0: no child *)
    cbn [Pine.generateFullTree].
    rdraw. rdraw. rdraw.
    apply rspec_bind with (P := fun c : list Pine.Branch.t => c = []).
    { now apply rspec_ret. }
    intros c ->.
    apply rspec_bind with
      (P := Forall (fun e => exists de : Q,
                      Pine.Entity.distFromRoot e = Fin de /\ d < de < d + l)).
    { apply rspec_if; intros _.
      - apply rspec_bind with (1 := @rspec_nextInt 6 10 eq_refl).
        intros count _. apply rspec_for_push. intros _.
        now apply generateEntity_ok.
      - apply rspec_ret. constructor. }
    intros ents Hents. apply rspec_ret.
    repeat split. constructor; [| constructor].
    exists l, d. repeat split; assumption.
  - cbn [Pine.generateFullTree].
    rdraw. rdraw. rdraw.
    set (end_ := mkVector2 _ _).
    apply rspec_bind with
      (P := fun c : list Pine.Branch.t =>
              Forall (fun t => Forall Pine.branch_ok (Pine.branches t)) c).
    { rdraw. rdraw f.
      assert (Hlf : 0 < l * f) by (apply Qmult_lt_0_compat; lra).
      apply rspec_bind with (1 := IH end_ (l * f) _ (d + l) Hlf).
      intros leader (_ & _ & Hleader).
      apply rspec_bind with (1 := @rspec_nextInt 1 3 eq_refl).
      intros sideBranchCount _.
      apply rspec_bind with
        (P := Forall (fun t => Forall Pine.branch_ok (Pine.branches t))).
      { apply rspec_for_push. intros _.
        rdraw. rdraw. rdraw f'.
        assert (Hlf' : 0 < l * f') by (apply Qmult_lt_0_compat; lra).
        apply rspec_if; intros _.
        - apply rspec_bind with (1 := IH end_ (l * f') _ (d + l) Hlf').
          intros child (_ & _ & Hchild). apply rspec_ret.
          constructor; [exact Hchild | constructor].
        - apply rspec_ret. constructor. }
      intros sides Hsides. apply rspec_ret.
      constructor; assumption. }
    intros children Hchildren.
    apply rspec_bind with
      (P := Forall (fun e => exists de : Q,
                      Pine.Entity.distFromRoot e = Fin de /\ d < de < d + l)).
    { apply rspec_if; intros _.
      - apply rspec_bind with (1 := @rspec_nextInt 6 10 eq_refl).
        intros count _. apply rspec_for_push. intros _.
        now apply generateEntity_ok.
      - apply rspec_ret. constructor. }
    intros ents Hents. apply rspec_ret.
    repeat split. cbn [Pine.branches]. constructor.
    + exists l, d. repeat split; assumption.
    + apply Forall_flat_map. exact Hchildren.
Qed.

End PineGenerator.

(* ================================================================== *)
(** * The sunflower head *)

Section SunflowerHead.
Context `{JSMath}.

Lemma bind_run {A B : Type} (m : Rand A) (k : A -> Rand B) (r : SeededRandom.t) :
  bind m k r = k (fst (m r)) (snd (m r)).
Proof. unfold bind. now destruct (m r). Qed.

(** A loop whose every turn pushes exactly one element: as many elements
    as turns, the [k]-th pushed by turn [from + k]. *)
Lemma for_push_singletons {A : Type} (body : nat -> Rand (list A))
    (P : nat -> A -> Prop) :
  (forall i r, exists a, fst (body i r) = [a] /\ P i a) ->
  forall n from r,
    List.length (fst (for_push body from n r)) = n /\
    forall k dflt, (k < n)%nat ->
      P (from + k)%nat (nth k (fst (for_push body from n r)) dflt).
Proof.
  intro Hbody. induction n as [| n IH]; intros from r.
  - split; [reflexivity | intros; lia].
  - cbn [for_push]. rewrite !bind_run. cbn [ret fst].
    destruct (Hbody from r) as (a & Ea & Pa). rewrite Ea.
    destruct (IH (S from) (snd (body from r))) as [Hlen Hnth].
    split.
    + simpl. now rewrite Hlen.
    + intros [| k] dflt Hk; simpl.
      * now rewrite Nat.add_0_r.
      * rewrite Nat.add_succ_r. apply (Hnth k dflt). lia.
Qed.

Lemma generatePetal_run (end_ : Vector2) (currentDist : num) (petalCount : Z)
    (i : nat) (r : SeededRandom.t) :
  exists e, fst (Sunflower.generatePetal end_ currentDist petalCount i r) = [e]
            /\ (Sunflower.Entity.type e = Sunflower.petal /\
                Sunflower.Entity.distFromRoot e = currentDist).
Proof.
  unfold Sunflower.generatePetal. rewrite !bind_run. cbn [ret fst].
  eexists. split; [reflexivity |]. split; reflexivity.
Qed.

Lemma generateSeed_run (end_ : Vector2) (currentDist : num)
    (i : nat) (r : SeededRandom.t) :
  exists e, fst (Sunflower.generateSeed end_ currentDist i r) = [e]
            /\ (Sunflower.Entity.type e = Sunflower.seed /\
                Sunflower.Entity.distFromRoot e
                = (currentDist + Sunflower.nat_num i * Fin 0.5)%num).
Proof.
  unfold Sunflower.generateSeed. rewrite !bind_run. cbn [ret fst].
  eexists. split; [reflexivity |]. split; reflexivity.
Qed.

Lemma seed_delay_increasing (c : Q) (i j : nat) :
  (i < j)%nat ->
  (Fin c + Sunflower.nat_num i * Fin 0.5 <
   Fin c + Sunflower.nat_num j * Fin 0.5)%num.
Proof.
  intro Hij. unfold Sunflower.nat_num. simpl. apply nlt_Fin.
  assert (inject_Z (Z.of_nat i) < inject_Z (Z.of_nat j))
    by (rewrite <- Zlt_Qlt; lia).
  lra.
Qed.

End SunflowerHead.

(* ================================================================== *)
(** * Bounds *)

Section Order.

Lemma nle_trans (a b c : num) : (a <= b)%num -> (b <= c)%num -> (a <= c)%num.
Proof.
  destruct a as [p | | |], b as [q | | |], c as [s | | |];
    try (intros; reflexivity); try (intros; discriminate).
  rewrite !nle_Fin. apply Qle_trans.
Qed.

Lemma nle_refl (a : num) : a <> NaN -> (a <= a)%num.
Proof.
  destruct a as [p | | |]; intro Ha; try reflexivity; try congruence.
  apply nle_Fin, Qle_refl.
Qed.

Lemma nle_not_nan (a b : num) : (a <= b)%num -> a <> NaN /\ b <> NaN.
Proof.
  destruct a, b; intro Hab; try discriminate; split; congruence.
Qed.

Lemma nleb_total (a b : num) :
  a <> NaN -> b <> NaN -> (a <=? b)%num = false -> (b <= a)%num.
Proof.
  destruct a as [p | | |], b as [q | | |]; intros Ha Hb Hab;
    try congruence; try reflexivity; try discriminate.
  apply nle_Fin.
  destruct (Qlt_le_dec q p) as [L | L]; [lra |].
  apply nle_Fin in L. unfold nle in L. congruence.
Qed.

Lemma Math_min_spec (a b : num) :
  a <> NaN -> b <> NaN ->
  (Math_min a b <= a)%num /\ (Math_min a b <= b)%num /\ Math_min a b <> NaN.
Proof.
  intros Ha Hb.
  assert (E : Math_min a b = if (a <=? b)%num then a else b)
    by (destruct a, b; try reflexivity; congruence).
  rewrite E. destruct (a <=? b)%num eqn:Hab.
  - repeat split; [now apply nle_refl | exact Hab | exact Ha].
  - repeat split; [now apply nleb_total | now apply nle_refl | exact Hb].
Qed.

Lemma Math_max_spec (a b : num) :
  a <> NaN -> b <> NaN ->
  (a <= Math_max a b)%num /\ (b <= Math_max a b)%num /\ Math_max a b <> NaN.
Proof.
  intros Ha Hb.
  assert (E : Math_max a b = if (a <=? b)%num then b else a)
    by (destruct a, b; try reflexivity; congruence).
  rewrite E. destruct (a <=? b)%num eqn:Hab.
  - repeat split; [exact Hab | now apply nle_refl | exact Hb].
  - repeat split; [now apply nle_refl | now apply nleb_total | exact Ha].
Qed.

Lemma Math_max_cases (a b : num) :
  a <> NaN -> b <> NaN -> Math_max a b = a \/ Math_max a b = b.
Proof.
  intros Ha Hb.
  assert (E : Math_max a b = if (a <=? b)%num then b else a)
    by (destruct a, b; try reflexivity; congruence).
  rewrite E. destruct (a <=? b)%num; auto.
Qed.

Lemma finite_not_nan (a : num) : finite a -> a <> NaN.
Proof. intros [q ->]. discriminate. Qed.

Lemma Math_min4_spec (a b c d : num) :
  a <> NaN -> b <> NaN -> c <> NaN -> d <> NaN ->
  (Math_min4 a b c d <= a)%num /\ (Math_min4 a b c d <= b)%num /\
  (Math_min4 a b c d <= c)%num /\ (Math_min4 a b c d <= d)%num /\
  Math_min4 a b c d <> NaN.
Proof.
  intros Ha Hb Hc Hd. unfold Math_min4.
  destruct (Math_min_spec _ _ Ha Hb) as (L1 & L2 & N1).
  destruct (Math_min_spec _ _ N1 Hc) as (L3 & L4 & N2).
  destruct (Math_min_spec _ _ N2 Hd) as (L5 & L6 & N3).
  repeat split; eauto using nle_trans.
Qed.

Lemma Math_max4_spec (a b c d : num) :
  a <> NaN -> b <> NaN -> c <> NaN -> d <> NaN ->
  (a <= Math_max4 a b c d)%num /\ (b <= Math_max4 a b c d)%num /\
  (c <= Math_max4 a b c d)%num /\ (d <= Math_max4 a b c d)%num /\
  Math_max4 a b c d <> NaN.
Proof.
  intros Ha Hb Hc Hd. unfold Math_max4.
  destruct (Math_max_spec _ _ Ha Hb) as (L1 & L2 & N1).
  destruct (Math_max_spec _ _ N1 Hc) as (L3 & L4 & N2).
  destruct (Math_max_spec _ _ N2 Hd) as (L5 & L6 & N3).
  repeat split; eauto using nle_trans.
Qed.

End Order.

Section Enclosure.

Lemma Branch_ind' (P : Pine.Branch.t -> Prop) :
  (forall s e w c l d children ents,
      Forall P children -> P (Pine.Branch.mk s e w c l d children ents)) ->
  forall b, P b.
Proof.
  intro Hstep. fix IH 1. intros [s e w c l d children ents].
  apply Hstep. induction children as [| c0 cs IHcs]; constructor.
  - apply IH.
  - exact IHcs.
Qed.

Lemma bounds_grow_refl (B : Bounds) : bounds_nn B -> bounds_grow B B.
Proof. intros (? & ? & ? & ?). repeat split; now apply nle_refl. Qed.

Lemma bounds_grow_trans (B1 B2 B3 : Bounds) :
  bounds_grow B1 B2 -> bounds_grow B2 B3 -> bounds_grow B1 B3.
Proof.
  intros (? & ? & ? & ?) (? & ? & ? & ?). repeat split; eauto using nle_trans.
Qed.

Lemma point_in_grow (B B' : Bounds) (p : Vector2) :
  bounds_grow B B' -> Pine.point_in B p -> Pine.point_in B' p.
Proof.
  intros (? & ? & ? & ?) (? & ? & ? & ?). repeat split; eauto using nle_trans.
Qed.

Lemma circle_in_grow (B B' : Bounds) (e : Pine.Entity.t) :
  bounds_grow B B' -> Pine.circle_in B e -> Pine.circle_in B' e.
Proof. intros G [? ?]. split; eauto using point_in_grow. Qed.

Lemma branch_in_grow (B B' : Bounds) (b : Pine.Branch.t) :
  bounds_grow B B' -> Pine.branch_in B b -> Pine.branch_in B' b.
Proof.
  intros G (? & ? & ? & Hents).
  split; [| split; [| split]]; eauto using point_in_grow.
  eapply Forall_impl; [| exact Hents]. intros e. now apply circle_in_grow.
Qed.

Lemma boundsEntity_step (B : Bounds) (e : Pine.Entity.t) :
  bounds_nn B -> Pine.entity_wf e ->
  bounds_nn (Pine.boundsEntity B e) /\
  bounds_grow B (Pine.boundsEntity B e) /\
  Pine.circle_in (Pine.boundsEntity B e) e.
Proof.
  intros (N1 & N2 & N3 & N4) [[[cx Ecx] [cy Ecy]] (r & Er & Hr)].
  unfold Pine.boundsEntity, Pine.circle_in, Pine.point_in, bounds_nn,
    bounds_grow.
  rewrite Ecx, Ecy, Er. cbn [minX maxX minY maxY x y nsub nadd].
  assert (F : forall q, Fin q <> NaN) by (intros q; discriminate).
  destruct (Math_min_spec _ _ N1 (F (cx - r))) as (? & ? & ?).
  destruct (Math_max_spec _ _ N2 (F (cx + r))) as (? & ? & ?).
  destruct (Math_min_spec _ _ N3 (F (cy - r))) as (? & ? & ?).
  destruct (Math_max_spec _ _ N4 (F (cy + r))) as (? & ? & ?).
  assert ((Fin (cx - r) <= Fin (cx + r))%num) by (apply nle_Fin; lra).
  assert ((Fin (cy - r) <= Fin (cy + r))%num) by (apply nle_Fin; lra).
  repeat split; eauto using nle_trans.
Qed.

Lemma boundsOwn_step (B : Bounds) (b : Pine.Branch.t) :
  bounds_nn B ->
  Pine.finite_vec (Pine.Branch.start b) ->
  Pine.finite_vec (Pine.Branch.end_ b) ->
  Pine.finite_vec (Pine.Branch.control b) ->
  bounds_nn (Pine.boundsOwn b B) /\
  bounds_grow B (Pine.boundsOwn b B) /\
  Pine.point_in (Pine.boundsOwn b B) (Pine.Branch.start b) /\
  Pine.point_in (Pine.boundsOwn b B) (Pine.Branch.end_ b) /\
  Pine.point_in (Pine.boundsOwn b B) (Pine.Branch.control b).
Proof.
  intros (N1 & N2 & N3 & N4) [Sx Sy] [Ex Ey] [Cx Cy].
  apply finite_not_nan in Sx, Sy, Ex, Ey, Cx, Cy.
  unfold Pine.boundsOwn, Pine.point_in, bounds_nn, bounds_grow.
  cbn [minX maxX minY maxY].
  destruct (Math_min4_spec _ _ _ _ N1 Sx Ex Cx) as (? & ? & ? & ? & ?).
  destruct (Math_max4_spec _ _ _ _ N2 Sx Ex Cx) as (? & ? & ? & ? & ?).
  destruct (Math_min4_spec _ _ _ _ N3 Sy Ey Cy) as (? & ? & ? & ? & ?).
  destruct (Math_max4_spec _ _ _ _ N4 Sy Ey Cy) as (? & ? & ? & ? & ?).
  repeat split; assumption.
Qed.

Lemma boundsEntity_fold (ents : list Pine.Entity.t) :
  Forall Pine.entity_wf ents ->
  forall B, bounds_nn B ->
    bounds_nn (fold_left Pine.boundsEntity ents B) /\
    bounds_grow B (fold_left Pine.boundsEntity ents B) /\
    Forall (Pine.circle_in (fold_left Pine.boundsEntity ents B)) ents.
Proof.
  induction 1 as [| e ents He Hents IH]; intros B HB; cbn [fold_left].
  - split; [exact HB | split; [now apply bounds_grow_refl | constructor]].
  - destruct (boundsEntity_step B e HB He) as (N1 & G1 & C1).
    destruct (IH _ N1) as (N2 & G2 & C2).
    split; [exact N2 | split].
    + exact (bounds_grow_trans _ _ _ G1 G2).
    + constructor; [exact (circle_in_grow _ _ _ G2 C1) | exact C2].
Qed.

Lemma calculateBounds_children (cs : list Pine.Branch.t) :
  Forall (fun t => Pine.tree_wf t -> forall B, bounds_nn B ->
            bounds_nn (Pine.calculateBounds t B) /\
            bounds_grow B (Pine.calculateBounds t B) /\
            Pine.encloses (Pine.calculateBounds t B) t) cs ->
  Forall Pine.branch_wf (flat_map Pine.branches cs) ->
  forall B, bounds_nn B ->
    let B' := fold_left (fun cb child => Pine.calculateBounds child cb) cs B in
    bounds_nn B' /\ bounds_grow B B' /\
    Forall (Pine.branch_in B') (flat_map Pine.branches cs).
Proof.
  induction cs as [| c0 cs IHcs]; intros IH Hwf B HB; cbn [fold_left flat_map].
  - split; [exact HB | split; [now apply bounds_grow_refl | constructor]].
  - apply Forall_cons_iff in IH. destruct IH as [IH0 IHrest].
    cbn [flat_map] in Hwf. apply Forall_app in Hwf. destruct Hwf as [H0 Hrest].
    destruct (IH0 H0 B HB) as (N1 & G1 & E1).
    destruct (IHcs IHrest Hrest _ N1) as (N2 & G2 & E2).
    split; [exact N2 | split].
    + exact (bounds_grow_trans _ _ _ G1 G2).
    + apply Forall_app. split; [| exact E2].
      eapply Forall_impl; [| exact E1]. intros b'. now apply branch_in_grow.
Qed.

Lemma calculateBounds_encloses (t : Pine.Branch.t) :
  Pine.tree_wf t ->
  forall B, bounds_nn B ->
    bounds_nn (Pine.calculateBounds t B) /\
    bounds_grow B (Pine.calculateBounds t B) /\
    Pine.encloses (Pine.calculateBounds t B) t.
Proof.
  induction t as [s e w c l d children ents IH] using Branch_ind'.
  intros Hwf B HB. unfold Pine.tree_wf in Hwf. cbn [Pine.branches] in Hwf.
  apply Forall_cons_iff in Hwf. destruct Hwf as [(Fs & Fe & Fc & Fents) Hch].
  cbn [Pine.calculateBounds].
  set (b := Pine.Branch.mk s e w c l d children ents) in *.
  destruct (boundsOwn_step B b HB Fs Fe Fc) as (N1 & G1 & Ps & Pe & Pc).
  destruct (boundsEntity_fold _ Fents _ N1) as (N2 & G2 & Cents).
  cbn [Pine.Branch.entities b] in *.
  set (B2 := fold_left Pine.boundsEntity ents (Pine.boundsOwn b B)) in *.
  assert (Hb2 : Pine.branch_in B2 b).
  { split; [| split; [| split]]; try exact Cents;
      (eapply point_in_grow; [exact G2 | assumption]). }
  destruct (calculateBounds_children children IH Hch B2 N2) as (N3 & G3 & E3).
  split; [exact N3 | split].
  - exact (bounds_grow_trans _ _ _ (bounds_grow_trans _ _ _ G1 G2) G3).
  - unfold Pine.encloses. cbn [Pine.branches]. fold b.
    constructor; [exact (branch_in_grow _ _ _ G3 Hb2) | exact E3].
Qed.

End Enclosure.

(* ================================================================== *)
(** * The pine generator builds finite geometry *)

Section Finiteness.

Lemma finite_Fin (q : Q) : finite (Fin q).
Proof. now exists q. Qed.

Lemma finite_add (a b : num) : finite a -> finite b -> finite (a + b)%num.
Proof. intros [p ->] [q ->]. apply finite_Fin. Qed.

Lemma finite_sub (a b : num) : finite a -> finite b -> finite (a - b)%num.
Proof. intros [p ->] [q ->]. apply finite_Fin. Qed.

Lemma finite_mul (a b : num) : finite a -> finite b -> finite (a * b)%num.
Proof. intros [p ->] [q ->]. apply finite_Fin. Qed.

Lemma finite_opp (a : num) : finite a -> finite (nopp a).
Proof. intros [p ->]. apply finite_Fin. Qed.

Lemma finite_div (a b : num) :
  finite a -> finite b -> nneqb b (Fin 0) = true -> finite (a / b)%num.
Proof.
  intros [p ->] [q ->] Hq. rewrite ndiv_Fin; [apply finite_Fin |].
  intro E. unfold nneqb, neqb in Hq. apply negb_true_iff in Hq.
  apply Qeq_bool_neq in Hq. contradiction.
Qed.

Lemma Qsquares_nonneg (p q : Q) : 0 <= p * p + q * q.
Proof. nra. Qed.

End Finiteness.

Create HintDb fin.
#[local] Hint Resolve finite_Fin finite_add finite_sub finite_mul finite_opp
  finite_div : fin.

Section PineFinite.
Context `{JSMath}.
Hypothesis Hmath : JSMath_finite.

Lemma finite_cos (a : num) : finite a -> finite (Math_cos a).
Proof. intros [q ->]. apply Hmath. Qed.

Lemma finite_sin (a : num) : finite a -> finite (Math_sin a).
Proof. intros [q ->]. apply Hmath. Qed.

Lemma finite_sqrt_squares (a b : num) :
  finite a -> finite b -> finite (Math_sqrt (a * a + b * b)%num).
Proof. intros [p ->] [q ->]. apply Hmath. apply Qsquares_nonneg. Qed.

Lemma finite_PI_180 : finite (Math_PI / Fin 180)%num.
Proof. eexists. reflexivity. Qed.

Lemma generateEntity_wf (depth : nat) (start end_ : Vector2)
    (length currentDist : num) :
  Pine.finite_vec start -> Pine.finite_vec end_ ->
  rspec (Pine.generateEntity depth start end_ length currentDist)
        (Forall Pine.entity_wf).
Proof.
  intros [Sx Sy] [Ex Ey]. unfold Pine.generateEntity.
  rdraw radius. rdraw t. rdraw. rdraw.
  apply rspec_bind with (P := fun _ : bool => True).
  { apply rspec_if; intros _.
    - rdraw. now apply rspec_ret.
    - now apply rspec_ret. }
  intros [|] _; rdraw; rdraw; rdraw; apply rspec_ret;
    (constructor; [| constructor]); (split; [split |]);
    cbn [Pine.Entity.center Pine.Entity.radius x y];
    auto 10 with fin.
  - exists (radius * 0.9). split; [reflexivity | lra].
  - exists radius. split; [reflexivity | lra].
Qed.

Lemma generateFullTree_wf (depth : nat) :
  forall (start : Vector2) (length angle currentDist : num),
    Pine.finite_vec start -> finite length -> finite angle ->
    rspec (Pine.generateFullTree depth start length angle currentDist)
          Pine.tree_wf.
Proof.
  induction depth as [| depth' IH];
    intros start length angle currentDist [Sx Sy] Fl Fa;
    cbn [Pine.generateFullTree];
    rdraw; rdraw; rdraw;
    set (radAngle := ((angle + Fin v) * (Math_PI / Fin 180))%num);
    assert (Fr : finite radAngle)
      by (unfold radAngle; auto using finite_PI_180 with fin);
    set (end_ := mkVector2 (x start + length * Math_cos radAngle)%num
                           (y start + length * Math_sin radAngle)%num);
    assert (Fe : Pine.finite_vec end_)
      by (split; cbn [end_ x y]; auto using finite_cos, finite_sin with fin);
    destruct Fe as [Ex Ey];
    set (dx := (x end_ - x start)%num);
    set (dy := (y end_ - y start)%num);
    assert (Fdx : finite dx) by (unfold dx; auto with fin);
    assert (Fdy : finite dy) by (unfold dy; auto with fin);
    pose proof (finite_sqrt_squares dx dy Fdx Fdy) as Fs;
    set (branchLength := Math_sqrt (dx * dx + dy * dy)%num) in *;
    set (control := mkVector2 _ _);
    assert (Fc : Pine.finite_vec control)
      by (split; cbn [control x y];
          (destruct (nneqb branchLength (Fin 0)) eqn:Hb;
           [ auto 10 with fin | auto 10 with fin ])).
  - apply rspec_bind with (P := fun c : list Pine.Branch.t => c = []).
    { now apply rspec_ret. }
    intros c ->.
    apply rspec_bind with (P := Forall Pine.entity_wf).
    { apply rspec_if; intros _.
      - apply rspec_bind with (1 := @rspec_nextInt 6 10 eq_refl).
        intros count _. apply rspec_for_push. intros _.
        apply generateEntity_wf; split; assumption.
      - apply rspec_ret. constructor. }
    intros ents Hents. apply rspec_ret.
    constructor; [| constructor].
    split; [split; assumption | split; [split; assumption |]].
    split; [exact Fc | exact Hents].
  - apply rspec_bind with (P := Forall Pine.tree_wf).
    { rdraw. rdraw f.
      apply rspec_bind with (P := Pine.tree_wf).
      { apply IH; [split; assumption | auto with fin | auto with fin]. }
      intros leader Hleader.
      apply rspec_bind with (1 := @rspec_nextInt 1 3 eq_refl).
      intros sideBranchCount _.
      apply rspec_bind with (P := Forall Pine.tree_wf).
      { apply rspec_for_push. intros _.
        rdraw s. rdraw. rdraw f'.
        apply rspec_if; intros _.
        - apply rspec_bind with (P := Pine.tree_wf).
          { apply IH; [split; assumption | auto with fin |].
            destruct (Fin s >? Fin 0.5)%num; auto with fin. }
          intros child Hchild. apply rspec_ret.
          constructor; [exact Hchild | constructor].
        - apply rspec_ret. constructor. }
      intros sides Hsides. apply rspec_ret.
      constructor; assumption. }
    intros children Hchildren.
    apply rspec_bind with (P := Forall Pine.entity_wf).
    { apply rspec_if; intros _.
      - apply rspec_bind with (1 := @rspec_nextInt 6 10 eq_refl).
        intros count _. apply rspec_for_push. intros _.
        apply generateEntity_wf; split; assumption.
      - apply rspec_ret. constructor. }
    intros ents Hents. apply rspec_ret.
    unfold Pine.tree_wf. cbn [Pine.branches]. constructor.
    + split; [split; assumption | split; [split; assumption |]].
      split; [exact Fc | exact Hents].
    + apply Forall_flat_map. exact Hchildren.
Qed.

End PineFinite.

(* ================================================================== *)
(** * The growth-distance budget *)

Section Maximum.

Lemma is_max_not_nan (m : num) (l : list num) : is_max m l -> m <> NaN.
Proof.
  intros [Hin Hall]. rewrite Forall_forall in Hall.
  exact (proj1 (nle_not_nan _ _ (Hall m Hin))).
Qed.

Lemma is_max_singleton (m : num) : m <> NaN -> is_max m [m].
Proof.
  intro Hm. split; [now left |]. constructor; [now apply nle_refl | constructor].
Qed.

Lemma is_max_join (m1 m2 : num) (l1 l2 : list num) :
  is_max m1 l1 -> is_max m2 l2 -> is_max (Math_max m1 m2) (l1 ++ l2).
Proof.
  intros H1 H2.
  pose proof (is_max_not_nan _ _ H1) as N1.
  pose proof (is_max_not_nan _ _ H2) as N2.
  destruct H1 as [I1 A1], H2 as [I2 A2].
  destruct (Math_max_spec _ _ N1 N2) as (L1 & L2 & _).
  split.
  - apply in_or_app.
    destruct (Math_max_cases _ _ N1 N2) as [-> | ->]; auto.
  - apply Forall_app. split.
    + eapply Forall_impl; [| exact A1]. intros c Hc.
      exact (nle_trans _ _ _ Hc L1).
    + eapply Forall_impl; [| exact A2]. intros c Hc.
      exact (nle_trans _ _ _ Hc L2).
Qed.

(** The loop [for (x of xs) max = Math.max(max, x)]. *)
Lemma is_max_fold (l : list num) :
  all_nn l ->
  forall m0 l0, is_max m0 l0 -> is_max (fold_left Math_max l m0) (l0 ++ l).
Proof.
  induction 1 as [| c l Hc Hl IH]; intros m0 l0 H0; cbn [fold_left].
  - now rewrite app_nil_r.
  - replace (l0 ++ c :: l) with ((l0 ++ [c]) ++ l)
      by (now rewrite <- app_assoc).
    apply IH. apply is_max_join; [exact H0 | now apply is_max_singleton].
Qed.

(** The same loop when each [x] is itself the maximum of a list. *)
Lemma is_max_fold_lists (ms : list num) (ls : list (list num)) :
  Forall2 is_max ms ls ->
  forall m0 l0, is_max m0 l0 ->
    is_max (fold_left Math_max ms m0) (l0 ++ List.concat ls).
Proof.
  induction 1 as [| m l ms ls Hm Hrest IH]; intros m0 l0 H0;
    cbn [fold_left List.concat].
  - now rewrite app_nil_r.
  - rewrite app_assoc. apply IH. now apply is_max_join.
Qed.

Lemma fold_left_map_r {A B C : Type} (f : A -> B -> A) (g : C -> B)
    (l : list C) (a0 : A) :
  fold_left (fun a c => f a (g c)) l a0 = fold_left f (map g l) a0.
Proof. revert a0. induction l as [| c l IH]; intro a0; simpl; auto. Qed.

Lemma flat_map_flat_map {A B C : Type} (f : B -> list C) (g : A -> list B)
    (l : list A) :
  flat_map f (flat_map g l) = List.concat (map (fun a => flat_map f (g a)) l).
Proof.
  induction l as [| a l IH]; simpl; [reflexivity |].
  now rewrite flat_map_app, IH.
Qed.

Lemma map_flat_map {A B C : Type} (f : B -> C) (g : A -> list B)
    (l : list A) :
  map f (flat_map g l) = List.concat (map (fun a => map f (g a)) l).
Proof.
  induction l as [| a l IH]; simpl; [reflexivity |].
  now rewrite map_app, IH.
Qed.

Lemma all_nn_concat (ls : list (list num)) :
  all_nn (List.concat ls) -> Forall all_nn ls.
Proof.
  induction ls as [| l ls IH]; simpl; intro Hall; constructor.
  - exact (proj1 (proj1 (Forall_app _ _ _) Hall)).
  - apply IH. exact (proj2 (proj1 (Forall_app _ _ _) Hall)).
Qed.

End Maximum.

Section PineBudget.

(** [getMaxDist] of the pine: the largest end of a branch. *)
Lemma pine_getMaxDist_branch_ends (t : Pine.Branch.t) :
  all_nn (Pine.branch_ends t) ->
  is_max (Pine.getMaxDist t) (Pine.branch_ends t).
Proof.
  induction t as [s e w c l d children ents IH] using Branch_ind'.
  intro Hnn. unfold Pine.branch_ends in *. cbn [Pine.branches map] in *.
  cbn [Pine.getMaxDist Pine.Branch.distFromRoot Pine.Branch.length] in *.
  apply Forall_cons_iff in Hnn. destruct Hnn as [N0 Nch].
  rewrite map_flat_map in Nch |- *.
  rewrite (fold_left_map_r Math_max Pine.getMaxDist).
  change ((d + l)%num :: List.concat (map (fun a => map
            (fun b => (Pine.Branch.distFromRoot b + Pine.Branch.length b)%num)
            (Pine.branches a)) children))
    with ([(d + l)%num] ++ List.concat (map (fun a => map
            (fun b => (Pine.Branch.distFromRoot b + Pine.Branch.length b)%num)
            (Pine.branches a)) children)).
  apply is_max_fold_lists; [| now apply is_max_singleton].
  apply all_nn_concat in Nch.
  clear N0. induction children as [| c0 cs IHcs]; cbn [map]; constructor.
  - apply Forall_cons_iff in IH. apply Forall_cons_iff in Nch.
    apply (proj1 IH). exact (proj1 Nch).
  - apply Forall_cons_iff in IH. apply Forall_cons_iff in Nch.
    apply IHcs; [exact (proj2 IH) | exact (proj2 Nch)].
Qed.

End PineBudget.

Section SunflowerBudget.

Lemma SBranch_ind' (P : Sunflower.Branch.t -> Prop) :
  (forall s e w c l d children ents,
      Forall P children -> P (Sunflower.Branch.mk s e w c l d children ents)) ->
  forall b, P b.
Proof.
  intro Hstep. fix IH 1. intros [s e w c l d children ents].
  apply Hstep. induction children as [| c0 cs IHcs]; constructor.
  - apply IH.
  - exact IHcs.
Qed.

Lemma sunflower_getMaxDist_candidates (t : Sunflower.Branch.t) :
  all_nn (Sunflower.candidates t) ->
  is_max (Sunflower.getMaxDist t) (Sunflower.candidates t).
Proof.
  induction t as [s e w c l d children ents IH] using SBranch_ind'.
  intro Hnn. unfold Sunflower.candidates in *.
  cbn [Sunflower.branches flat_map] in *.
  cbn [Sunflower.getMaxDist Sunflower.Branch.distFromRoot
       Sunflower.Branch.length Sunflower.Branch.entities] in *.
  rewrite flat_map_flat_map in Hnn |- *.
  apply Forall_app in Hnn. destruct Hnn as [N0 Nch].
  apply Forall_cons_iff in N0. destruct N0 as [N0 Nents].
  rewrite (fold_left_map_r Math_max Sunflower.getMaxDist).
  rewrite (fold_left_map_r Math_max Sunflower.Entity.distFromRoot).
  apply is_max_fold_lists.
  - apply all_nn_concat in Nch.
    clear N0 Nents.
    induction children as [| c0 cs IHcs]; cbn [map]; constructor.
    + apply Forall_cons_iff in IH. apply Forall_cons_iff in Nch.
      apply (proj1 IH). exact (proj1 Nch).
    + apply Forall_cons_iff in IH. apply Forall_cons_iff in Nch.
      apply IHcs; [exact (proj2 IH) | exact (proj2 Nch)].
  - apply (is_max_fold _ Nents _ [(d + l)%num]).
    now apply is_max_singleton.
Qed.

Lemma sunflower_candidates_In (t : Sunflower.Branch.t) (c : num) :
  In c (Sunflower.candidates t) <->
  In c (Sunflower.branch_ends t ++ Sunflower.entity_dists t).
Proof.
  unfold Sunflower.candidates, Sunflower.branch_ends, Sunflower.entity_dists.
  rewrite in_app_iff, in_map_iff, !in_flat_map. split.
  - intros (b & Hb & [E | Hc]).
    + left. now exists b.
    + right. now exists b.
  - intros [(b & E & Hb) | (b & Hb & Hc)]; exists b; (split; [exact Hb |]).
    + now left.
    + now right.
Qed.

Lemma is_max_ext (m : num) (l l' : list num) :
  (forall c, In c l <-> In c l') -> is_max m l -> is_max m l'.
Proof.
  intros Hext [Hin Hall]. split; [now apply Hext |].
  rewrite Forall_forall in *. intros c Hc. apply Hall. now apply Hext.
Qed.

Lemma all_nn_ext (l l' : list num) :
  (forall c, In c l <-> In c l') -> all_nn l -> all_nn l'.
Proof.
  intros Hext Hall. unfold all_nn in *.
  rewrite Forall_forall in *. intros c Hc. apply Hall. now apply Hext.
Qed.

(** [getMaxDist] of the sunflower: the largest end of a branch or reveal
    distance of an entity. *)
Lemma sunflower_getMaxDist_max (t : Sunflower.Branch.t) :
  all_nn (Sunflower.branch_ends t ++ Sunflower.entity_dists t) ->
  is_max (Sunflower.getMaxDist t)
         (Sunflower.branch_ends t ++ Sunflower.entity_dists t).
Proof.
  intro Hnn.
  apply is_max_ext with (1 := sunflower_candidates_In t).
  apply sunflower_getMaxDist_candidates.
  apply all_nn_ext with (2 := Hnn). intro c.
  symmetry. apply sunflower_candidates_In.
Qed.

End SunflowerBudget.

Section PineBudgetGenerated.

(** In a tree whose entities lie within their branches, no entity is
    revealed after the last branch has ended. *)
Lemma pine_tree_ok_entities (t : Pine.Branch.t) (m : num) :
  Forall Pine.branch_ok (Pine.branches t) ->
  is_max m (Pine.branch_ends t) ->
  is_max m (Pine.branch_ends t ++ Pine.entity_dists t).
Proof.
  intros Hok [Hin Hall]. split; [apply in_or_app; now left |].
  apply Forall_app. split; [exact Hall |].
  rewrite Forall_forall in *. intros c Hc.
  unfold Pine.entity_dists in Hc. apply in_flat_map in Hc.
  destruct Hc as (b & Hb & Hc). apply in_map_iff in Hc.
  destruct Hc as (e & <- & He).
  destruct (Hok b Hb) as (l & d & El & Ed & Hl & Hents).
  rewrite Forall_forall in Hents. destruct (Hents e He) as (de & -> & Hde).
  apply nle_trans with (b := (Pine.Branch.distFromRoot b
                              + Pine.Branch.length b)%num).
  - rewrite El, Ed. simpl. apply nle_Fin. lra.
  - apply Hall. unfold Pine.branch_ends. apply in_map_iff. now exists b.
Qed.

Lemma pine_tree_ok_nn (t : Pine.Branch.t) :
  Forall Pine.branch_ok (Pine.branches t) -> all_nn (Pine.branch_ends t).
Proof.
  intro Hok. unfold all_nn, Pine.branch_ends.
  rewrite Forall_forall in *. intros c Hc. apply in_map_iff in Hc.
  destruct Hc as (b & <- & Hb).
  destruct (Hok b Hb) as (l & d & -> & -> & _). discriminate.
Qed.

End PineBudgetGenerated.

Lemma initialBounds_nn : bounds_nn initialBounds.
Proof. repeat split; discriminate. Qed.

(* ================================================================== *)
(** * The flattening projector *)

Section Flatten.

Lemma ngtb_nle_false (a b : num) :
  (a >? b)%num = true -> (a <= b)%num -> False.
Proof.
  unfold ngtb, nle.
  destruct a as [p | | |], b as [q | | |]; simpl; try discriminate.
  destruct (Qcompare_spec q p), (Qcompare_spec p q);
    try discriminate; intros; lra.
Qed.

Lemma fold_left_flat_map {A B C : Type} (f : A -> C -> A) (g : B -> list C)
    (l : list B) (a0 : A) :
  fold_left f (flat_map g l) a0
  = fold_left (fun a b => fold_left f (g b) a) l a0.
Proof.
  revert a0. induction l as [| b l IH]; intro a0; simpl; [reflexivity |].
  now rewrite fold_left_app, IH.
Qed.

Lemma fold_left_ext_Forall {A B : Type} (f g : A -> B -> A) (l : list B) :
  Forall (fun b => forall a, f a b = g a b) l ->
  forall a0, fold_left f l a0 = fold_left g l a0.
Proof.
  induction 1 as [| b l Hb Hl IH]; intro a0; simpl; [reflexivity |].
  now rewrite Hb, IH.
Qed.

(** The projector treats the branches of the tree one after the other,
    parents first, each on its own. *)
Lemma flattenTreeOrganic_fold (t : Pine.Branch.t) (p scale ox oy : num) :
  forall lists,
    Pine.flattenTreeOrganic t lists p scale ox oy
    = fold_left (fun lists b => Pine.flattenOwn b lists p scale ox oy)
        (Pine.branches t) lists.
Proof.
  induction t as [s e w c l d children ents IH] using Branch_ind'.
  intro lists. cbn [Pine.flattenTreeOrganic Pine.branches fold_left].
  rewrite fold_left_flat_map.
  apply fold_left_ext_Forall.
  eapply Forall_impl; [| exact IH]. intros child Hchild a. apply Hchild.
Qed.

Lemma flattenOwn_emits (b : Pine.Branch.t) (p scale ox oy : num)
    (bl : list SimpleBranch) (el : list Pine.Entity.t) :
  if Pine.emits (Pine.Branch.distFromRoot b) (Pine.Branch.length b) p
  then exists seg,
         fst (Pine.flattenOwn b (bl, el) p scale ox oy) = bl ++ [seg]
  else Pine.flattenOwn b (bl, el) p scale ox oy = (bl, el).
Proof.
  unfold Pine.emits, Pine.flattenOwn.
  change (coerceIn ((p - Pine.Branch.distFromRoot b) / Pine.Branch.length b)
            (Fin 0) (Fin 1))%num with (Pine.localT b p).
  destruct (p >? Pine.Branch.distFromRoot b)%num; cbn [andb];
    [| reflexivity].
  destruct (Pine.localT b p >? Fin 0)%num; [| reflexivity].
  eexists. reflexivity.
Qed.

Lemma flattenOwn_invisible (b : Pine.Branch.t) (p scale ox oy : num)
    (lists : list SimpleBranch * list Pine.Entity.t) :
  (Pine.localT b p <= Fin 0)%num ->
  Pine.flattenOwn b lists p scale ox oy = lists.
Proof.
  intro Hle. destruct lists as [bl el]. unfold Pine.flattenOwn.
  destruct (p >? Pine.Branch.distFromRoot b)%num; [| reflexivity].
  destruct (Pine.localT b p >? Fin 0)%num eqn:Hgt; [| reflexivity].
  destruct (ngtb_nle_false _ _ Hgt Hle).
Qed.

End Flatten.

(** C5.  [flattenTreeOrganic] handles every branch of the tree in turn,
    parents before children, whatever the ancestors did; a branch whose
    [localT] is not positive pushes no segment and no entity; and a branch
    pushes a segment exactly when [progressDistance > distFromRoot] and its
    clamped [localT] is positive, a test on the progress and the branch's own
    [distFromRoot] and [length]. *)
Theorem flatten_visits_every_branch (t : Pine.Branch.t)
    (lists : list SimpleBranch * list Pine.Entity.t)
    (progressDistance scale offsetX offsetY : num) :
  Pine.flattenTreeOrganic t lists progressDistance scale offsetX offsetY
  = fold_left
      (fun lists b =>
         Pine.flattenOwn b lists progressDistance scale offsetX offsetY)
      (Pine.branches t) lists /\
  (forall b lists',
      (Pine.localT b progressDistance <= Fin 0)%num ->
      Pine.flattenOwn b lists' progressDistance scale offsetX offsetY
      = lists') /\
  (forall b bl el,
      if Pine.emits (Pine.Branch.distFromRoot b) (Pine.Branch.length b)
           progressDistance
      then exists seg,
          fst (Pine.flattenOwn b (bl, el) progressDistance scale offsetX
                 offsetY) = bl ++ [seg]
      else Pine.flattenOwn b (bl, el) progressDistance scale offsetX offsetY
           = (bl, el)).
Proof.
  split; [apply flattenTreeOrganic_fold |].
  split.
  - intros b lists'. apply flattenOwn_invisible.
  - intros b bl el. apply flattenOwn_emits.
Qed.

(* ================================================================== *)
(** * The projector only appends *)

Section Appends.

Variables p scale ox oy : num.

Lemma flattenEntity_app (el : list Pine.Entity.t) (e : Pine.Entity.t) :
  Pine.flattenEntity p scale ox oy el e
  = el ++ Pine.flattenEntity p scale ox oy [] e.
Proof.
  unfold Pine.flattenEntity.
  destruct (p >? Pine.Entity.distFromRoot e)%num;
    [| now rewrite app_nil_r].
  destruct (Pine.fadeOpacity e p >? Fin 0.01)%num;
    [reflexivity | now rewrite app_nil_r].
Qed.

Lemma fold_flattenEntity_app (ents el : list Pine.Entity.t) :
  fold_left (Pine.flattenEntity p scale ox oy) ents el
  = el ++ fold_left (Pine.flattenEntity p scale ox oy) ents [].
Proof.
  revert el. induction ents as [| e ents IH]; intro el; cbn [fold_left].
  - now rewrite app_nil_r.
  - rewrite IH, (IH (Pine.flattenEntity p scale ox oy [] e)).
    rewrite (flattenEntity_app el e). now rewrite app_assoc.
Qed.

Lemma flattenOwn_app (b : Pine.Branch.t) (bl : list SimpleBranch)
    (el : list Pine.Entity.t) :
  Pine.flattenOwn b (bl, el) p scale ox oy
  = (bl ++ fst (Pine.flattenOwn b ([], []) p scale ox oy),
     el ++ snd (Pine.flattenOwn b ([], []) p scale ox oy)).
Proof.
  unfold Pine.flattenOwn.
  destruct (p >? Pine.Branch.distFromRoot b)%num;
    [| now rewrite !app_nil_r].
  destruct (Pine.localT b p >? Fin 0)%num; [| now rewrite !app_nil_r].
  cbn [fst snd]. now rewrite (fold_flattenEntity_app _ el).
Qed.

Lemma fold_flattenOwn_app (bs : list Pine.Branch.t) (bl : list SimpleBranch)
    (el : list Pine.Entity.t) :
  let run := fold_left (fun lists b => Pine.flattenOwn b lists p scale ox oy)
               bs in
  run (bl, el) = (bl ++ fst (run ([], [])), el ++ snd (run ([], []))).
Proof.
  cbv zeta. revert bl el.
  induction bs as [| b bs IH]; intros bl el; cbn [fold_left].
  - now rewrite !app_nil_r.
  - rewrite (flattenOwn_app b bl el), IH.
    destruct (Pine.flattenOwn b ([], []) p scale ox oy) as [bl0 el0] eqn:E0.
    cbn [fst snd]. rewrite (IH bl0 el0). cbn [fst snd].
    now rewrite !app_assoc.
Qed.

Lemma flattenTreeOrganic_app (t : Pine.Branch.t) (bl : list SimpleBranch)
    (el : list Pine.Entity.t) :
  Pine.flattenTreeOrganic t (bl, el) p scale ox oy
  = (bl ++ fst (Pine.flattenTreeOrganic t ([], []) p scale ox oy),
     el ++ snd (Pine.flattenTreeOrganic t ([], []) p scale ox oy)).
Proof. rewrite !flattenTreeOrganic_fold. apply fold_flattenOwn_app. Qed.

End Appends.

(* ================================================================== *)
(** * The projector on the store *)

Module StoreFacts.
Import PineStore.

Lemma prefix_refl (h : list obj) : prefix h h.
Proof. exists []. now rewrite app_nil_r. Qed.

Lemma prefix_trans (h1 h2 h3 : list obj) :
  prefix h1 h2 -> prefix h2 h3 -> prefix h1 h3.
Proof. intros [x1 ->] [x2 ->]. exists (x1 ++ x2). now rewrite app_assoc. Qed.

Lemma prefix_snoc (h : list obj) (o : obj) : prefix h (h ++ [o]).
Proof. now exists [o]. Qed.

Lemma prefix_length (h h' : list obj) :
  prefix h h' -> (List.length h <= List.length h')%nat.
Proof. intros [x ->]. rewrite length_app. lia. Qed.

Lemma nth_error_prefix (h h' : list obj) (l : loc) (o : obj) :
  prefix h h' -> nth_error h l = Some o -> nth_error h' l = Some o.
Proof.
  intros [ext ->] Hl. rewrite nth_error_app1; [exact Hl |].
  apply nth_error_Some. congruence.
Qed.

Lemma nth_error_fresh (h : list obj) (o : obj) :
  nth_error (h ++ [o]) (List.length h) = Some o.
Proof. rewrite nth_error_app2 by lia. now rewrite Nat.sub_diag. Qed.

Lemma repr_vec_mono (h h' : list obj) (l : loc) (v : Vector2) :
  prefix h h' -> repr_vec h l v -> repr_vec h' l v.
Proof. apply nth_error_prefix. Qed.

Lemma repr_color_mono (h h' : list obj) (l : loc) (c : Color) :
  prefix h h' -> repr_color h l c -> repr_color h' l c.
Proof. apply nth_error_prefix. Qed.

Lemma repr_entity_mono (h h' : list obj) (l : loc) (e : Pine.Entity.t) :
  prefix h h' -> repr_entity h l e -> repr_entity h' l e.
Proof.
  intros Hp (lc & lb & lh & Hl & Hc & Hb & Hh). exists lc, lb, lh.
  repeat split; eauto using nth_error_prefix, repr_vec_mono, repr_color_mono.
Qed.

Lemma repr_segment_mono (h h' : list obj) (l : loc) (sb : SimpleBranch) :
  prefix h h' -> repr_segment h l sb -> repr_segment h' l sb.
Proof.
  intros Hp (ls & le & lc & Hl & Hs & He & Hc). exists ls, le, lc.
  repeat split; eauto using nth_error_prefix, repr_vec_mono.
Qed.

Lemma Forall2_mono {A B : Type} (P Q : A -> B -> Prop) (l : list A)
    (l' : list B) :
  (forall a b, P a b -> Q a b) -> Forall2 P l l' -> Forall2 Q l l'.
Proof. intros HPQ H. induction H; constructor; auto. Qed.

Lemma entities_mono (h h' : list obj) (ls : list loc)
    (es : list Pine.Entity.t) :
  prefix h h' ->
  Forall2 (repr_entity h) ls es -> Forall2 (repr_entity h') ls es.
Proof.
  intro Hp. apply Forall2_mono. intros a b. now apply repr_entity_mono.
Qed.

Lemma segments_mono (h h' : list obj) (ls : list loc)
    (ss : list SimpleBranch) :
  prefix h h' ->
  Forall2 (repr_segment h) ls ss -> Forall2 (repr_segment h') ls ss.
Proof.
  intro Hp. apply Forall2_mono. intros a b. now apply repr_segment_mono.
Qed.

Lemma repr_branch_mono (h h' : list obj) (t : Pine.Branch.t) :
  prefix h h' -> forall l, repr_branch h l t -> repr_branch h' l t.
Proof.
  intro Hp.
  induction t as [s e w c len d children ents IH] using Branch_ind'.
  intros l Hr. inversion Hr as [l0 ls le lc chs lents ? ? ? ? ? ? ? ?
                                  Hl Hs He Hc Hch Hents]; subst.
  econstructor; eauto using nth_error_prefix, repr_vec_mono, entities_mono.
  clear - IH Hch. revert chs Hch.
  induction IH as [| c0 cs H0 Hcs IHcs]; intros chs Hch;
    inversion Hch; subst; constructor; auto.
Qed.

Lemma extends_refl (st : store) : extends st st.
Proof.
  split; [apply prefix_refl |].
  split; exists []; (split; [now rewrite app_nil_r | constructor]).
Qed.

Lemma extends_trans (st1 st2 st3 : store) :
  extends st1 st2 -> extends st2 st3 -> extends st1 st3.
Proof.
  intros (P1 & (b1 & B1 & F1) & (e1 & N1 & G1))
         (P2 & (b2 & B2 & F2) & (e2 & N2 & G2)).
  pose proof (prefix_length _ _ P1) as L.
  split; [exact (prefix_trans _ _ _ P1 P2) |].
  split.
  - exists (b1 ++ b2). split; [now rewrite B2, B1, app_assoc |].
    apply Forall_app. split; [exact F1 |].
    eapply Forall_impl; [| exact F2]. intros l Hl. simpl in Hl. lia.
  - exists (e1 ++ e2). split; [now rewrite N2, N1, app_assoc |].
    apply Forall_app. split; [exact G1 |].
    eapply Forall_impl; [| exact G2]. intros l Hl. simpl in Hl. lia.
Qed.

Lemma extends_objects (h h' : list obj) (bl el : list loc) :
  prefix h h' -> extends (mkStore h bl el) (mkStore h' bl el).
Proof.
  intro Hp. split; [exact Hp |].
  split; exists []; (split; [now rewrite app_nil_r | constructor]).
Qed.

Lemma run_bind {A B : Type} {m : Run A} (k : A -> Run B) {st st' : store}
    {a : A} :
  m st = Some (a, st') -> bind m k st = k a st'.
Proof. intro E. unfold bind. now rewrite E. Qed.

Lemma read_run {st : store} {l : loc} {o : obj} :
  nth_error (objects st) l = Some o -> read l st = Some (o, st).
Proof. intro E. unfold read. now rewrite E. Qed.

Lemma getVector2_run {st : store} {l : loc} {v : Vector2} :
  repr_vec (objects st) l v -> getVector2 l st = Some (v, st).
Proof.
  intro E. unfold getVector2. rewrite (run_bind _ (read_run E)).
  now destruct v.
Qed.

(** [new]: the location is the next free one, the object is there, and
    the objects already in the store are as they were. *)
Lemma alloc_run {A : Type} (o : obj) (k : loc -> Run A) (h : list obj)
    (bl el : list loc) :
  exists h',
    bind (alloc o) k (mkStore h bl el)
    = k (List.length h) (mkStore h' bl el) /\
    prefix h h' /\ nth_error h' (List.length h) = Some o /\
    List.length h' = S (List.length h).
Proof.
  exists (h ++ [o]). split; [reflexivity |].
  split; [apply prefix_snoc |]. split; [apply nth_error_fresh |].
  rewrite length_app. simpl. lia.
Qed.

Ltac run_alloc h' P N L :=
  match goal with
  | |- context [bind (alloc ?o) ?k (mkStore ?h ?bl ?el)] =>
      destruct (alloc_run o k h bl el) as (h' & -> & P & N & L)
  end.

Lemma Forall2_snoc {A B : Type} (P : A -> B -> Prop) (l : list A)
    (l' : list B) (a : A) (b : B) :
  Forall2 P l l' -> P a b -> Forall2 P (l ++ [a]) (l' ++ [b]).
Proof. intros Hl Hab. apply Forall2_app; [exact Hl | now constructor]. Qed.

Section Run.
Variables p scale ox oy : num.

(** One turn of the entity loop: the entity read is left as it is, and what
    is pushed is a new object with a new centre. *)
Lemma flattenEntity_run (st : store) (le : loc) (e : Pine.Entity.t)
    (elv : list Pine.Entity.t) :
  repr_entity (objects st) le e ->
  Forall2 (repr_entity (objects st)) (entityList st) elv ->
  exists st',
    flattenEntity p scale ox oy le st = Some (tt, st') /\
    extends st st' /\ branchList st' = branchList st /\
    Forall2 (repr_entity (objects st')) (entityList st')
      (Pine.flattenEntity p scale ox oy elv e).
Proof.
  intros (lc & lb & lh & Hl & Hc & Hb & Hh) Hel.
  unfold flattenEntity, Pine.flattenEntity, Pine.fadeOpacity.
  rewrite (run_bind _ (read_run Hl)). cbv zeta.
  destruct (p >? Pine.Entity.distFromRoot e)%num;
    [| exists st; auto using extends_refl].
  destruct (smoothStep _ >? Fin 0.01)%num;
    [| exists st; auto using extends_refl].
  rewrite (run_bind _ (getVector2_run Hc)).
  destruct st as [h bl el]. cbn [objects branchList entityList] in *.
  run_alloc h1 P1 N1 L1. run_alloc h2 P2 N2 L2.
  pose proof (prefix_trans _ _ _ P1 P2) as P02.
  eexists. split; [reflexivity |].
  cbn [objects branchList entityList].
  split; [| split; [reflexivity |]].
  - split; [exact P02 |].
    split; [exists []; split; [now rewrite app_nil_r | constructor] |].
    eexists. split; [reflexivity |]. constructor; [| constructor].
    cbn [objects]. lia.
  - apply Forall2_snoc; [exact (entities_mono _ _ _ _ P02 Hel) |].
    exists (List.length h), lb, lh.
    split; [exact N2 |]. cbn [Pine.Entity.center Pine.Entity.baseColor
                               Pine.Entity.highlightColor].
    split; [exact (nth_error_prefix _ _ _ _ P2 N1) |].
    split; eauto using repr_color_mono.
Qed.

Lemma forEach_flattenEntity_run (lents : list loc)
    (ents : list Pine.Entity.t) :
  forall (st : store) (elv : list Pine.Entity.t),
    Forall2 (repr_entity (objects st)) lents ents ->
    Forall2 (repr_entity (objects st)) (entityList st) elv ->
    exists st',
      forEach (flattenEntity p scale ox oy) lents st = Some (tt, st') /\
      extends st st' /\ branchList st' = branchList st /\
      Forall2 (repr_entity (objects st')) (entityList st')
        (fold_left (Pine.flattenEntity p scale ox oy) ents elv).
Proof.
  revert ents. induction lents as [| le lents IH]; intros ents st elv Hents Hel;
    inversion Hents as [| ? e ? ents' He Hents']; subst; cbn [forEach fold_left].
  - exists st. auto using extends_refl.
  - destruct (flattenEntity_run st le e elv He Hel)
      as (st1 & R1 & X1 & B1 & F1).
    rewrite (run_bind _ R1).
    pose proof (entities_mono _ _ _ _ (proj1 X1) Hents') as Hents1.
    destruct (IH ents' st1 _ Hents1 F1) as (st2 & R2 & X2 & B2 & F2).
    exists st2. split; [exact R2 |].
    split; [| split; [congruence | exact F2]].
    exact (extends_trans _ _ _ X1 X2).
Qed.

(** The branch itself: its fields are only read. *)
Lemma flattenOwn_run (st : store) (s e c : Vector2) (w len d : num)
    (children : list Pine.Branch.t) (lents : list loc)
    (ents : list Pine.Entity.t) (blv : list SimpleBranch)
    (elv : list Pine.Entity.t) :
  Forall2 (repr_entity (objects st)) lents ents ->
  Forall2 (repr_segment (objects st)) (branchList st) blv ->
  Forall2 (repr_entity (objects st)) (entityList st) elv ->
  let out := Pine.flattenOwn (Pine.Branch.mk s e w c len d children ents)
               (blv, elv) p scale ox oy in
  exists st',
    flattenOwn s e c w len d lents p scale ox oy st = Some (tt, st') /\
    extends st st' /\
    Forall2 (repr_segment (objects st')) (branchList st') (fst out) /\
    Forall2 (repr_entity (objects st')) (entityList st') (snd out).
Proof.
  intros Hents Hbl Hel. cbv zeta.
  destruct st as [h bl el]. cbn [objects branchList entityList] in *.
  unfold flattenOwn, Pine.flattenOwn, Pine.localT.
  cbn [Pine.Branch.start Pine.Branch.end_ Pine.Branch.control
       Pine.Branch.distFromRoot Pine.Branch.length Pine.Branch.strokeWidth
       Pine.Branch.entities x y].
  run_alloc h1 P1 N1 L1. run_alloc h2 P2 N2 L2. run_alloc h3 P3 N3 L3.
  pose proof (prefix_trans _ _ _ P1 (prefix_trans _ _ _ P2 P3)) as P03.
  assert (Stay : exists st',
             Some (tt, mkStore h3 bl el) = Some (tt, st') /\
             extends (mkStore h bl el) st' /\
             Forall2 (repr_segment (objects st')) (branchList st') blv /\
             Forall2 (repr_entity (objects st')) (entityList st') elv).
  { exists (mkStore h3 bl el). split; [reflexivity |].
    split; [now apply extends_objects |].
    split; eauto using segments_mono, entities_mono. }
  destruct (p >? d)%num; [| exact Stay].
  destruct (coerceIn ((p - d) / len) (Fin 0) (Fin 1) >? Fin 0)%num;
    [| exact Stay].
  clear Stay.
  run_alloc h4 P4 N4 L4. run_alloc h5 P5 N5 L5. run_alloc h6 P6 N6 L6.
  pose proof (prefix_trans _ _ _ P4 (prefix_trans _ _ _ P5 P6)) as P36.
  pose proof (prefix_trans _ _ _ P03 P36) as P06.
  unfold pushBranch at 1. unfold bind at 1.
  cbn [objects branchList entityList fst snd].
  destruct (forEach_flattenEntity_run lents ents
              (mkStore h6 (bl ++ [List.length h5]) el) elv
              (entities_mono _ _ _ _ P06 Hents)
              (entities_mono _ _ _ _ P06 Hel)) as (st' & R & X & B & F).
  exists st'. split; [exact R |].
  pose proof (proj1 X) as P67. cbn [objects] in P67.
  split; [| split; [| exact F]].
  - eapply extends_trans; [| exact X].
    split; [exact P06 |]. cbn [objects branchList entityList].
    split; [| exists []; split; [now rewrite app_nil_r | constructor]].
    eexists. split; [reflexivity |]. constructor; [| constructor]. lia.
  - rewrite B. cbn [branchList].
    apply Forall2_snoc.
    + exact (segments_mono _ _ _ _ (prefix_trans _ _ _ P06 P67) Hbl).
    + exists (List.length h), (List.length h3), (List.length h4).
      cbn [sb_start sb_end sb_strokeWidth sb_control].
      split; [exact (nth_error_prefix _ _ _ _ P67 N6) |].
      split; [| split].
      * apply (nth_error_prefix h1); [| exact N1].
        eauto using prefix_trans.
      * apply (nth_error_prefix h4); [| exact N4].
        eauto using prefix_trans.
      * apply (nth_error_prefix h5); [| exact N5].
        eauto using prefix_trans.
Qed.

Lemma forEach_children_run (fuel : nat) (children : list Pine.Branch.t) :
  Forall (fun t => forall st b blv elv,
            repr_branch (objects st) b t ->
            Forall2 (repr_segment (objects st)) (branchList st) blv ->
            Forall2 (repr_entity (objects st)) (entityList st) elv ->
            let out := Pine.flattenTreeOrganic t (blv, elv) p scale ox oy in
            exists st',
              flattenTreeOrganic fuel b p scale ox oy st = Some (tt, st') /\
              extends st st' /\
              Forall2 (repr_segment (objects st')) (branchList st') (fst out)
              /\
              Forall2 (repr_entity (objects st')) (entityList st') (snd out))
         children ->
  forall chs st lists,
    Forall2 (repr_branch (objects st)) chs children ->
    Forall2 (repr_segment (objects st)) (branchList st) (fst lists) ->
    Forall2 (repr_entity (objects st)) (entityList st) (snd lists) ->
    let out := fold_left (fun lists child =>
                   Pine.flattenTreeOrganic child lists p scale ox oy)
                 children lists in
    exists st',
      forEach (fun child => flattenTreeOrganic fuel child p scale ox oy) chs st
      = Some (tt, st') /\
      extends st st' /\
      Forall2 (repr_segment (objects st')) (branchList st') (fst out) /\
      Forall2 (repr_entity (objects st')) (entityList st') (snd out).
Proof.
  induction 1 as [| t children Ht Hchildren IH];
    intros chs st lists Hch Hbl Hel;
    inversion Hch as [| lc ? lcs ? Hc Hcs]; subst; cbn [forEach fold_left].
  - exists st. auto using extends_refl.
  - destruct lists as [blv elv]. cbn [fst snd] in *.
    destruct (Ht st lc blv elv Hc Hbl Hel) as (st1 & R1 & X1 & B1 & E1).
    rewrite (run_bind _ R1).
    assert (Hcs1 : Forall2 (repr_branch (objects st1)) lcs children).
    { eapply Forall2_mono; [| exact Hcs]. intros a b.
      apply repr_branch_mono. exact (proj1 X1). }
    destruct (IH lcs st1 _ Hcs1 B1 E1) as (st2 & R2 & X2 & B2 & E2).
    exists st2. split; [exact R2 |].
    split; [exact (extends_trans _ _ _ X1 X2) |].
    destruct (Pine.flattenTreeOrganic t (blv, elv) p scale ox oy).
    split; assumption.
Qed.

(** The projector on the store returns, given fuel for the height of the
    tree, does not write to any object of the store, and pushes the
    locations of new objects that hold what the projector on values
    returns. *)
Lemma flattenTreeOrganic_run (t : Pine.Branch.t) :
  forall fuel st b blv elv,
    (height t <= fuel)%nat ->
    repr_branch (objects st) b t ->
    Forall2 (repr_segment (objects st)) (branchList st) blv ->
    Forall2 (repr_entity (objects st)) (entityList st) elv ->
    let out := Pine.flattenTreeOrganic t (blv, elv) p scale ox oy in
    exists st',
      flattenTreeOrganic fuel b p scale ox oy st = Some (tt, st') /\
      extends st st' /\
      Forall2 (repr_segment (objects st')) (branchList st') (fst out) /\
      Forall2 (repr_entity (objects st')) (entityList st') (snd out).
Proof.
  induction t as [s e w c len d children ents IH] using Branch_ind'.
  intros fuel st b blv elv Hfuel Hr Hbl Hel.
  destruct fuel as [| fuel]; [cbn [height] in Hfuel; lia |].
  cbn [height] in Hfuel. apply le_S_n in Hfuel.
  apply list_max_le in Hfuel. rewrite Forall_map in Hfuel.
  inversion Hr as [l0 ls le lc chs lents ? ? ? ? ? ? ? ?
                     Hl Hs He Hc Hch Hents]; subst.
  cbn [flattenTreeOrganic Pine.flattenTreeOrganic].
  rewrite (run_bind _ (read_run Hl)).
  rewrite (run_bind _ (getVector2_run Hs)).
  rewrite (run_bind _ (getVector2_run He)).
  rewrite (run_bind _ (getVector2_run Hc)).
  destruct (flattenOwn_run st s e c w len d children lents ents blv elv
              Hents Hbl Hel) as (st1 & R1 & X1 & B1 & E1).
  rewrite (run_bind _ R1).
  assert (Hch1 : Forall2 (repr_branch (objects st1)) chs children).
  { eapply Forall2_mono; [| exact Hch]. intros a b'.
    apply repr_branch_mono. exact (proj1 X1). }
  assert (IH' : Forall (fun t => forall st b blv elv,
            repr_branch (objects st) b t ->
            Forall2 (repr_segment (objects st)) (branchList st) blv ->
            Forall2 (repr_entity (objects st)) (entityList st) elv ->
            let out := Pine.flattenTreeOrganic t (blv, elv) p scale ox oy in
            exists st',
              flattenTreeOrganic fuel b p scale ox oy st = Some (tt, st') /\
              extends st st' /\
              Forall2 (repr_segment (objects st')) (branchList st') (fst out)
              /\
              Forall2 (repr_entity (objects st')) (entityList st') (snd out))
         children).
  { rewrite Forall_forall in *. intros t Ht st0 b0 blv0 elv0.
    apply IH; [exact Ht | apply Hfuel; exact Ht]. }
  destruct (forEach_children_run fuel children IH' chs st1 _ Hch1 B1 E1)
    as (st2 & R2 & X2 & B2 & E2).
  exists st2. split; [exact R2 |].
  split; [exact (extends_trans _ _ _ X1 X2) |].
  split; assumption.
Qed.

End Run.

End StoreFacts.

(** C9.  With the tree held in a store [h] at location [b], a call of
    [flattenTreeOrganic] on empty output arrays returns (given fuel for the
    height of the tree) and writes to no object that was in the store, so
    every branch and entity of the tree is as before; what it pushes are the
    locations of new objects, holding the segments and the entities, with
    transformed centre and radius, that the projector computes from the
    tree; and a second call with the same progress, scale and offsets, on
    the store the first call left, pushes objects holding the same two
    lists.  A call on arrays that are not empty appends these lists. *)
Theorem flatten_idempotent_without_mutation (t : Pine.Branch.t)
    (progressDistance scale offsetX offsetY : num)
    (h : list PineStore.obj) (b : PineStore.loc) (fuel1 fuel2 : nat) :
  PineStore.repr_branch h b t ->
  (PineStore.height t <= fuel1)%nat -> (PineStore.height t <= fuel2)%nat ->
  let out :=
    Pine.flattenTreeOrganic t ([], []) progressDistance scale offsetX offsetY
  in
  (exists st1 st2,
     PineStore.flattenTreeOrganic fuel1 b progressDistance scale offsetX
       offsetY (PineStore.mkStore h [] []) = Some (tt, st1) /\
     PineStore.flattenTreeOrganic fuel2 b progressDistance scale offsetX
       offsetY (PineStore.mkStore (PineStore.objects st1) [] [])
     = Some (tt, st2) /\
     PineStore.prefix h (PineStore.objects st1) /\
     PineStore.prefix (PineStore.objects st1) (PineStore.objects st2) /\
     PineStore.repr_branch (PineStore.objects st2) b t /\
     Forall (fun l => (List.length h <= l)%nat)
            (PineStore.branchList st1 ++ PineStore.entityList st1) /\
     Forall (fun l => (List.length (PineStore.objects st1) <= l)%nat)
            (PineStore.branchList st2 ++ PineStore.entityList st2) /\
     Forall2 (PineStore.repr_segment (PineStore.objects st1))
             (PineStore.branchList st1) (fst out) /\
     Forall2 (PineStore.repr_entity (PineStore.objects st1))
             (PineStore.entityList st1) (snd out) /\
     Forall2 (PineStore.repr_segment (PineStore.objects st2))
             (PineStore.branchList st2) (fst out) /\
     Forall2 (PineStore.repr_entity (PineStore.objects st2))
             (PineStore.entityList st2) (snd out)) /\
  (forall bl el,
     Pine.flattenTreeOrganic t (bl, el) progressDistance scale offsetX offsetY
     = (bl ++ fst out, el ++ snd out)).
Proof.
  intros Hr Hf1 Hf2 out. split; [| intros bl el; apply flattenTreeOrganic_app].
  destruct (StoreFacts.flattenTreeOrganic_run progressDistance scale offsetX
              offsetY t fuel1 (PineStore.mkStore h [] []) b [] [] Hf1 Hr
              (Forall2_nil _) (Forall2_nil _))
    as (st1 & R1 & (P1 & (nb1 & B1 & F1) & (ne1 & E1 & G1)) & S1 & T1).
  cbn [PineStore.objects PineStore.branchList PineStore.entityList] in *.
  pose proof (StoreFacts.repr_branch_mono _ _ t P1 b Hr) as Hr1.
  destruct (StoreFacts.flattenTreeOrganic_run progressDistance scale offsetX
              offsetY t fuel2
              (PineStore.mkStore (PineStore.objects st1) [] []) b [] [] Hf2
              Hr1 (Forall2_nil _) (Forall2_nil _))
    as (st2 & R2 & (P2 & (nb2 & B2 & F2) & (ne2 & E2 & G2)) & S2 & T2).
  cbn [PineStore.objects PineStore.branchList PineStore.entityList] in *.
  exists st1, st2.
  split; [exact R1 |]. split; [exact R2 |].
  split; [exact P1 |]. split; [exact P2 |].
  split; [exact (StoreFacts.repr_branch_mono _ _ t P2 b Hr1) |].
  split; [rewrite B1, E1; apply Forall_app; split; assumption |].
  split; [rewrite B2, E2; apply Forall_app; split; assumption |].
  repeat split; assumption.
Qed.

(* ================================================================== *)
(** * The theorems at concrete inputs *)

(** The reference digest of ["abc"], and the state of the source of seed
    ["test-seed-1"] at its construction and after each of two draws, as a
    run of the program gives them. *)
Example sha256_abc :
  Sample.SHA256.hex "abc"
  = map (fun c => match Ascii.N_of_ascii c with
                  | 48 => 0 | 49 => 1 | 50 => 2 | 51 => 3 | 52 => 4
                  | 53 => 5 | 54 => 6 | 55 => 7 | 56 => 8 | 57 => 9
                  | 97 => 10 | 98 => 11 | 99 => 12 | 100 => 13
                  | 101 => 14 | _ => 15
                  end%N)
      (list_ascii_of_string
         "ba7816bf8f01cfea414140de5dae2223b00361a396177a9cb410ff61f20015ad").
Proof. vm_compute. reflexivity. Qed.

Example sample_rand_states :
  let r1 := snd (next Sample.rand) in
  let r2 := snd (next r1) in
  (seed Sample.rand, seed r1, seed r2)
  = (457857944605331008, 536870912, 3698258783)%Z.
Proof. vm_compute. reflexivity. Qed.

(** A second run on the source the first run has advanced gives another
    tree: a reproducible run builds its source from the seed. *)
Example second_run_on_advanced_source :
  let gen := @Pine.generateFullTree Sample.math 0%nat
               (mkVector2 (Fin 0) (Fin 0)) (Fin 180) (Fin (-90)) (Fin 0) in
  Pine.Branch.end_ (fst (gen (snd (gen Sample.rand))))
  <> Pine.Branch.end_ (fst (gen Sample.rand)).
Proof. vm_compute. discriminate. Qed.

Lemma sample_math_finite : @JSMath_finite Sample.math.
Proof.
  split; [| split].
  - intro q. eexists. reflexivity.
  - intro q. eexists. reflexivity.
  - intros q Hq. cbn [Math_sqrt Sample.math Sample.sqrt].
    apply Qle_bool_iff in Hq. rewrite Hq. eexists. reflexivity.
Qed.

Lemma localT_monotone_witness :
  (Fin 5 < Fin 8)%num /\
  (Pine.localT Pine.lateEntityTree (Fin 5)
   <= Pine.localT Pine.lateEntityTree (Fin 8))%num /\
  ((Pine.localT Pine.lateEntityTree (Fin 5) == Fin 1)%num ->
   (Pine.localT Pine.lateEntityTree (Fin 8) == Fin 1)%num).
Proof.
  split; [reflexivity |].
  apply (localT_monotone Pine.lateEntityTree (Fin 5) (Fin 8)).
  - exists 10. reflexivity.
  - reflexivity.
  - exists 0. reflexivity.
  - exists 5. reflexivity.
  - exists 8. reflexivity.
  - reflexivity.
Defined.

Lemma lateEntityStore_repr :
  PineStore.repr_branch PineStore.lateEntityStore 7%nat Pine.lateEntityTree.
Proof.
  unfold Pine.lateEntityTree.
  eapply PineStore.repr_branch_intro with (ls := 0%nat) (le := 1%nat)
    (lc := 2%nat) (chs := []) (ents := [6%nat]);
    try reflexivity; [constructor |].
  constructor; [| constructor].
  exists 3%nat, 4%nat, 5%nat. repeat split.
Qed.

Lemma flatten_idempotent_without_mutation_witness :
  exists st1 st2,
    PineStore.flattenTreeOrganic 1%nat 7%nat (Fin 60) (Fin 2) (Fin 540) (Fin 1000)
      (PineStore.mkStore PineStore.lateEntityStore [] []) = Some (tt, st1) /\
    PineStore.flattenTreeOrganic 1%nat 7%nat (Fin 60) (Fin 2) (Fin 540) (Fin 1000)
      (PineStore.mkStore (PineStore.objects st1) [] []) = Some (tt, st2) /\
    PineStore.prefix PineStore.lateEntityStore (PineStore.objects st1).
Proof.
  destruct (proj1 (flatten_idempotent_without_mutation Pine.lateEntityTree
              (Fin 60) (Fin 2) (Fin 540) (Fin 1000) PineStore.lateEntityStore
              7%nat 1%nat 1%nat lateEntityStore_repr (le_n 1%nat) (le_n 1%nat)))
    as (st1 & st2 & R1 & R2 & P1 & _).
  exists st1, st2. repeat split; assumption.
Defined.

(* ================================================================== *)
(** * Inputs of moderate size *)

Section Moderate.

Lemma between_finite (lo hi : Q) (v : num) : between lo hi v -> finite v.
Proof. intros (q & -> & _). exists q. reflexivity. Qed.

Lemma between_Fin (lo hi q : Q) : lo <= q <= hi -> between lo hi (Fin q).
Proof. intro Hq. exists q. split; [reflexivity | exact Hq]. Qed.

(** What the theorems on generated plants use of their arguments. *)
Lemma moderate_inv (depth : nat) (start : Vector2)
    (length angle currentDist : num) :
  moderate depth start length angle currentDist ->
  exists l d : Q,
    length = Fin l /\ currentDist = Fin d /\
    1 <= l <= 1000 /\ 0 <= d <= 100 /\
    Pine.finite_vec start /\ finite angle /\ (depth <= 8)%nat.
Proof.
  intros (Hdepth & Hx & Hy & (l & -> & Hl) & Ha & (d & -> & Hd)).
  exists l, d. repeat split; try reflexivity; try tauto.
  - exact (between_finite _ _ _ Hx).
  - exact (between_finite _ _ _ Hy).
  - exact (between_finite _ _ _ Ha).
Qed.

(** The arguments [generateVideo] of pine.ts and of sunflower.ts pass. *)
Lemma pine_program_moderate :
  moderate 8 (mkVector2 (Fin 0) (Fin 0)) (Fin 180) (Fin (-90)) (Fin 0).
Proof.
  split; [apply le_n |].
  repeat split; apply between_Fin; split; discriminate.
Qed.

Lemma sunflower_program_moderate :
  moderate 8 (mkVector2 (Fin 0) (Fin 0)) (Fin 120) (Fin (-90)) (Fin 0).
Proof.
  split; [apply le_n |].
  repeat split; apply between_Fin; split; discriminate.
Qed.

End Moderate.

(* ================================================================== *)
(** * The random source and the two helpers, as their callers use them *)

Lemma next_state_bound (rand : SeededRandom.t) :
  RandOK rand -> (0 <= seed (snd (next rand)) < 4294967296)%Z.
Proof.
  intro Hr. unfold next, RandOK in *. cbn [snd seed].
  apply Z.rem_bound_pos; [| lia].
  apply toDouble_nonneg.
  assert (0 <= toDouble (seed rand * 1664525))%Z
    by (apply toDouble_nonneg; lia).
  lia.
Qed.

(** X1.  From a state that is a non-negative integer (as the constructor
    leaves it), [next()] returns a number in [0, 1) and leaves a state that
    is an integer in [0, 2^32). *)
Theorem next_unit_interval (rand : SeededRandom.t) :
  RandOK rand ->
  0 <= fst (next rand) < 1 /\
  (0 <= seed (snd (next rand)) < 4294967296)%Z.
Proof.
  intro Hr. split; [exact (proj1 (rspec_next rand Hr)) |].
  now apply next_state_bound.
Qed.

Lemma next_unit_interval_witness :
  RandOK Sample.rand /\
  0 <= fst (next Sample.rand) < 1 /\
  (0 <= seed (snd (next Sample.rand)) < 4294967296)%Z.
Proof.
  split; [vm_compute; discriminate |].
  apply (next_unit_interval Sample.rand). vm_compute. discriminate.
Defined.

(** X2.  Whatever state the source starts from, once one number has been
    drawn every further call of [next()] is the linear congruential step
    [state := (state * 1664525 + 1013904223) mod 2^32] on integers: no
    product exceeds 2^53, so nothing is rounded. *)
Theorem next_lcg_after_first_draw (rand : SeededRandom.t) (k : nat) :
  RandOK rand ->
  let state := fun n => seed (Nat.iter n (fun r => snd (next r)) rand) in
  state (S (S k))
  = ((state (S k) * 1664525 + 1013904223) mod 4294967296)%Z.
Proof.
  intros Hr state. unfold state.
  set (step := fun r : SeededRandom.t => snd (next r)).
  assert (G : forall n, RandOK (Nat.iter n step rand)).
  { induction n as [| n IH]; [exact Hr |].
    exact (proj2 (rspec_next _ IH)). }
  change (Nat.iter (S (S k)) step rand)
    with (snd (next (Nat.iter (S k) step rand))).
  apply next_lcg.
  change (Nat.iter (S k) step rand) with (snd (next (Nat.iter k step rand))).
  apply next_state_bound, G.
Qed.

Lemma next_lcg_after_first_draw_witness :
  RandOK Sample.rand /\
  seed (Nat.iter 2 (fun r => snd (next r)) Sample.rand)
  = ((seed (Nat.iter 1 (fun r => snd (next r)) Sample.rand) * 1664525
      + 1013904223) mod 4294967296)%Z.
Proof.
  split; [vm_compute; discriminate |].
  apply (next_lcg_after_first_draw Sample.rand 0). vm_compute. discriminate.
Defined.

(** X3.  [nextFloat(min, max)] returns a number in [min, max): the lower
    end can be drawn, the upper end never.  This is for an interval that is
    not tiny against its ends, [|min| <= 1000 * (max - min)] with
    [max - min] between 10^-6 and 10^6, as in every call of the programs;
    on an interval such as [2097152, 2097153] the sum the program computes
    in doubles can round up to [max]. *)
Theorem nextFloat_range (min max : Q) (rand : SeededRandom.t) :
  RandOK rand ->
  - (1000 * (max - min)) <= min <= 1000 * (max - min) ->
  (1 # 1000000) <= max - min <= 1000000 ->
  min <= fst (nextFloat min max rand) < max.
Proof.
  intros Hr _ Hw.
  assert (Hlt : min < max) by lra.
  exact (proj1 (rspec_nextFloat min max Hlt rand Hr)).
Qed.

Lemma nextFloat_range_witness :
  RandOK Sample.rand /\
  0.85 <= fst (nextFloat 0.85 0.95 Sample.rand) < 0.95.
Proof.
  split; [vm_compute; discriminate |].
  apply (nextFloat_range 0.85 0.95 Sample.rand).
  - vm_compute. discriminate.
  - split; vm_compute; discriminate.
  - split; vm_compute; discriminate.
Defined.

(** X4.  [nextInt(min, max)] between two integers [min < max] of at most
    20 bits returns an integer from [min] to [max - 1]; the upper bound
    itself is never returned (so [nextInt(1, 3)] is 1 or 2 and
    [nextInt(6, 10)] is 6 to 9).  At this size the program's sum is exact
    in doubles; from 2^21 on it can round up to [max]. *)
Theorem nextInt_range (min max : Z) (rand : SeededRandom.t) :
  RandOK rand -> (min < max)%Z ->
  (- 1048576 <= min)%Z -> (max <= 1048576)%Z ->
  (min <= fst (nextInt (inject_Z min) (inject_Z max) rand) <= max - 1)%Z.
Proof.
  intros Hr Hlt _ _.
  pose proof (proj1 (rspec_nextInt min max Hlt rand Hr)) as G.
  cbv beta in G. lia.
Qed.

Lemma nextInt_range_witness :
  RandOK Sample.rand /\
  (1 <= fst (nextInt (inject_Z 1) (inject_Z 3) Sample.rand) <= 3 - 1)%Z.
Proof.
  split; [vm_compute; discriminate |].
  apply (nextInt_range 1 3 Sample.rand);
    [vm_compute; discriminate | reflexivity | discriminate | discriminate].
Defined.

(** X5.  [coerceIn(val, min, max)] with finite [min <= max]: a value that
    is not [NaN] (the infinities included) is brought into [min, max], a
    value already there is returned as it is, and [NaN] is returned as
    [NaN] (so that the test [localT > 0] of the projector fails on it). *)
Theorem coerceIn_range (val min max : num) :
  finite min -> finite max -> (min <= max)%num ->
  (val <> NaN ->
   (min <= coerceIn val min max)%num /\ (coerceIn val min max <= max)%num) /\
  ((min <= val)%num -> (val <= max)%num -> coerceIn val min max = val) /\
  coerceIn NaN min max = NaN.
Proof.
  intros [lo ->] [hi ->] Hle. apply nle_Fin in Hle.
  split; [| split].
  - intro Hv. unfold coerceIn.
    destruct val as [v | | |]; try congruence.
    + rewrite Math_min_Fin, Math_max_Fin.
      destruct (qmin_spec v hi) as [[? ->] | [? ->]];
        destruct (qmax_spec lo v) as [[? E] | [? E]];
        destruct (qmax_spec lo hi) as [[? E'] | [? E']];
        rewrite ?E, ?E'; split; apply nle_Fin; lra.
    + cbn -[Math_max]. rewrite Math_max_Fin.
      destruct (qmax_spec lo hi) as [[? ->] | [? ->]];
        split; apply nle_Fin; lra.
    + cbn. destruct (lo ?= lo) eqn:E; cbn.
      * split; apply nle_Fin; lra.
      * split; apply nle_Fin; lra.
      * apply Qgt_alt in E. lra.
  - intros H1 H2. unfold coerceIn.
    destruct val as [v | | |]; try discriminate.
    unfold nle in H1, H2.
    assert (E : Math_min (Fin v) (Fin hi) = Fin v)
      by (unfold Math_min; now rewrite H2).
    rewrite E. unfold Math_max. now rewrite H1.
  - reflexivity.
Qed.

Lemma coerceIn_range_witness :
  (Fin 0 <= Fin 1)%num /\
  (PInf <> NaN ->
   (Fin 0 <= coerceIn PInf (Fin 0) (Fin 1))%num /\
   (coerceIn PInf (Fin 0) (Fin 1) <= Fin 1)%num).
Proof.
  split; [reflexivity |].
  apply (coerceIn_range PInf (Fin 0) (Fin 1));
    [exists 0; reflexivity | exists 1; reflexivity | reflexivity].
Defined.

(** X6.  [smoothStep] maps 0 to 0 and 1 to 1 and keeps [0, 1] inside
    [0, 1]; so the opacity [flattenTreeOrganic] computes for an entity, at
    whatever finite progress, is a number from 0 to 1. *)
Theorem smoothStep_unit (t : Q) (e : Pine.Entity.t) (p : num) :
  0 <= t <= 1 ->
  finite (Pine.Entity.distFromRoot e) -> finite p ->
  ((Fin 0 <= smoothStep (Fin t))%num /\ (smoothStep (Fin t) <= Fin 1)%num) /\
  (smoothStep (Fin 0) == Fin 0)%num /\ (smoothStep (Fin 1) == Fin 1)%num /\
  (Fin 0 <= Pine.fadeOpacity e p)%num /\ (Pine.fadeOpacity e p <= Fin 1)%num.
Proof.
  intros [H0 H1] [d Hd] [q ->].
  assert (E : forall v, smoothStep (Fin v) = Fin (qsmooth v)) by reflexivity.
  assert (R : forall v, 0 <= v <= 1 -> 0 <= qsmooth v <= 1).
  { intros v [V0 V1].
    pose proof (qsmooth_mono 0 v ltac:(lra) V0 ltac:(lra)) as M0.
    pose proof (qsmooth_mono v 1 V0 V1 ltac:(lra)) as M1.
    assert (Z0 : qsmooth 0 == 0) by (unfold qsmooth; ring).
    assert (Z1 : qsmooth 1 == 1) by (unfold qsmooth; ring).
    lra. }
  rewrite !E. unfold Pine.fadeOpacity. rewrite Hd, fade_Fin by reflexivity.
  pose proof (R t (conj H0 H1)) as Rt.
  pose proof (R _ (qclamp01_range ((q - d) / 150))) as Rf.
  repeat split; try (apply nle_Fin; lra);
    apply neq_Fin; unfold qsmooth; ring.
Qed.

Lemma smoothStep_unit_witness :
  (Fin 0 <= Pine.fadeOpacity Pine.lateEntity (Fin 60))%num /\
  (Pine.fadeOpacity Pine.lateEntity (Fin 60) <= Fin 1)%num.
Proof.
  apply (smoothStep_unit 0.25 Pine.lateEntity (Fin 60)).
  - split; discriminate.
  - exists 50. reflexivity.
  - exists 60. reflexivity.
Defined.

(* ================================================================== *)
(** * The pine generator: the form of the tree *)

Section ForPush.

(** A loop whose every turn pushes [c] elements satisfying [P]. *)
Lemma rspec_for_push_len {A : Type} (body : nat -> Rand (list A))
    (P : A -> Prop) (c n : nat) :
  (forall i, rspec (body i) (fun l => Forall P l /\ List.length l = c)) ->
  forall from,
    rspec (for_push body from n)
          (fun l => Forall P l /\ List.length l = (n * c)%nat).
Proof.
  intro Hbody. induction n as [| n IH]; intro from; simpl.
  - apply rspec_ret. split; [constructor | reflexivity].
  - apply rspec_bind with (1 := Hbody from). intros pushed [Hp Lp].
    apply rspec_bind with (1 := IH (S from)). intros rest [Hrest Lrest].
    apply rspec_ret. split.
    + apply Forall_app. split; assumption.
    + rewrite length_app. lia.
Qed.

Lemma rspec_weaken {A : Type} (m : Rand A) (P Q : A -> Prop) :
  rspec m P -> (forall a, P a -> Q a) -> rspec m Q.
Proof.
  intros Hm HPQ r Hr. destruct (Hm r Hr) as [Ha Hr'].
  split; [apply HPQ, Ha | exact Hr'].
Qed.

End ForPush.

Section PineGrown.
Context `{JSMath}.

Lemma channel_Fin (q : Q) : 0 <= q <= 255 -> PineTree.channel (Fin q).
Proof. intro Hq. exists q. split; [reflexivity | exact Hq]. Qed.

Lemma channel_min255 (q : Q) :
  0 <= q -> PineTree.channel (Math_min (Fin 255) (Fin q)).
Proof.
  intro Hq. rewrite Math_min_Fin. apply channel_Fin.
  destruct (qmin_spec 255 q) as [[? ->] | [? ->]]; lra.
Qed.

Lemma generateEntity_grown (depth : nat) (start end_ : Vector2)
    (length currentDist : num) :
  rspec (Pine.generateEntity depth start end_ length currentDist)
        (fun l => Forall (PineTree.entity_grown depth) l /\
                  List.length l = 1%nat).
Proof.
  unfold Pine.generateEntity.
  rdraw radius. rdraw t. rdraw. rdraw.
  apply rspec_bind with (P := fun c : bool => c = true -> (depth <= 4)%nat).
  { apply rspec_if; intros Hd.
    - rdraw. apply rspec_ret. intros _. now apply Nat.leb_le.
    - apply rspec_ret. discriminate. }
  intros [|] Hcone; rdraw dr; rdraw dg; rdraw db; apply rspec_ret;
    (split; [| reflexivity]); (constructor; [| constructor]);
    unfold PineTree.entity_grown; cbn [Pine.Entity.radius Pine.Entity.type
      Pine.Entity.baseColor Pine.Entity.highlightColor Pine.Entity.opacity];
    (split; [| split; [| split; [| split]]]).
  - exists (radius * 0.9). split; [reflexivity | lra].
  - intros _. now apply Hcone.
  - unfold PineTree.color_ok. cbn [r g b a nadd].
    repeat split; try (apply channel_Fin; lra).
  - unfold PineTree.color_ok. cbn [r g b a nadd].
    repeat split; try (apply channel_min255; lra).
  - reflexivity.
  - exists radius. split; [reflexivity | lra].
  - discriminate.
  - unfold PineTree.color_ok. cbn [r g b a nadd].
    repeat split; try (apply channel_Fin; lra).
  - unfold PineTree.color_ok. cbn [r g b a nadd].
    repeat split; try (apply channel_Fin; lra).
  - reflexivity.
Qed.

Lemma generateFullTree_grown (depth : nat) :
  forall (start : Vector2) (l : Q) (angle : num) (d : Q),
    0 < l ->
    rspec (Pine.generateFullTree depth start (Fin l) angle (Fin d))
          (PineTree.grown depth l d).
Proof.
  induction depth as [| depth' IH]; intros start l angle d Hl.
  - cbn [Pine.generateFullTree].
    rdraw. rdraw. rdraw w.
    apply rspec_bind with (P := fun c : list Pine.Branch.t => c = []).
    { now apply rspec_ret. }
    intros c ->.
    apply rspec_bind with
      (P := fun ents => Forall (PineTree.entity_grown 0) ents /\
                        (6 <= List.length ents <= 9)%nat).
    { cbn [Nat.leb].
      apply rspec_bind with (1 := @rspec_nextInt 6 10 eq_refl).
      intros count Hcount.
      eapply rspec_weaken.
      - apply rspec_for_push_len with (c := 1%nat). intros _.
        apply generateEntity_grown.
      - cbv beta. intros ents [F L]. split; [exact F | rewrite L; lia]. }
    intros ents [Fents Lents]. apply rspec_ret.
    cbn [PineTree.grown Pine.Branch.length Pine.Branch.distFromRoot
         Pine.Branch.strokeWidth Pine.Branch.entities Pine.Branch.children
         Nat.leb].
    repeat split; try assumption; try lia.
    cbn [nmul nadd]. rewrite Math_max_Fin.
    exists (qmax 2 (inject_Z (Z.of_nat 0) * 5 + w)).
    split; [reflexivity |].
    change (inject_Z (Z.of_nat 0)) with 0.
    destruct (qmax_spec 2 (0 * 5 + w)) as [[? ->] | [? ->]];
      repeat split; try lra.
  - cbn [Pine.generateFullTree].
    rdraw. rdraw. rdraw w.
    set (end_ := mkVector2 _ _).
    apply rspec_bind with
      (P := fun c : list Pine.Branch.t =>
              exists leader sides,
                c = leader :: sides /\
                (if (1 <? S depth')%nat
                 then (1 <= List.length sides <= 2)%nat
                 else sides = []) /\
                (exists ll : Q,
                    l * 0.85 <= ll < l * 0.95 /\
                    PineTree.grown depth' ll (d + l) leader) /\
                Forall (fun s => exists ls : Q,
                            l * 0.5 <= ls < l * 0.7 /\
                            PineTree.grown depth' ls (d + l) s) sides).
    { rdraw. rdraw f.
      assert (Hlf : 0 < l * f) by (apply Qmult_lt_0_compat; lra).
      apply rspec_bind with (1 := IH end_ (l * f) _ (d + l) Hlf).
      intros leader Hleader.
      apply rspec_bind with (1 := @rspec_nextInt 1 3 eq_refl).
      intros sideBranchCount Hcount.
      apply rspec_bind with
        (P := fun sides =>
                Forall (fun s => exists ls : Q,
                            l * 0.5 <= ls < l * 0.7 /\
                            PineTree.grown depth' ls (d + l) s) sides /\
                List.length sides
                = (Z.to_nat sideBranchCount
                   * (if (1 <? S depth')%nat then 1 else 0))%nat).
      { apply rspec_for_push_len. intros _.
        rdraw. rdraw. rdraw f'.
        assert (Hlf' : 0 < l * f') by (apply Qmult_lt_0_compat; lra).
        assert (Hr' : l * 0.5 <= l * f' < l * 0.7).
        { split; [apply Qmult_le_l | apply Qmult_lt_l]; lra. }
        destruct (1 <? S depth')%nat.
        - apply rspec_bind with (1 := IH end_ (l * f') _ (d + l) Hlf').
          intros child Hchild. apply rspec_ret.
          split; [| reflexivity].
          constructor; [| constructor]. exists (l * f'). split; assumption.
        - apply rspec_ret. split; [constructor | reflexivity]. }
      intros sides [Fsides Lsides]. apply rspec_ret.
      exists leader, sides. split; [reflexivity |]. split; [| split].
      - destruct (1 <? S depth')%nat.
        + rewrite Lsides. lia.
        + apply length_zero_iff_nil. rewrite Lsides. lia.
      - exists (l * f). split; [| exact Hleader].
        split; [apply Qmult_le_l | apply Qmult_lt_l]; lra.
      - exact Fsides. }
    intros children Hchildren.
    apply rspec_bind with
      (P := fun ents => Forall (PineTree.entity_grown (S depth')) ents /\
                        if (S depth' <=? 5)%nat
                        then (6 <= List.length ents <= 9)%nat
                        else ents = []).
    { destruct (S depth' <=? 5)%nat.
      - apply rspec_bind with (1 := @rspec_nextInt 6 10 eq_refl).
        intros count Hcount.
        eapply rspec_weaken.
        + apply rspec_for_push_len with (c := 1%nat). intros _.
          apply generateEntity_grown.
        + cbv beta. intros ents [F L]. split; [exact F | rewrite L; lia].
      - apply rspec_ret. split; [constructor | reflexivity]. }
    intros ents [Fents Lents]. apply rspec_ret.
    cbn [PineTree.grown Pine.Branch.length Pine.Branch.distFromRoot
         Pine.Branch.strokeWidth Pine.Branch.entities Pine.Branch.children].
    split; [reflexivity |]. split; [reflexivity |].
    split; [| split; [exact Lents | split; [exact Fents | exact Hchildren]]].
    cbn [nmul nadd]. rewrite Math_max_Fin.
    set (dq := inject_Z (Z.of_nat (S depth'))).
    assert (Hdq : 1 <= dq).
    { unfold dq. change 1 with (inject_Z 1). rewrite <- Zle_Qle. lia. }
    exists (qmax 2 (dq * 5 + w)). split; [reflexivity |].
    destruct (qmax_spec 2 (dq * 5 + w)) as [[? ->] | [? ->]];
      repeat split; try lra.
Qed.

End PineGrown.

(* ================================================================== *)
(** * Consequences of the form of a generated pine *)

Section GrownFacts.

Lemma branches_root (t : Pine.Branch.t) : In t (Pine.branches t).
Proof. destruct t. left. reflexivity. Qed.

Lemma grown_root (k : nat) (l d : Q) (b : Pine.Branch.t) :
  PineTree.grown k l d b ->
  Pine.Branch.length b = Fin l /\ Pine.Branch.distFromRoot b = Fin d.
Proof. destruct k; intros (E1 & E2 & _); split; assumption. Qed.

Lemma grown_stroke (k : nat) (l d : Q) (b : Pine.Branch.t) :
  PineTree.grown k l d b ->
  exists w : Q,
    Pine.Branch.strokeWidth b = Fin w /\ 2 <= w /\
    inject_Z (Z.of_nat k) * 5 - 1 <= w /\
    (w == 2 \/ w < inject_Z (Z.of_nat k) * 5 + 1).
Proof. destruct k; intros (_ & _ & W & _); exact W. Qed.

Lemma grown_entities (k : nat) (l d : Q) (b : Pine.Branch.t) :
  PineTree.grown k l d b ->
  (if (k <=? 5)%nat
   then (6 <= List.length (Pine.Branch.entities b) <= 9)%nat
   else Pine.Branch.entities b = []) /\
  Forall (PineTree.entity_grown k) (Pine.Branch.entities b).
Proof. destruct k; intros (_ & _ & _ & N & F & _); split; assumption. Qed.

Lemma grown_children (k : nat) (l d : Q) (b c : Pine.Branch.t) :
  PineTree.grown k l d b -> In c (Pine.Branch.children b) ->
  exists k' lc, k = S k' /\ l * 0.5 <= lc < l * 0.95 /\
                PineTree.grown k' lc (d + l) c.
Proof.
  intros G Hc. destruct k as [| k'].
  - destruct G as (_ & _ & _ & _ & _ & E). rewrite E in Hc. destruct Hc.
  - destruct G as (_ & _ & _ & _ & _ & leader & sides & E & _ & Hl & Hs).
    rewrite E in Hc. destruct Hc as [<- | Hc].
    + destruct Hl as (ll & Hll & G'). exists k', ll.
      split; [reflexivity |]. split; [lra | exact G'].
    + rewrite Forall_forall in Hs. destruct (Hs c Hc) as (ls & Hls & G').
      exists k', ls. split; [reflexivity |]. split; [lra | exact G'].
Qed.

Lemma grown_children_count (k : nat) (l d : Q) (b : Pine.Branch.t) :
  PineTree.grown k l d b ->
  (List.length (Pine.Branch.children b) <= 3)%nat /\
  (Pine.Branch.children b = [] <-> k = 0%nat).
Proof.
  intro G. destruct k as [| k'].
  - destruct G as (_ & _ & _ & _ & _ & E). rewrite E. simpl.
    split; [lia | tauto].
  - destruct G as (_ & _ & _ & _ & _ & leader & sides & E & Hn & _).
    rewrite E. simpl. split.
    + destruct (1 <? S k')%nat; [lia | subst sides; simpl; lia].
    + split; [discriminate | discriminate].
Qed.

Lemma grown_height (k : nat) :
  forall l d b, PineTree.grown k l d b -> PineStore.height b = S k.
Proof.
  induction k as [| k IH]; intros l d b G.
  - destruct G as (_ & _ & _ & _ & _ & E). destruct b. cbn in E. subst.
    reflexivity.
  - destruct G as (_ & _ & _ & _ & _ & leader & sides & E & _ & Hl & Hs).
    destruct b. cbn in E. subst. cbn [PineStore.height]. f_equal.
    cbn [map list_max fold_right].
    destruct Hl as (ll & _ & Gl). rewrite (IH _ _ _ Gl).
    assert (M : (list_max (map PineStore.height sides) <= S k)%nat).
    { apply list_max_le. apply Forall_map.
      eapply Forall_impl; [| exact Hs].
      intros s (ls & _ & Gs). rewrite (IH _ _ _ Gs). lia. }
    change (Nat.max (S k) (list_max (map PineStore.height sides)) = S k).
    lia.
Qed.

(** Every branch of a generated tree heads a generated tree. *)
Lemma grown_sub (k : nat) :
  forall l d t, 0 < l -> PineTree.grown k l d t ->
    Forall (fun b => exists k' lb db,
                (k' <= k)%nat /\ 0 < lb /\ d <= db /\
                PineTree.grown k' lb db b)
           (Pine.branches t).
Proof.
  induction k as [| k IH]; intros l d t Hl G.
  - pose proof G as (_ & _ & _ & _ & _ & E). destruct t. cbn in E. subst.
    cbn [Pine.branches flat_map]. constructor; [| constructor].
    exists 0%nat, l, d. split; [lia | split; [assumption | split; [lra | assumption]]].
  - pose proof G as (_ & _ & _ & _ & _ & leader & sides & E & _ & Hlead & Hs).
    destruct t. cbn in E. subst. cbn [Pine.branches]. constructor.
    + exists (S k), l, d.
      split; [lia | split; [assumption | split; [lra | assumption]]].
    + apply Forall_flat_map. constructor.
      * destruct Hlead as (ll & Hll & Gl).
        eapply Forall_impl; [| apply (IH ll (d + l) leader); [lra | exact Gl]].
        intros b (k' & lb & db & ? & ? & ? & ?). exists k', lb, db.
        split; [lia | split; [assumption | split; [lra | assumption]]].
      * eapply Forall_impl; [| exact Hs].
        intros s (ls & Hls & Gs).
        eapply Forall_impl; [| apply (IH ls (d + l) s); [lra | exact Gs]].
        intros b (k' & lb & db & ? & ? & ? & ?). exists k', lb, db.
        split; [lia | split; [assumption | split; [lra | assumption]]].
Qed.

Lemma length_flat_map_le {A B : Type} (f : A -> list B) (lo hi : nat)
    (l : list A) :
  Forall (fun a => (lo <= List.length (f a) <= hi)%nat) l ->
  (List.length l * lo <= List.length (flat_map f l)
   <= List.length l * hi)%nat.
Proof.
  induction 1 as [| a l Ha _ IH]; simpl; [lia |].
  rewrite length_app. lia.
Qed.

Lemma grown_size (k : nat) :
  forall l d t, PineTree.grown k l d t ->
    (PineTree.minBranches k <= List.length (Pine.branches t)
     <= PineTree.maxBranches k)%nat.
Proof.
  induction k as [| k IH]; intros l d t G.
  - destruct G as (_ & _ & _ & _ & _ & E). destruct t. cbn in E. subst.
    cbn. lia.
  - destruct G as (_ & _ & _ & _ & _ & leader & sides & E & Hn & Hlead & Hs).
    destruct t. cbn in E. subst. cbn [Pine.branches List.length flat_map].
    rewrite length_app.
    destruct Hlead as (ll & _ & Gl). pose proof (IH _ _ _ Gl) as Bl.
    assert (Bs : (List.length sides * PineTree.minBranches k
                  <= List.length (flat_map Pine.branches sides)
                  <= List.length sides * PineTree.maxBranches k)%nat).
    { apply length_flat_map_le. eapply Forall_impl; [| exact Hs].
      intros s (ls & _ & Gs). exact (IH _ _ _ Gs). }
    cbn [PineTree.minBranches PineTree.maxBranches].
    destruct (1 <? S k)%nat.
    + nia.
    + subst sides. cbn in *. lia.
Qed.

End GrownFacts.

Example pine_sizes_depth8 :
  (N.of_nat (PineTree.minBranches 8), N.of_nat (PineTree.maxBranches 8))
  = (383, 5467)%N.
Proof. reflexivity. Qed.

(** X7.  The tree [generateFullTree] builds for the recursion counter
    [depth] has height [depth + 1]; every branch has at most three
    children (the leader and at most two sides) and has none exactly when
    it is a tip; and the number of branches lies between the sizes of the
    thinnest and the fullest tree of that depth (383 and 5467 branches for
    the program's depth 8). *)
Theorem pine_tree_size `{JSMath} (depth : nat) (start : Vector2)
    (length angle currentDist : num) (rand : SeededRandom.t) :
  finite length -> (Fin 0 < length)%num -> finite currentDist ->
  RandOK rand ->
  let tree :=
    fst (Pine.generateFullTree depth start length angle currentDist rand) in
  PineStore.height tree = S depth /\
  (PineTree.minBranches depth <= List.length (Pine.branches tree)
   <= PineTree.maxBranches depth)%nat /\
  Forall (fun b =>
            (List.length (Pine.Branch.children b) <= 3)%nat /\
            (Pine.Branch.children b = [] <-> PineStore.height b = 1%nat))
         (Pine.branches tree).
Proof.
  intros [l ->] Hl [d ->] Hrand tree. apply nlt_Fin in Hl.
  pose proof (proj1 (generateFullTree_grown depth start l angle d Hl rand
                       Hrand)) as G.
  fold tree in G.
  split; [exact (grown_height _ _ _ _ G) |].
  split; [exact (grown_size _ _ _ _ G) |].
  eapply Forall_impl; [| exact (grown_sub _ _ _ _ Hl G)].
  intros b (k & lb & db & _ & _ & _ & Gb).
  destruct (grown_children_count _ _ _ _ Gb) as [C E].
  split; [exact C |]. rewrite (grown_height _ _ _ _ Gb). rewrite E. lia.
Qed.

Lemma pine_tree_size_witness :
  let tree :=
    fst (@Pine.generateFullTree Sample.math 8%nat (mkVector2 (Fin 0) (Fin 0))
           (Fin 180) (Fin (-90)) (Fin 0) Sample.rand) in
  PineStore.height tree = 9%nat /\
  (PineTree.minBranches 8 <= List.length (Pine.branches tree)
   <= PineTree.maxBranches 8)%nat.
Proof.
  intro tree.
  destruct (@pine_tree_size Sample.math 8%nat (mkVector2 (Fin 0) (Fin 0))
              (Fin 180) (Fin (-90)) (Fin 0) Sample.rand) as (Hh & Hn & _).
  - exists 180. reflexivity.
  - reflexivity.
  - exists 0. reflexivity.
  - vm_compute. discriminate.
  - split; [exact Hh | exact Hn].
Defined.

(** X8.  In a pine generated from arguments of moderate size the growth
    of a child starts where its parent's ends ([child.distFromRoot =
    parent.distFromRoot + parent.length]), and a child is between half and
    95% as long as its parent: every branch has a positive length, shorter
    than its parent's. *)
Theorem pine_child_distance `{JSMath} (depth : nat) (start : Vector2)
    (length angle currentDist : num) (rand : SeededRandom.t) :
  moderate depth start length angle currentDist ->
  RandOK rand ->
  let tree :=
    fst (Pine.generateFullTree depth start length angle currentDist rand) in
  Pine.Branch.distFromRoot tree = currentDist /\
  Pine.Branch.length tree = length /\
  forall b c,
    In b (Pine.branches tree) -> In c (Pine.Branch.children b) ->
    Pine.Branch.distFromRoot c
    = (Pine.Branch.distFromRoot b + Pine.Branch.length b)%num /\
    (Pine.Branch.length b * Fin 0.5 <= Pine.Branch.length c)%num /\
    (Pine.Branch.length c < Pine.Branch.length b * Fin 0.95)%num /\
    (Fin 0 < Pine.Branch.length c)%num /\
    (Pine.Branch.length c < Pine.Branch.length b)%num.
Proof.
  intros Hmod Hrand tree.
  destruct (moderate_inv _ _ _ _ _ Hmod) as (l & d & -> & -> & Hl1 & _).
  assert (Hl : 0 < l) by lra.
  pose proof (proj1 (generateFullTree_grown depth start l angle d Hl rand
                       Hrand)) as G.
  fold tree in G.
  split; [exact (proj2 (grown_root _ _ _ _ G)) |].
  split; [exact (proj1 (grown_root _ _ _ _ G)) |].
  intros b c Hb Hc.
  pose proof (grown_sub _ _ _ _ Hl G) as Sub. rewrite Forall_forall in Sub.
  destruct (Sub b Hb) as (k & lb & db & _ & Hlb & _ & Gb).
  destruct (grown_children _ _ _ _ _ Gb Hc) as (k' & lc & _ & Hlc & Gc).
  destruct (grown_root _ _ _ _ Gb) as [-> ->].
  destruct (grown_root _ _ _ _ Gc) as [-> ->].
  cbn [nadd nmul].
  split; [reflexivity |].
  split; [apply nle_Fin; lra |]. split; [apply nlt_Fin; lra |].
  split; apply nlt_Fin; lra.
Qed.

Lemma pine_child_distance_witness :
  let tree :=
    fst (@Pine.generateFullTree Sample.math 8%nat (mkVector2 (Fin 0) (Fin 0))
           (Fin 180) (Fin (-90)) (Fin 0) Sample.rand) in
  Pine.Branch.distFromRoot tree = Fin 0 /\
  Pine.Branch.length tree = Fin 180.
Proof.
  exact (conj (proj1 (@pine_child_distance Sample.math 8%nat
                        (mkVector2 (Fin 0) (Fin 0)) (Fin 180) (Fin (-90))
                        (Fin 0) Sample.rand pine_program_moderate
                        (new_RandOK _)))
              (proj1 (proj2 (@pine_child_distance Sample.math 8%nat
                               (mkVector2 (Fin 0) (Fin 0)) (Fin 180)
                               (Fin (-90)) (Fin 0) Sample.rand
                               pine_program_moderate (new_RandOK _))))).
Defined.

(** X9.  In a generated pine every branch is at least 2 wide and strictly
    thinner than its parent, and the tips are exactly 2 wide. *)
Theorem pine_stroke_tapers `{JSMath} (depth : nat) (start : Vector2)
    (length angle currentDist : num) (rand : SeededRandom.t) :
  finite length -> (Fin 0 < length)%num -> finite currentDist ->
  RandOK rand ->
  let tree :=
    fst (Pine.generateFullTree depth start length angle currentDist rand) in
  forall b,
    In b (Pine.branches tree) ->
    (Fin 2 <= Pine.Branch.strokeWidth b)%num /\
    (Pine.Branch.children b = [] ->
     (Pine.Branch.strokeWidth b == Fin 2)%num) /\
    (forall c, In c (Pine.Branch.children b) ->
               (Pine.Branch.strokeWidth c < Pine.Branch.strokeWidth b)%num).
Proof.
  intros [l ->] Hl [d ->] Hrand tree. apply nlt_Fin in Hl.
  pose proof (proj1 (generateFullTree_grown depth start l angle d Hl rand
                       Hrand)) as G.
  fold tree in G.
  intros b Hb.
  pose proof (grown_sub _ _ _ _ Hl G) as Sub. rewrite Forall_forall in Sub.
  destruct (Sub b Hb) as (k & lb & db & _ & Hlb & _ & Gb).
  destruct (grown_stroke _ _ _ _ Gb) as (w & Ew & Hw2 & Hwlo & Hwhi).
  rewrite Ew. split; [apply nle_Fin; exact Hw2 |]. split.
  - intro E. apply (grown_children_count _ _ _ _ Gb) in E. subst k.
    apply neq_Fin. change (inject_Z (Z.of_nat 0)) with 0 in Hwhi.
    destruct Hwhi as [E | L]; [exact E | lra].
  - intros c Hc.
    destruct (grown_children _ _ _ _ _ Gb Hc) as (k' & lc & -> & _ & Gc).
    destruct (grown_stroke _ _ _ _ Gc) as (wc & Ewc & _ & _ & Hc2).
    rewrite Ewc. apply nlt_Fin.
    assert (E : inject_Z (Z.of_nat (S k')) == inject_Z (Z.of_nat k') + 1).
    { rewrite Nat2Z.inj_succ. unfold Z.succ. rewrite inject_Z_plus.
      reflexivity. }
    rewrite E in Hwlo.
    assert (0 <= inject_Z (Z.of_nat k')).
    { change 0 with (inject_Z 0). rewrite <- Zle_Qle. lia. }
    destruct Hc2 as [E2 | L]; [rewrite E2 |]; lra.
Qed.

Lemma pine_stroke_tapers_witness :
  let tree :=
    fst (@Pine.generateFullTree Sample.math 8%nat (mkVector2 (Fin 0) (Fin 0))
           (Fin 180) (Fin (-90)) (Fin 0) Sample.rand) in
  (Fin 2 <= Pine.Branch.strokeWidth tree)%num.
Proof.
  exact (proj1 (@pine_stroke_tapers Sample.math 8%nat
                  (mkVector2 (Fin 0) (Fin 0)) (Fin 180) (Fin (-90)) (Fin 0)
                  Sample.rand (ex_intro _ 180 eq_refl) eq_refl
                  (ex_intro _ 0 eq_refl) (new_RandOK _) _
                  (branches_root _))).
Defined.

(** X10.  In a generated pine a branch carries entities exactly when it is
    at most six levels high (counter [depth <= 5]), and then 6 to 9 of
    them; cones ([fruit]) appear only on branches at most five levels
    high; every radius lies in [13.5, 25), every colour channel of the
    base and highlight colours is a number from 0 to 255 with alpha 1, and
    no entity of the tree carries an opacity. *)
Theorem pine_entities_by_level `{JSMath} (depth : nat) (start : Vector2)
    (length angle currentDist : num) (rand : SeededRandom.t) :
  finite length -> (Fin 0 < length)%num -> finite currentDist ->
  RandOK rand ->
  let tree :=
    fst (Pine.generateFullTree depth start length angle currentDist rand) in
  forall b,
    In b (Pine.branches tree) ->
    ((PineStore.height b <= 6)%nat ->
     (6 <= List.length (Pine.Branch.entities b) <= 9)%nat) /\
    ((6 < PineStore.height b)%nat -> Pine.Branch.entities b = []) /\
    forall e, In e (Pine.Branch.entities b) ->
      (Pine.Entity.type e = Pine.fruit -> (PineStore.height b <= 5)%nat) /\
      (Fin 13.5 <= Pine.Entity.radius e)%num /\
      (Pine.Entity.radius e < Fin 25)%num /\
      PineTree.color_ok (Pine.Entity.baseColor e) /\
      PineTree.color_ok (Pine.Entity.highlightColor e) /\
      Pine.Entity.opacity e = None.
Proof.
  intros [l ->] Hl [d ->] Hrand tree. apply nlt_Fin in Hl.
  pose proof (proj1 (generateFullTree_grown depth start l angle d Hl rand
                       Hrand)) as G.
  fold tree in G.
  intros b Hb.
  pose proof (grown_sub _ _ _ _ Hl G) as Sub. rewrite Forall_forall in Sub.
  destruct (Sub b Hb) as (k & lb & db & _ & Hlb & _ & Gb).
  rewrite (grown_height _ _ _ _ Gb).
  destruct (grown_entities _ _ _ _ Gb) as (Hn & He).
  split; [| split].
  - intro Hk. destruct (Nat.leb_spec k 5); [exact Hn | lia].
  - intro Hk. destruct (Nat.leb_spec k 5); [lia | exact Hn].
  - intros e Hin. rewrite Forall_forall in He.
    destruct (He e Hin) as ((rad & Er & Hr) & Hf & Hb1 & Hb2 & Ho).
    rewrite Er.
    split; [intro Ht; specialize (Hf Ht); lia |].
    split; [apply nle_Fin; lra |]. split; [apply nlt_Fin; lra |].
    split; [exact Hb1 | split; [exact Hb2 | exact Ho]].
Qed.

Lemma pine_entities_by_level_witness :
  let tree :=
    fst (@Pine.generateFullTree Sample.math 8%nat (mkVector2 (Fin 0) (Fin 0))
           (Fin 180) (Fin (-90)) (Fin 0) Sample.rand) in
  RandOK Sample.rand /\
  ((6 < PineStore.height tree)%nat -> Pine.Branch.entities tree = []).
Proof.
  exact (conj (new_RandOK _)
           (proj1 (proj2 (@pine_entities_by_level Sample.math 8%nat
                            (mkVector2 (Fin 0) (Fin 0)) (Fin 180)
                            (Fin (-90)) (Fin 0) Sample.rand
                            (ex_intro _ 180 eq_refl) eq_refl
                            (ex_intro _ 0 eq_refl) (new_RandOK _) _
                            (branches_root _))))).
Defined.

(* ================================================================== *)
(** * The bounds are the least enclosing rectangle; the fit *)

Section LeastBounds.

Lemma Math_min_glb (m a b : num) :
  (m <= a)%num -> (m <= b)%num -> (m <= Math_min a b)%num.
Proof.
  intros Ha Hb. destruct (nle_not_nan _ _ Ha) as [_ Na].
  destruct (nle_not_nan _ _ Hb) as [_ Nb].
  unfold Math_min. destruct a, b; try congruence;
    match goal with |- context [if ?c then _ else _] => destruct c end;
    assumption.
Qed.

Lemma Math_max_lub (m a b : num) :
  (a <= m)%num -> (b <= m)%num -> (Math_max a b <= m)%num.
Proof.
  intros Ha Hb. destruct (nle_not_nan _ _ Ha) as [Na _].
  destruct (nle_not_nan _ _ Hb) as [Nb _].
  unfold Math_max. destruct a, b; try congruence;
    match goal with |- context [if ?c then _ else _] => destruct c end;
    assumption.
Qed.

(** [calculateBounds] handles the branches one after the other, parents
    before children. *)
Lemma calculateBounds_fold (t : Pine.Branch.t) :
  forall B,
    Pine.calculateBounds t B
    = fold_left (fun B b => fold_left Pine.boundsEntity (Pine.Branch.entities b)
                              (Pine.boundsOwn b B))
        (Pine.branches t) B.
Proof.
  induction t as [s e w c l d children ents IH] using Branch_ind'.
  intro B. cbn [Pine.calculateBounds Pine.branches fold_left].
  rewrite fold_left_flat_map.
  apply fold_left_ext_Forall.
  eapply Forall_impl; [| exact IH]. intros child Hchild a. apply Hchild.
Qed.

Lemma boundsOwn_least (B B' : Bounds) (b : Pine.Branch.t) :
  bounds_grow B B' ->
  Pine.point_in B' (Pine.Branch.start b) ->
  Pine.point_in B' (Pine.Branch.end_ b) ->
  Pine.point_in B' (Pine.Branch.control b) ->
  bounds_grow (Pine.boundsOwn b B) B'.
Proof.
  intros (G1 & G2 & G3 & G4) (S1 & S2 & S3 & S4) (E1 & E2 & E3 & E4)
         (C1 & C2 & C3 & C4).
  unfold bounds_grow, Pine.boundsOwn, Math_min4, Math_max4.
  cbn [minX maxX minY maxY].
  split; [| split; [| split]];
    repeat (first [apply Math_min_glb | apply Math_max_lub]); assumption.
Qed.

Lemma boundsEntity_least (B B' : Bounds) (e : Pine.Entity.t) :
  bounds_grow B B' -> Pine.circle_in B' e ->
  bounds_grow (Pine.boundsEntity B e) B'.
Proof.
  intros (G1 & G2 & G3 & G4) [(L1 & _ & L3 & _) (_ & U2 & _ & U4)].
  cbn [x y] in *.
  unfold bounds_grow, Pine.boundsEntity. cbn [minX maxX minY maxY].
  split; [| split; [| split]];
    first [apply Math_min_glb | apply Math_max_lub]; assumption.
Qed.

Lemma calculateBounds_least_from (B' : Bounds) (bs : list Pine.Branch.t) :
  Forall (Pine.branch_in B') bs ->
  forall B, bounds_grow B B' ->
    bounds_grow
      (fold_left (fun B b => fold_left Pine.boundsEntity
                               (Pine.Branch.entities b) (Pine.boundsOwn b B))
         bs B) B'.
Proof.
  induction 1 as [| b bs (Ps & Pe & Pc & Pents) _ IH]; intros B G;
    cbn [fold_left]; [exact G |].
  apply IH.
  pose proof (boundsOwn_least _ _ b G Ps Pe Pc) as G1.
  revert G1. generalize (Pine.boundsOwn b B).
  induction Pents as [| e ents He _ IHe]; intros B1 G1; cbn [fold_left];
    [exact G1 |].
  apply IHe. now apply boundsEntity_least.
Qed.

Lemma Math_min_finite (a b : num) :
  finite a -> finite b -> finite (Math_min a b).
Proof. intros [p ->] [q ->]. rewrite Math_min_Fin. eexists; reflexivity. Qed.

Lemma Math_max_finite (a b : num) :
  finite a -> finite b -> finite (Math_max a b).
Proof. intros [p ->] [q ->]. rewrite Math_max_Fin. eexists; reflexivity. Qed.

Lemma Math_min_PInf (b : num) : finite b -> Math_min PInf b = b.
Proof. intros [q ->]. reflexivity. Qed.

Lemma Math_max_NInf (b : num) : finite b -> Math_max NInf b = b.
Proof. intros [q ->]. reflexivity. Qed.

Lemma boundsOwn_initial_fin (b : Pine.Branch.t) :
  Pine.finite_vec (Pine.Branch.start b) ->
  Pine.finite_vec (Pine.Branch.end_ b) ->
  Pine.finite_vec (Pine.Branch.control b) ->
  bounds_fin (Pine.boundsOwn b initialBounds).
Proof.
  intros [Sx Sy] [Ex Ey] [Cx Cy].
  unfold bounds_fin, Pine.boundsOwn, Math_min4, Math_max4, initialBounds.
  cbn [minX maxX minY maxY].
  rewrite !Math_min_PInf, !Math_max_NInf by assumption.
  repeat split;
    repeat (first [apply Math_min_finite | apply Math_max_finite]);
    assumption.
Qed.

Lemma boundsOwn_fin (B : Bounds) (b : Pine.Branch.t) :
  bounds_fin B ->
  Pine.finite_vec (Pine.Branch.start b) ->
  Pine.finite_vec (Pine.Branch.end_ b) ->
  Pine.finite_vec (Pine.Branch.control b) ->
  bounds_fin (Pine.boundsOwn b B).
Proof.
  intros (F1 & F2 & F3 & F4) [Sx Sy] [Ex Ey] [Cx Cy].
  unfold bounds_fin, Pine.boundsOwn, Math_min4, Math_max4.
  cbn [minX maxX minY maxY].
  repeat split;
    repeat (first [apply Math_min_finite | apply Math_max_finite]);
    assumption.
Qed.

Lemma boundsEntity_fin (ents : list Pine.Entity.t) :
  Forall Pine.entity_wf ents ->
  forall B, bounds_fin B -> bounds_fin (fold_left Pine.boundsEntity ents B).
Proof.
  induction 1 as [| e ents ([Cx Cy] & r & Er & _) _ IH]; intros B HB;
    cbn [fold_left]; [exact HB |].
  apply IH. destruct HB as (F1 & F2 & F3 & F4).
  unfold bounds_fin, Pine.boundsEntity. cbn [minX maxX minY maxY].
  rewrite Er.
  repeat split;
    first [apply Math_min_finite | apply Math_max_finite];
    auto using finite_add, finite_sub, finite_Fin.
Qed.

Lemma calculateBounds_fin (t : Pine.Branch.t) :
  Pine.tree_wf t -> bounds_fin (Pine.calculateBounds t initialBounds).
Proof.
  intro Hwf. rewrite calculateBounds_fold. unfold Pine.tree_wf in Hwf.
  destruct t as [s e w c l d children ents].
  cbn [Pine.branches fold_left] in *.
  apply Forall_cons_iff in Hwf. destruct Hwf as [(Fs & Fe & Fc & Fents) Hch].
  pose proof (boundsEntity_fin _ Fents _ (boundsOwn_initial_fin _ Fs Fe Fc))
    as F0.
  revert F0. cbn [Pine.Branch.entities].
  generalize (fold_left Pine.boundsEntity ents
                (Pine.boundsOwn (Pine.Branch.mk s e w c l d children ents)
                   initialBounds)).
  induction Hch as [| b bs (Fs' & Fe' & Fc' & Fents') _ IH]; intros B HB;
    cbn [fold_left]; [exact HB |].
  apply IH. apply boundsEntity_fin; [exact Fents' |].
  now apply boundsOwn_fin.
Qed.

End LeastBounds.

(** X11.  For a tree of finite geometry (radii not negative) the
    rectangle [calculateBounds] returns encloses every branch point and
    every entity circle, and it is the least such rectangle: every
    rectangle that encloses the tree reaches at least as far on each
    side. *)
Theorem calculateBounds_least (t : Pine.Branch.t) :
  Pine.tree_wf t ->
  let B := Pine.calculateBounds t initialBounds in
  Pine.encloses B t /\
  forall B', Pine.encloses B' t -> bounds_grow B B'.
Proof.
  intros Hwf B. split.
  - exact (proj2 (proj2 (calculateBounds_encloses t Hwf initialBounds
                           initialBounds_nn))).
  - intros B' He. unfold B. rewrite calculateBounds_fold.
    apply calculateBounds_least_from; [exact He |].
    unfold Pine.encloses in He. destruct t as [s e w c l d children ents].
    cbn [Pine.branches] in He. apply Forall_cons_iff in He.
    destruct He as [((L1 & U1 & L2 & U2) & _) _].
    destruct (nle_not_nan _ _ L1) as [N1 _].
    destruct (nle_not_nan _ _ U1) as [_ N2].
    destruct (nle_not_nan _ _ L2) as [N3 _].
    destruct (nle_not_nan _ _ U2) as [_ N4].
    unfold bounds_grow, initialBounds. cbn [minX maxX minY maxY].
    destruct (minX B'), (maxX B'), (minY B'), (maxY B'); try congruence;
      repeat split.
Qed.

Lemma calculateBounds_least_witness :
  Pine.tree_wf Pine.lateEntityTree /\
  Pine.encloses (Pine.calculateBounds Pine.lateEntityTree initialBounds)
    Pine.lateEntityTree.
Proof.
  assert (W : Pine.tree_wf Pine.lateEntityTree).
  { repeat constructor; try (eexists; reflexivity).
    exists 15. split; [reflexivity | discriminate]. }
  split; [exact W |].
  apply (calculateBounds_least Pine.lateEntityTree W).
Defined.

Lemma autoFit_scale_offsets (x0 x1 y0 y1 : Q) :
  x0 < x1 -> y0 < y1 ->
  exists s ox oy : Q,
    autoFit (mkBounds (Fin x0) (Fin x1) (Fin y0) (Fin y1))
    = mkFit (Fin s) (Fin ox) (Fin oy) /\
    0 < s /\
    ((x1 - x0) * s == 920 /\ (y1 - y0) * s <= 920 \/
     (y1 - y0) * s == 920 /\ (x1 - x0) * s <= 920) /\
    80 <= x0 * s + ox /\ x1 * s + ox <= 1000 /\
    (x0 * s + ox) + (x1 * s + ox) == 1080 /\
    80 <= y0 * s + oy /\ y1 * s + oy == 1000.
Proof.
  intros Lx Ly.
  unfold autoFit. cbn [minX maxX minY maxY].
  unfold CONFIG.width, CONFIG.height, CONFIG.padding.
  assert (P0 : forall p q : Q, q < p ->
            (Fin (1080 - 80 * 2) / (Fin p - Fin q))%num
            = Fin ((1080 - 80 * 2) / (p - q))).
  { intros p q L. cbn [nsub]. apply ndiv_Fin. lra. }
  change (Fin 1080 - Fin 80 * Fin 2)%num with (Fin (1080 - 80 * 2)).
  rewrite (P0 _ _ Lx), (P0 _ _ Ly). rewrite Math_min_Fin.
  cbn [nsub]. rewrite !ndiv_Fin by lra. cbn [nadd nmul nsub].
  set (w := x1 - x0). set (h := y1 - y0).
  set (s := qmin ((1080 - 80 * 2) / w) ((1080 - 80 * 2) / h)).
  eexists s, _, _. split; [reflexivity |].
  assert (Hw : 0 < w) by (unfold w; lra).
  assert (Hh : 0 < h) by (unfold h; lra).
  assert (Ew : w * ((1080 - 80 * 2) / w) == 920) by (field; lra).
  assert (Eh : h * ((1080 - 80 * 2) / h) == 920) by (field; lra).
  assert (Pw : 0 < (1080 - 80 * 2) / w).
  { apply Qlt_shift_div_l; [exact Hw | lra]. }
  assert (Ph : 0 < (1080 - 80 * 2) / h).
  { apply Qlt_shift_div_l; [exact Hh | lra]. }
  assert (Hs : 0 < s /\ (w * s == 920 /\ h * s <= 920 \/
                         h * s == 920 /\ w * s <= 920)).
  { unfold s.
    destruct (qmin_spec ((1080 - 80 * 2) / w) ((1080 - 80 * 2) / h))
      as [[L ->] | [L ->]]; (split; [assumption |]).
    - left. split; [exact Ew |].
      rewrite <- Eh. apply Qmult_le_l; assumption.
    - right. split; [exact Eh |].
      rewrite <- Ew. apply Qmult_le_l; [assumption | lra]. }
  destruct Hs as [Hs0 Hfill]. split; [exact Hs0 |]. split; [exact Hfill |].
  assert (Bw : w * s <= 920) by (destruct Hfill as [[E ?] | [? ?]]; lra).
  assert (Bh : h * s <= 920) by (destruct Hfill as [[? ?] | [E ?]]; lra).
  assert (X0 : x0 * s + (1080 / 2 - (x0 + w / 2) * s) == 540 - (1 # 2) * (w * s))
    by (field).
  assert (X1 : x1 * s + (1080 / 2 - (x0 + w / 2) * s) == 540 + (1 # 2) * (w * s))
    by (unfold w; field).
  assert (Y0 : y0 * s + (1080 - 80 - y1 * s) == 1000 - h * s)
    by (unfold h; ring).
  assert (Y1 : y1 * s + (1080 - 80 - y1 * s) == 1000) by ring.
  rewrite X0, X1, Y0, Y1.
  clear X0 X1 Y0 Y1 Hfill Ew Eh Pw Ph P0.
  set (ws := w * s) in *. set (hs := h * s) in *. clearbody ws hs.
  repeat split; try lra.
Qed.

(** X12.  On bounds whose sides are at most 100000 from the origin and at
    least 10 apart on each axis, the fit is a finite positive scale with
    two finite offsets under which the bounds rectangle lies inside the
    padded canvas: up to a thousandth of a pixel its two corners are
    placed between 80 and 1000, it is centred horizontally (the placed
    left and right sides add up to the canvas width), it stands on the
    lower padding line, and one of its two extents fills the 920 available
    pixels. *)
Theorem autoFit_fits (bounds : Bounds) :
  between (-100000) 100000 (minX bounds) ->
  between (-100000) 100000 (maxX bounds) ->
  between (-100000) 100000 (minY bounds) ->
  between (-100000) 100000 (maxY bounds) ->
  (minX bounds + Fin 10 <= maxX bounds)%num ->
  (minY bounds + Fin 10 <= maxY bounds)%num ->
  let fit := autoFit bounds in
  let place := toCanvas (finalScale fit) (offsetX fit) (offsetY fit) in
  let low := place (mkVector2 (minX bounds) (minY bounds)) in
  let high := place (mkVector2 (maxX bounds) (maxY bounds)) in
  finite (finalScale fit) /\ (Fin 0 < finalScale fit)%num /\
  finite (offsetX fit) /\ finite (offsetY fit) /\
  in_canvas low /\ in_canvas high /\
  near (x low + x high)%num CONFIG.width /\
  near (y high) (CONFIG.height - CONFIG.padding)%num /\
  (near ((maxX bounds - minX bounds) * finalScale fit)%num (Fin 920) \/
   near ((maxY bounds - minY bounds) * finalScale fit)%num (Fin 920)).
Proof.
  destruct bounds as [a0 a1 b0 b1]. cbv zeta. cbn [minX maxX minY maxY].
  intros (x0 & -> & _) (x1 & -> & _) (y0 & -> & _) (y1 & -> & _) Lx Ly.
  cbn [nadd] in Lx, Ly. apply nle_Fin in Lx, Ly.
  destruct (autoFit_scale_offsets x0 x1 y0 y1 ltac:(lra) ltac:(lra))
    as (s & ox & oy & E & Hs & Hfill & Hx0 & Hx1 & Hc & Hy0 & Hy1).
  rewrite E.
  unfold toCanvas, in_canvas, near, tolerance, CONFIG.width, CONFIG.height,
    CONFIG.padding.
  cbn [finalScale offsetX offsetY x y nadd nsub nmul].
  assert (Lxs : x0 * s <= x1 * s) by (apply Qmult_le_compat_r; lra).
  assert (Lys : y0 * s <= y1 * s) by (apply Qmult_le_compat_r; lra).
  split; [eexists; reflexivity |]. split; [now apply nlt_Fin |].
  split; [eexists; reflexivity |]. split; [eexists; reflexivity |].
  split; [repeat split; apply nle_Fin; lra |].
  split; [repeat split; apply nle_Fin; lra |].
  split; [split; apply nle_Fin; lra |].
  split; [split; apply nle_Fin; lra |].
  destruct Hfill as [[Ef _] | [Ef _]]; [left | right];
    split; apply nle_Fin; lra.
Qed.

Lemma autoFit_fits_witness :
  let bounds := mkBounds (Fin (-300)) (Fin 300) (Fin (-900)) (Fin 0) in
  (minX bounds + Fin 10 <= maxX bounds)%num /\
  (minY bounds + Fin 10 <= maxY bounds)%num /\
  (Fin 0 < finalScale (autoFit bounds))%num.
Proof.
  split; [reflexivity |]. split; [reflexivity |].
  apply (autoFit_fits (mkBounds (Fin (-300)) (Fin 300) (Fin (-900)) (Fin 0)));
    first [apply between_Fin; split; discriminate | reflexivity].
Defined.

(* ================================================================== *)
(** * The projector in closed form *)

Section ClosedForm.
Variables p scale ox oy : num.

Lemma flattenEntity_eq (el : list Pine.Entity.t) (e : Pine.Entity.t) :
  Pine.flattenEntity p scale ox oy el e
  = if PineFlat.shown p e then el ++ [PineFlat.entityOf p scale ox oy e]
    else el.
Proof.
  unfold Pine.flattenEntity, PineFlat.shown, PineFlat.entityOf.
  destruct (p >? Pine.Entity.distFromRoot e)%num; cbn [andb];
    [| reflexivity].
  destruct (Pine.fadeOpacity e p >? Fin 0.01)%num; reflexivity.
Qed.

Lemma fold_flattenEntity_eq (ents el : list Pine.Entity.t) :
  fold_left (Pine.flattenEntity p scale ox oy) ents el
  = el ++ map (PineFlat.entityOf p scale ox oy)
            (filter (PineFlat.shown p) ents).
Proof.
  revert el. induction ents as [| e ents IH]; intro el; cbn [fold_left filter].
  - now rewrite app_nil_r.
  - rewrite IH, flattenEntity_eq.
    destruct (PineFlat.shown p e); [| reflexivity].
    cbn [map]. now rewrite <- app_assoc.
Qed.

Lemma flattenOwn_eq (b : Pine.Branch.t) (bl : list SimpleBranch)
    (el : list Pine.Entity.t) :
  Pine.flattenOwn b (bl, el) p scale ox oy
  = if PineFlat.visible p b
    then (bl ++ [PineFlat.segmentOf p scale ox oy b],
          el ++ map (PineFlat.entityOf p scale ox oy)
                  (filter (PineFlat.shown p) (Pine.Branch.entities b)))
    else (bl, el).
Proof.
  unfold PineFlat.visible, Pine.emits, Pine.flattenOwn.
  change (coerceIn ((p - Pine.Branch.distFromRoot b) / Pine.Branch.length b)
            (Fin 0) (Fin 1))%num with (Pine.localT b p).
  destruct (p >? Pine.Branch.distFromRoot b)%num; cbn [andb];
    [| reflexivity].
  destruct (Pine.localT b p >? Fin 0)%num; [| reflexivity].
  rewrite fold_flattenEntity_eq. reflexivity.
Qed.

Lemma flatten_closed_form (t : Pine.Branch.t) (bl : list SimpleBranch)
    (el : list Pine.Entity.t) :
  Pine.flattenTreeOrganic t (bl, el) p scale ox oy
  = (bl ++ map (PineFlat.segmentOf p scale ox oy)
             (filter (PineFlat.visible p) (Pine.branches t)),
     el ++ flat_map
             (fun b => map (PineFlat.entityOf p scale ox oy)
                         (filter (PineFlat.shown p) (Pine.Branch.entities b)))
             (filter (PineFlat.visible p) (Pine.branches t))).
Proof.
  rewrite flattenTreeOrganic_fold.
  generalize (Pine.branches t). intro bs. revert bl el.
  induction bs as [| b bs IH]; intros bl el; cbn [fold_left filter].
  - now rewrite !app_nil_r.
  - rewrite flattenOwn_eq.
    destruct (PineFlat.visible p b); [| apply IH].
    rewrite IH. cbn [map flat_map]. now rewrite <- !app_assoc.
Qed.

End ClosedForm.

Section Clamp.

Lemma clamp_positive (v : num) :
  (coerceIn v (Fin 0) (Fin 1) >? Fin 0)%num = true ->
  exists q : Q, coerceIn v (Fin 0) (Fin 1) = Fin q /\ 0 < q <= 1.
Proof.
  destruct v as [q | | |]; intro Hgt.
  - rewrite coerceIn_Fin in *. exists (qclamp q 0 1). split; [reflexivity |].
    pose proof (qclamp01_range q). apply nlt_Fin in Hgt. lra.
  - exists 1. split; [reflexivity | lra].
  - discriminate Hgt.
  - discriminate Hgt.
Qed.

Lemma visible_localT (p : num) (b : Pine.Branch.t) :
  PineFlat.visible p b = true ->
  exists q : Q, Pine.localT b p = Fin q /\ 0 < q <= 1.
Proof.
  unfold PineFlat.visible, Pine.emits. intro Hv.
  apply andb_true_iff in Hv. destruct Hv as [_ Hv].
  exact (clamp_positive _ Hv).
Qed.

End Clamp.

(* ================================================================== *)
(** * The projector: truncated curves and monotone reveal *)

Section Visible.

Lemma qclamp01_pos (v : Q) : 0 < qclamp v 0 1 <-> 0 < v.
Proof.
  unfold qclamp.
  destruct (qmin_spec v 1) as [[? ->] | [? ->]];
    destruct (qmax_spec 0 v) as [[? E] | [? E]];
    destruct (qmax_spec 0 1) as [[? E'] | [? E']];
    rewrite ?E, ?E'; split; intro; lra.
Qed.

(** A branch of positive length is visible exactly when the progress has
    passed its start. *)
Lemma visible_iff (p : Q) (b : Pine.Branch.t) (l d : Q) :
  Pine.Branch.length b = Fin l -> Pine.Branch.distFromRoot b = Fin d ->
  0 < l ->
  (PineFlat.visible (Fin p) b = true <-> d < p).
Proof.
  intros El Ed Hl. unfold PineFlat.visible, Pine.emits. rewrite El, Ed.
  rewrite clamp_ratio_Fin by exact Hl.
  rewrite andb_true_iff.
  change ((Fin p >? Fin d)%num = true) with (Fin d < Fin p)%num.
  change ((Fin (qclamp ((p - d) / l) 0 1) >? Fin 0)%num = true)
    with (Fin 0 < Fin (qclamp ((p - d) / l) 0 1))%num.
  rewrite !nlt_Fin, qclamp01_pos. split; [tauto |].
  intro L. split; [exact L |].
  apply Qlt_shift_div_l; [exact Hl | lra].
Qed.

Lemma shown_mono (p1 p2 : Q) (e : Pine.Entity.t) :
  finite (Pine.Entity.distFromRoot e) -> p1 <= p2 ->
  PineFlat.shown (Fin p1) e = true -> PineFlat.shown (Fin p2) e = true.
Proof.
  intros [de Ede] Hle. unfold PineFlat.shown, Pine.fadeOpacity.
  rewrite Ede. rewrite !fade_Fin by reflexivity.
  rewrite !andb_true_iff.
  change (forall a b : num, (a >? b)%num = true <-> (b < a)%num)
    with (forall a b : num, (a >? b)%num = true <-> (a >? b)%num = true).
  unfold ngtb. fold (nlt (Fin de) (Fin p1)). fold (nlt (Fin de) (Fin p2)).
  fold (nlt (Fin 0.01) (Fin (qsmooth (qclamp ((p1 - de) / 150) 0 1)))).
  fold (nlt (Fin 0.01) (Fin (qsmooth (qclamp ((p2 - de) / 150) 0 1)))).
  rewrite !nlt_Fin. intros [L1 L2].
  pose proof (fade_mono p1 p2 de 150 eq_refl Hle). split; lra.
Qed.

Lemma length_filter_le {A : Type} (f g : A -> bool) (l : list A) :
  Forall (fun a => f a = true -> g a = true) l ->
  (List.length (filter f l) <= List.length (filter g l))%nat.
Proof.
  induction 1 as [| a l Ha _ IH]; cbn [filter]; [lia |].
  destruct (f a) eqn:Ef.
  - rewrite (Ha eq_refl). simpl. lia.
  - destruct (g a); simpl; lia.
Qed.

End Visible.

(** X14.  On a tree whose branches have positive finite lengths and
    whose branches and entities have finite distances, growth never
    retracts: at a later progress [flattenTreeOrganic] pushes at least as
    many segments and at least as many entities as at an earlier one. *)
Theorem flatten_reveal_monotone (t : Pine.Branch.t) (p1 p2 : Q)
    (scale offsetX offsetY : num) :
  Forall measured (Pine.branches t) -> p1 <= p2 ->
  let out1 := Pine.flattenTreeOrganic t ([], []) (Fin p1) scale offsetX
                offsetY in
  let out2 := Pine.flattenTreeOrganic t ([], []) (Fin p2) scale offsetX
                offsetY in
  (List.length (fst out1) <= List.length (fst out2))%nat /\
  (List.length (snd out1) <= List.length (snd out2))%nat.
Proof.
  intros Hok Hle out1 out2. unfold out1, out2.
  rewrite !flatten_closed_form. cbn [fst snd app].
  rewrite !length_map.
  generalize dependent (Pine.branches t). intros bs Hok.
  assert (V : Forall (fun b => PineFlat.visible (Fin p1) b = true ->
                               PineFlat.visible (Fin p2) b = true) bs).
  { eapply Forall_impl; [| exact Hok].
    intros b (l & d & El & Ed & Hl & _).
    rewrite (visible_iff p1 b l d El Ed Hl), (visible_iff p2 b l d El Ed Hl).
    lra. }
  split; [now apply length_filter_le |].
  induction Hok as [| b bs (l & d & El & Ed & Hl & Hents) _ IH];
    cbn [filter]; [simpl; lia |].
  apply Forall_cons_iff in V. destruct V as [Vb V]. specialize (IH V).
  assert (E : (List.length (filter (PineFlat.shown (Fin p1))
                              (Pine.Branch.entities b))
               <= List.length (filter (PineFlat.shown (Fin p2))
                                 (Pine.Branch.entities b)))%nat).
  { apply length_filter_le. eapply Forall_impl; [| exact Hents].
    intros e Hde. apply shown_mono; [exact Hde | exact Hle]. }
  destruct (PineFlat.visible (Fin p1) b) eqn:V1.
  - rewrite (Vb eq_refl). cbn [flat_map]. rewrite !length_app, !length_map.
    lia.
  - destruct (PineFlat.visible (Fin p2) b); cbn [flat_map];
      rewrite ?length_app, ?length_map; lia.
Qed.

Lemma twig_measured : Forall measured (Pine.branches PineTree.twig).
Proof.
  constructor; [| constructor].
  exists 10, 0. repeat split.
  constructor; [| constructor]. exists 5. reflexivity.
Qed.

Lemma flatten_reveal_monotone_witness :
  5 <= 60 /\
  (List.length
     (fst (Pine.flattenTreeOrganic PineTree.twig ([], []) (Fin 5)
             (Fin 2) (Fin 540) (Fin 1000)))
   <= List.length
        (fst (Pine.flattenTreeOrganic PineTree.twig ([], []) (Fin 60)
                (Fin 2) (Fin 540) (Fin 1000))))%nat.
Proof.
  split; [discriminate |].
  apply (flatten_reveal_monotone PineTree.twig 5 60).
  - exact twig_measured.
  - discriminate.
Defined.

(* ================================================================== *)
(** * The frames of a generated pine *)

Section Lists.

Lemma filter_all {A : Type} (f : A -> bool) (l : list A) :
  Forall (fun a => f a = true) l -> filter f l = l.
Proof.
  induction 1 as [| a l Ha _ IH]; cbn [filter]; [reflexivity |].
  now rewrite Ha, IH.
Qed.

Lemma filter_none {A : Type} (f : A -> bool) (l : list A) :
  Forall (fun a => f a = false) l -> filter f l = [].
Proof.
  induction 1 as [| a l Ha _ IH]; cbn [filter]; [reflexivity |].
  now rewrite Ha, IH.
Qed.

Lemma Forall2_map_self {A B : Type} (P : A -> B -> Prop) (f : A -> B)
    (l : list A) :
  Forall (fun a => P a (f a)) l -> Forall2 P l (map f l).
Proof. induction 1; cbn [map]; constructor; assumption. Qed.

Lemma flat_map_map_all {A B C : Type} (g : A -> list B) (f : B -> C)
    (l : list A) :
  flat_map (fun a => map f (g a)) l = map f (flat_map g l).
Proof.
  induction l as [| a l IH]; cbn [flat_map map]; [reflexivity |].
  now rewrite map_app, IH.
Qed.

Lemma flat_map_ext_Forall {A B : Type} (f g : A -> list B) (l : list A) :
  Forall (fun a => f a = g a) l -> flat_map f l = flat_map g l.
Proof.
  induction 1 as [| a l Ha _ IH]; cbn [flat_map]; [reflexivity |].
  now rewrite Ha, IH.
Qed.

End Lists.

Section Progress.

Lemma currentGrowthDist_Fin (n : nat) (m : Q) :
  PineVideo.currentGrowthDist n (Fin m)
  = Fin (inject_Z (Z.of_nat n) / (30 * 30 - 1) * (m + 200)).
Proof.
  unfold PineVideo.currentGrowthDist, PineVideo.totalFrames,
    PineVideo.durationSeconds, PineVideo.fps.
  cbn [nmul nsub nadd]. rewrite ndiv_Fin by discriminate. reflexivity.
Qed.

Lemma currentGrowthDist_first (m : Q) :
  inject_Z (Z.of_nat 0) / (30 * 30 - 1) * (m + 200) == 0.
Proof. change (inject_Z (Z.of_nat 0)) with 0. field. Qed.

Lemma currentGrowthDist_last (m : Q) :
  inject_Z (Z.of_nat PineVideo.lastFrame) / (30 * 30 - 1) * (m + 200)
  == m + 200.
Proof.
  change (inject_Z (Z.of_nat PineVideo.lastFrame)) with 899. field.
Qed.

End Progress.

Section Generated.
Context `{JSMath}.
Variables (depth : nat) (start : Vector2) (l : Q) (angle : num) (d : Q)
          (rand : SeededRandom.t).
Hypothesis Hl : 0 < l.
Hypothesis Hrand : RandOK rand.

Local Abbreviation tree :=
  (fst (Pine.generateFullTree depth start (Fin l) angle (Fin d) rand)).

Lemma generated_grown : PineTree.grown depth l d tree.
Proof. exact (proj1 (generateFullTree_grown depth start l angle d Hl rand
                       Hrand)). Qed.

Lemma generated_ok : Forall Pine.branch_ok (Pine.branches tree).
Proof.
  exact (proj2 (proj2 (proj1 (generateFullTree_ok depth start l angle d Hl
                                rand Hrand)))).
Qed.

(** The budget of a generated pine is a finite number, and no branch ends
    after it. *)
Lemma generated_budget :
  exists m : Q,
    Pine.getMaxDist tree = Fin m /\
    Forall (fun b => exists lb db : Q,
                Pine.Branch.length b = Fin lb /\
                Pine.Branch.distFromRoot b = Fin db /\
                0 < lb /\ d <= db /\ db + lb <= m)
           (Pine.branches tree).
Proof.
  pose proof (pine_getMaxDist_branch_ends tree
                (pine_tree_ok_nn tree generated_ok)) as [Hin Hmax].
  pose proof (grown_sub _ _ _ _ Hl generated_grown) as Sub.
  unfold Pine.branch_ends in Hin, Hmax.
  apply in_map_iff in Hin. destruct Hin as (b0 & E0 & Hb0).
  rewrite Forall_forall in Sub.
  destruct (Sub b0 Hb0) as (k0 & l0 & d0 & _ & _ & _ & G0).
  destruct (grown_root _ _ _ _ G0) as [El0 Ed0].
  rewrite El0, Ed0 in E0. cbn [nadd] in E0.
  exists (d0 + l0). split; [now rewrite <- E0 |].
  apply Forall_forall. intros b Hb.
  destruct (Sub b Hb) as (k & lb & db & _ & Hlb & Hdb & G).
  destruct (grown_root _ _ _ _ G) as [El Ed].
  exists lb, db. repeat split; try assumption.
  rewrite Forall_forall in Hmax.
  specialize (Hmax (Pine.Branch.distFromRoot b + Pine.Branch.length b)%num).
  rewrite <- E0, El, Ed in Hmax. cbn [nadd] in Hmax.
  apply nle_Fin. apply Hmax. apply in_map_iff. exists b.
  split; [now rewrite El, Ed | exact Hb].
Qed.

End Generated.

(** X15.  The first frame of a pine generated from arguments of moderate
    size is empty: at frame 0 the progress is 0, no branch of the tree
    (which starts at a distance [currentDist >= 0]) is visible yet, and
    nothing is handed to the drawing passes. *)
Theorem pine_first_frame_empty `{JSMath} (depth : nat) (start : Vector2)
    (length angle currentDist : num) (rand : SeededRandom.t) :
  moderate depth start length angle currentDist ->
  RandOK rand ->
  let tree :=
    fst (Pine.generateFullTree depth start length angle currentDist rand) in
  (PineVideo.currentGrowthDist 0 (Pine.getMaxDist tree) == Fin 0)%num /\
  PineVideo.flattened tree 0 = ([], []) /\
  PineVideo.frame tree 0 = ([], []).
Proof.
  intros Hmod Hrand tree.
  destruct (moderate_inv _ _ _ _ _ Hmod) as (l & d & -> & -> & Hl1 & Hd1 & _).
  assert (Hl : 0 < l) by lra. assert (Hd : 0 <= d) by lra.
  destruct (generated_budget depth start l angle d rand Hl Hrand)
    as (m & Em & Hall).
  fold tree in Em, Hall.
  assert (E : PineVideo.flattened tree 0 = ([], [])).
  { unfold PineVideo.flattened. rewrite Em, currentGrowthDist_Fin.
    rewrite flatten_closed_form. cbn [app].
    rewrite filter_none; [reflexivity |].
    eapply Forall_impl; [| exact Hall].
    intros b (lb & db & El & Ed & Hlb & Hdb & _).
    destruct (PineFlat.visible _ b) eqn:V; [| reflexivity].
    apply (visible_iff _ b lb db El Ed Hlb) in V.
    rewrite currentGrowthDist_first in V. lra. }
  split; [| split; [exact E |]].
  - rewrite Em, currentGrowthDist_Fin. apply neq_Fin.
    apply currentGrowthDist_first.
  - unfold PineVideo.frame. rewrite E. reflexivity.
Qed.

Lemma pine_first_frame_empty_witness :
  let tree :=
    fst (@Pine.generateFullTree Sample.math 8%nat (mkVector2 (Fin 0) (Fin 0))
           (Fin 180) (Fin (-90)) (Fin 0) Sample.rand) in
  RandOK Sample.rand /\
  @PineVideo.frame Sample.math tree 0 = ([], []).
Proof.
  exact (conj (new_RandOK _)
           (proj2 (proj2 (@pine_first_frame_empty Sample.math 8%nat
                            (mkVector2 (Fin 0) (Fin 0)) (Fin 180)
                            (Fin (-90)) (Fin 0) Sample.rand
                            pine_program_moderate (new_RandOK _))))).
Defined.

Section Canvas.

Lemma in_canvas_Fin (px py : Q) :
  80 <= px <= 1000 -> 80 <= py <= 1000 ->
  in_canvas (mkVector2 (Fin px) (Fin py)).
Proof.
  intros [? ?] [? ?]. unfold in_canvas, tolerance, CONFIG.padding,
    CONFIG.width, CONFIG.height. cbn [x y nsub nadd].
  repeat split; apply nle_Fin; lra.
Qed.

Lemma scaled_between (lo hi s o v : Q) :
  0 < s -> lo <= v <= hi -> lo * s + o <= v * s + o <= hi * s + o.
Proof.
  intros Hs [H1 H2].
  assert (lo * s <= v * s) by (apply Qmult_le_compat_r; lra).
  assert (v * s <= hi * s) by (apply Qmult_le_compat_r; lra).
  lra.
Qed.

Lemma convex_between (lo hi a b t : Q) :
  lo <= a <= hi -> lo <= b <= hi -> 0 <= t <= 1 ->
  lo <= (1 - t) * a + t * b <= hi.
Proof.
  intros [A1 A2] [B1 B2] [T1 T2].
  assert (P1 : 0 <= (1 - t) * (a - lo)) by (apply Qmult_le_0_compat; lra).
  assert (P2 : 0 <= t * (b - lo)) by (apply Qmult_le_0_compat; lra).
  assert (P3 : 0 <= (1 - t) * (hi - a)) by (apply Qmult_le_0_compat; lra).
  assert (P4 : 0 <= t * (hi - b)) by (apply Qmult_le_0_compat; lra).
  assert (E1 : (1 - t) * a + t * b
               == lo + ((1 - t) * (a - lo) + t * (b - lo))) by ring.
  assert (E2 : (1 - t) * a + t * b
               == hi - ((1 - t) * (hi - a) + t * (hi - b))) by ring.
  split; [rewrite E1 | rewrite E2]; lra.
Qed.

End Canvas.

Section SortFacts.
Context {A : Type} (comparefn : A -> A -> num).

Lemma insert_In (a e : A) (l : list A) :
  In e (JSArray.insert comparefn a l) <-> e = a \/ In e l.
Proof.
  induction l as [| b l IH]; cbn [JSArray.insert].
  - cbn. intuition congruence.
  - destruct (JSArray.before comparefn b a); cbn [In]; [rewrite IH |];
      intuition congruence.
Qed.

Lemma sort_In (e : A) (l : list A) :
  In e (JSArray.sort comparefn l) <-> In e l.
Proof.
  induction l as [| a l IH]; cbn [JSArray.sort fold_right]; [reflexivity |].
  fold (JSArray.sort comparefn l). rewrite insert_In, IH. cbn [In].
  intuition congruence.
Qed.

End SortFacts.

Section LayerIncl.
Context `{JSMath}.

Lemma layer_incl (l : list Pine.Entity.t) (e : Pine.Entity.t) :
  In e (PineVideo.layer l) -> In e l.
Proof.
  unfold PineVideo.layer. rewrite in_app_iff, !sort_In, !filter_In.
  tauto.
Qed.

End LayerIncl.

Section GeneratedFit.
Context `{JSMath}.
Hypothesis Hmath : JSMath_finite.
Variables (depth : nat) (start : Vector2) (l : Q) (angle : num) (d : Q)
          (rand : SeededRandom.t).
Hypothesis Hl : 0 < l.
Hypothesis Hrand : RandOK rand.
Hypothesis Hstart : Pine.finite_vec start.
Hypothesis Hangle : finite angle.

Local Abbreviation tree :=
  (fst (Pine.generateFullTree depth start (Fin l) angle (Fin d) rand)).

Lemma generated_wf : Pine.tree_wf tree.
Proof.
  exact (proj1 (generateFullTree_wf Hmath depth start (Fin l) angle (Fin d)
                  Hstart (finite_Fin l) Hangle rand Hrand)).
Qed.

Lemma grown_has_entity (k : nat) :
  forall l0 d0 t, PineTree.grown k l0 d0 t ->
    exists b e rad,
      In b (Pine.branches t) /\ In e (Pine.Branch.entities b) /\
      Pine.Entity.radius e = Fin rad /\ 13.5 <= rad.
Proof.
  induction k as [| k IH]; intros l0 d0 t G.
  - destruct (grown_entities _ _ _ _ G) as [Hn He]. cbn in Hn.
    destruct (Pine.Branch.entities t) as [| e ents] eqn:E;
      [cbn in Hn; lia |].
    apply Forall_cons_iff in He. destruct He as [((rad & Er & Hr) & _) _].
    exists t, e, rad. split; [apply branches_root |].
    split; [rewrite E; now left |]. split; [exact Er | lra].
  - destruct G as (_ & _ & _ & _ & _ & leader & sides & E & _
                   & (ll & _ & Gl) & _).
    destruct (IH _ _ _ Gl) as (b & e & rad & Hb & He & Er & Hr).
    exists b, e, rad. split; [| repeat split; assumption].
    destruct t. cbn in E. subst. cbn [Pine.branches flat_map]. right.
    apply in_or_app. now left.
Qed.

(** The bounds of a generated pine are at least 27 wide and high (a tip
    carries an entity of radius 13.5 or more), so that the fit is never
    degenerate. *)
Lemma generated_fit :
  exists x0 x1 y0 y1 s ox oy : Q,
    Pine.calculateBounds tree initialBounds
    = mkBounds (Fin x0) (Fin x1) (Fin y0) (Fin y1) /\
    27 <= x1 - x0 /\ 27 <= y1 - y0 /\
    autoFit (Pine.calculateBounds tree initialBounds)
    = mkFit (Fin s) (Fin ox) (Fin oy) /\
    0 < s /\ s * 27 <= 920 /\
    80 <= x0 * s + ox /\ x1 * s + ox <= 1000 /\
    80 <= y0 * s + oy /\ y1 * s + oy <= 1000.
Proof.
  pose proof (calculateBounds_fin tree generated_wf) as Bf.
  pose proof (proj2 (proj2 (calculateBounds_encloses tree generated_wf
                              initialBounds initialBounds_nn))) as Be.
  destruct (Pine.calculateBounds tree initialBounds) as [a0 a1 b0 b1] eqn:EB.
  destruct Bf as ([x0 E0] & [x1 E1] & [y0 E2] & [y1 E3]).
  cbn [minX maxX minY maxY] in *. subst a0 a1 b0 b1.
  destruct (grown_has_entity _ _ _ _
              (generated_grown depth start l angle d rand Hl Hrand))
    as (b & e & rad & Hb & He & Er & Hr).
  fold tree in Hb.
  pose proof generated_wf as Hwf. unfold Pine.tree_wf in Hwf.
  rewrite Forall_forall in Hwf.
  destruct (Hwf b Hb) as (_ & _ & _ & Hents).
  rewrite Forall_forall in Hents.
  destruct (Hents e He) as (([cx Ecx] & [cy Ecy]) & _).
  unfold Pine.encloses in Be. rewrite Forall_forall in Be.
  destruct (Be b Hb) as (_ & _ & _ & Hc). rewrite Forall_forall in Hc.
  destruct (Hc e He) as [(L1 & _ & L2 & _) (_ & U1 & _ & U2)].
  cbn [x y minX maxX minY maxY] in L1, L2, U1, U2.
  rewrite Ecx, Er in L1, U1. rewrite Ecy, Er in L2, U2.
  cbn [nadd nsub] in L1, L2, U1, U2.
  apply nle_Fin in L1, L2, U1, U2.
  assert (Wx : 27 <= x1 - x0) by lra.
  assert (Wy : 27 <= y1 - y0) by lra.
  destruct (autoFit_scale_offsets x0 x1 y0 y1 ltac:(lra) ltac:(lra))
    as (s & ox & oy & Efit & Hs & Hfill & Hx0 & Hx1 & _ & Hy0 & Hy1).
  exists x0, x1, y0, y1, s, ox, oy.
  split; [reflexivity |]. split; [exact Wx |]. split; [exact Wy |].
  split; [exact Efit |]. split; [exact Hs |].
  split; [| repeat split; try assumption; lra].
  assert (s * 27 <= (x1 - x0) * s).
  { rewrite (Qmult_comm s). apply Qmult_le_compat_r; lra. }
  destruct Hfill as [[? ?] | [? ?]]; lra.
Qed.

End GeneratedFit.

(** X17.  The last frame of a pine generated from arguments of moderate
    size (frame 899, progress [maxDistance + 200]) shows the whole tree:
    [flattenTreeOrganic] pushes one segment per branch, in preorder, each
    the full curve of its branch on the canvas at the full width
    [strokeWidth * scale], and one entity per entity of the tree, in the
    same order, each of its own type at opacity 1. *)
Theorem pine_last_frame_complete `{JSMath} (depth : nat) (start : Vector2)
    (length angle currentDist : num) (rand : SeededRandom.t) :
  JSMath_finite ->
  moderate depth start length angle currentDist -> RandOK rand ->
  let tree :=
    fst (Pine.generateFullTree depth start length angle currentDist rand) in
  let fit := autoFit (Pine.calculateBounds tree initialBounds) in
  let place := toCanvas (finalScale fit) (offsetX fit) (offsetY fit) in
  let out := PineVideo.flattened tree PineVideo.lastFrame in
  (PineVideo.currentGrowthDist PineVideo.lastFrame (Pine.getMaxDist tree)
   == Pine.getMaxDist tree + Fin 200)%num /\
  Forall2 (fun b seg =>
             sb_start seg = place (Pine.Branch.start b) /\
             veq (sb_control seg) (place (Pine.Branch.control b)) /\
             veq (sb_end seg) (place (Pine.Branch.end_ b)) /\
             (sb_strokeWidth seg
              == Pine.Branch.strokeWidth b * finalScale fit)%num)
          (Pine.branches tree) (fst out) /\
  Forall2 (fun e e' =>
             Pine.Entity.center e' = place (Pine.Entity.center e) /\
             Pine.Entity.radius e'
             = (Pine.Entity.radius e * finalScale fit)%num /\
             Pine.Entity.type e' = Pine.Entity.type e /\
             exists o, Pine.Entity.opacity e' = Some o /\ (o == Fin 1)%num)
          (PineTree.entities tree) (snd out).
Proof.
  intros Hmath Hmod Hrand tree fit place out.
  destruct (moderate_inv _ _ _ _ _ Hmod)
    as (l & d & -> & -> & Hl1 & _ & Hstart & Hangle & _).
  assert (Hl : 0 < l) by lra.
  destruct (generated_fit Hmath depth start l angle d rand Hl Hrand Hstart
              Hangle)
    as (x0 & x1 & y0 & y1 & s & ox & oy & _ & _ & _ & Efit & Hs & _).
  fold tree in Efit. fold fit in Efit.
  destruct (generated_budget depth start l angle d rand Hl Hrand)
    as (m & Em & Hall).
  fold tree in Em, Hall.
  pose proof (generated_ok depth start l angle d rand Hl Hrand) as Hok.
  fold tree in Hok.
  pose proof (generated_wf Hmath depth start l angle d rand Hrand Hstart
                Hangle) as Hwf.
  fold tree in Hwf. unfold Pine.tree_wf in Hwf.
  pose proof (grown_sub _ _ _ _ Hl
                (generated_grown depth start l angle d rand Hl Hrand)) as Sub.
  fold tree in Sub.
  set (p := inject_Z (Z.of_nat PineVideo.lastFrame) / (30 * 30 - 1)
            * (m + 200)).
  assert (Ep : p == m + 200) by apply currentGrowthDist_last.
  assert (Eout : out = Pine.flattenTreeOrganic tree ([], []) (Fin p)
                         (Fin s) (Fin ox) (Fin oy)).
  { unfold out, PineVideo.flattened. fold fit.
    rewrite Em, currentGrowthDist_Fin, Efit. reflexivity. }
  assert (Vall : Forall (fun b => PineFlat.visible (Fin p) b = true)
                        (Pine.branches tree)).
  { eapply Forall_impl; [| exact Hall].
    intros b (lb & db & El & Ed & Hlb & Hdb & Hend).
    apply (visible_iff p b lb db El Ed Hlb). lra. }
  assert (Sall : Forall (fun b => Forall (fun e => PineFlat.shown (Fin p) e
                                                   = true)
                                         (Pine.Branch.entities b))
                        (Pine.branches tree)).
  { apply Forall_forall. intros b Hb.
    rewrite Forall_forall in Hall, Hok.
    destruct (Hall b Hb) as (lb & db & El & Ed & Hlb & Hdb & Hend).
    destruct (Hok b Hb) as (lb' & db' & El' & Ed' & _ & Hents).
    assert (lb' = lb) by congruence. assert (db' = db) by congruence.
    subst lb' db'.
    eapply Forall_impl; [| exact Hents].
    intros e (de & Ede & Hde). unfold PineFlat.shown, Pine.fadeOpacity.
    rewrite Ede, fade_Fin by reflexivity.
    apply andb_true_iff. split.
    - change (Fin de < Fin p)%num. apply nlt_Fin. lra.
    - change (Fin 0.01 < Fin (qsmooth (qclamp ((p - de) / 150) 0 1)))%num.
      apply nlt_Fin.
      rewrite (fade_full p de 150 eq_refl) by lra. reflexivity. }
  split; [| split].
  - rewrite Em, currentGrowthDist_Fin. cbn [nadd]. apply neq_Fin. exact Ep.
  - rewrite Eout, flatten_closed_form. cbn [fst app].
    rewrite (filter_all _ _ Vall).
    apply Forall2_map_self. apply Forall_forall. intros b Hb.
    rewrite Forall_forall in Hall, Hwf, Sub.
    destruct (Hall b Hb) as (lb & db & El & Ed & Hlb & Hdb & Hend).
    destruct (Hwf b Hb) as (([sx Esx] & [sy Esy]) & ([ex Eex] & [ey Eey])
                            & ([cx Ecx] & [cy Ecy]) & _).
    destruct (Sub b Hb) as (k & lb' & db' & _ & _ & _ & Gb).
    destruct (grown_stroke _ _ _ _ Gb) as (w & Ew & _).
    assert (Et : exists tau, Pine.localT b (Fin p) = Fin tau /\ tau == 1).
    { unfold Pine.localT. rewrite El, Ed, clamp_ratio_Fin by exact Hlb.
      eexists. split; [reflexivity |].
      apply qclamp01_one. apply ratio_ge_one; [exact Hlb | lra]. }
    destruct Et as (tau & Et & Htau).
    unfold place. rewrite !Efit. cbn [finalScale offsetX offsetY].
    unfold PineFlat.segmentOf, toCanvas, veq.
    rewrite Et, Esx, Esy, Eex, Eey, Ecx, Ecy, Ew.
    cbn [sb_start sb_end sb_control sb_strokeWidth x y nadd nsub nmul].
    split; [reflexivity |].
    repeat split; apply neq_Fin; rewrite Htau; ring.
  - rewrite Eout, flatten_closed_form. cbn [snd app].
    rewrite (filter_all _ _ Vall).
    assert (E : flat_map
                  (fun b => map (PineFlat.entityOf (Fin p) (Fin s) (Fin ox)
                                   (Fin oy))
                              (filter (PineFlat.shown (Fin p))
                                 (Pine.Branch.entities b)))
                  (Pine.branches tree)
                = map (PineFlat.entityOf (Fin p) (Fin s) (Fin ox) (Fin oy))
                    (PineTree.entities tree)).
    { unfold PineTree.entities. rewrite <- flat_map_map_all.
      apply flat_map_ext_Forall. eapply Forall_impl; [| exact Sall].
      intros b Hb. cbv beta. now rewrite (filter_all _ _ Hb). }
    rewrite E. apply Forall2_map_self. apply Forall_forall. intros e He.
    unfold PineTree.entities in He. apply in_flat_map in He.
    destruct He as (b & Hb & He).
    rewrite Forall_forall in Hall, Hok.
    destruct (Hall b Hb) as (lb & db & El & Ed & Hlb & Hdb & Hend).
    destruct (Hok b Hb) as (lb' & db' & El' & Ed' & _ & Hents).
    assert (lb' = lb) by congruence. assert (db' = db) by congruence.
    subst lb' db'. rewrite Forall_forall in Hents.
    destruct (Hents e He) as (de & Ede & Hde).
    unfold place. rewrite !Efit. cbn [finalScale offsetX offsetY].
    unfold PineFlat.entityOf, toCanvas.
    cbn [Pine.Entity.center Pine.Entity.radius Pine.Entity.type
         Pine.Entity.opacity].
    repeat split. eexists. split; [reflexivity |].
    unfold Pine.fadeOpacity. rewrite Ede, fade_Fin by reflexivity.
    apply neq_Fin. apply fade_full; [reflexivity | lra].
Qed.

Lemma pine_last_frame_complete_witness :
  let tree :=
    fst (@Pine.generateFullTree Sample.math 8%nat (mkVector2 (Fin 0) (Fin 0))
           (Fin 180) (Fin (-90)) (Fin 0) Sample.rand) in
  RandOK Sample.rand /\
  (PineVideo.currentGrowthDist PineVideo.lastFrame (Pine.getMaxDist tree)
   == Pine.getMaxDist tree + Fin 200)%num.
Proof.
  exact (conj (new_RandOK _)
           (proj1 (@pine_last_frame_complete Sample.math 8%nat
                     (mkVector2 (Fin 0) (Fin 0)) (Fin 180) (Fin (-90))
                     (Fin 0) Sample.rand sample_math_finite
                     pine_program_moderate (new_RandOK _)))).
Defined.

Section Reach.

(** No branch of a generated pine ends further than 20 lengths of the
    first segment from where the tree starts. *)
Lemma grown_reach (k : nat) :
  forall l d t, 0 < l -> PineTree.grown k l d t ->
    Forall (fun b => exists lb db : Q,
                Pine.Branch.length b = Fin lb /\
                Pine.Branch.distFromRoot b = Fin db /\
                0 < lb /\ db + 20 * lb <= d + 20 * l)
           (Pine.branches t).
Proof.
  induction k as [| k IH]; intros l d t Hl G.
  - destruct (grown_root _ _ _ _ G) as [El Ed].
    destruct G as (_ & _ & _ & _ & _ & E). destruct t. cbn in E. subst.
    cbn [Pine.branches flat_map]. constructor; [| constructor].
    exists l, d. repeat split; try assumption. lra.
  - destruct (grown_root _ _ _ _ G) as [El Ed].
    destruct G as (_ & _ & _ & _ & _ & leader & sides & E & _ & Hlead & Hs).
    destruct t. cbn in E. subst. cbn [Pine.branches]. constructor.
    + exists l, d. repeat split; try assumption. lra.
    + apply Forall_flat_map. constructor.
      * destruct Hlead as (ll & Hll & Gl).
        eapply Forall_impl; [| apply (IH ll (d + l) leader); [lra | exact Gl]].
        intros b (lb & db & ? & ? & ? & ?). exists lb, db.
        repeat split; try assumption. lra.
      * eapply Forall_impl; [| exact Hs].
        intros s (ls & Hls & Gs).
        eapply Forall_impl; [| apply (IH ls (d + l) s); [lra | exact Gs]].
        intros b (lb & db & ? & ? & ? & ?). exists lb, db.
        repeat split; try assumption. lra.
Qed.

End Reach.

(** X18.  The growth budget of a pine generated from arguments of
    moderate size is a finite number that lies between the end of the first
    segment and 20 segment lengths:
    [currentDist + length <= getMaxDist(tree) < currentDist + 20 * length]
    (between 180 and 3600 for the program's first segment of 180 from
    distance 0). *)
Theorem pine_budget_bounds `{JSMath} (depth : nat) (start : Vector2)
    (length angle currentDist : num) (rand : SeededRandom.t) :
  moderate depth start length angle currentDist -> RandOK rand ->
  let tree :=
    fst (Pine.generateFullTree depth start length angle currentDist rand) in
  finite (Pine.getMaxDist tree) /\
  (currentDist + length <= Pine.getMaxDist tree)%num /\
  (Pine.getMaxDist tree < currentDist + Fin 20 * length)%num.
Proof.
  intros Hmod Hrand tree.
  destruct (moderate_inv _ _ _ _ _ Hmod) as (l & d & -> & -> & Hl1 & _).
  assert (Hl : 0 < l) by lra.
  pose proof (generated_ok depth start l angle d rand Hl Hrand) as Hok.
  pose proof (generated_grown depth start l angle d rand Hl Hrand) as G.
  fold tree in Hok, G.
  pose proof (pine_getMaxDist_branch_ends tree (pine_tree_ok_nn tree Hok))
    as [Hin Hmax].
  pose proof (grown_reach _ _ _ _ Hl G) as R. rewrite Forall_forall in R.
  unfold Pine.branch_ends in Hin, Hmax.
  apply in_map_iff in Hin. destruct Hin as (b0 & E0 & Hb0).
  destruct (R b0 Hb0) as (l0 & d0 & El0 & Ed0 & Hl0 & Hr0).
  rewrite El0, Ed0 in E0. cbn [nadd] in E0. rewrite <- E0 in *.
  cbn [nadd nmul].
  split; [eexists; reflexivity |]. split.
  - rewrite Forall_forall in Hmax.
    specialize (Hmax (Pine.Branch.distFromRoot tree
                      + Pine.Branch.length tree)%num).
    destruct (grown_root _ _ _ _ G) as [El Ed]. rewrite El, Ed in Hmax.
    cbn [nadd] in Hmax. apply Hmax. apply in_map_iff. exists tree.
    split; [now rewrite El, Ed | apply branches_root].
  - apply nlt_Fin. lra.
Qed.

Lemma pine_budget_bounds_witness :
  let tree :=
    fst (@Pine.generateFullTree Sample.math 8%nat (mkVector2 (Fin 0) (Fin 0))
           (Fin 180) (Fin (-90)) (Fin 0) Sample.rand) in
  RandOK Sample.rand /\
  (Fin 0 + Fin 180 <= Pine.getMaxDist tree)%num /\
  (Pine.getMaxDist tree < Fin 0 + Fin 20 * Fin 180)%num.
Proof.
  exact (conj (new_RandOK _)
           (proj2 (@pine_budget_bounds Sample.math 8%nat
                     (mkVector2 (Fin 0) (Fin 0)) (Fin 180) (Fin (-90))
                     (Fin 0) Sample.rand pine_program_moderate
                     (new_RandOK _)))).
Defined.

Section InsideCanvas.

Variables (x0 x1 y0 y1 s ox oy : Q).
Hypothesis Hs : 0 < s.
Hypothesis Hx0 : 80 <= x0 * s + ox.
Hypothesis Hx1 : x1 * s + ox <= 1000.
Hypothesis Hy0 : 80 <= y0 * s + oy.
Hypothesis Hy1 : y1 * s + oy <= 1000.

Local Abbreviation B := (mkBounds (Fin x0) (Fin x1) (Fin y0) (Fin y1)).

Lemma placed_x (v : Q) : x0 <= v <= x1 -> 80 <= v * s + ox <= 1000.
Proof. intro Hv. pose proof (scaled_between x0 x1 s ox v Hs Hv). lra. Qed.

Lemma placed_y (v : Q) : y0 <= v <= y1 -> 80 <= v * s + oy <= 1000.
Proof. intro Hv. pose proof (scaled_between y0 y1 s oy v Hs Hv). lra. Qed.

Lemma point_in_Fin (v : Vector2) (px py : Q) :
  x v = Fin px -> y v = Fin py -> Pine.point_in B v ->
  x0 <= px <= x1 /\ y0 <= py <= y1.
Proof.
  intros Ex Ey (H1 & H2 & H3 & H4). rewrite Ex in H1, H2.
  rewrite Ey in H3, H4. cbn [minX maxX minY maxY] in *.
  apply nle_Fin in H1, H2, H3, H4. lra.
Qed.

Lemma segmentOf_in_canvas (p : num) (b : Pine.Branch.t) :
  Pine.branch_wf b -> Pine.branch_in B b ->
  PineFlat.visible p b = true ->
  segment_in_canvas (PineFlat.segmentOf p (Fin s) (Fin ox) (Fin oy) b).
Proof.
  intros (([sx Esx] & [sy Esy]) & ([ex Eex] & [ey Eey])
          & ([cx Ecx] & [cy Ecy]) & _) (Ps & Pe & Pc & _) Hv.
  destruct (visible_localT _ _ Hv) as (tau & Et & Ht).
  apply (point_in_Fin _ _ _ Esx Esy) in Ps.
  apply (point_in_Fin _ _ _ Eex Eey) in Pe.
  apply (point_in_Fin _ _ _ Ecx Ecy) in Pc.
  destruct Ps as [Psx Psy], Pe as [Pex Pey], Pc as [Pcx Pcy].
  apply placed_x in Psx, Pex, Pcx. apply placed_y in Psy, Pey, Pcy.
  unfold segment_in_canvas, PineFlat.segmentOf.
  rewrite Et, Esx, Esy, Eex, Eey, Ecx, Ecy.
  cbn [sb_start sb_end sb_control x y nadd nsub nmul].
  assert (T : 0 <= tau <= 1) by lra.
  pose proof (convex_between 80 1000 _ _ tau Psx Pcx T) as Cx.
  pose proof (convex_between 80 1000 _ _ tau Psy Pcy T) as Cy.
  pose proof (convex_between 80 1000 _ _ tau Pcx Pex T) as Qx.
  pose proof (convex_between 80 1000 _ _ tau Pcy Pey T) as Qy.
  split; [| split]; apply in_canvas_Fin; try assumption.
  - exact (convex_between 80 1000 _ _ tau Cx Qx T).
  - exact (convex_between 80 1000 _ _ tau Cy Qy T).
Qed.

Lemma entityOf_in_canvas (p : num) (e : Pine.Entity.t) :
  Pine.entity_wf e -> Pine.circle_in B e ->
  entity_in_canvas (PineFlat.entityOf p (Fin s) (Fin ox) (Fin oy) e).
Proof.
  intros (([cx Ecx] & [cy Ecy]) & r & Er & Hr) [Lo Hi].
  cbv zeta in Lo, Hi. rewrite Ecx, Ecy, Er in Lo, Hi.
  cbn [nadd nsub] in Lo, Hi.
  apply (point_in_Fin (mkVector2 (Fin (cx - r)) (Fin (cy - r))) _ _
           eq_refl eq_refl) in Lo.
  apply (point_in_Fin (mkVector2 (Fin (cx + r)) (Fin (cy + r))) _ _
           eq_refl eq_refl) in Hi.
  destruct Lo as [Lx Ly], Hi as [Ux Uy].
  apply placed_x in Lx, Ux. apply placed_y in Ly, Uy.
  unfold entity_in_canvas, PineFlat.entityOf.
  cbn [Pine.Entity.center Pine.Entity.radius x y]. rewrite Ecx, Ecy, Er.
  cbn [nadd nsub nmul].
  split; apply in_canvas_Fin; lra.
Qed.

End InsideCanvas.

(** X19.  Every frame of a pine generated from arguments of moderate size
    lies inside the padded canvas: at each of the 900 frames, the three
    control points of every segment and the circle of every entity handed
    to the drawing passes have coordinates between 80 and 1000, up to a
    thousandth of a pixel (the curve itself lies within its control
    points). *)
Theorem pine_frames_inside_canvas `{JSMath} (depth : nat) (start : Vector2)
    (length angle currentDist : num) (rand : SeededRandom.t) (n : nat) :
  JSMath_finite ->
  moderate depth start length angle currentDist -> RandOK rand ->
  (n <= PineVideo.lastFrame)%nat ->
  let tree :=
    fst (Pine.generateFullTree depth start length angle currentDist rand) in
  Forall segment_in_canvas (fst (PineVideo.frame tree n)) /\
  Forall entity_in_canvas (snd (PineVideo.frame tree n)).
Proof.
  intros Hmath Hmod Hrand _ tree.
  destruct (moderate_inv _ _ _ _ _ Hmod)
    as (l & d & -> & -> & Hl1 & _ & Hstart & Hangle & _).
  assert (Hl : 0 < l) by lra.
  destruct (generated_fit Hmath depth start l angle d rand Hl Hrand Hstart
              Hangle)
    as (x0 & x1 & y0 & y1 & s & ox & oy & EB & _ & _ & Efit & Hs & _
        & Hx0 & Hx1 & Hy0 & Hy1).
  fold tree in EB, Efit.
  pose proof (generated_wf Hmath depth start l angle d rand Hrand Hstart
                Hangle) as Hwf.
  fold tree in Hwf. unfold Pine.tree_wf in Hwf.
  pose proof (proj2 (proj2 (calculateBounds_encloses tree Hwf initialBounds
                              initialBounds_nn))) as Be.
  rewrite EB in Be. unfold Pine.encloses in Be.
  unfold PineVideo.frame, PineVideo.flattened. rewrite Efit.
  cbn [finalScale offsetX offsetY].
  rewrite flatten_closed_form. cbn [fst snd app].
  rewrite Forall_forall in Hwf, Be.
  split.
  - apply Forall_map. apply Forall_forall. intros b Hb.
    apply filter_In in Hb. destruct Hb as [Hb Hv].
    exact (segmentOf_in_canvas x0 x1 y0 y1 s ox oy Hs Hx0 Hx1 Hy0 Hy1 _ b
             (Hwf b Hb) (Be b Hb) Hv).
  - apply Forall_forall. intros e' He'. apply layer_incl in He'.
    apply in_flat_map in He'. destruct He' as (b & Hb & He').
    apply filter_In in Hb. destruct Hb as [Hb _].
    apply in_map_iff in He'. destruct He' as (e & <- & He).
    apply filter_In in He. destruct He as [He _].
    destruct (Hwf b Hb) as (_ & _ & _ & Wents).
    destruct (Be b Hb) as (_ & _ & _ & Cents).
    rewrite Forall_forall in Wents, Cents.
    exact (entityOf_in_canvas x0 x1 y0 y1 s ox oy Hs Hx0 Hx1 Hy0 Hy1 _ e
             (Wents e He) (Cents e He)).
Qed.

Lemma pine_frames_inside_canvas_witness :
  let tree :=
    fst (@Pine.generateFullTree Sample.math 8%nat (mkVector2 (Fin 0) (Fin 0))
           (Fin 180) (Fin (-90)) (Fin 0) Sample.rand) in
  RandOK Sample.rand /\
  Forall segment_in_canvas (fst (@PineVideo.frame Sample.math tree 450)).
Proof.
  exact (conj (new_RandOK _)
           (proj1 (@pine_frames_inside_canvas Sample.math 8%nat
                     (mkVector2 (Fin 0) (Fin 0)) (Fin 180) (Fin (-90))
                     (Fin 0) Sample.rand 450%nat sample_math_finite
                     pine_program_moderate (new_RandOK _)
                     (proj1 (Nat.leb_le 450 899) eq_refl)))).
Defined.

(* ================================================================== *)
(** * Sorting, and the layers of a frame *)

Section SortPerm.
Context {A : Type} (comparefn : A -> A -> num).

Lemma insert_perm (a : A) (l : list A) :
  Permutation (JSArray.insert comparefn a l) (a :: l).
Proof.
  induction l as [| b l IH]; cbn [JSArray.insert]; [reflexivity |].
  destruct (JSArray.before comparefn b a); [| reflexivity].
  rewrite IH. apply perm_swap.
Qed.

Lemma sort_perm (l : list A) : Permutation (JSArray.sort comparefn l) l.
Proof.
  induction l as [| a l IH]; cbn [JSArray.sort fold_right]; [reflexivity |].
  fold (JSArray.sort comparefn l). rewrite insert_perm. now constructor.
Qed.

End SortPerm.

Section SortByKey.
Context {A : Type} (key : A -> num).

Local Abbreviation comparefn := (fun a b : A => (key a - key b)%num).

Lemma before_key (a b : A) :
  finite (key a) -> finite (key b) ->
  if JSArray.before comparefn a b then (key a < key b)%num
  else (key b <= key a)%num.
Proof.
  intros [p Ep] [q Eq]. unfold JSArray.before.
  rewrite Ep, Eq. cbn [nsub].
  destruct (Fin (p - q) <? Fin 0)%num eqn:E.
  - apply nlt_Fin. apply (proj1 (nlt_Fin _ _)) in E. lra.
  - apply nle_Fin. destruct (Qlt_le_dec (p - q) 0) as [L | L]; [| lra].
    apply nlt_Fin in L. unfold nlt in L. congruence.
Qed.

Lemma insert_sorted (a : A) (l : list A) :
  finite (key a) -> Forall (fun b => finite (key b)) l ->
  StronglySorted (fun a b => (key a <= key b)%num) l ->
  StronglySorted (fun a b => (key a <= key b)%num)
                 (JSArray.insert comparefn a l).
Proof.
  intros Fa Fl Hs. induction Hs as [| b l Hs IH Hb]; cbn [JSArray.insert].
  - constructor; constructor.
  - apply Forall_cons_iff in Fl. destruct Fl as [Fb Fl].
    pose proof (before_key b a Fb Fa) as Hba.
    destruct (JSArray.before comparefn b a).
    + constructor; [exact (IH Fl) |].
      apply Forall_forall. intros c Hc. apply insert_In in Hc.
      destruct Hc as [-> | Hc].
      * destruct Fa as [p Ep], Fb as [q Eq]. rewrite Ep, Eq in *.
        apply nle_Fin. apply nlt_Fin in Hba. lra.
      * rewrite Forall_forall in Hb. now apply Hb.
    + constructor; [constructor; assumption |].
      constructor; [exact Hba |].
      eapply Forall_impl; [| exact Hb]. intros c Hc.
      exact (nle_trans _ _ _ Hba Hc).
Qed.

Lemma sort_sorted (l : list A) :
  Forall (fun b => finite (key b)) l ->
  StronglySorted (fun a b => (key a <= key b)%num)
                 (JSArray.sort comparefn l).
Proof.
  induction 1 as [| a l Fa Fl IH]; cbn [JSArray.sort fold_right].
  - constructor.
  - fold (JSArray.sort comparefn l). apply insert_sorted; [exact Fa | | exact IH].
    apply Forall_forall. intros b Hb. apply sort_In in Hb.
    rewrite Forall_forall in Fl. now apply Fl.
Qed.

(** Sorting leaves a sorted array as it is. *)
Lemma sort_sorted_id (l : list A) :
  Forall (fun b => finite (key b)) l ->
  StronglySorted (fun a b => (key a <= key b)%num) l ->
  JSArray.sort comparefn l = l.
Proof.
  intros Fl Hs. induction Hs as [| a l Hs IH Ha];
    cbn [JSArray.sort fold_right]; [reflexivity |].
  apply Forall_cons_iff in Fl. destruct Fl as [Fa Fl].
  fold (JSArray.sort comparefn l). rewrite (IH Fl).
  destruct l as [| b l]; [reflexivity |]. cbn [JSArray.insert].
  apply Forall_cons_iff in Ha. destruct Ha as [Hab _].
  apply Forall_cons_iff in Fl. destruct Fl as [Fb _].
  pose proof (before_key b a Fb Fa) as Hba.
  destruct (JSArray.before comparefn b a); [| reflexivity].
  destruct Fa as [p Ep], Fb as [q Eq]. rewrite Ep, Eq in *.
  apply nle_Fin in Hab. apply nlt_Fin in Hba. lra.
Qed.

End SortByKey.

(** X20.  The layering of a frame never drops a leaf, and it drops a
    fruit exactly when some leaf of the frame covers it (the leaf lies
    lower on the canvas and its centre is nearer than 0.9 of its radius):
    a fruit is drawn if and only if it was flattened and no flattened
    leaf covers it; with no leaf in the frame every fruit is drawn; and
    nothing is drawn that was not flattened. *)
Theorem layer_occlusion `{JSMath} (entities : list Pine.Entity.t) :
  (forall e, In e (PineVideo.layer entities) -> In e entities) /\
  (forall e, In e entities -> Pine.Entity.type e = Pine.leaf ->
             In e (PineVideo.layer entities)) /\
  (forall f, Pine.Entity.type f = Pine.fruit ->
     (In f (PineVideo.layer entities) <->
      In f entities /\
      forall leaf, In leaf entities -> Pine.Entity.type leaf = Pine.leaf ->
                   PineVideo.covers f leaf = false)) /\
  (Forall (fun e => Pine.Entity.type e = Pine.fruit) entities ->
   Permutation (PineVideo.layer entities) entities).
Proof.
  assert (L : forall e, PineVideo.isLeaf e = true
                        <-> Pine.Entity.type e = Pine.leaf).
  { intro e. unfold PineVideo.isLeaf.
    destruct (Pine.Entity.type e); split; congruence. }
  assert (F : forall e, PineVideo.isFruit e = true
                        <-> Pine.Entity.type e = Pine.fruit).
  { intro e. unfold PineVideo.isFruit.
    destruct (Pine.Entity.type e); split; congruence. }
  split; [exact (layer_incl entities) |]. split; [| split].
  - intros e He Ht. unfold PineVideo.layer.
    apply in_or_app. left. apply sort_In. apply filter_In.
    split; [exact He | now apply L].
  - intros f Hf. unfold PineVideo.layer.
    rewrite in_app_iff, !sort_In, !filter_In, L, F.
    rewrite negb_true_iff.
    split.
    + intros [[_ Hl] | [[Hin _] Hc]]; [congruence |].
      split; [exact Hin |]. intros leaf Hleaf Tleaf.
      destruct (PineVideo.covers f leaf) eqn:C; [| reflexivity].
      assert (E : existsb (PineVideo.covers f)
                    (filter PineVideo.isLeaf entities) = true).
      { apply existsb_exists. exists leaf. split; [| exact C].
        apply filter_In. split; [exact Hleaf | now apply L]. }
      congruence.
    + intros [Hin Hc]. right. split; [split; assumption |].
      destruct (existsb (PineVideo.covers f)
                  (filter PineVideo.isLeaf entities)) eqn:E; [| reflexivity].
      apply existsb_exists in E. destruct E as (leaf & Hleaf & C).
      apply filter_In in Hleaf. destruct Hleaf as [Hleaf Tleaf].
      rewrite (Hc leaf Hleaf (proj1 (L leaf) Tleaf)) in C. discriminate.
  - intro Hall. unfold PineVideo.layer.
    assert (E1 : filter PineVideo.isLeaf entities = []).
    { apply filter_none. eapply Forall_impl; [| exact Hall].
      intros e He. unfold PineVideo.isLeaf. now rewrite He. }
    assert (E2 : filter PineVideo.isFruit entities = entities).
    { apply filter_all. eapply Forall_impl; [| exact Hall].
      intros e He. unfold PineVideo.isFruit. now rewrite He. }
    rewrite E1, E2. cbn [JSArray.sort fold_right app existsb negb].
    rewrite sort_perm.
    rewrite filter_all; [reflexivity |].
    apply Forall_forall. reflexivity.
Qed.

(** X21.  The entities of a frame are drawn leaves first, then fruits,
    each group from the top of the canvas downwards: the layered list is
    the flattened leaves, all of them, in non-decreasing order of
    [center.y], followed by the flattened fruits that no leaf covers, all
    of them and no other, in non-decreasing order of [center.y].  (The
    centres are finite numbers.) *)
Theorem layer_draw_order `{JSMath} (entities : list Pine.Entity.t) :
  Forall (fun e => finite (y (Pine.Entity.center e))) entities ->
  exists leaves fruits,
    PineVideo.layer entities = leaves ++ fruits /\
    Permutation leaves (filter PineVideo.isLeaf entities) /\
    Permutation fruits
      (filter (fun fruit =>
                 negb (existsb (PineVideo.covers fruit)
                         (filter PineVideo.isLeaf entities)))
              (filter PineVideo.isFruit entities)) /\
    StronglySorted
      (fun a b => (y (Pine.Entity.center a) <= y (Pine.Entity.center b))%num)
      leaves /\
    StronglySorted
      (fun a b => (y (Pine.Entity.center a) <= y (Pine.Entity.center b))%num)
      fruits.
Proof.
  intro Hfin. unfold PineVideo.layer.
  eexists _, _. split; [reflexivity |].
  assert (Sub : forall f, Forall (fun e => finite (y (Pine.Entity.center e)))
                            (filter f entities)).
  { intro f. apply Forall_forall. intros e He. apply filter_In in He.
    rewrite Forall_forall in Hfin. now apply Hfin. }
  split; [apply sort_perm |]. split; [apply sort_perm |]. split.
  - apply (sort_sorted (fun e => y (Pine.Entity.center e))). apply Sub.
  - apply (sort_sorted (fun e => y (Pine.Entity.center e))).
    apply Forall_forall. intros e He. apply filter_In in He.
    destruct He as [He _]. pose proof (Sub PineVideo.isFruit) as S.
    rewrite Forall_forall in S. now apply S.
Qed.

Lemma layer_draw_order_witness :
  let entities := [PineTree.cone; Pine.lateEntity; PineTree.cone] in
  Forall (fun e => finite (y (Pine.Entity.center e))) entities /\
  exists leaves fruits,
    @PineVideo.layer Sample.math entities = leaves ++ fruits /\
    Permutation leaves [Pine.lateEntity] /\
    Permutation fruits [PineTree.cone; PineTree.cone].
Proof.
  assert (W : Forall (fun e => finite (y (Pine.Entity.center e)))
                     [PineTree.cone; Pine.lateEntity; PineTree.cone]).
  { repeat constructor; eexists; reflexivity. }
  split; [exact W |].
  destruct (@layer_draw_order Sample.math _ W)
    as (leaves & fruits & E & Pl & Pf & _).
  exists leaves, fruits. split; [exact E |]. split; [exact Pl | exact Pf].
Defined.

(* ================================================================== *)
(** * sunflower.ts: the projector in closed form *)

Section SunflowerClosedForm.
Variables p scale ox oy : num.

Lemma sunflower_flattenEntity_eq (el : list Sunflower.Entity.t)
    (e : Sunflower.Entity.t) :
  SunflowerVideo.flattenEntity p scale ox oy el e
  = if SunflowerVideo.shown p e
    then el ++ [SunflowerVideo.entityOf p scale ox oy e]
    else el.
Proof.
  unfold SunflowerVideo.flattenEntity, SunflowerVideo.shown,
    SunflowerVideo.entityOf.
  destruct (p >? Sunflower.Entity.distFromRoot e)%num; cbn [andb];
    [| reflexivity].
  destruct (Sunflower.fadeOpacity e p >? Fin 0.01)%num; reflexivity.
Qed.

Lemma sunflower_fold_flattenEntity_eq (ents el : list Sunflower.Entity.t) :
  fold_left (SunflowerVideo.flattenEntity p scale ox oy) ents el
  = el ++ map (SunflowerVideo.entityOf p scale ox oy)
            (filter (SunflowerVideo.shown p) ents).
Proof.
  revert el. induction ents as [| e ents IH]; intro el; cbn [fold_left filter].
  - now rewrite app_nil_r.
  - rewrite IH, sunflower_flattenEntity_eq.
    destruct (SunflowerVideo.shown p e); [| reflexivity].
    cbn [map]. now rewrite <- app_assoc.
Qed.

Lemma sunflower_flattenOwn_eq (b : Sunflower.Branch.t)
    (bl : list SimpleBranch) (el : list Sunflower.Entity.t) :
  SunflowerVideo.flattenOwn b (bl, el) p scale ox oy
  = if SunflowerVideo.visible p b
    then (bl ++ [SunflowerVideo.segmentOf p scale ox oy b],
          el ++ map (SunflowerVideo.entityOf p scale ox oy)
                  (filter (SunflowerVideo.shown p)
                     (Sunflower.Branch.entities b)))
    else (bl, el).
Proof.
  unfold SunflowerVideo.visible, Pine.emits, SunflowerVideo.flattenOwn.
  change (coerceIn ((p - Sunflower.Branch.distFromRoot b)
                    / Sunflower.Branch.length b) (Fin 0) (Fin 1))%num
    with (SunflowerVideo.localT b p).
  destruct (p >? Sunflower.Branch.distFromRoot b)%num; cbn [andb];
    [| reflexivity].
  destruct (SunflowerVideo.localT b p >? Fin 0)%num; [| reflexivity].
  rewrite sunflower_fold_flattenEntity_eq. reflexivity.
Qed.

Lemma sunflower_flatten_fold (t : Sunflower.Branch.t) :
  forall lists,
    SunflowerVideo.flattenTreeOrganic t lists p scale ox oy
    = fold_left (fun lists b =>
                   SunflowerVideo.flattenOwn b lists p scale ox oy)
        (Sunflower.branches t) lists.
Proof.
  induction t as [s e w c l d children ents IH] using SBranch_ind'.
  intro lists.
  cbn [SunflowerVideo.flattenTreeOrganic Sunflower.branches fold_left].
  rewrite fold_left_flat_map.
  apply fold_left_ext_Forall.
  eapply Forall_impl; [| exact IH]. intros child Hchild a. apply Hchild.
Qed.

Lemma sunflower_flatten_closed_form (t : Sunflower.Branch.t)
    (bl : list SimpleBranch) (el : list Sunflower.Entity.t) :
  SunflowerVideo.flattenTreeOrganic t (bl, el) p scale ox oy
  = (bl ++ map (SunflowerVideo.segmentOf p scale ox oy)
             (filter (SunflowerVideo.visible p) (Sunflower.branches t)),
     el ++ flat_map
             (fun b => map (SunflowerVideo.entityOf p scale ox oy)
                         (filter (SunflowerVideo.shown p)
                            (Sunflower.Branch.entities b)))
             (filter (SunflowerVideo.visible p) (Sunflower.branches t))).
Proof.
  rewrite sunflower_flatten_fold.
  generalize (Sunflower.branches t). intro bs. revert bl el.
  induction bs as [| b bs IH]; intros bl el; cbn [fold_left filter].
  - now rewrite !app_nil_r.
  - rewrite sunflower_flattenOwn_eq.
    destruct (SunflowerVideo.visible p b); [| apply IH].
    rewrite IH. cbn [map flat_map]. now rewrite <- !app_assoc.
Qed.

End SunflowerClosedForm.

Section SunflowerVisible.

Lemma sunflower_visible_iff (p : Q) (b : Sunflower.Branch.t) (l d : Q) :
  Sunflower.Branch.length b = Fin l ->
  Sunflower.Branch.distFromRoot b = Fin d ->
  0 < l ->
  (SunflowerVideo.visible (Fin p) b = true <-> d < p).
Proof.
  intros El Ed Hl. unfold SunflowerVideo.visible, Pine.emits. rewrite El, Ed.
  rewrite clamp_ratio_Fin by exact Hl.
  rewrite andb_true_iff.
  change ((Fin p >? Fin d)%num = true) with (Fin d < Fin p)%num.
  change ((Fin (qclamp ((p - d) / l) 0 1) >? Fin 0)%num = true)
    with (Fin 0 < Fin (qclamp ((p - d) / l) 0 1))%num.
  rewrite !nlt_Fin, qclamp01_pos. split; [tauto |].
  intro L. split; [exact L |].
  apply Qlt_shift_div_l; [exact Hl | lra].
Qed.

Lemma sunflower_currentGrowthDist_Fin (n : nat) (m : Q) :
  SunflowerVideo.currentGrowthDist n (Fin m)
  = Fin (inject_Z (Z.of_nat n) / (30 * 30 - 1) * (m + 300)).
Proof.
  unfold SunflowerVideo.currentGrowthDist, SunflowerVideo.totalFrames,
    SunflowerVideo.durationSeconds, SunflowerVideo.fps, Sunflower.nat_num.
  cbn [nmul nsub nadd]. rewrite ndiv_Fin by discriminate. reflexivity.
Qed.

Lemma sunflower_currentGrowthDist_last (m : Q) :
  inject_Z (Z.of_nat SunflowerVideo.lastFrame) / (30 * 30 - 1) * (m + 300)
  == m + 300.
Proof.
  change (inject_Z (Z.of_nat SunflowerVideo.lastFrame)) with 899. field.
Qed.

(** The budget of a sunflower of finite distances is a finite number; no
    branch ends and no entity begins to appear after it. *)
Lemma sunflower_budget (t : Sunflower.Branch.t) :
  Forall SunflowerVideo.branch_ok (Sunflower.branches t) ->
  exists m : Q,
    Sunflower.getMaxDist t = Fin m /\
    Forall (fun b => exists lb db : Q,
                Sunflower.Branch.length b = Fin lb /\
                Sunflower.Branch.distFromRoot b = Fin db /\
                0 < lb /\ db + lb <= m /\
                Forall (fun e => exists de : Q,
                          Sunflower.Entity.distFromRoot e = Fin de /\
                          de <= m)
                       (Sunflower.Branch.entities b))
           (Sunflower.branches t).
Proof.
  intro Hok.
  assert (NN : all_nn (Sunflower.branch_ends t ++ Sunflower.entity_dists t)).
  { apply Forall_app. split.
    - unfold Sunflower.branch_ends. apply Forall_map.
      eapply Forall_impl; [| exact Hok].
      intros b (l & d & -> & -> & _). discriminate.
    - unfold Sunflower.entity_dists. apply Forall_flat_map.
      eapply Forall_impl; [| exact Hok].
      intros b (l & d & _ & _ & _ & Hents). apply Forall_map.
      eapply Forall_impl; [| exact Hents]. intros e [q ->]. discriminate. }
  destruct (sunflower_getMaxDist_max t NN) as [Hin Hmax].
  assert (Fm : finite (Sunflower.getMaxDist t)).
  { apply in_app_or in Hin. destruct Hin as [Hin | Hin].
    - unfold Sunflower.branch_ends in Hin. apply in_map_iff in Hin.
      destruct Hin as (b & <- & Hb). rewrite Forall_forall in Hok.
      destruct (Hok b Hb) as (l & d & -> & -> & _). eexists; reflexivity.
    - unfold Sunflower.entity_dists in Hin. apply in_flat_map in Hin.
      destruct Hin as (b & Hb & Hin). apply in_map_iff in Hin.
      destruct Hin as (e & <- & He). rewrite Forall_forall in Hok.
      destruct (Hok b Hb) as (l & d & _ & _ & _ & Hents).
      rewrite Forall_forall in Hents. exact (Hents e He). }
  destruct Fm as [m Em]. exists m. split; [exact Em |].
  rewrite Em in Hmax. apply Forall_app in Hmax. destruct Hmax as [Hb He].
  clear Hin.
  apply Forall_forall. intros b Hin. rewrite Forall_forall in Hok.
  destruct (Hok b Hin) as (l & d & El & Ed & Hl & Hents).
  exists l, d. repeat split; try assumption.
  - unfold Sunflower.branch_ends in Hb. rewrite Forall_map in Hb.
    rewrite Forall_forall in Hb. specialize (Hb b Hin).
    rewrite El, Ed in Hb. cbn [nadd] in Hb. now apply nle_Fin.
  - unfold Sunflower.entity_dists in He. rewrite Forall_flat_map in He.
    rewrite Forall_forall in He. specialize (He b Hin).
    rewrite Forall_map in He.
    rewrite Forall_forall in Hents, He. apply Forall_forall. intros e Hine.
    destruct (Hents e Hine) as [de Ede]. exists de. split; [exact Ede |].
    specialize (He e Hine). rewrite Ede in He. now apply nle_Fin.
Qed.

End SunflowerVisible.

(** At the last frame (frame 899, progress [maxDistance + 300]) all of a
    sunflower is shown, as long as its lengths are positive and its
    distances finite: since the budget counts the entities too, every
    branch is pushed with [localT] = 1 and every entity, in order, with its
    own type and distance at opacity 1. *)
Lemma sunflower_last_frame_all (t : Sunflower.Branch.t) :
  Forall SunflowerVideo.branch_ok (Sunflower.branches t) ->
  let p := SunflowerVideo.currentGrowthDist SunflowerVideo.lastFrame
             (Sunflower.getMaxDist t) in
  let out := SunflowerVideo.flattened t SunflowerVideo.lastFrame in
  (p == Sunflower.getMaxDist t + Fin 300)%num /\
  Forall (fun b => (SunflowerVideo.localT b p == Fin 1)%num)
         (Sunflower.branches t) /\
  List.length (fst out) = List.length (Sunflower.branches t) /\
  Forall2 (fun e e' =>
             Sunflower.Entity.type e' = Sunflower.Entity.type e /\
             Sunflower.Entity.distFromRoot e'
             = Sunflower.Entity.distFromRoot e /\
             exists o, Sunflower.Entity.opacity e' = Some o /\
                       (o == Fin 1)%num)
          (SunflowerVideo.entities t) (snd out).
Proof.
  intros Hok p out.
  destruct (sunflower_budget t Hok) as (m & Em & Hall).
  set (q := inject_Z (Z.of_nat SunflowerVideo.lastFrame) / (30 * 30 - 1)
            * (m + 300)).
  assert (Eq : q == m + 300) by apply sunflower_currentGrowthDist_last.
  assert (Ep : p = Fin q).
  { unfold p. now rewrite Em, sunflower_currentGrowthDist_Fin. }
  assert (Vall : Forall (fun b => SunflowerVideo.visible (Fin q) b = true)
                        (Sunflower.branches t)).
  { eapply Forall_impl; [| exact Hall].
    intros b (lb & db & El & Ed & Hlb & Hend & _).
    apply (sunflower_visible_iff q b lb db El Ed Hlb). lra. }
  assert (Sall : Forall (fun b => Forall (fun e => SunflowerVideo.shown
                                                     (Fin q) e = true)
                                         (Sunflower.Branch.entities b))
                        (Sunflower.branches t)).
  { eapply Forall_impl; [| exact Hall].
    intros b (lb & db & El & Ed & Hlb & Hend & Hents).
    eapply Forall_impl; [| exact Hents].
    intros e (de & Ede & Hde).
    unfold SunflowerVideo.shown, Sunflower.fadeOpacity. rewrite Ede.
    apply andb_true_iff. split.
    - change (Fin de < Fin q)%num. apply nlt_Fin. lra.
    - destruct (Sunflower.Entity.type e);
        rewrite fade_Fin by reflexivity;
        match goal with
        | |- (Fin ?o >? Fin ?c)%num = true => change (Fin c < Fin o)%num
        end;
        apply nlt_Fin;
        match goal with
        | |- _ < qsmooth (qclamp ((_ - _) / ?fs) 0 1) =>
            rewrite (fade_full q de fs eq_refl) by lra
        end; reflexivity. }
  split; [| split; [| split]].
  - rewrite Ep, Em. cbn [nadd]. apply neq_Fin. exact Eq.
  - eapply Forall_impl; [| exact Hall].
    intros b (lb & db & El & Ed & Hlb & Hend & _).
    rewrite Ep. unfold SunflowerVideo.localT.
    rewrite El, Ed, clamp_ratio_Fin by exact Hlb.
    apply neq_Fin. apply qclamp01_one.
    apply ratio_ge_one; [exact Hlb | lra].
  - unfold out, SunflowerVideo.flattened. fold p. rewrite Ep.
    rewrite sunflower_flatten_closed_form. cbn [fst app].
    now rewrite (filter_all _ _ Vall), length_map.
  - unfold out, SunflowerVideo.flattened. fold p. rewrite Ep.
    rewrite sunflower_flatten_closed_form. cbn [snd app].
    rewrite (filter_all _ _ Vall).
    match goal with
    | |- Forall2 _ _ (flat_map (fun b => map ?f _) _) =>
        assert (E : flat_map
                      (fun b => map f (filter (SunflowerVideo.shown (Fin q))
                                         (Sunflower.Branch.entities b)))
                      (Sunflower.branches t)
                    = map f (SunflowerVideo.entities t))
    end.
    { unfold SunflowerVideo.entities. rewrite <- flat_map_map_all.
      apply flat_map_ext_Forall. eapply Forall_impl; [| exact Sall].
      intros b Hb. cbv beta. now rewrite (filter_all _ _ Hb). }
    rewrite E. apply Forall2_map_self. apply Forall_forall. intros e He.
    unfold SunflowerVideo.entities in He. apply in_flat_map in He.
    destruct He as (b & Hb & He).
    rewrite Forall_forall in Hall.
    destruct (Hall b Hb) as (lb & db & _ & _ & _ & _ & Hents).
    rewrite Forall_forall in Hents.
    destruct (Hents e He) as (de & Ede & Hde).
    unfold SunflowerVideo.entityOf.
    cbn [Sunflower.Entity.type Sunflower.Entity.distFromRoot
         Sunflower.Entity.opacity].
    split; [reflexivity |]. split; [reflexivity |].
    eexists. split; [reflexivity |].
    unfold Sunflower.fadeOpacity. rewrite Ede.
    destruct (Sunflower.Entity.type e);
      rewrite fade_Fin by reflexivity; apply neq_Fin;
      apply fade_full; first [reflexivity | lra].
Qed.

(** X23.  The three layers of a sunflower frame split the flattened
    entities by type and lose nothing: leaves, petals and seeds together
    are a rearrangement of the flattened entities, each layer holds one
    type only, the stalk segments are passed on as they are, and the
    seeds are drawn in non-decreasing order of [distFromRoot] (when these
    are finite numbers). *)
Theorem sunflower_layers_partition (entities : list Sunflower.Entity.t)
    (branches : list SimpleBranch) :
  let L := SunflowerVideo.layers entities branches in
  Permutation
    (SunflowerVideo.leaves L ++ SunflowerVideo.petals L
     ++ SunflowerVideo.seeds L) entities /\
  Forall (fun e => Sunflower.Entity.type e = Sunflower.leaf)
         (SunflowerVideo.leaves L) /\
  Forall (fun e => Sunflower.Entity.type e = Sunflower.petal)
         (SunflowerVideo.petals L) /\
  Forall (fun e => Sunflower.Entity.type e = Sunflower.seed)
         (SunflowerVideo.seeds L) /\
  SunflowerVideo.branches L = branches /\
  (Forall (fun e => finite (Sunflower.Entity.distFromRoot e)) entities ->
   StronglySorted
     (fun a b => (Sunflower.Entity.distFromRoot a
                  <= Sunflower.Entity.distFromRoot b)%num)
     (SunflowerVideo.seeds L)).
Proof.
  intro L. unfold L, SunflowerVideo.layers.
  cbn [SunflowerVideo.leaves SunflowerVideo.petals SunflowerVideo.seeds
       SunflowerVideo.branches].
  split; [| split; [| split; [| split; [| split]]]].
  - rewrite sort_perm.
    induction entities as [| e l IH]; cbn [filter]; [reflexivity |].
    unfold SunflowerVideo.isLeaf, SunflowerVideo.isPetal,
      SunflowerVideo.isSeed at 1.
    destruct (Sunflower.Entity.type e).
    + cbn [app]. now constructor.
    + symmetry. apply Permutation_cons_app. now symmetry.
    + rewrite app_assoc. symmetry. apply Permutation_cons_app.
      rewrite <- app_assoc. now symmetry.
  - apply Forall_forall. intros e He. apply filter_In in He.
    destruct He as [_ He]. unfold SunflowerVideo.isLeaf in He.
    destruct (Sunflower.Entity.type e); congruence.
  - apply Forall_forall. intros e He. apply filter_In in He.
    destruct He as [_ He]. unfold SunflowerVideo.isPetal in He.
    destruct (Sunflower.Entity.type e); congruence.
  - apply Forall_forall. intros e He. apply sort_In in He.
    apply filter_In in He.
    destruct He as [_ He]. unfold SunflowerVideo.isSeed in He.
    destruct (Sunflower.Entity.type e); congruence.
  - reflexivity.
  - intro Hfin. apply (sort_sorted Sunflower.Entity.distFromRoot).
    apply Forall_forall. intros e He. apply filter_In in He.
    rewrite Forall_forall in Hfin. now apply Hfin.
Qed.

(* ================================================================== *)
(** * The sunflower generator: the form of the plant *)

Section SunflowerStalk.
Context `{JSMath}.

Lemma nat_num_nonneg (i : nat) : 0 <= inject_Z (Z.of_nat i).
Proof. change 0 with (inject_Z 0). rewrite <- Zle_Qle. lia. Qed.

Lemma generateLeaf_grown (n : nat) (start end_ : Vector2) (l d : Q) :
  rspec (Sunflower.generateLeaf n start end_ (Fin l) (Fin d))
        (fun ents =>
           if ((n <? 7)%nat && (1 <? n)%nat)%bool
           then exists e, ents = [e] /\ SunflowerTree.leaf_grown l d e
           else ents = []).
Proof.
  unfold Sunflower.generateLeaf.
  destruct ((n <? 7)%nat && (1 <? n)%nat)%bool.
  - rdraw rad. apply rspec_ret. eexists. split; [reflexivity |].
    unfold SunflowerTree.leaf_grown.
    cbn [Sunflower.Entity.type Sunflower.Entity.distFromRoot
         Sunflower.Entity.radius nadd nmul].
    split; [reflexivity |]. split; [reflexivity |].
    exists rad. split; [reflexivity | lra].
  - now apply rspec_ret.
Qed.

Lemma generatePetal_grown (end_ : Vector2) (d : Q) (petalCount : Z)
    (i : nat) :
  rspec (Sunflower.generatePetal end_ (Fin d) petalCount i)
        (fun ents => Forall (SunflowerTree.head_grown d) ents /\
                     List.length ents = 1%nat).
Proof.
  unfold Sunflower.generatePetal. rdraw. rdraw rad. apply rspec_ret.
  split; [| reflexivity]. constructor; [| constructor].
  split; [discriminate |]. split.
  - exists d. split; [reflexivity | lra].
  - exists rad. split; [reflexivity | lra].
Qed.

Lemma generateSeed_grown (end_ : Vector2) (d : Q) (i : nat) :
  rspec (Sunflower.generateSeed end_ (Fin d) i)
        (fun ents => Forall (SunflowerTree.head_grown d) ents /\
                     List.length ents = 1%nat).
Proof.
  unfold Sunflower.generateSeed. rdraw rad. apply rspec_ret.
  split; [| reflexivity]. constructor; [| constructor].
  split; [discriminate |]. split.
  - exists (d + inject_Z (Z.of_nat i) * 0.5). split; [reflexivity |].
    pose proof (nat_num_nonneg i). lra.
  - exists rad. split; [reflexivity | lra].
Qed.

Lemma generateSunflower_stalk (n : nat) :
  forall (start : Vector2) (l : Q) (angle : num) (d : Q),
    rspec (Sunflower.generateSunflower n start (Fin l) angle (Fin d))
          (SunflowerTree.stalk n l d).
Proof.
  induction n as [| n IH]; intros start l angle d.
  - cbn [Sunflower.generateSunflower].
    rdraw. rdraw. rdraw.
    apply rspec_bind with (1 := @rspec_nextInt 20 30 eq_refl).
    intros petalCount Hcount.
    eapply rspec_bind.
    { apply rspec_for_push_len with (c := 1%nat). intro i.
      apply generatePetal_grown. }
    cbv beta. intros petals [Fp Lp].
    eapply rspec_bind.
    { apply rspec_for_push_len with (c := 1%nat) (n := 150%nat). intro i.
      apply generateSeed_grown. }
    cbv beta. intros seeds [Fs Ls].
    apply rspec_ret.
    cbn [SunflowerTree.stalk Sunflower.Branch.length
         Sunflower.Branch.distFromRoot Sunflower.Branch.strokeWidth
         Sunflower.Branch.children Sunflower.Branch.entities].
    split; [reflexivity |]. split; [reflexivity |]. split; [| split; [| split]].
    + unfold Sunflower.nat_num. cbn [nmul]. rewrite Math_max_Fin.
      eexists. split; [reflexivity |].
      destruct (qmax_spec 8 (inject_Z (Z.of_nat 0) * 3.5))
        as [[? ->] | [? ->]]; lra.
    + reflexivity.
    + rewrite length_app, Lp, Ls. lia.
    + apply Forall_app. split; assumption.
  - cbn [Sunflower.generateSunflower].
    rdraw. rdraw. rdraw.
    eapply rspec_bind; [apply generateLeaf_grown |].
    cbv beta. intros ents Hents.
    rdraw.
    apply rspec_bind with (1 := IH _ (l * 0.95) _ (d + l)).
    intros child Hchild. apply rspec_ret.
    cbn [SunflowerTree.stalk Sunflower.Branch.length
         Sunflower.Branch.distFromRoot Sunflower.Branch.strokeWidth
         Sunflower.Branch.children Sunflower.Branch.entities].
    split; [reflexivity |]. split; [reflexivity |]. split; [| split].
    + unfold Sunflower.nat_num. cbn [nmul]. rewrite Math_max_Fin.
      eexists. split; [reflexivity |].
      destruct (qmax_spec 8 (inject_Z (Z.of_nat (S n)) * 3.5))
        as [[? ->] | [? ->]]; lra.
    + exists child. split; [reflexivity | exact Hchild].
    + exact Hents.
Qed.

End SunflowerStalk.

Section StalkFacts.

Lemma stalk_root (n : nat) (l d : Q) (t : Sunflower.Branch.t) :
  SunflowerTree.stalk n l d t ->
  Sunflower.Branch.length t = Fin l /\
  Sunflower.Branch.distFromRoot t = Fin d /\
  exists w : Q, Sunflower.Branch.strokeWidth t = Fin w /\ 8 <= w /\
                inject_Z (Z.of_nat n) * 3.5 <= w.
Proof. destruct n; intros (E1 & E2 & W & _); repeat split; assumption. Qed.

Lemma sbranches_root (t : Sunflower.Branch.t) : In t (Sunflower.branches t).
Proof. destruct t. left. reflexivity. Qed.

Lemma sbranches_unfold (t : Sunflower.Branch.t) :
  Sunflower.branches t
  = t :: flat_map Sunflower.branches (Sunflower.Branch.children t).
Proof. destruct t. reflexivity. Qed.

(** What holds of every branch of a generated sunflower. *)
Lemma stalk_branches (n : nat) :
  forall l d t, 0 < l -> SunflowerTree.stalk n l d t ->
    List.length (Sunflower.branches t) = S n /\
    Forall (fun b =>
              SunflowerVideo.branch_ok b /\
              (Fin 8 <= Sunflower.Branch.strokeWidth b)%num /\
              forall c, In c (Sunflower.Branch.children b) ->
                Sunflower.Branch.children b = [c] /\
                Sunflower.Branch.distFromRoot c
                = (Sunflower.Branch.distFromRoot b
                   + Sunflower.Branch.length b)%num /\
                Sunflower.Branch.length c
                = (Sunflower.Branch.length b * Fin 0.95)%num)
           (Sunflower.branches t) /\
    List.length (filter SunflowerVideo.isLeaf (SunflowerVideo.entities t))
    = (Nat.min n 6 - 1)%nat.
Proof.
  induction n as [| n IH]; intros l d t Hl G.
  - destruct (stalk_root _ _ _ _ G) as (El & Ed & w & Ew & Hw & _).
    destruct G as (_ & _ & _ & Ec & _ & He).
    unfold SunflowerVideo.entities. rewrite sbranches_unfold, Ec.
    cbn [flat_map app List.length].
    split; [reflexivity |]. split.
    + constructor; [| constructor]. split; [| split].
      * exists l, d. repeat split; try assumption.
        eapply Forall_impl; [| exact He].
        intros e (_ & (de & -> & _) & _). eexists; reflexivity.
      * rewrite Ew. now apply nle_Fin.
      * rewrite Ec. intros c [].
    + rewrite app_nil_r. rewrite filter_none; [reflexivity |].
      eapply Forall_impl; [| exact He]. intros e (Ht & _).
      unfold SunflowerVideo.isLeaf.
      destruct (Sunflower.Entity.type e); congruence.
  - destruct (stalk_root _ _ _ _ G) as (El & Ed & w & Ew & Hw & _).
    destruct G as (_ & _ & _ & (child & Ec & Gc) & He).
    assert (Hl' : 0 < l * 0.95) by lra.
    destruct (IH _ _ _ Hl' Gc) as (Ln & Fall & Lf).
    destruct (stalk_root _ _ _ _ Gc) as (Elc & Edc & _).
    unfold SunflowerVideo.entities. rewrite sbranches_unfold, Ec.
    cbn [flat_map app List.length]. rewrite app_nil_r.
    split; [now rewrite Ln |]. split.
    + constructor; [| exact Fall]. split; [| split].
      * exists l, d. repeat split; try assumption.
        destruct ((S n <? 7)%nat && (1 <? S n)%nat)%bool.
        -- destruct He as (e & -> & _ & Ede & _).
           constructor; [| constructor]. rewrite Ede. eexists; reflexivity.
        -- rewrite He. constructor.
      * rewrite Ew. now apply nle_Fin.
      * rewrite Ec. intros c [<- | []].
        split; [reflexivity |]. rewrite Elc, Edc, El, Ed. split; reflexivity.
    + rewrite filter_app, length_app.
      fold (SunflowerVideo.entities child). rewrite Lf.
      destruct ((S n <? 7)%nat && (1 <? S n)%nat)%bool eqn:C.
      * destruct He as (e & -> & Ht & _). cbn [filter].
        unfold SunflowerVideo.isLeaf. rewrite Ht. cbn [List.length].
        apply andb_true_iff in C. destruct C as [C1 C2].
        apply Nat.ltb_lt in C1, C2. lia.
      * rewrite He. cbn [filter List.length].
        apply andb_false_iff in C.
        destruct C as [C | C]; apply Nat.ltb_ge in C; lia.
Qed.

End StalkFacts.

(** X24.  The plant [generateSunflower] builds for [segmentsLeft = n] from
    arguments of moderate size is a single stalk of [n] segments ending in
    the flower head: it has [n + 1] branches; each segment has exactly one
    child, whose distance from the root is its parent's plus the parent's
    length and which is 0.95 times as long; every branch has a positive
    length, a finite distance and a width of at least 8; and the plant
    carries [min(n, 6) - 1] leaves in all (5 for the program's 8
    segments). *)
Theorem sunflower_stalk_shape `{JSMath} (n : nat) (start : Vector2)
    (length angle currentDist : num) (rand : SeededRandom.t) :
  moderate n start length angle currentDist -> RandOK rand ->
  let tree :=
    fst (Sunflower.generateSunflower n start length angle currentDist rand) in
  List.length (Sunflower.branches tree) = S n /\
  Forall (fun b =>
            SunflowerVideo.branch_ok b /\
            (Fin 8 <= Sunflower.Branch.strokeWidth b)%num /\
            forall c, In c (Sunflower.Branch.children b) ->
              Sunflower.Branch.children b = [c] /\
              Sunflower.Branch.distFromRoot c
              = (Sunflower.Branch.distFromRoot b
                 + Sunflower.Branch.length b)%num /\
              Sunflower.Branch.length c
              = (Sunflower.Branch.length b * Fin 0.95)%num)
         (Sunflower.branches tree) /\
  List.length (filter SunflowerVideo.isLeaf (SunflowerVideo.entities tree))
  = (Nat.min n 6 - 1)%nat.
Proof.
  intros Hmod Hrand tree.
  destruct (moderate_inv _ _ _ _ _ Hmod) as (l & d & -> & -> & Hl1 & _).
  assert (Hl : 0 < l) by lra.
  apply (stalk_branches n l d tree Hl).
  exact (proj1 (generateSunflower_stalk n start l angle d rand Hrand)).
Qed.

Lemma sunflower_stalk_shape_witness :
  let tree :=
    fst (@Sunflower.generateSunflower Sample.math 8%nat
           (mkVector2 (Fin 0) (Fin 0)) (Fin 120) (Fin (-90)) (Fin 0)
           Sample.rand) in
  RandOK Sample.rand /\
  List.length (Sunflower.branches tree) = 9%nat /\
  List.length (filter SunflowerVideo.isLeaf (SunflowerVideo.entities tree))
  = 5%nat.
Proof.
  exact (conj (new_RandOK _)
           ((fun H => conj (proj1 H) (proj2 (proj2 H)))
              (@sunflower_stalk_shape Sample.math 8%nat
                 (mkVector2 (Fin 0) (Fin 0)) (Fin 120) (Fin (-90)) (Fin 0)
                 Sample.rand sunflower_program_moderate (new_RandOK _)))).
Defined.

(* ================================================================== *)
(** * grid.ts *)

Section GridSize.

Lemma ngtb_Fin_cases (p q : Q) :
  if (Fin p >? Fin q)%num then q < p else p <= q.
Proof.
  destruct (Fin p >? Fin q)%num eqn:E.
  - now apply nlt_Fin.
  - destruct (Qlt_le_dec q p) as [L | L]; [| exact L].
    apply nlt_Fin in L. unfold nlt, ngtb in *. congruence.
Qed.

Lemma growGrid_spec (m : Q) (t : Grid.TreeConfig) :
  finite (Grid.gridX t) -> finite (Grid.gridY t) ->
  exists r : Q,
    Grid.growGrid (Fin m) t = Fin r /\ m <= r /\
    (Grid.gridX t + Fin 1 <= Fin r)%num /\
    (Grid.gridY t + Fin 1 <= Fin r)%num /\
    (r = m \/ Fin r = (Grid.gridX t + Fin 1)%num
     \/ Fin r = (Grid.gridY t + Fin 1)%num).
Proof.
  intros [gx Ex] [gy Ey]. unfold Grid.growGrid. rewrite Ex, Ey.
  cbn [nsub nadd].
  pose proof (ngtb_Fin_cases gx (m - 1)) as C1.
  destruct (Fin gx >? Fin (m - 1))%num.
  - cbn [nsub].
    pose proof (ngtb_Fin_cases gy (gx + 1 - 1)) as C2.
    destruct (Fin gy >? Fin (gx + 1 - 1))%num.
    + exists (gy + 1). repeat split; try lra; try (apply nle_Fin; lra). auto.
    + exists (gx + 1). repeat split; try lra; try (apply nle_Fin; lra). auto.
  - cbn [nsub]. pose proof (ngtb_Fin_cases gy (m - 1)) as C2.
    destruct (Fin gy >? Fin (m - 1))%num.
    + exists (gy + 1). repeat split; try lra; try (apply nle_Fin; lra). auto.
    + exists m. repeat split; try lra; try (apply nle_Fin; lra). auto.
Qed.

Lemma fold_growGrid (trees : list Grid.TreeConfig) :
  Forall (fun t => finite (Grid.gridX t) /\ finite (Grid.gridY t)) trees ->
  forall m : Q,
    exists r : Q,
      fold_left Grid.growGrid trees (Fin m) = Fin r /\ m <= r /\
      Forall (fun t => (Grid.gridX t + Fin 1 <= Fin r)%num /\
                       (Grid.gridY t + Fin 1 <= Fin r)%num) trees /\
      (r = m \/
       Exists (fun t => Fin r = (Grid.gridX t + Fin 1)%num \/
                        Fin r = (Grid.gridY t + Fin 1)%num) trees).
Proof.
  induction 1 as [| t trees [Fx Fy] _ IH]; intro m; cbn [fold_left].
  - exists m. repeat split; try lra; auto.
  - destruct (growGrid_spec m t Fx Fy) as (r1 & E1 & L1 & X1 & Y1 & C1).
    rewrite E1. destruct (IH r1) as (r & E & L & Fall & C).
    exists r. split; [exact E |]. split; [lra |]. split.
    + constructor; [| exact Fall].
      assert (Lr : (Fin r1 <= Fin r)%num) by now apply nle_Fin.
      split; eapply nle_trans; eassumption.
    + destruct C as [-> | C]; [| right; now apply Exists_cons_tl].
      destruct C1 as [-> | C1]; [now left |].
      right. now apply Exists_cons_hd.
Qed.

End GridSize.

(** X25.  The grid is made large enough for every tree and no larger: for
    placements with finite coordinates, [gridSize] is a finite number, at
    least 3, with [gridX + 1 <= gridSize] and [gridY + 1 <= gridSize] for
    every tree (so a tree on a cell of non-negative integer coordinates is
    on the grid), and it is either the minimum 3 or one more than a
    coordinate of some tree. *)
Theorem gridSize_fits_trees (treePlacements : list Grid.TreeConfig) :
  Forall (fun t => finite (Grid.gridX t) /\ finite (Grid.gridY t))
         treePlacements ->
  let g := Grid.gridSize treePlacements in
  finite g /\ (Fin 3 <= g)%num /\
  Forall (fun t => (Grid.gridX t + Fin 1 <= g)%num /\
                   (Grid.gridY t + Fin 1 <= g)%num) treePlacements /\
  (g = Fin 3 \/
   Exists (fun t => g = (Grid.gridX t + Fin 1)%num \/
                    g = (Grid.gridY t + Fin 1)%num) treePlacements).
Proof.
  intros Hfin g.
  destruct (fold_growGrid treePlacements Hfin 3) as (r & E & L & Fall & C).
  unfold g, Grid.gridSize. rewrite E.
  split; [eexists; reflexivity |]. split; [now apply nle_Fin |].
  split; [exact Fall |].
  destruct C as [-> | C]; [now left | now right].
Qed.

Lemma gridSize_fits_trees_witness :
  Forall (fun t => finite (Grid.gridX t) /\ finite (Grid.gridY t))
         Grid.sampleTrees /\
  (Fin 3 <= Grid.gridSize Grid.sampleTrees)%num.
Proof.
  assert (W : Forall (fun t => finite (Grid.gridX t) /\ finite (Grid.gridY t))
                     Grid.sampleTrees).
  { repeat constructor; eexists; reflexivity. }
  split; [exact W |].
  apply (gridSize_fits_trees Grid.sampleTrees W).
Defined.

Section GridPositions.

Lemma Qfloor_unique (q : Q) (z : Z) :
  inject_Z z <= q -> q < inject_Z (z + 1) -> Qfloor q = z.
Proof.
  intros H1 H2.
  apply Qfloor_resp_le in H1. rewrite Qfloor_Z in H1.
  pose proof (Qfloor_le q) as H3.
  assert (H4 : inject_Z (Qfloor q) < inject_Z (z + 1)) by lra.
  rewrite <- Zlt_Qlt in H4. lia.
Qed.

Lemma Qfloor_shift (q : Q) (k : Z) :
  Qfloor (q + inject_Z k) = (Qfloor q + k)%Z.
Proof.
  apply Qfloor_unique.
  - rewrite inject_Z_plus. pose proof (Qfloor_le q). lra.
  - replace (Qfloor q + k + 1)%Z with ((Qfloor q + 1) + k)%Z by lia.
    rewrite inject_Z_plus. pose proof (Qlt_floor q). lra.
Qed.

Lemma inject_Z_of_nat_sub (a b : nat) :
  inject_Z (Z.of_nat a) - inject_Z (Z.of_nat b)
  == inject_Z (Z.of_nat a - Z.of_nat b).
Proof. unfold Zminus. rewrite inject_Z_plus, inject_Z_opp. ring. Qed.

(** The pixel position of a cell, in integers. *)
Lemma position_pixels (g : Q) (cx cy : nat) :
  Grid.pixelX (Grid.position (Fin g) cx cy)
  = Fin (inject_Z (Qfloor (g * 200 + 200 + (1 # 2))
                   + 200 * (Z.of_nat cx - Z.of_nat cy))) /\
  Grid.pixelY (Grid.position (Fin g) cx cy)
  = Fin (inject_Z (700 + 100 * (Z.of_nat cx + Z.of_nat cy))).
Proof.
  unfold Grid.position, Grid.startX, Grid.canvasWidth, Grid.startY,
    Grid.CONFIG.tileWidth, Grid.SCALE.
  cbn [Grid.pixelX Grid.pixelY nmul nadd nsub].
  rewrite !ndiv_Fin by discriminate. cbn [nmul nadd nsub].
  rewrite !ndiv_Fin by discriminate. cbn [nmul nadd nsub Math_round].
  split; f_equal; f_equal.
  - rewrite <- Qfloor_shift. apply Qfloor_comp.
    rewrite inject_Z_mult, <- inject_Z_of_nat_sub.
    change (inject_Z 200) with 200. field.
  - rewrite <- (Qfloor_Z (700 + 100 * (Z.of_nat cx + Z.of_nat cy))).
    apply Qfloor_unique.
    + rewrite Qfloor_Z, inject_Z_plus, inject_Z_mult, inject_Z_plus.
      change (inject_Z 700) with 700. change (inject_Z 100) with 100.
      assert (E : 150 * 4 + (inject_Z (Z.of_nat cx) + inject_Z (Z.of_nat cy))
                            * (100 * 4 / 4) + 100 * 4 / 4 + (1 # 2)
                  == 700 + 100 * (inject_Z (Z.of_nat cx)
                                  + inject_Z (Z.of_nat cy)) + (1 # 2))
        by field.
      rewrite E. lra.
    + rewrite Qfloor_Z, !inject_Z_plus, inject_Z_mult, inject_Z_plus.
      change (inject_Z 700) with 700. change (inject_Z 100) with 100.
      change (inject_Z 1) with 1.
      assert (E : 150 * 4 + (inject_Z (Z.of_nat cx) + inject_Z (Z.of_nat cy))
                            * (100 * 4 / 4) + 100 * 4 / 4 + (1 # 2)
                  == 700 + 100 * (inject_Z (Z.of_nat cx)
                                  + inject_Z (Z.of_nat cy)) + (1 # 2))
        by field.
      rewrite E. lra.
Qed.

Lemma Fin_inject_Z_inj (a b : Z) : Fin (inject_Z a) = Fin (inject_Z b) -> a = b.
Proof. intro E. injection E. auto. Qed.

Lemma in_positions (g : Q) (p : Grid.GridPosition) :
  In p (Grid.positions g) <->
  exists cx cy, (cx < Grid.turns g)%nat /\ (cy < Grid.turns g)%nat /\
                p = Grid.position (Fin g) cx cy.
Proof.
  unfold Grid.positions. rewrite in_flat_map. split.
  - intros (cy & Hy & Hp). apply in_map_iff in Hp.
    destruct Hp as (cx & <- & Hx). apply in_seq in Hx, Hy.
    exists cx, cy. repeat split; lia.
  - intros (cx & cy & Hx & Hy & ->). exists cy.
    split; [apply in_seq; lia |]. apply in_map_iff. exists cx.
    split; [reflexivity | apply in_seq; lia].
Qed.

Lemma length_rows {A : Type} (f : nat -> nat -> A) (cols rows : nat) :
  forall from,
    List.length (flat_map (fun y => map (fun x => f x y) (seq 0 cols))
                   (seq from rows))
    = (rows * cols)%nat.
Proof.
  induction rows as [| rows IH]; intro from; cbn [seq flat_map];
    [reflexivity |].
  rewrite length_app, length_map, length_seq, IH. lia.
Qed.

Lemma length_positions (g : Q) :
  List.length (Grid.positions g) = (Grid.turns g * Grid.turns g)%nat.
Proof. unfold Grid.positions. apply length_rows. Qed.

End GridPositions.

(** X26.  The two loops generate one position for every cell of the grid:
    [turns * turns] positions, those of the cells [(x, y)] with
    [x, y < turns], where [turns] is the number of turns of each loop; and
    the pixel position tells the cell: two cells with the same [pixelX] and
    [pixelY] are the same cell. *)
Theorem grid_positions_cover (gridSize : Q) :
  List.length (Grid.positions gridSize)
  = (Grid.turns gridSize * Grid.turns gridSize)%nat /\
  (forall p, In p (Grid.positions gridSize) <->
             exists x y, (x < Grid.turns gridSize)%nat /\
                         (y < Grid.turns gridSize)%nat /\
                         p = Grid.position (Fin gridSize) x y) /\
  (forall x y x' y' : nat,
      Grid.pixelX (Grid.position (Fin gridSize) x y)
      = Grid.pixelX (Grid.position (Fin gridSize) x' y') ->
      Grid.pixelY (Grid.position (Fin gridSize) x y)
      = Grid.pixelY (Grid.position (Fin gridSize) x' y') ->
      x = x' /\ y = y').
Proof.
  split; [apply length_positions |]. split; [apply in_positions |].
  intros cx cy cx' cy' EX EY.
  destruct (position_pixels gridSize cx cy) as [X1 Y1].
  destruct (position_pixels gridSize cx' cy') as [X2 Y2].
  rewrite X1, X2 in EX. rewrite Y1, Y2 in EY.
  apply Fin_inject_Z_inj in EX, EY. lia.
Qed.

(** X27.  The cells are drawn back to front: [sortedPositions] holds the
    generated positions, each once, in non-decreasing order of
    [gridY + gridX]. *)
Theorem grid_draw_order (gridSize : Q) :
  Permutation (Grid.sortedPositions gridSize) (Grid.positions gridSize) /\
  StronglySorted
    (fun a b => (Grid.gp_gridY a + Grid.gp_gridX a
                 <= Grid.gp_gridY b + Grid.gp_gridX b)%num)
    (Grid.sortedPositions gridSize).
Proof.
  split; [apply sort_perm |].
  apply (sort_sorted (fun a => (Grid.gp_gridY a + Grid.gp_gridX a)%num)).
  apply Forall_forall. intros p Hp. apply in_positions in Hp.
  destruct Hp as (cx & cy & _ & _ & ->). eexists; reflexivity.
Qed.

Section GridCanvas.

Lemma turns_bound (g : Q) (c : nat) :
  (c < Grid.turns g)%nat ->
  0 <= inject_Z (Z.of_nat c) /\ inject_Z (Z.of_nat c) < g.
Proof.
  unfold Grid.turns. intro Hc. split.
  - change 0 with (inject_Z 0). rewrite <- Zle_Qle. lia.
  - pose proof (Qceiling_lt g) as Hg.
    assert (L : inject_Z (Z.of_nat c) <= inject_Z (Qceiling g - 1)).
    { rewrite <- Zle_Qle. lia. }
    lra.
Qed.

End GridCanvas.

(** X28.  Every block is drawn inside the canvas: for each generated
    position, every vertex of the five faces [drawIsoBlock] fills lies
    between 0 and [canvasWidth] horizontally and between 0 and
    [canvasHeight] vertically. *)
Theorem grid_blocks_inside_canvas (gridSize : Q) (pos : Grid.GridPosition) :
  In pos (Grid.positions gridSize) ->
  Forall (Forall (fun v =>
                    (Fin 0 <= x v)%num /\
                    (x v <= Grid.canvasWidth (Fin gridSize))%num /\
                    (Fin 0 <= y v)%num /\
                    (y v <= Grid.canvasHeight (Fin gridSize))%num))
         (Grid.drawnFaces gridSize pos).
Proof.
  intro Hp. apply in_positions in Hp.
  destruct Hp as (cx & cy & Hx & Hy & ->).
  apply turns_bound in Hx, Hy.
  destruct Hx as [X0 X1], Hy as [Y0 Y1].
  unfold Grid.drawnFaces, Grid.blockFaces, Grid.position, Grid.startX,
    Grid.canvasWidth, Grid.canvasHeight, Grid.startY,
    Grid.CONFIG.tileWidth, Grid.CONFIG.grassHeight, Grid.CONFIG.soilHeight,
    Grid.SCALE.
  cbn [Grid.gp_gridX Grid.gp_gridY nmul nadd nsub].
  repeat (rewrite !ndiv_Fin by discriminate; cbn [nmul nadd nsub]).
  set (X := inject_Z (Z.of_nat cx)) in *.
  set (Y := inject_Z (Z.of_nat cy)) in *.
  repeat constructor; cbn [x y]; apply nle_Fin; unfold Qdiv;
    change (/ 2) with (1 # 2); change (/ 4) with (1 # 4); lra.
Qed.

Lemma grid_blocks_inside_canvas_witness :
  In (Grid.position (Fin 5) 4 2) (Grid.positions 5) /\
  Forall (Forall (fun v =>
                    (Fin 0 <= x v)%num /\
                    (x v <= Grid.canvasWidth (Fin 5))%num /\
                    (Fin 0 <= y v)%num /\
                    (y v <= Grid.canvasHeight (Fin 5))%num))
         (Grid.drawnFaces 5 (Grid.position (Fin 5) 4 2)).
Proof.
  assert (W : In (Grid.position (Fin 5) 4 2) (Grid.positions 5)).
  { apply in_positions. exists 4%nat, 2%nat.
    repeat split; vm_compute; lia. }
  split; [exact W |].
  exact (grid_blocks_inside_canvas 5 _ W).
Defined.

(* ================================================================== *)
(** * sunflower.ts: the bounds and the canvas *)

Section SunflowerBounds.

Lemma sunflower_calculateBounds_fold (t : Sunflower.Branch.t) :
  forall B,
    SunflowerVideo.calculateBounds t B
    = fold_left (fun B b => fold_left SunflowerVideo.boundsEntity
                              (Sunflower.Branch.entities b)
                              (SunflowerVideo.boundsOwn b B))
        (Sunflower.branches t) B.
Proof.
  induction t as [s e w c l d children ents IH] using SBranch_ind'.
  intro B. cbn [SunflowerVideo.calculateBounds Sunflower.branches fold_left].
  rewrite fold_left_flat_map.
  apply fold_left_ext_Forall.
  eapply Forall_impl; [| exact IH]. intros child Hchild a. apply Hchild.
Qed.

Lemma sunflower_circle_in_grow (B B' : Bounds) (e : Sunflower.Entity.t) :
  bounds_grow B B' ->
  SunflowerGeometry.circle_in B e -> SunflowerGeometry.circle_in B' e.
Proof. intros G [? ?]. split; eauto using point_in_grow. Qed.

Lemma sunflower_branch_in_grow (B B' : Bounds) (b : Sunflower.Branch.t) :
  bounds_grow B B' ->
  SunflowerGeometry.branch_in B b -> SunflowerGeometry.branch_in B' b.
Proof.
  intros G (? & ? & ? & Hents).
  split; [| split; [| split]]; eauto using point_in_grow.
  eapply Forall_impl; [| exact Hents]. intros e.
  now apply sunflower_circle_in_grow.
Qed.

Lemma sunflower_boundsEntity_step (B : Bounds) (e : Sunflower.Entity.t) :
  bounds_nn B -> SunflowerGeometry.entity_wf e ->
  bounds_nn (SunflowerVideo.boundsEntity B e) /\
  bounds_grow B (SunflowerVideo.boundsEntity B e) /\
  SunflowerGeometry.circle_in (SunflowerVideo.boundsEntity B e) e.
Proof.
  intros (N1 & N2 & N3 & N4) [[[cx Ecx] [cy Ecy]] (r & Er & Hr)].
  unfold SunflowerVideo.boundsEntity, SunflowerGeometry.circle_in,
    Pine.point_in, bounds_nn, bounds_grow.
  rewrite Ecx, Ecy, Er. cbn [minX maxX minY maxY x y nsub nadd].
  assert (F : forall q, Fin q <> NaN) by (intros q; discriminate).
  destruct (Math_min_spec _ _ N1 (F (cx - r))) as (? & ? & ?).
  destruct (Math_max_spec _ _ N2 (F (cx + r))) as (? & ? & ?).
  destruct (Math_min_spec _ _ N3 (F (cy - r))) as (? & ? & ?).
  destruct (Math_max_spec _ _ N4 (F (cy + r))) as (? & ? & ?).
  assert ((Fin (cx - r) <= Fin (cx + r))%num) by (apply nle_Fin; lra).
  assert ((Fin (cy - r) <= Fin (cy + r))%num) by (apply nle_Fin; lra).
  repeat split; eauto using nle_trans.
Qed.

Lemma sunflower_boundsOwn_step (B : Bounds) (b : Sunflower.Branch.t) :
  bounds_nn B ->
  Pine.finite_vec (Sunflower.Branch.start b) ->
  Pine.finite_vec (Sunflower.Branch.end_ b) ->
  Pine.finite_vec (Sunflower.Branch.control b) ->
  bounds_nn (SunflowerVideo.boundsOwn b B) /\
  bounds_grow B (SunflowerVideo.boundsOwn b B) /\
  Pine.point_in (SunflowerVideo.boundsOwn b B) (Sunflower.Branch.start b) /\
  Pine.point_in (SunflowerVideo.boundsOwn b B) (Sunflower.Branch.end_ b) /\
  Pine.point_in (SunflowerVideo.boundsOwn b B) (Sunflower.Branch.control b).
Proof.
  intros (N1 & N2 & N3 & N4) [Sx Sy] [Ex Ey] [Cx Cy].
  apply finite_not_nan in Sx, Sy, Ex, Ey, Cx, Cy.
  unfold SunflowerVideo.boundsOwn, Pine.point_in, bounds_nn, bounds_grow.
  cbn [minX maxX minY maxY].
  destruct (Math_min4_spec _ _ _ _ N1 Sx Ex Cx) as (? & ? & ? & ? & ?).
  destruct (Math_max4_spec _ _ _ _ N2 Sx Ex Cx) as (? & ? & ? & ? & ?).
  destruct (Math_min4_spec _ _ _ _ N3 Sy Ey Cy) as (? & ? & ? & ? & ?).
  destruct (Math_max4_spec _ _ _ _ N4 Sy Ey Cy) as (? & ? & ? & ? & ?).
  repeat split; assumption.
Qed.

Lemma sunflower_boundsEntity_fold (ents : list Sunflower.Entity.t) :
  Forall SunflowerGeometry.entity_wf ents ->
  forall B, bounds_nn B ->
    bounds_nn (fold_left SunflowerVideo.boundsEntity ents B) /\
    bounds_grow B (fold_left SunflowerVideo.boundsEntity ents B) /\
    Forall (SunflowerGeometry.circle_in
              (fold_left SunflowerVideo.boundsEntity ents B)) ents.
Proof.
  induction 1 as [| e ents He Hents IH]; intros B HB; cbn [fold_left].
  - split; [exact HB | split; [now apply bounds_grow_refl | constructor]].
  - destruct (sunflower_boundsEntity_step B e HB He) as (N1 & G1 & C1).
    destruct (IH _ N1) as (N2 & G2 & C2).
    split; [exact N2 | split].
    + exact (bounds_grow_trans _ _ _ G1 G2).
    + constructor; [exact (sunflower_circle_in_grow _ _ _ G2 C1) | exact C2].
Qed.

Lemma sunflower_bounds_encloses (bs : list Sunflower.Branch.t) :
  Forall SunflowerGeometry.branch_wf bs ->
  forall B, bounds_nn B ->
    let B' := fold_left
                (fun B b => fold_left SunflowerVideo.boundsEntity
                              (Sunflower.Branch.entities b)
                              (SunflowerVideo.boundsOwn b B)) bs B in
    bounds_nn B' /\ bounds_grow B B' /\
    Forall (SunflowerGeometry.branch_in B') bs.
Proof.
  induction 1 as [| b bs (Fs & Fe & Fc & Fents) _ IH]; intros B HB;
    cbn [fold_left].
  - split; [exact HB | split; [now apply bounds_grow_refl | constructor]].
  - destruct (sunflower_boundsOwn_step B b HB Fs Fe Fc)
      as (N1 & G1 & Ps & Pe & Pc).
    destruct (sunflower_boundsEntity_fold _ Fents _ N1) as (N2 & G2 & Cents).
    destruct (IH _ N2) as (N3 & G3 & E3).
    split; [exact N3 | split].
    + exact (bounds_grow_trans _ _ _ (bounds_grow_trans _ _ _ G1 G2) G3).
    + constructor; [| exact E3].
      apply (sunflower_branch_in_grow _ _ _ G3).
      split; [| split; [| split]]; try exact Cents;
        (eapply point_in_grow; [exact G2 | assumption]).
Qed.

Lemma sunflower_boundsOwn_least (B B' : Bounds) (b : Sunflower.Branch.t) :
  bounds_grow B B' ->
  Pine.point_in B' (Sunflower.Branch.start b) ->
  Pine.point_in B' (Sunflower.Branch.end_ b) ->
  Pine.point_in B' (Sunflower.Branch.control b) ->
  bounds_grow (SunflowerVideo.boundsOwn b B) B'.
Proof.
  intros (G1 & G2 & G3 & G4) (S1 & S2 & S3 & S4) (E1 & E2 & E3 & E4)
         (C1 & C2 & C3 & C4).
  unfold bounds_grow, SunflowerVideo.boundsOwn, Math_min4, Math_max4.
  cbn [minX maxX minY maxY].
  split; [| split; [| split]];
    repeat (first [apply Math_min_glb | apply Math_max_lub]); assumption.
Qed.

Lemma sunflower_boundsEntity_least (B B' : Bounds)
    (e : Sunflower.Entity.t) :
  bounds_grow B B' -> SunflowerGeometry.circle_in B' e ->
  bounds_grow (SunflowerVideo.boundsEntity B e) B'.
Proof.
  intros (G1 & G2 & G3 & G4) [(L1 & _ & L3 & _) (_ & U2 & _ & U4)].
  cbn [x y] in *.
  unfold bounds_grow, SunflowerVideo.boundsEntity.
  cbn [minX maxX minY maxY].
  split; [| split; [| split]];
    first [apply Math_min_glb | apply Math_max_lub]; assumption.
Qed.

Lemma sunflower_bounds_least_from (B' : Bounds)
    (bs : list Sunflower.Branch.t) :
  Forall (SunflowerGeometry.branch_in B') bs ->
  forall B, bounds_grow B B' ->
    bounds_grow
      (fold_left (fun B b => fold_left SunflowerVideo.boundsEntity
                               (Sunflower.Branch.entities b)
                               (SunflowerVideo.boundsOwn b B))
         bs B) B'.
Proof.
  induction 1 as [| b bs (Ps & Pe & Pc & Pents) _ IH]; intros B G;
    cbn [fold_left]; [exact G |].
  apply IH.
  pose proof (sunflower_boundsOwn_least _ _ b G Ps Pe Pc) as G1.
  revert G1. generalize (SunflowerVideo.boundsOwn b B).
  induction Pents as [| e ents He _ IHe]; intros B1 G1; cbn [fold_left];
    [exact G1 |].
  apply IHe. now apply sunflower_boundsEntity_least.
Qed.

Lemma sunflower_boundsOwn_initial_fin (b : Sunflower.Branch.t) :
  Pine.finite_vec (Sunflower.Branch.start b) ->
  Pine.finite_vec (Sunflower.Branch.end_ b) ->
  Pine.finite_vec (Sunflower.Branch.control b) ->
  bounds_fin (SunflowerVideo.boundsOwn b initialBounds).
Proof.
  intros [Sx Sy] [Ex Ey] [Cx Cy].
  unfold bounds_fin, SunflowerVideo.boundsOwn, Math_min4, Math_max4,
    initialBounds.
  cbn [minX maxX minY maxY].
  rewrite !Math_min_PInf, !Math_max_NInf by assumption.
  repeat split;
    repeat (first [apply Math_min_finite | apply Math_max_finite]);
    assumption.
Qed.

Lemma sunflower_boundsOwn_fin (B : Bounds) (b : Sunflower.Branch.t) :
  bounds_fin B ->
  Pine.finite_vec (Sunflower.Branch.start b) ->
  Pine.finite_vec (Sunflower.Branch.end_ b) ->
  Pine.finite_vec (Sunflower.Branch.control b) ->
  bounds_fin (SunflowerVideo.boundsOwn b B).
Proof.
  intros (F1 & F2 & F3 & F4) [Sx Sy] [Ex Ey] [Cx Cy].
  unfold bounds_fin, SunflowerVideo.boundsOwn, Math_min4, Math_max4.
  cbn [minX maxX minY maxY].
  repeat split;
    repeat (first [apply Math_min_finite | apply Math_max_finite]);
    assumption.
Qed.

Lemma sunflower_boundsEntity_fin (ents : list Sunflower.Entity.t) :
  Forall SunflowerGeometry.entity_wf ents ->
  forall B, bounds_fin B ->
    bounds_fin (fold_left SunflowerVideo.boundsEntity ents B).
Proof.
  induction 1 as [| e ents ([Cx Cy] & r & Er & _) _ IH]; intros B HB;
    cbn [fold_left]; [exact HB |].
  apply IH. destruct HB as (F1 & F2 & F3 & F4).
  unfold bounds_fin, SunflowerVideo.boundsEntity.
  cbn [minX maxX minY maxY]. rewrite Er.
  repeat split;
    first [apply Math_min_finite | apply Math_max_finite];
    auto using finite_add, finite_sub, finite_Fin.
Qed.

Lemma sunflower_calculateBounds_fin (t : Sunflower.Branch.t) :
  SunflowerGeometry.tree_wf t ->
  bounds_fin (SunflowerVideo.calculateBounds t initialBounds).
Proof.
  intro Hwf. rewrite sunflower_calculateBounds_fold.
  unfold SunflowerGeometry.tree_wf in Hwf.
  destruct t as [s e w c l d children ents].
  cbn [Sunflower.branches fold_left] in *.
  apply Forall_cons_iff in Hwf. destruct Hwf as [(Fs & Fe & Fc & Fents) Hch].
  pose proof (sunflower_boundsEntity_fin _ Fents _
                (sunflower_boundsOwn_initial_fin _ Fs Fe Fc)) as F0.
  revert F0. cbn [Sunflower.Branch.entities].
  generalize (fold_left SunflowerVideo.boundsEntity ents
                (SunflowerVideo.boundsOwn
                   (Sunflower.Branch.mk s e w c l d children ents)
                   initialBounds)).
  induction Hch as [| b bs (Fs' & Fe' & Fc' & Fents') _ IH]; intros B HB;
    cbn [fold_left]; [exact HB |].
  apply IH. apply sunflower_boundsEntity_fin; [exact Fents' |].
  now apply sunflower_boundsOwn_fin.
Qed.

Lemma sunflower_calculateBounds_encloses (t : Sunflower.Branch.t) :
  SunflowerGeometry.tree_wf t ->
  SunflowerGeometry.encloses
    (SunflowerVideo.calculateBounds t initialBounds) t.
Proof.
  intro Hwf. rewrite sunflower_calculateBounds_fold.
  exact (proj2 (proj2 (sunflower_bounds_encloses _ Hwf initialBounds
                         initialBounds_nn))).
Qed.

End SunflowerBounds.

(** X29.  [calculateBounds] of sunflower.ts: for a plant of finite
    geometry (radii not negative) the rectangle it returns encloses every
    branch point and every entity circle, and it is the least such
    rectangle: every rectangle that encloses the plant reaches at least as
    far on each side. *)
Theorem sunflower_calculateBounds_least (t : Sunflower.Branch.t) :
  SunflowerGeometry.tree_wf t ->
  let B := SunflowerVideo.calculateBounds t initialBounds in
  SunflowerGeometry.encloses B t /\
  forall B', SunflowerGeometry.encloses B' t -> bounds_grow B B'.
Proof.
  intros Hwf B.
  split; [exact (sunflower_calculateBounds_encloses t Hwf) |].
  intros B' He. unfold B. rewrite sunflower_calculateBounds_fold.
  apply sunflower_bounds_least_from; [exact He |].
  unfold SunflowerGeometry.encloses in He.
  destruct t as [s e w c l d children ents].
  cbn [Sunflower.branches] in He. apply Forall_cons_iff in He.
  destruct He as [((L1 & U1 & L2 & U2) & _) _].
  destruct (nle_not_nan _ _ L1) as [N1 _].
  destruct (nle_not_nan _ _ U1) as [_ N2].
  destruct (nle_not_nan _ _ L2) as [N3 _].
  destruct (nle_not_nan _ _ U2) as [_ N4].
  unfold bounds_grow, initialBounds. cbn [minX maxX minY maxY].
  destruct (minX B'), (maxX B'), (minY B'), (maxY B'); try congruence;
    repeat split.
Qed.

Lemma sunflower_calculateBounds_least_witness :
  SunflowerGeometry.tree_wf SunflowerVideo.sprout /\
  SunflowerGeometry.encloses
    (SunflowerVideo.calculateBounds SunflowerVideo.sprout initialBounds)
    SunflowerVideo.sprout.
Proof.
  assert (W : SunflowerGeometry.tree_wf SunflowerVideo.sprout).
  { repeat constructor; try (eexists; reflexivity).
    exists 7. split; [reflexivity | discriminate]. }
  split; [exact W |].
  apply (sunflower_calculateBounds_least SunflowerVideo.sprout W).
Defined.

(* ================================================================== *)
(** * The frames of a generated sunflower *)

Section SunflowerFinite.
Context `{JSMath}.
Hypothesis Hmath : JSMath_finite.

Lemma finite_nat_num (i : nat) : finite (Sunflower.nat_num i).
Proof. eexists. reflexivity. Qed.

Lemma finite_sqrt_nat (i : nat) : finite (Math_sqrt (Sunflower.nat_num i)).
Proof.
  unfold Sunflower.nat_num. apply Hmath. apply nat_num_nonneg.
Qed.

Lemma generateLeaf_wf (n : nat) (start end_ : Vector2)
    (length currentDist : num) :
  Pine.finite_vec start -> Pine.finite_vec end_ ->
  rspec (Sunflower.generateLeaf n start end_ length currentDist)
        (Forall SunflowerGeometry.entity_wf).
Proof.
  intros [Sx Sy] [Ex Ey]. unfold Sunflower.generateLeaf.
  destruct ((n <? 7)%nat && (1 <? n)%nat)%bool.
  - rdraw rad. apply rspec_ret. constructor; [| constructor].
    split; [split |]; cbn [Sunflower.Entity.center Sunflower.Entity.radius x y].
    + destruct (n mod 2 =? 0)%nat; auto 10 with fin.
    + auto 10 with fin.
    + exists rad. split; [reflexivity | lra].
  - apply rspec_ret. constructor.
Qed.

Lemma generatePetal_wf (end_ : Vector2) (currentDist : num)
    (petalCount : Z) (i : nat) :
  Pine.finite_vec end_ -> (0 < petalCount)%Z ->
  rspec (Sunflower.generatePetal end_ currentDist petalCount i)
        (Forall SunflowerGeometry.entity_wf).
Proof.
  intros [Ex Ey] Hc. unfold Sunflower.generatePetal.
  assert (Fa : finite ((Sunflower.nat_num i / Fin (inject_Z petalCount))
                       * Math_PI * Fin 2)%num).
  { unfold Sunflower.nat_num, Math_PI. rewrite ndiv_Fin.
    - eexists. reflexivity.
    - intro E. unfold Qeq in E. cbn in E. lia. }
  rdraw j. rdraw rad. apply rspec_ret. constructor; [| constructor].
  split; [split |]; cbn [Sunflower.Entity.center Sunflower.Entity.radius x y].
  - auto 10 using finite_cos with fin.
  - auto 10 using finite_sin with fin.
  - exists rad. split; [reflexivity | lra].
Qed.

Lemma generateSeed_wf (end_ : Vector2) (currentDist : num) (i : nat) :
  Pine.finite_vec end_ ->
  rspec (Sunflower.generateSeed end_ currentDist i)
        (Forall SunflowerGeometry.entity_wf).
Proof.
  intros [Ex Ey]. unfold Sunflower.generateSeed.
  assert (Fg : finite (Fin 137.508 * (Math_PI / Fin 180))%num)
    by (eexists; reflexivity).
  pose proof (finite_sqrt_nat i) as Fs. pose proof (finite_nat_num i) as Fi.
  rdraw rad. apply rspec_ret. constructor; [| constructor].
  split; [split |]; cbn [Sunflower.Entity.center Sunflower.Entity.radius x y].
  - auto 10 using finite_cos with fin.
  - auto 10 using finite_sin with fin.
  - exists rad. split; [reflexivity | lra].
Qed.

Lemma generateSunflower_wf (n : nat) :
  forall (start : Vector2) (length angle currentDist : num),
    Pine.finite_vec start -> finite length -> finite angle ->
    rspec (Sunflower.generateSunflower n start length angle currentDist)
          SunflowerGeometry.tree_wf.
Proof.
  induction n as [| n IH];
    intros start length angle currentDist [Sx Sy] Fl Fa;
    cbn [Sunflower.generateSunflower];
    rdraw; rdraw cx; rdraw cy;
    set (radAngle := ((angle + Fin v) * (Math_PI / Fin 180))%num);
    assert (Fr : finite radAngle)
      by (unfold radAngle; auto using finite_PI_180 with fin);
    set (end_ := mkVector2 (x start + length * Math_cos radAngle)%num
                           (y start + length * Math_sin radAngle)%num);
    assert (Fe : Pine.finite_vec end_)
      by (split; cbn [end_ x y]; auto using finite_cos, finite_sin with fin);
    pose proof Fe as [Ex Ey];
    set (control := mkVector2 _ _);
    assert (Fc : Pine.finite_vec control)
      by (split; cbn [control x y];
          (apply finite_add; [apply finite_div | ]; auto with fin)).
  - apply rspec_bind with (1 := @rspec_nextInt 20 30 eq_refl).
    intros petalCount Hcount.
    apply rspec_bind with (P := Forall SunflowerGeometry.entity_wf).
    { apply rspec_for_push. intro i. apply generatePetal_wf; [exact Fe | lia]. }
    intros petals Hp.
    apply rspec_bind with (P := Forall SunflowerGeometry.entity_wf).
    { apply rspec_for_push. intro i. now apply generateSeed_wf. }
    intros seeds Hs. apply rspec_ret.
    constructor; [| constructor].
    split; [split; assumption | split; [exact Fe |]].
    split; [exact Fc | apply Forall_app; split; assumption].
  - apply rspec_bind with (P := Forall SunflowerGeometry.entity_wf).
    { apply generateLeaf_wf; [split; assumption | exact Fe]. }
    intros ents Hents. rdraw da.
    apply rspec_bind with (P := SunflowerGeometry.tree_wf).
    { apply IH; [exact Fe | auto with fin | auto with fin]. }
    intros child Hchild. apply rspec_ret.
    unfold SunflowerGeometry.tree_wf.
    cbn [Sunflower.branches flat_map]. rewrite app_nil_r. constructor.
    + split; [split; assumption | split; [exact Fe |]].
      split; [exact Fc | exact Hents].
    + exact Hchild.
Qed.

End SunflowerFinite.

Section SunflowerCanvas.

Variables (x0 x1 y0 y1 s ox oy : Q).
Hypothesis Hs : 0 < s.
Hypothesis Hx0 : 80 <= x0 * s + ox.
Hypothesis Hx1 : x1 * s + ox <= 1000.
Hypothesis Hy0 : 80 <= y0 * s + oy.
Hypothesis Hy1 : y1 * s + oy <= 1000.

Local Abbreviation B := (mkBounds (Fin x0) (Fin x1) (Fin y0) (Fin y1)).

Lemma sunflower_visible_localT (p : num) (b : Sunflower.Branch.t) :
  SunflowerVideo.visible p b = true ->
  exists q : Q, SunflowerVideo.localT b p = Fin q /\ 0 < q <= 1.
Proof.
  unfold SunflowerVideo.visible, Pine.emits. intro Hv.
  apply andb_true_iff in Hv. destruct Hv as [_ Hv].
  exact (clamp_positive _ Hv).
Qed.

Lemma sunflower_segmentOf_in_canvas (p : num) (b : Sunflower.Branch.t) :
  SunflowerGeometry.branch_wf b -> SunflowerGeometry.branch_in B b ->
  SunflowerVideo.visible p b = true ->
  segment_in_canvas (SunflowerVideo.segmentOf p (Fin s) (Fin ox) (Fin oy) b).
Proof.
  intros (([sx Esx] & [sy Esy]) & ([ex Eex] & [ey Eey])
          & ([cx Ecx] & [cy Ecy]) & _) (Ps & Pe & Pc & _) Hv.
  destruct (sunflower_visible_localT _ _ Hv) as (tau & Et & Ht).
  apply (point_in_Fin x0 x1 y0 y1 _ _ _ Esx Esy) in Ps.
  apply (point_in_Fin x0 x1 y0 y1 _ _ _ Eex Eey) in Pe.
  apply (point_in_Fin x0 x1 y0 y1 _ _ _ Ecx Ecy) in Pc.
  destruct Ps as [Psx Psy], Pe as [Pex Pey], Pc as [Pcx Pcy].
  apply (placed_x x0 x1 s ox Hs Hx0 Hx1) in Psx, Pex, Pcx.
  apply (placed_y y0 y1 s oy Hs Hy0 Hy1) in Psy, Pey, Pcy.
  unfold segment_in_canvas, SunflowerVideo.segmentOf.
  rewrite Et, Esx, Esy, Eex, Eey, Ecx, Ecy.
  cbn [sb_start sb_end sb_control x y nadd nsub nmul].
  assert (T : 0 <= tau <= 1) by lra.
  pose proof (convex_between 80 1000 _ _ tau Psx Pcx T) as Cx.
  pose proof (convex_between 80 1000 _ _ tau Psy Pcy T) as Cy.
  pose proof (convex_between 80 1000 _ _ tau Pcx Pex T) as Qx.
  pose proof (convex_between 80 1000 _ _ tau Pcy Pey T) as Qy.
  split; [| split]; apply in_canvas_Fin; try assumption.
  - exact (convex_between 80 1000 _ _ tau Cx Qx T).
  - exact (convex_between 80 1000 _ _ tau Cy Qy T).
Qed.

Lemma sunflower_entityOf_in_canvas (p : num) (e : Sunflower.Entity.t) :
  SunflowerGeometry.entity_wf e -> SunflowerGeometry.circle_in B e ->
  SunflowerGeometry.entity_in_canvas
    (SunflowerVideo.entityOf p (Fin s) (Fin ox) (Fin oy) e).
Proof.
  intros (([cx Ecx] & [cy Ecy]) & r & Er & Hr) [Lo Hi].
  cbv zeta in Lo, Hi. rewrite Ecx, Ecy, Er in Lo, Hi.
  cbn [nadd nsub] in Lo, Hi.
  apply (point_in_Fin x0 x1 y0 y1
           (mkVector2 (Fin (cx - r)) (Fin (cy - r))) _ _ eq_refl eq_refl)
    in Lo.
  apply (point_in_Fin x0 x1 y0 y1
           (mkVector2 (Fin (cx + r)) (Fin (cy + r))) _ _ eq_refl eq_refl)
    in Hi.
  destruct Lo as [Lx Ly], Hi as [Ux Uy].
  apply (placed_x x0 x1 s ox Hs Hx0 Hx1) in Lx, Ux.
  apply (placed_y y0 y1 s oy Hs Hy0 Hy1) in Ly, Uy.
  unfold SunflowerGeometry.entity_in_canvas, SunflowerVideo.entityOf.
  cbn [Sunflower.Entity.center Sunflower.Entity.radius x y].
  rewrite Ecx, Ecy, Er. cbn [nadd nsub nmul].
  split; apply in_canvas_Fin; lra.
Qed.

End SunflowerCanvas.

Lemma stalk_has_entity (n : nat) :
  forall l d t, SunflowerTree.stalk n l d t ->
    exists b e rad,
      In b (Sunflower.branches t) /\ In e (Sunflower.Branch.entities b) /\
      Sunflower.Entity.radius e = Fin rad /\ 6 <= rad.
Proof.
  induction n as [| n IH]; intros l d t G.
  - destruct G as (_ & _ & _ & _ & Hn & He).
    destruct (Sunflower.Branch.entities t) as [| e ents] eqn:E;
      [cbn in Hn; lia |].
    apply Forall_cons_iff in He.
    destruct He as [(_ & _ & rad & Er & Hr) _].
    exists t, e, rad. split; [apply sbranches_root |].
    split; [rewrite E; now left |]. split; [exact Er | lra].
  - destruct G as (_ & _ & _ & (child & Ec & Gc) & _).
    destruct (IH _ _ _ Gc) as (b & e & rad & Hb & He & Er & Hr).
    exists b, e, rad. split; [| repeat split; assumption].
    rewrite sbranches_unfold, Ec. cbn [flat_map]. right.
    apply in_or_app. now left.
Qed.

Section SunflowerGenerated.
Context `{JSMath}.
Hypothesis Hmath : JSMath_finite.
Variables (n : nat) (start : Vector2) (l : Q) (angle : num) (d : Q)
          (rand : SeededRandom.t).
Hypothesis Hstart : Pine.finite_vec start.
Hypothesis Hangle : finite angle.
Hypothesis Hrand : RandOK rand.

Local Abbreviation plant :=
  (fst (Sunflower.generateSunflower n start (Fin l) angle (Fin d) rand)).

Lemma sunflower_generated_wf : SunflowerGeometry.tree_wf plant.
Proof.
  exact (proj1 (generateSunflower_wf Hmath n start (Fin l) angle (Fin d)
                  Hstart (finite_Fin l) Hangle rand Hrand)).
Qed.

Lemma sunflower_generated_stalk : SunflowerTree.stalk n l d plant.
Proof. exact (proj1 (generateSunflower_stalk n start l angle d rand Hrand)). Qed.

(** The bounds of a generated sunflower are at least 12 wide and high (the
    head carries entities of radius 6 or more), so that the fit is never
    degenerate. *)
Lemma sunflower_generated_fit :
  exists x0 x1 y0 y1 s ox oy : Q,
    SunflowerVideo.calculateBounds plant initialBounds
    = mkBounds (Fin x0) (Fin x1) (Fin y0) (Fin y1) /\
    12 <= x1 - x0 /\ 12 <= y1 - y0 /\
    autoFit (SunflowerVideo.calculateBounds plant initialBounds)
    = mkFit (Fin s) (Fin ox) (Fin oy) /\
    0 < s /\
    80 <= x0 * s + ox /\ x1 * s + ox <= 1000 /\
    80 <= y0 * s + oy /\ y1 * s + oy <= 1000.
Proof.
  pose proof sunflower_generated_wf as Hwf.
  pose proof sunflower_generated_stalk as G.
  pose proof (sunflower_calculateBounds_fin plant Hwf) as Bf.
  pose proof (sunflower_calculateBounds_encloses plant Hwf) as Be.
  destruct (SunflowerVideo.calculateBounds plant initialBounds)
    as [a0 a1 b0 b1] eqn:EB.
  destruct Bf as ([x0 E0] & [x1 E1] & [y0 E2] & [y1 E3]).
  cbn [minX maxX minY maxY] in *. subst a0 a1 b0 b1.
  unfold SunflowerGeometry.tree_wf in Hwf.
  unfold SunflowerGeometry.encloses in Be.
  rewrite Forall_forall in Hwf, Be.
  assert (W : 12 <= x1 - x0 /\ 12 <= y1 - y0).
  { destruct (stalk_has_entity _ _ _ _ G) as (b & e & rad & Hb & He & Er & Hr).
    destruct (Hwf b Hb) as (_ & _ & _ & Hents).
    rewrite Forall_forall in Hents.
    destruct (Hents e He) as (([cx Ecx] & [cy Ecy]) & _).
    destruct (Be b Hb) as (_ & _ & _ & Hc). rewrite Forall_forall in Hc.
    destruct (Hc e He) as [(L1 & _ & L2 & _) (_ & U1 & _ & U2)].
    cbn [x y minX maxX minY maxY] in L1, L2, U1, U2.
    rewrite Ecx, Er in L1, U1. rewrite Ecy, Er in L2, U2.
    cbn [nadd nsub] in L1, L2, U1, U2.
    apply nle_Fin in L1, L2, U1, U2. lra. }
  destruct W as [Wx Wy].
  destruct (autoFit_scale_offsets x0 x1 y0 y1 ltac:(lra) ltac:(lra))
    as (s & ox & oy & Efit & Hs & _ & Hx0 & Hx1 & _ & Hy0 & Hy1).
  exists x0, x1, y0, y1, s, ox, oy.
  repeat split; try assumption; lra.
Qed.

End SunflowerGenerated.

(** X22.  The last frame of a sunflower generated from arguments of
    moderate size (frame 899, progress [maxDistance + 300]) shows all of
    it: since the budget counts the entities too, every branch is pushed
    with [localT] = 1 and every entity, in order, with its own type and
    distance at opacity 1. *)
Theorem sunflower_last_frame_complete `{JSMath} (n : nat) (start : Vector2)
    (length angle currentDist : num) (rand : SeededRandom.t) :
  moderate n start length angle currentDist -> RandOK rand ->
  let t :=
    fst (Sunflower.generateSunflower n start length angle currentDist rand) in
  let p := SunflowerVideo.currentGrowthDist SunflowerVideo.lastFrame
             (Sunflower.getMaxDist t) in
  let out := SunflowerVideo.flattened t SunflowerVideo.lastFrame in
  (p == Sunflower.getMaxDist t + Fin 300)%num /\
  Forall (fun b => (SunflowerVideo.localT b p == Fin 1)%num)
         (Sunflower.branches t) /\
  List.length (fst out) = List.length (Sunflower.branches t) /\
  Forall2 (fun e e' =>
             Sunflower.Entity.type e' = Sunflower.Entity.type e /\
             Sunflower.Entity.distFromRoot e'
             = Sunflower.Entity.distFromRoot e /\
             exists o, Sunflower.Entity.opacity e' = Some o /\
                       (o == Fin 1)%num)
          (SunflowerVideo.entities t) (snd out).
Proof.
  intros Hmod Hrand t.
  destruct (moderate_inv _ _ _ _ _ Hmod) as (l & d & El & Ed & Hl1 & _).
  assert (Hl : 0 < l) by lra.
  apply sunflower_last_frame_all.
  unfold t. rewrite El, Ed.
  pose proof (stalk_branches n l d _ Hl
                (proj1 (generateSunflower_stalk n start l angle d rand
                          Hrand))) as (_ & Hall & _).
  eapply Forall_impl; [| exact Hall]. intros b Hb. exact (proj1 Hb).
Qed.

Lemma sunflower_last_frame_complete_witness :
  let t :=
    fst (@Sunflower.generateSunflower Sample.math 8%nat
           (mkVector2 (Fin 0) (Fin 0)) (Fin 120) (Fin (-90)) (Fin 0)
           Sample.rand) in
  let p := SunflowerVideo.currentGrowthDist SunflowerVideo.lastFrame
             (Sunflower.getMaxDist t) in
  RandOK Sample.rand /\
  (p == Sunflower.getMaxDist t + Fin 300)%num.
Proof.
  exact (conj (new_RandOK _)
           (proj1 (@sunflower_last_frame_complete Sample.math 8%nat
                     (mkVector2 (Fin 0) (Fin 0)) (Fin 120) (Fin (-90))
                     (Fin 0) Sample.rand sunflower_program_moderate
                     (new_RandOK _)))).
Defined.

(** X30.  Every frame of a sunflower generated from arguments of moderate
    size lies inside the padded canvas: the fit is a finite positive
    scale, and at each of the 900 frames the three control points of every
    stalk segment and the circle of every leaf, petal and seed handed to
    the drawing passes have coordinates between 80 and 1000, up to a
    thousandth of a pixel. *)
Theorem sunflower_frames_inside_canvas `{JSMath} (n : nat) (start : Vector2)
    (length angle currentDist : num) (rand : SeededRandom.t) (frame : nat) :
  JSMath_finite ->
  moderate n start length angle currentDist -> RandOK rand ->
  (frame <= SunflowerVideo.lastFrame)%nat ->
  let tree :=
    fst (Sunflower.generateSunflower n start length angle currentDist rand) in
  let fit := autoFit (SunflowerVideo.calculateBounds tree initialBounds) in
  let L := SunflowerVideo.frame tree frame in
  finite (finalScale fit) /\ (Fin 0 < finalScale fit)%num /\
  Forall segment_in_canvas (SunflowerVideo.branches L) /\
  Forall SunflowerGeometry.entity_in_canvas (SunflowerVideo.leaves L) /\
  Forall SunflowerGeometry.entity_in_canvas (SunflowerVideo.petals L) /\
  Forall SunflowerGeometry.entity_in_canvas (SunflowerVideo.seeds L).
Proof.
  intros Hmath Hmod Hrand _ tree fit L.
  destruct (moderate_inv _ _ _ _ _ Hmod)
    as (l & d & El & Ed & _ & _ & Hstart & Hangle & _).
  subst length currentDist.
  pose proof (sunflower_generated_wf Hmath n start l angle d rand Hstart
                Hangle Hrand) as Hwf.
  fold tree in Hwf.
  pose proof (sunflower_calculateBounds_encloses tree Hwf) as Be.
  destruct (sunflower_generated_fit Hmath n start l angle d rand Hstart
              Hangle Hrand)
    as (x0 & x1 & y0 & y1 & s & ox & oy & EB & _ & _ & Efit & Hs
        & Hx0 & Hx1 & Hy0 & Hy1').
  fold tree in EB, Efit. rewrite EB in Be.
  unfold SunflowerGeometry.tree_wf in Hwf.
  unfold SunflowerGeometry.encloses in Be.
  rewrite Forall_forall in Hwf, Be.
  assert (EL : L = SunflowerVideo.layers
                     (snd (SunflowerVideo.flattenTreeOrganic tree ([], [])
                             (SunflowerVideo.currentGrowthDist frame
                                (Sunflower.getMaxDist tree))
                             (Fin s) (Fin ox) (Fin oy)))
                     (fst (SunflowerVideo.flattenTreeOrganic tree ([], [])
                             (SunflowerVideo.currentGrowthDist frame
                                (Sunflower.getMaxDist tree))
                             (Fin s) (Fin ox) (Fin oy)))).
  { unfold L, SunflowerVideo.frame, SunflowerVideo.flattened.
    rewrite Efit. cbn [finalScale offsetX offsetY].
    destruct (SunflowerVideo.flattenTreeOrganic tree _ _ _ _ _).
    reflexivity. }
  assert (Ents : Forall SunflowerGeometry.entity_in_canvas
                   (snd (SunflowerVideo.flattenTreeOrganic tree ([], [])
                           (SunflowerVideo.currentGrowthDist frame
                              (Sunflower.getMaxDist tree))
                           (Fin s) (Fin ox) (Fin oy)))).
  { rewrite sunflower_flatten_closed_form. cbn [snd app].
    apply Forall_forall. intros e' He'.
    apply in_flat_map in He'. destruct He' as (b & Hb & He').
    apply filter_In in Hb. destruct Hb as [Hb _].
    apply in_map_iff in He'. destruct He' as (e & <- & He).
    apply filter_In in He. destruct He as [He _].
    destruct (Hwf b Hb) as (_ & _ & _ & Wents).
    destruct (Be b Hb) as (_ & _ & _ & Cents).
    rewrite Forall_forall in Wents, Cents.
    exact (sunflower_entityOf_in_canvas x0 x1 y0 y1 s ox oy Hs Hx0 Hx1 Hy0
             Hy1' _ e (Wents e He) (Cents e He)). }
  unfold fit. rewrite Efit. cbn [finalScale].
  split; [eexists; reflexivity |]. split; [now apply nlt_Fin |].
  rewrite EL. unfold SunflowerVideo.layers.
  cbn [SunflowerVideo.leaves SunflowerVideo.petals SunflowerVideo.seeds
       SunflowerVideo.branches].
  rewrite Forall_forall in Ents.
  split; [| split; [| split]].
  - rewrite sunflower_flatten_closed_form. cbn [fst app].
    apply Forall_map. apply Forall_forall. intros b Hb.
    apply filter_In in Hb. destruct Hb as [Hb Hv].
    exact (sunflower_segmentOf_in_canvas x0 x1 y0 y1 s ox oy Hs Hx0 Hx1 Hy0
             Hy1' _ b (Hwf b Hb) (Be b Hb) Hv).
  - apply Forall_forall. intros e He. apply filter_In in He.
    apply Ents, He.
  - apply Forall_forall. intros e He. apply filter_In in He.
    apply Ents, He.
  - apply Forall_forall. intros e He. apply sort_In in He.
    apply filter_In in He. apply Ents, He.
Qed.

Lemma sunflower_frames_inside_canvas_witness :
  let tree :=
    fst (@Sunflower.generateSunflower Sample.math 8%nat
           (mkVector2 (Fin 0) (Fin 0)) (Fin 120) (Fin (-90)) (Fin 0)
           Sample.rand) in
  RandOK Sample.rand /\
  finite (finalScale
            (autoFit (SunflowerVideo.calculateBounds tree initialBounds))).
Proof.
  exact (conj (new_RandOK _)
           (proj1 (@sunflower_frames_inside_canvas Sample.math 8%nat
                     (mkVector2 (Fin 0) (Fin 0)) (Fin 120) (Fin (-90))
                     (Fin 0) Sample.rand 450%nat sample_math_finite
                     sunflower_program_moderate (new_RandOK _)
                     (proj1 (Nat.leb_le 450 899) eq_refl)))).
Defined.

(* ================================================================== *)
(** * The generators on a source held in a store *)

Section RandObject.

Lemma update_same (rand : RandStore.loc) (h : RandStore.store) :
  forall obj, nth_error h rand = Some obj -> RandStore.update rand obj h = h.
Proof.
  revert rand. induction h as [| o h IH]; intros [| rand] obj E;
    cbn in *; try discriminate.
  - now injection E as ->.
  - now rewrite (IH rand obj E).
Qed.

Lemma nth_error_update (rand : RandStore.loc) (h : RandStore.store) :
  forall obj new,
    nth_error h rand = Some obj ->
    nth_error (RandStore.update rand new h) rand = Some new.
Proof.
  revert rand. induction h as [| o h IH]; intros [| rand] obj new E;
    cbn in *; try discriminate.
  - reflexivity.
  - exact (IH rand obj new E).
Qed.

Lemma update_twice (rand : RandStore.loc) (h : RandStore.store) :
  forall first second,
    RandStore.update rand second (RandStore.update rand first h)
    = RandStore.update rand second h.
Proof.
  revert rand. induction h as [| o h IH]; intros [| rand] first second;
    cbn; try reflexivity.
  now rewrite IH.
Qed.

Lemma update_fresh (h : RandStore.store) (obj new : SeededRandom.t) :
  RandStore.update (List.length h) new (h ++ [obj]) = h ++ [new].
Proof. induction h as [| o h IH]; cbn; [reflexivity | now rewrite IH]. Qed.

Lemma keeps_fresh (h : RandStore.store) (obj : SeededRandom.t) :
  RandStore.keeps h (h ++ [obj]).
Proof.
  unfold RandStore.keeps. rewrite firstn_app, Nat.sub_diag, firstn_all.
  cbn. apply app_nil_r.
Qed.

Lemma simulates_ret {A : Type} (rand : RandStore.loc) (a : A) :
  RandStore.simulates rand (ret a) (RandStore.ret a).
Proof.
  intros h obj E. unfold RandStore.ret, ret. cbn [fst snd].
  now rewrite (update_same rand h obj E).
Qed.

Lemma simulates_bind {A B : Type} (rand : RandStore.loc)
    (m : Rand A) (hm : RandStore.Run A)
    (k : A -> Rand B) (hk : A -> RandStore.Run B) :
  RandStore.simulates rand m hm ->
  (forall a, RandStore.simulates rand (k a) (hk a)) ->
  RandStore.simulates rand (bind m k) (RandStore.bind hm hk).
Proof.
  intros Hm Hk h obj E. unfold RandStore.bind, bind.
  rewrite (Hm h obj E). destruct (m obj) as [a obj1]. cbn [fst snd].
  rewrite (Hk a _ obj1 (nth_error_update rand h obj obj1 E)).
  now rewrite update_twice.
Qed.

Lemma simulates_next (rand : RandStore.loc) :
  RandStore.simulates rand next (RandStore.next rand).
Proof.
  intros h obj E. unfold RandStore.next. rewrite E.
  destruct (next obj) as [u obj']. reflexivity.
Qed.

Lemma simulates_nextFloat (rand : RandStore.loc) (min max : Q) :
  RandStore.simulates rand (nextFloat min max)
    (RandStore.nextFloat rand min max).
Proof.
  apply simulates_bind; [apply simulates_next |].
  intro u. apply simulates_ret.
Qed.

Lemma simulates_nextInt (rand : RandStore.loc) (min max : Q) :
  RandStore.simulates rand (nextInt min max)
    (RandStore.nextInt rand min max).
Proof.
  apply simulates_bind; [apply simulates_nextFloat |].
  intro v. apply simulates_ret.
Qed.

Lemma simulates_for_push {A : Type} (rand : RandStore.loc)
    (body : nat -> Rand (list A)) (hbody : nat -> RandStore.Run (list A)) :
  (forall i, RandStore.simulates rand (body i) (hbody i)) ->
  forall n from,
    RandStore.simulates rand (for_push body from n)
      (RandStore.for_push hbody from n).
Proof.
  intros Hbody n. induction n as [| n IH]; intro from; cbn [for_push
    RandStore.for_push].
  - apply simulates_ret.
  - apply simulates_bind; [apply Hbody |]. intro pushed.
    apply simulates_bind; [apply IH |]. intro rest. apply simulates_ret.
Qed.

End RandObject.

(** One step of a simulation proof, read off the head of the state-passing
    computation: a value, a draw, a sequence, a loop or a test. *)
Ltac simulate :=
  cbv beta zeta;
  lazymatch goal with
  | |- RandStore.simulates _ (ret _) _ => apply simulates_ret
  | |- RandStore.simulates _ (nextFloat _ _) _ => apply simulates_nextFloat
  | |- RandStore.simulates _ (nextInt _ _) _ => apply simulates_nextInt
  | |- RandStore.simulates _ (bind _ _) _ =>
      apply simulates_bind; [| intro]
  | |- RandStore.simulates _ (for_push _ _ _) _ =>
      apply simulates_for_push; intro
  | |- RandStore.simulates _ (if ?c then _ else _) _ => destruct c
  end.

Section RandObjectGenerators.
Context `{JSMath}.

Lemma simulates_generateEntity (rand : RandStore.loc) (depth : nat)
    (start end_ : Vector2) (length currentDist : num) :
  RandStore.simulates rand
    (Pine.generateEntity depth start end_ length currentDist)
    (RandStore.generateEntity rand depth start end_ length currentDist).
Proof.
  unfold Pine.generateEntity, RandStore.generateEntity. repeat simulate.
Qed.

Lemma simulates_generateFullTree (rand : RandStore.loc) (depth : nat) :
  forall start length angle currentDist,
    RandStore.simulates rand
      (Pine.generateFullTree depth start length angle currentDist)
      (RandStore.generateFullTree rand depth start length angle currentDist).
Proof.
  induction depth as [| depth IH]; intros start length angle currentDist.
  - cbn [Pine.generateFullTree RandStore.generateFullTree].
    repeat first [apply simulates_generateEntity | simulate].
  - cbn [Pine.generateFullTree RandStore.generateFullTree].
    repeat first [apply IH | apply simulates_generateEntity | simulate].
Qed.

Lemma simulates_generatePetal (rand : RandStore.loc) (end_ : Vector2)
    (currentDist : num) (petalCount : Z) (i : nat) :
  RandStore.simulates rand
    (Sunflower.generatePetal end_ currentDist petalCount i)
    (RandStore.generatePetal rand end_ currentDist petalCount i).
Proof.
  unfold Sunflower.generatePetal, RandStore.generatePetal. repeat simulate.
Qed.

Lemma simulates_generateSeed (rand : RandStore.loc) (end_ : Vector2)
    (currentDist : num) (i : nat) :
  RandStore.simulates rand (Sunflower.generateSeed end_ currentDist i)
    (RandStore.generateSeed rand end_ currentDist i).
Proof.
  unfold Sunflower.generateSeed, RandStore.generateSeed. repeat simulate.
Qed.

Lemma simulates_generateLeaf (rand : RandStore.loc) (segmentsLeft : nat)
    (start end_ : Vector2) (length currentDist : num) :
  RandStore.simulates rand
    (Sunflower.generateLeaf segmentsLeft start end_ length currentDist)
    (RandStore.generateLeaf rand segmentsLeft start end_ length currentDist).
Proof.
  unfold Sunflower.generateLeaf, RandStore.generateLeaf. repeat simulate.
Qed.

Lemma simulates_generateSunflower (rand : RandStore.loc)
    (segmentsLeft : nat) :
  forall start length angle currentDist,
    RandStore.simulates rand
      (Sunflower.generateSunflower segmentsLeft start length angle
         currentDist)
      (RandStore.generateSunflower rand segmentsLeft start length angle
         currentDist).
Proof.
  induction segmentsLeft as [| n IH];
    intros start length angle currentDist;
    cbn [Sunflower.generateSunflower RandStore.generateSunflower];
    repeat first [ apply IH | apply simulates_generateLeaf
                 | apply simulates_generatePetal
                 | apply simulates_generateSeed | simulate ].
Qed.

End RandObjectGenerators.

Section Reproducible.
Context `{JSMath} `{NodeCrypto}.

Lemma nth_error_fresh_source (h : RandStore.store) (obj : SeededRandom.t) :
  nth_error (h ++ [obj]) (List.length h) = Some obj.
Proof.
  rewrite nth_error_app2 by lia. now rewrite Nat.sub_diag.
Qed.

(** A run of the pine in a store [h]: the tree of the state-passing
    generator on the source of the seed, and one more object in the
    store. *)
Lemma pine_run (S : string) (n : nat) (start : Vector2)
    (length angle currentDist : num) (h : RandStore.store) :
  let run := Pine.generateFullTree n start length angle currentDist
               (SeededRandom.new S) in
  RandStore.pine S n start length angle currentDist h
  = Some (fst run, h ++ [snd run]).
Proof.
  cbv zeta. unfold RandStore.pine, RandStore.bind, RandStore.new.
  rewrite (simulates_generateFullTree (List.length h) n start length angle
             currentDist _ _ (nth_error_fresh_source h _)).
  now rewrite update_fresh.
Qed.

Lemma sunflower_run (S : string) (n : nat) (start : Vector2)
    (length angle currentDist : num) (h : RandStore.store) :
  let run := Sunflower.generateSunflower n start length angle currentDist
               (SeededRandom.new S) in
  RandStore.sunflower S n start length angle currentDist h
  = Some (fst run, h ++ [snd run]).
Proof.
  cbv zeta. unfold RandStore.sunflower, RandStore.bind, RandStore.new.
  rewrite (simulates_generateSunflower (List.length h) n start length angle
             currentDist _ _ (nth_error_fresh_source h _)).
  now rewrite update_fresh.
Qed.

End Reproducible.

(** C1.  Building the source from a seed string [S] and running a
    generator gives the same structure at every run.  With the sources
    held as objects in a store, [new SeededRandom(S)] followed by
    [generateFullTree] (or [generateSunflower]) on the new object returns
    a tree [t] from a store [h] in any state; run again in the store the
    first run left, and run in any other store [h'], it returns the same
    [t] (hence the same start, end, control, stroke width, length and
    distance of every branch, and the same centre, radius, colours, kind
    and distance of every entity); [t] is the tree of the state-passing
    generator on the source of [S]; and no run changes a source that was
    in the store before. *)
Theorem generation_deterministic `{JSMath} `{NodeCrypto} (S : string)
    (n : nat) (start : Vector2) (length angle currentDist : num)
    (h h' : RandStore.store) :
  (exists t h1 h2 h3,
      RandStore.pine S n start length angle currentDist h = Some (t, h1) /\
      RandStore.pine S n start length angle currentDist h1 = Some (t, h2) /\
      RandStore.pine S n start length angle currentDist h' = Some (t, h3) /\
      t = fst (Pine.generateFullTree n start length angle currentDist
                 (SeededRandom.new S)) /\
      RandStore.keeps h h1 /\ RandStore.keeps h1 h2 /\
      RandStore.keeps h' h3) /\
  (exists t h1 h2 h3,
      RandStore.sunflower S n start length angle currentDist h
      = Some (t, h1) /\
      RandStore.sunflower S n start length angle currentDist h1
      = Some (t, h2) /\
      RandStore.sunflower S n start length angle currentDist h'
      = Some (t, h3) /\
      t = fst (Sunflower.generateSunflower n start length angle currentDist
                 (SeededRandom.new S)) /\
      RandStore.keeps h h1 /\ RandStore.keeps h1 h2 /\
      RandStore.keeps h' h3).
Proof.
  split.
  - eexists _, _, _, _.
    split; [apply pine_run |]. split; [apply pine_run |].
    split; [apply pine_run |]. split; [reflexivity |].
    split; [| split]; apply keeps_fresh.
  - eexists _, _, _, _.
    split; [apply sunflower_run |]. split; [apply sunflower_run |].
    split; [apply sunflower_run |]. split; [reflexivity |].
    split; [| split]; apply keeps_fresh.
Qed.

(** Two calls on one and the same source object give two different trees:
    the second call starts from the state the first call left in the
    object. *)
Example reused_source_gives_another_tree :
  match @RandStore.pineTwice Sample.math Sample.crypto "test-seed-1" 0
          (mkVector2 (Fin 0) (Fin 0)) (Fin 180) (Fin (-90)) (Fin 0) [] with
  | Some ((first, second), _) =>
      Pine.Branch.end_ first <> Pine.Branch.end_ second
  | None => False
  end.
Proof. vm_compute. discriminate. Qed.

(* ================================================================== *)
(** * The generated plants, on the inputs of the programs *)

(** C10.  In a tree the pine generator builds from arguments of moderate
    size (at most 8 levels, a segment length from 1 to 1000, a cumulative
    distance from 0 to 100; the program passes 8, 180 and 0) and a source
    whose state is a non-negative integer (so that every draw of [next()]
    lies in [0, 1)), every entity of every branch begins to appear strictly
    after its branch starts to grow and strictly before the branch has
    finished: [branch.distFromRoot < entity.distFromRoot <
    branch.distFromRoot + branch.length]. *)
Theorem pine_entity_within_branch `{JSMath} (depth : nat) (start : Vector2)
    (length angle currentDist : num) (rand : SeededRandom.t) :
  moderate depth start length angle currentDist ->
  RandOK rand ->
  forall b e,
    In b (Pine.branches
            (fst (Pine.generateFullTree depth start length angle currentDist
                    rand))) ->
    In e (Pine.Branch.entities b) ->
    Pine.entity_within b e.
Proof.
  intros Hmod Hrand b e Hb He.
  destruct (moderate_inv _ _ _ _ _ Hmod) as (l & d & -> & -> & Hl1 & _).
  assert (Hl : 0 < l) by lra.
  destruct (@generateFullTree_ok _ depth start l angle d Hl rand Hrand)
    as [(_ & _ & Hall) _].
  rewrite Forall_forall in Hall.
  destruct (Hall b Hb) as (lb & db & Elb & Edb & Hlb & Hents).
  rewrite Forall_forall in Hents.
  destruct (Hents e He) as (de & Ede & Hlo & Hhi).
  unfold Pine.entity_within. rewrite Elb, Edb, Ede. simpl nadd.
  split; apply nlt_Fin; assumption.
Qed.

Lemma pine_entity_within_branch_witness :
  let tree :=
    fst (@Pine.generateFullTree Sample.math 8%nat (mkVector2 (Fin 0) (Fin 0))
           (Fin 180) (Fin (-90)) (Fin 0) Sample.rand) in
  RandOK Sample.rand /\
  forall b e, In b (Pine.branches tree) -> In e (Pine.Branch.entities b) ->
              Pine.entity_within b e.
Proof.
  exact (conj (new_RandOK _)
           (@pine_entity_within_branch Sample.math 8%nat
              (mkVector2 (Fin 0) (Fin 0)) (Fin 180) (Fin (-90)) (Fin 0)
              Sample.rand pine_program_moderate (new_RandOK _))).
Defined.

(** C8.  Called with [segmentsLeft = 0], the sunflower generator returns a
    branch without children whose entities are [petalCount] petals, where
    [petalCount] is the draw of [nextInt(20, 30)] (made after the three
    draws of the stem segment), followed by exactly 150 seeds; the seed of
    spiral index [i] has [distFromRoot = currentDist + i * 0.5], and these
    distances increase strictly with the index (so they are pairwise
    distinct).  (The cumulative distance is a number of at most 10^9 in
    absolute value, the program's is below 1000: a step of 0.5 is far
    above the spacing of the doubles there.) *)
Theorem sunflower_head `{JSMath} (start : Vector2)
    (length angle currentDist : num) (rand : SeededRandom.t) :
  between (- span) span currentDist ->
  RandOK rand ->
  let b := fst (Sunflower.generateSunflower 0 start length angle currentDist
                  rand) in
  let r1 := snd (nextFloat (-5) 5 rand) in
  let r2 := snd (nextFloat (-10) 10 r1) in
  let r3 := snd (nextFloat (-10) 10 r2) in
  let petalCount := fst (nextInt 20 30 r3) in
  Sunflower.Branch.children b = [] /\
  (20 <= petalCount < 30)%Z /\
  exists petals seeds,
    Sunflower.Branch.entities b = petals ++ seeds /\
    List.length petals = Z.to_nat petalCount /\
    Forall (fun e => Sunflower.Entity.type e = Sunflower.petal) petals /\
    List.length seeds = 150%nat /\
    Forall (fun e => Sunflower.Entity.type e = Sunflower.seed) seeds /\
    (forall i dflt, (i < 150)%nat ->
       Sunflower.Entity.distFromRoot (nth i seeds dflt)
       = (currentDist + Sunflower.nat_num i * Fin 0.5)%num) /\
    (forall i j dflt, (i < j < 150)%nat ->
       (Sunflower.Entity.distFromRoot (nth i seeds dflt)
        < Sunflower.Entity.distFromRoot (nth j seeds dflt))%num).
Proof.
  intros (c & -> & _) Hrand b r1 r2 r3 petalCount.
  assert (Hr3 : RandOK r3).
  { subst r3 r2 r1.
    repeat match goal with
           | |- RandOK (snd (nextFloat ?lo ?hi ?r)) =>
               apply (@rspec_nextFloat lo hi eq_refl r)
           end. exact Hrand. }
  assert (Eb : b = fst (
     (petals <- for_push (Sunflower.generatePetal
                  (Sunflower.Branch.end_ b) (Fin c) petalCount)
                  0 (Z.to_nat petalCount) ;;
      seeds <- for_push (Sunflower.generateSeed
                  (Sunflower.Branch.end_ b) (Fin c)) 0 150 ;;
      ret (Sunflower.Branch.mk (Sunflower.Branch.start b)
             (Sunflower.Branch.end_ b) (Sunflower.Branch.strokeWidth b)
             (Sunflower.Branch.control b) (Sunflower.Branch.length b)
             (Fin c) [] (petals ++ seeds)))
     (snd (nextInt 20 30 r3)))).
  { subst b petalCount r3 r2 r1.
    cbn [Sunflower.generateSunflower]. rewrite !bind_run. reflexivity. }
  rewrite !bind_run in Eb. cbn [ret fst] in Eb.
  set (petals := fst (for_push _ 0 (Z.to_nat petalCount) _)) in Eb.
  set (seeds := fst (for_push _ 0 150 _)) in Eb.
  destruct (for_push_singletons _
              (fun (_ : nat) e =>
                 Sunflower.Entity.type e = Sunflower.petal /\
                 Sunflower.Entity.distFromRoot e = Fin c)
              (generatePetal_run (Sunflower.Branch.end_ b) (Fin c) petalCount)
              (Z.to_nat petalCount) 0%nat (snd (nextInt 20 30 r3)))
    as [Lp Np].
  destruct (for_push_singletons _
              (fun i e =>
                 Sunflower.Entity.type e = Sunflower.seed /\
                 Sunflower.Entity.distFromRoot e
                 = (Fin c + Sunflower.nat_num i * Fin 0.5)%num)
              (generateSeed_run (Sunflower.Branch.end_ b) (Fin c))
              150%nat 0%nat
              (snd (for_push (Sunflower.generatePetal
                  (Sunflower.Branch.end_ b) (Fin c) petalCount)
                  0 (Z.to_nat petalCount) (snd (nextInt 20 30 r3)))))
    as [Ls Ns].
  fold petals in Lp, Np. fold seeds in Ls, Ns.
  split; [now rewrite Eb |].
  split; [apply (@rspec_nextInt 20 30 eq_refl r3 Hr3) |].
  exists petals, seeds.
  split; [now rewrite Eb |].
  split; [exact Lp |].
  split.
  { apply Forall_forall. intros e He.
    destruct (In_nth _ _ e He) as (k & Hk & <-). apply (Np k e). lia. }
  split; [exact Ls |].
  split.
  { apply Forall_forall. intros e He.
    destruct (In_nth _ _ e He) as (k & Hk & <-). apply (Ns k e). lia. }
  split.
  - intros i dflt Hi. apply (Ns i dflt Hi).
  - intros i j dflt [Hij Hj].
    assert (Hi : (i < 150)%nat) by lia.
    destruct (Ns i dflt Hi) as [_ ->]. destruct (Ns j dflt Hj) as [_ ->].
    simpl Nat.add. now apply seed_delay_increasing.
Qed.

Lemma sunflower_head_witness :
  let rand := Sample.rand in
  let b := fst (@Sunflower.generateSunflower Sample.math 0%nat
                  (mkVector2 (Fin 0) (Fin (-800))) (Fin 80) (Fin (-90))
                  (Fin 800) rand) in
  Sunflower.Branch.children b = [] /\
  exists petals seeds,
    Sunflower.Branch.entities b = petals ++ seeds /\
    List.length seeds = 150%nat /\
    (forall i j dflt, (i < j < 150)%nat ->
       (Sunflower.Entity.distFromRoot (nth i seeds dflt)
        < Sunflower.Entity.distFromRoot (nth j seeds dflt))%num).
Proof.
  destruct (@sunflower_head Sample.math (mkVector2 (Fin 0) (Fin (-800)))
              (Fin 80) (Fin (-90)) (Fin 800) Sample.rand
              (between_Fin (- span) span 800
                 (conj (Qle_bool_imp_le (- span) 800 eq_refl)
                       (Qle_bool_imp_le 800 span eq_refl)))
              (new_RandOK _))
    as (Hc & _ & petals & seeds & He & _ & _ & Hn & _ & _ & Hinc).
  split; [exact Hc |]. exists petals, seeds.
  split; [exact He |]. split; [exact Hn | exact Hinc].
Defined.

(** C7.  For every structure the pine generator builds from arguments of
    moderate size (with an engine whose functions are finite on finite
    numbers), the rectangle [calculateBounds] returns contains the start,
    end and control point of every branch and, for every entity, the
    extreme points [center - radius] and [center + radius] of its circle on
    both axes. *)
Theorem calculateBounds_contains_structure `{JSMath} (depth : nat)
    (start : Vector2) (length angle currentDist : num)
    (rand : SeededRandom.t) :
  JSMath_finite ->
  moderate depth start length angle currentDist ->
  RandOK rand ->
  let tree :=
    fst (Pine.generateFullTree depth start length angle currentDist rand) in
  Pine.encloses (Pine.calculateBounds tree initialBounds) tree.
Proof.
  intros Hmath Hmod Hrand tree.
  destruct (moderate_inv _ _ _ _ _ Hmod)
    as (l & d & El & Ed & _ & _ & Fs & Fa & _).
  apply calculateBounds_encloses; [| exact initialBounds_nn].
  refine (proj1 (generateFullTree_wf Hmath depth start length angle
                   currentDist Fs _ Fa rand Hrand)).
  rewrite El. apply finite_Fin.
Qed.

Lemma calculateBounds_contains_structure_witness :
  let tree :=
    fst (@Pine.generateFullTree Sample.math 8%nat (mkVector2 (Fin 0) (Fin 0))
           (Fin 180) (Fin (-90)) (Fin 0) Sample.rand) in
  RandOK Sample.rand /\
  Pine.encloses (Pine.calculateBounds tree initialBounds) tree.
Proof.
  exact (conj (new_RandOK _)
           (@calculateBounds_contains_structure Sample.math 8%nat
              (mkVector2 (Fin 0) (Fin 0)) (Fin 180) (Fin (-90)) (Fin 0)
              Sample.rand sample_math_finite pine_program_moderate
              (new_RandOK _))).
Defined.

(** C4.  On the plant its program generates (arguments of moderate size),
    [getMaxDist] returns the maximum of [distFromRoot + length] over the
    branches and of [distFromRoot] over the entities of the tree, for each
    archetype.  The sunflower's [getMaxDist] reads the entities; the
    pine's reads the branches only, and is the maximum over the entities
    too because every entity of a generated pine is revealed before its
    branch ends. *)
Theorem getMaxDist_maximum `{JSMath} (depth : nat) (start : Vector2)
    (length angle currentDist : num) (rand : SeededRandom.t) :
  moderate depth start length angle currentDist ->
  RandOK rand ->
  let pine :=
    fst (Pine.generateFullTree depth start length angle currentDist rand) in
  let sunflower :=
    fst (Sunflower.generateSunflower depth start length angle currentDist
           rand) in
  is_max (Pine.getMaxDist pine)
         (Pine.branch_ends pine ++ Pine.entity_dists pine) /\
  is_max (Sunflower.getMaxDist sunflower)
         (Sunflower.branch_ends sunflower ++ Sunflower.entity_dists sunflower).
Proof.
  intros Hmod Hrand pine sunflower.
  destruct (moderate_inv _ _ _ _ _ Hmod) as (l & d & El & Ed & Hl1 & _).
  assert (Hl : 0 < l) by lra.
  subst length currentDist. split.
  - pose proof (generated_ok depth start l angle d rand Hl Hrand) as Hok.
    fold pine in Hok.
    apply pine_tree_ok_entities; [exact Hok |].
    apply pine_getMaxDist_branch_ends. now apply pine_tree_ok_nn.
  - apply sunflower_getMaxDist_max.
    pose proof (stalk_branches depth l d _ Hl
                  (proj1 (generateSunflower_stalk depth start l angle d rand
                            Hrand))) as (_ & Hall & _).
    fold sunflower in Hall.
    apply Forall_app. split.
    + unfold Sunflower.branch_ends. apply Forall_map.
      eapply Forall_impl; [| exact Hall].
      intros b ((lb & db & -> & -> & _) & _). discriminate.
    + unfold Sunflower.entity_dists. apply Forall_flat_map.
      eapply Forall_impl; [| exact Hall].
      intros b ((lb & db & _ & _ & _ & Hents) & _). apply Forall_map.
      eapply Forall_impl; [| exact Hents]. intros e [q ->]. discriminate.
Qed.

Lemma getMaxDist_maximum_witness :
  let pine :=
    fst (@Pine.generateFullTree Sample.math 8%nat (mkVector2 (Fin 0) (Fin 0))
           (Fin 180) (Fin (-90)) (Fin 0) Sample.rand) in
  RandOK Sample.rand /\
  is_max (Pine.getMaxDist pine)
         (Pine.branch_ends pine ++ Pine.entity_dists pine).
Proof.
  exact (conj (new_RandOK _)
           (proj1 (@getMaxDist_maximum Sample.math 8%nat
                     (mkVector2 (Fin 0) (Fin 0)) (Fin 180) (Fin (-90))
                     (Fin 0) Sample.rand pine_program_moderate
                     (new_RandOK _)))).
Defined.



(* ================================================================== *)
(** * The fade of an entity along the animation *)

Section FrameProgress.



End FrameProgress.


